(** * Lyric display: the sync engine, serial transport, spectrum analyzer
      and OLED renderer, with the playlist, the controls and the
      configuration, embedded from the Python sources.

    Python [int] is unbounded, so it is [Z]; [str] is a list of characters
    (code points below 256, as [ascii]); [list] is [list]; [None] is
    [option]. Each definition names the source function it embeds. *)

From Stdlib Require Import String Ascii ZArith List Bool Lia QArith Qround Lqa Sorted
  Permutation.
Import ListNotations.
Open Scope Z_scope.

(** ** Python strings *)

Definition str := list ascii.

(** A string literal. *)
Definition lit (s : string) : str := list_ascii_of_string s.

Definition str_eqb (a b : str) : bool :=
  if list_eq_dec ascii_dec a b then true else false.

(** Truthiness of a [str]: [not text] is [is_empty text]. *)
Definition is_empty (s : str) : bool :=
  match s with [] => true | _ :: _ => false end.

(** Truthiness of a list: [not xs] is [is_nil xs]. *)
Definition is_nil {A : Type} (l : list A) : bool :=
  match l with [] => true | _ :: _ => false end.

(** [len(x)] as a Python integer. *)
Definition len {A : Type} (l : list A) : Z := Z.of_nat (length l).

Definition LF : ascii := "010"%char.
Definition CR : ascii := "013"%char.

Definition ord (c : ascii) : Z := Z.of_N (N_of_ascii c).

(** [c.isspace()], which is also the regular expression class [\s], on code
    points below 256: TAB..CR, FS..US, space, NEL and NBSP. *)
Definition is_space (c : ascii) : bool :=
  let n := ord c in
  ((9 <=? n) && (n <=? 13)) || ((28 <=? n) && (n <=? 32))
  || (n =? 133) || (n =? 160).

(** The class [\d] on code points below 256. *)
Definition is_digit (c : ascii) : bool :=
  let n := ord c in (48 <=? n) && (n <=? 57).

Definition digit_val (c : ascii) : Z := ord c - 48.

Fixpoint lstrip (s : str) : str :=
  match s with
  | [] => []
  | c :: r => if is_space c then lstrip r else s
  end.

Definition rstrip (s : str) : str := rev (lstrip (rev s)).

(** [s.strip()]. *)
Definition strip (s : str) : str := rstrip (lstrip s).

(** [sep.join(parts)]. *)
Fixpoint join (sep : str) (parts : list str) : str :=
  match parts with
  | [] => []
  | [p] => p
  | p :: rest => p ++ sep ++ join sep rest
  end.

(** [s.split(sep)] for a one-character separator: at least one field. *)
Fixpoint split_on (sep : ascii) (s : str) : list str :=
  match s with
  | [] => [[]]
  | c :: r =>
      if Ascii.eqb c sep then [] :: split_on sep r
      else match split_on sep r with
           | [] => [[c]]
           | p :: ps => (c :: p) :: ps
           end
  end.

(** [s.ljust(width, fill)]. *)
Definition ljust (width : nat) (fill : ascii) (s : str) : str :=
  s ++ repeat fill (width - length s).

(** [int(s)] for a string of decimal digits. *)
Definition int_of_digits (s : str) : Z :=
  fold_left (fun acc c => acc * 10 + digit_val c) s 0.

(** The digits of [int(s)]: single underscores may separate digits. *)
Fixpoint int_body (s : str) (after_digit : bool) (acc : Z) : option Z :=
  match s with
  | [] => if after_digit then Some acc else None
  | c :: r =>
      if is_digit c then int_body r true (acc * 10 + digit_val c)
      else if Ascii.eqb c "_"%char && after_digit then int_body r false acc
      else None
  end.

(** [int(s)]: [None] stands for [ValueError]. *)
Definition py_int (s : str) : option Z :=
  match strip s with
  | c :: r =>
      if Ascii.eqb c "+"%char then int_body r false 0
      else if Ascii.eqb c "-"%char then option_map Z.opp (int_body r false 0)
      else int_body (c :: r) false 0
  | [] => None
  end.

(** Up to [n] leading digits of [s], and what follows them: the greedy
    match of [\d{1,n}]. *)
Fixpoint take_digits (n : nat) (s : str) : str * str :=
  match n, s with
  | S k, c :: r =>
      if is_digit c then let '(d, rest) := take_digits k r in (c :: d, rest)
      else ([], s)
  | _, _ => ([], s)
  end.

Definition starts_with (p s : str) : bool :=
  str_eqb (firstn (length p) s) p.

(** ** src/app/srt/parser.py *)

Module Parser.

(** [class LyricLine(NamedTuple)]. *)
Record LyricLine := mkLyricLine {
  index : Z;
  start_ms : Z;
  end_ms : Z;
  text : str
}.

(** The match of [_TIMESTAMP_RE] at the start of [s]: hours, minutes,
    seconds and milliseconds as written. *)
Definition match_timestamp (s : str) : option (str * str * str * str) :=
  let '(hours, r1) := take_digits 2 s in
  match hours, r1 with
  | _ :: _, c1 :: r2 =>
      let '(minutes, r3) := take_digits 2 r2 in
      match r3 with
      | c2 :: r4 =>
          let '(seconds, r5) := take_digits 2 r4 in
          match r5 with
          | c3 :: r6 =>
              let '(millis, _) := take_digits 3 r6 in
              if Ascii.eqb c1 ":"%char && (length minutes =? 2)%nat
                 && Ascii.eqb c2 ":"%char && (length seconds =? 2)%nat
                 && (Ascii.eqb c3 ","%char || Ascii.eqb c3 "."%char)
                 && negb (is_empty millis)
              then Some (hours, minutes, seconds, millis)
              else None
          | [] => None
          end
      | [] => None
      end
  | _, _ => None
  end.

(** [_parse_timestamp(ts)]. *)
Definition _parse_timestamp (ts : str) : Z :=
  match match_timestamp (strip ts) with
  | None => 0
  | Some (hours, minutes, seconds, millis) =>
      let millis := ljust 3 "0"%char millis in
      int_of_digits hours * 3600000
      + int_of_digits minutes * 60000
      + int_of_digits seconds * 1000
      + int_of_digits millis
  end.

(** [re.split(r"\n\n+", text)]: [in_sep] holds while a run of newlines that
    began a separator is being consumed. *)
Fixpoint split_blank_lines (s : str) (in_sep : bool) : list str :=
  match s with
  | [] => [[]]
  | c :: r =>
      if in_sep && Ascii.eqb c LF then split_blank_lines r true
      else
        match r with
        | c' :: r' =>
            if Ascii.eqb c LF && Ascii.eqb c' LF
            then [] :: split_blank_lines r' true
            else match split_blank_lines r false with
                 | [] => [[c]]
                 | p :: ps => (c :: p) :: ps
                 end
        | [] => [[c]]
        end
  end.

(** [re.split(r"\s*-->\s*", s)]: a separator starts at the leftmost place
    from which white space leads to an arrow, and takes the white space
    after the arrow too. Every step consumes a character. *)
Fixpoint split_arrow_fuel (fuel : nat) (s : str) : list str :=
  match fuel with
  | O => [s]
  | S f =>
      if starts_with (lit "-->") (lstrip s)
      then [] :: split_arrow_fuel f (lstrip (skipn 3 (lstrip s)))
      else match s with
           | [] => [[]]
           | c :: r =>
               match split_arrow_fuel f r with
               | [] => [[c]]
               | p :: ps => (c :: p) :: ps
               end
           end
  end.

Definition split_arrow (s : str) : list str :=
  split_arrow_fuel (S (length s)) s.

(** The text up to the first [>] and the text after it. *)
Fixpoint until_gt (s : str) : option (str * str) :=
  match s with
  | [] => None
  | c :: r =>
      if Ascii.eqb c ">"%char then Some ([], r)
      else match until_gt r with
           | Some (inner, rest) => Some (c :: inner, rest)
           | None => None
           end
  end.

(** [re.sub(r"<[^>]+>", "", s)]. *)
Fixpoint strip_tags_fuel (fuel : nat) (s : str) : str :=
  match fuel, s with
  | S f, c :: r =>
      if Ascii.eqb c "<"%char then
        match until_gt r with
        | Some (_ :: _, rest) => strip_tags_fuel f rest
        | _ => c :: strip_tags_fuel f r
        end
      else c :: strip_tags_fuel f r
  | _, _ => s
  end.

Definition strip_tags (s : str) : str := strip_tags_fuel (length s) s.

(** One iteration of the loop [for block in blocks] of [parse_srt]: the
    line the block appends, [None] where it appends nothing. *)
Definition parse_block (block : str) : option LyricLine :=
  let lines := split_on LF (strip block) in
  if len lines <? 2 then None
  else
    match py_int (strip (nth 0 lines [])) with
    | None => None
    | Some idx =>
        let ts_line := strip (nth 1 lines []) in
        match split_arrow ts_line with
        | [p0; p1] =>
            let start_ms := _parse_timestamp p0 in
            let end_ms := _parse_timestamp p1 in
            let subtitle_text :=
              join (lit " ")
                (filter (fun l => negb (is_empty l)) (map strip (skipn 2 lines))) in
            let subtitle_text := strip_tags subtitle_text in
            if is_empty subtitle_text then None
            else Some (mkLyricLine idx start_ms end_ms subtitle_text)
        | _ => None
        end
    end.

(** The match of [_LRC_TIMESTAMP_RE] at the start of [s]: minutes, seconds,
    the optional fraction, and the text after the closing bracket. *)
Definition match_lrc_timestamp (s : str) : option (str * str * option str * str) :=
  match s with
  | c0 :: r0 =>
      let '(minutes, r1) := take_digits 2 r0 in
      match minutes, r1 with
      | _ :: _, c1 :: r2 =>
          let '(seconds, r3) := take_digits 2 r2 in
          if Ascii.eqb c0 "["%char && Ascii.eqb c1 ":"%char
             && (length seconds =? 2)%nat
          then
            match r3 with
            | c2 :: r4 =>
                if Ascii.eqb c2 "]"%char then Some (minutes, seconds, None, r4)
                else if Ascii.eqb c2 "."%char || Ascii.eqb c2 ":"%char then
                  let '(millis, r5) := take_digits 3 r4 in
                  match millis, r5 with
                  | _ :: _, c3 :: rest =>
                      if Ascii.eqb c3 "]"%char
                      then Some (minutes, seconds, Some millis, rest)
                      else None
                  | _, _ => None
                  end
                else None
            | [] => None
            end
          else None
      | _, _ => None
      end
  | [] => None
  end.

(** The start time the loop [for match in timestamps] computes. *)
Definition lrc_start_ms (minutes seconds : str) (millis : option str) : Z :=
  let millis :=
    ljust 3 "0"%char (match millis with Some m => m | None => lit "0" end) in
  int_of_digits minutes * 60000
  + int_of_digits seconds * 1000
  + int_of_digits millis.

(** [_LRC_TIMESTAMP_RE.finditer(line)] and [_LRC_TIMESTAMP_RE.sub("", line)]
    in one left-to-right pass: the start times of the matches, and the line
    without them. *)
Fixpoint lrc_scan_fuel (fuel : nat) (s : str) : list Z * str :=
  match fuel, s with
  | S f, c :: r =>
      match match_lrc_timestamp s with
      | Some (minutes, seconds, millis, rest) =>
          let '(stamps, residue) := lrc_scan_fuel f rest in
          (lrc_start_ms minutes seconds millis :: stamps, residue)
      | None =>
          let '(stamps, residue) := lrc_scan_fuel f r in (stamps, c :: residue)
      end
  | _, _ => ([], s)
  end.

Definition lrc_scan (s : str) : list Z * str := lrc_scan_fuel (length s) s.

(** What one [raw_line] adds to [entries]. *)
Definition lrc_line_entries (raw_line : str) : list (Z * str) :=
  let line := strip raw_line in
  if is_empty line then []
  else
    let '(timestamps, residue) := lrc_scan line in
    let lyric_text := strip residue in
    map (fun start_ms => (start_ms, lyric_text)) timestamps.

(** [entries.sort(key=lambda item: item[0])]: the sort is stable, so it is
    the insertion after every entry with a key not above the new one. *)
Fixpoint insert_entry (e : Z * str) (sorted : list (Z * str)) : list (Z * str) :=
  match sorted with
  | [] => [e]
  | x :: rest =>
      if fst e <? fst x then e :: sorted else x :: insert_entry e rest
  end.

Definition sort_entries (entries : list (Z * str)) : list (Z * str) :=
  fold_left (fun sorted e => insert_entry e sorted) entries [].

(** The loop [for idx, (start_ms, lyric_text) in enumerate(entries, start=1)],
    entered at [idx]: [entries[idx]] is the entry after the current one. *)
Fixpoint lrc_lines (idx : Z) (entries : list (Z * str)) : list LyricLine :=
  match entries with
  | [] => []
  | (start_ms, lyric_text) :: rest =>
      let end_ms :=
        match rest with
        | (next_start, _) :: _ => next_start
        | [] => start_ms + 5000
        end in
      if is_empty lyric_text then lrc_lines (idx + 1) rest
      else mkLyricLine idx start_ms end_ms lyric_text :: lrc_lines (idx + 1) rest
  end.

(** [_parse_lrc(text)]. *)
Definition _parse_lrc (text : str) : list LyricLine :=
  let entries := flat_map lrc_line_entries (split_on LF text) in
  lrc_lines 1 (sort_entries entries).

(** [text.replace("\r\n", "\n")]. *)
Fixpoint replace_crlf (s : str) : str :=
  match s with
  | c :: r =>
      match r with
      | c' :: r' =>
          if Ascii.eqb c CR && Ascii.eqb c' LF then LF :: replace_crlf r'
          else c :: replace_crlf r
      | [] => [c]
      end
  | [] => []
  end.

Definition option_to_list {A : Type} (o : option A) : list A :=
  match o with Some x => [x] | None => [] end.

(** The list [lyrics] the block loop of [parse_srt] builds. *)
Definition srt_lines (text : str) : list LyricLine :=
  flat_map (fun block => option_to_list (parse_block block))
           (split_blank_lines text false).

(** [parse_srt(text)]. *)
Definition parse_srt (text : str) : list LyricLine :=
  let text := strip (replace_crlf text) in
  if is_empty text then []
  else
    let lyrics := srt_lines text in
    if negb (is_nil lyrics) then lyrics else _parse_lrc text.

(** The test [line.start_ms <= adjusted < line.end_ms]. *)
Definition active_at (adjusted : Z) (line : LyricLine) : bool :=
  (start_ms line <=? adjusted) && (adjusted <? end_ms line).

(** The loop [for i, line in enumerate(lyrics)] of [get_lyric_at_position],
    entered at list index [i]. *)
Fixpoint lookup_from (i : Z) (lyrics : list LyricLine) (adjusted : Z) : Z * str :=
  match lyrics with
  | [] => (-1, [])
  | line :: rest =>
      if active_at adjusted line then (i, text line)
      else lookup_from (i + 1) rest adjusted
  end.

(** [get_lyric_at_position(lyrics, position_ms, offset_ms=0)]. *)
Definition get_lyric_at_position (lyrics : list LyricLine)
    (position_ms offset_ms : Z) : Z * str :=
  let adjusted := position_ms + offset_ms in
  lookup_from 0 lyrics adjusted.

End Parser.

(** ** src/app/serial_comm/connection.py *)

Definition digit_char (d : Z) : ascii := ascii_of_N (Z.to_N (48 + d)).

(** The decimal digits of [n >= 0] in front of [acc]. *)
Fixpoint digits_fuel (fuel : nat) (n : Z) (acc : str) : str :=
  let acc' := digit_char (n mod 10) :: acc in
  match fuel with
  | O => acc'
  | S f => if n <? 10 then acc' else digits_fuel f (n / 10) acc'
  end.

(** [str(n)] for an integer [n]. *)
Definition str_of_int (n : Z) : str :=
  let digits m := digits_fuel (Z.to_nat (Z.log2 m)) m [] in
  if n <? 0 then "-"%char :: digits (- n) else digits n.

Module Connection.

(** The class's signals, as emitted. *)
Inductive Signal : Type :=
| connected
| disconnected
| button_press
| button_long
| error (msg : str).

(** A callable handed to [QTimer.singleShot(0, ...)]. *)
Inductive Callback : Type :=
| call_close_port.

(** [class SerialConnection]: its fields, the lines written to the handle,
    the signals emitted and the callbacks waiting for the next scheduler
    turn (each list oldest first). [time.time()] is a number of seconds. *)
Record SerialConnection := mkSerialConnection {
  _serial_open : bool;
  _port : str;
  _baud : Z;
  _running : bool;
  _reader_thread : bool;
  _is_connected : bool;
  _last_pong_time : Q;
  _ping_timer_active : bool;
  written : list str;
  emitted : list Signal;
  scheduled : list Callback
}.

Definition PING_INTERVAL_S : Q := 2.
Definition PONG_TIMEOUT_S : Q := 5.

(** [__init__]. *)
Definition init : SerialConnection :=
  mkSerialConnection false [] 115200 false false false 0 false [] [] [].

Definition emit (sig : Signal) (c : SerialConnection) : SerialConnection :=
  mkSerialConnection (_serial_open c) (_port c) (_baud c) (_running c)
    (_reader_thread c) (_is_connected c) (_last_pong_time c)
    (_ping_timer_active c) (written c) (emitted c ++ [sig]) (scheduled c).

Definition set_is_connected (b : bool) (c : SerialConnection) : SerialConnection :=
  mkSerialConnection (_serial_open c) (_port c) (_baud c) (_running c)
    (_reader_thread c) b (_last_pong_time c)
    (_ping_timer_active c) (written c) (emitted c) (scheduled c).

(** [QTimer.singleShot(0, cb)]. *)
Definition single_shot (cb : Callback) (c : SerialConnection) : SerialConnection :=
  mkSerialConnection (_serial_open c) (_port c) (_baud c) (_running c)
    (_reader_thread c) (_is_connected c) (_last_pong_time c)
    (_ping_timer_active c) (written c) (emitted c) (scheduled c ++ [cb]).

(** [_write(data)]: dropped unless the handle is open (a write the handle
    refuses is dropped the same way). *)
Definition _write (data : str) (c : SerialConnection) : SerialConnection :=
  if _serial_open c then
    mkSerialConnection (_serial_open c) (_port c) (_baud c) (_running c)
      (_reader_thread c) (_is_connected c) (_last_pong_time c)
      (_ping_timer_active c) (written c ++ [data]) (emitted c) (scheduled c)
  else c.

(** [close_port()]. *)
Definition close_port (c : SerialConnection) : SerialConnection :=
  let c :=
    mkSerialConnection false (_port c) (_baud c) false false
      (_is_connected c) (_last_pong_time c) false
      (written c) (emitted c) (scheduled c) in
  if _is_connected c then emit disconnected (set_is_connected false c)
  else c.

(** [open_port(port, baud)] with its return value. [failure] is the text of
    the exception [serial.Serial] raised, [None] when the handle was
    acquired; [now] is what [time.time()] returns. *)
Definition open_port (port : str) (baud : Z) (failure : option str) (now : Q)
    (c : SerialConnection) : SerialConnection * bool :=
  let c := close_port c in
  let c :=
    mkSerialConnection (_serial_open c) port baud (_running c)
      (_reader_thread c) (_is_connected c) (_last_pong_time c)
      (_ping_timer_active c) (written c) (emitted c) (scheduled c) in
  match failure with
  | Some e =>
      (emit (error (lit "Cannot open " ++ port ++ lit ": " ++ e)) c, false)
  | None =>
      let c :=
        mkSerialConnection true (_port c) (_baud c) true true
          (_is_connected c) now true
          (written c) (emitted c) (scheduled c) in
      (_write (lit "PING" ++ [LF]) c, true)
  end.

(** [send_clear()]. *)
Definition send_clear (c : SerialConnection) : SerialConnection :=
  _write (lit "CLR" ++ [LF]) c.

(** [text.replace("\n", " ").replace("\r", "")]. *)
Definition clean_text (text : str) : str :=
  filter (fun ch => negb (Ascii.eqb ch CR))
         (map (fun ch => if Ascii.eqb ch LF then " "%char else ch) text).

(** [send_text(text)]. *)
Definition send_text (text : str) (c : SerialConnection) : SerialConnection :=
  _write (lit "TXT|" ++ clean_text text ++ [LF]) c.

(** [send_mode(mode)]. *)
Definition send_mode (mode : str) (c : SerialConnection) : SerialConnection :=
  let mapped := if str_eqb mode (lit "equalizer") then lit "EQ" else lit "LYR" in
  _write (lit "MODE|" ++ mapped ++ [LF]) c.

(** The [payload] of [send_equalizer]. *)
Definition equalizer_payload (levels : list Z) : str :=
  let clean_levels := map (fun v => str_of_int (Z.max 0 (Z.min 12 v))) levels in
  join (lit ",") clean_levels.

(** The line [send_equalizer] hands to [_write]. *)
Definition equalizer_line (levels : list Z) : str :=
  lit "EQ|" ++ equalizer_payload levels ++ [LF].

(** [send_equalizer(levels)]. *)
Definition send_equalizer (levels : list Z) (c : SerialConnection) : SerialConnection :=
  _write (equalizer_line levels) c.

Definition Qltb (a b : Q) : bool := negb (Qle_bool b a).

(** [_send_ping()], run at time [now]. *)
Definition _send_ping (now : Q) (c : SerialConnection) : SerialConnection :=
  if negb (_running c) then c
  else
    let c := _write (lit "PING" ++ [LF]) c in
    if Qltb PONG_TIMEOUT_S (now - _last_pong_time c) then
      let c := if _is_connected c then set_is_connected false c else c in
      let c := emit (error (lit "No response from " ++ _port c)) c in
      single_shot call_close_port c
    else c.

(** [_process_line(line)], run at time [now]. *)
Definition _process_line (line : str) (now : Q) (c : SerialConnection) : SerialConnection :=
  if str_eqb line (lit "PONG") then
    let c :=
      mkSerialConnection (_serial_open c) (_port c) (_baud c) (_running c)
        (_reader_thread c) (_is_connected c) now
        (_ping_timer_active c) (written c) (emitted c) (scheduled c) in
    if negb (_is_connected c) then emit connected (set_is_connected true c)
    else c
  else if str_eqb line (lit "BTN|PRESS") then emit button_press c
  else if str_eqb line (lit "BTN|LONG") then emit button_long c
  else c.

(** The ping timer's timeout at time [now]: a stopped timer calls nothing. *)
Definition ping_timer_timeout (now : Q) (c : SerialConnection) : SerialConnection :=
  if _ping_timer_active c then _send_ping now c else c.

Definition run_callback (cb : Callback) (c : SerialConnection) : SerialConnection :=
  match cb with call_close_port => close_port c end.

(** One scheduler turn: the callbacks queued by [singleShot(0, ...)] run, in
    the order they were queued. *)
Definition scheduler_turn (c : SerialConnection) : SerialConnection :=
  let queued := scheduled c in
  let c :=
    mkSerialConnection (_serial_open c) (_port c) (_baud c) (_running c)
      (_reader_thread c) (_is_connected c) (_last_pong_time c)
      (_ping_timer_active c) (written c) (emitted c) [] in
  fold_left (fun c cb => run_callback cb c) queued c.

(** The ping timer firing at each of [times] while the reader thread reads
    no line and meets no error; the zero-delay callbacks of a timeout run
    before the next one, two seconds later. *)
Fixpoint silent_ticks (times : list Q) (c : SerialConnection) : SerialConnection :=
  match times with
  | [] => c
  | now :: later => silent_ticks later (scheduler_turn (ping_timer_timeout now c))
  end.

Definition count_disconnected (sigs : list Signal) : nat :=
  length (filter (fun s => match s with disconnected => true | _ => false end) sigs).

Definition count_error (sigs : list Signal) : nat :=
  length (filter (fun s => match s with error _ => true | _ => false end) sigs).

End Connection.

(** ** src/app/audio/spectrum.py *)

Module Spectrum.

Definition NUM_BANDS : Z := 12.
Definition SAMPLE_RATE : Z := 44100.
Definition FFT_SIZE : Z := 2048.

(** [int(x)] for a float [x]: truncation toward zero. *)
Definition trunc (x : Q) : Z := Z.quot (Qnum x) (Zpos (Qden x)).

(** [min(a, b)] and [max(a, b)] as Python evaluates them: the second
    argument replaces the first only when it is strictly smaller (larger). *)
Definition py_min (a b : Q) : Q := if Qle_bool a b then a else b.
Definition py_max (a b : Q) : Q := if Qle_bool b a then a else b.

Section Analyzer.

(** A decoded sample ([float32]). *)
Variable sample : Type.

(** The rounding of an arithmetic result to a float: a finite float is a
    rational number, and every [+], [*] and [/] on floats is the exact
    operation followed by [rnd]. *)
Variable rnd : Q -> Q.

(** [20.0 * np.log10(band_rms + 1e-10)] for the bins [low_bin..hi-1] of the
    magnitude spectrum of the Hann-windowed [chunk]: numpy's part of the
    loop body, taken as given. *)
Variable band_db : list sample -> Z -> Z -> Q.

(** The module flag [_HAS_NUMPY]. *)
Variable _HAS_NUMPY : bool.

(** [class SpectrumAnalyzer]. *)
Record SpectrumAnalyzer := mkSpectrumAnalyzer {
  _samples : option (list sample);
  _sample_rate : Z;
  _band_edges : list (Z * Z)
}.

(** [int(max(0, min(12, (db + 48) * 12 / 45)))]. *)
Definition level_of_db (db : Q) : Z :=
  let scaled := rnd (rnd (rnd (db + 48) * 12) / 45) in
  trunc (py_max 0 (py_min 12 scaled)).

(** The body of the loop [for low_bin, high_bin in self._band_edges];
    [len(fft_mag)] is [FFT_SIZE // 2 + 1]. *)
Definition band_level (chunk : list sample) (edge : Z * Z) : Z :=
  let '(low_bin, high_bin) := edge in
  let hi := Z.min high_bin (FFT_SIZE / 2 + 1) in
  if low_bin >=? hi then 0
  else level_of_db (band_db chunk low_bin hi).

(** [start] and [end] in [get_levels]; [int(position_ms * sr / 1000)]
    truncates the quotient toward zero. *)
Definition window_start (sr position_ms : Z) : Z :=
  let sample_idx := Z.quot (position_ms * sr) 1000 in
  Z.max 0 (sample_idx - FFT_SIZE / 2).

Definition window_end (sr position_ms : Z) : Z :=
  window_start sr position_ms + FFT_SIZE.

(** [get_levels(position_ms)]. *)
Definition get_levels (a : SpectrumAnalyzer) (position_ms : Z) : option (list Z) :=
  if negb _HAS_NUMPY then None
  else
    match _samples a with
    | None => None
    | Some samples =>
        let sr := _sample_rate a in
        let start := window_start sr position_ms in
        let end_ := window_end sr position_ms in
        if end_ >? len samples then Some (repeat 0 (Z.to_nat NUM_BANDS))
        else
          let chunk := firstn (Z.to_nat FFT_SIZE) (skipn (Z.to_nat start) samples) in
          Some (map (band_level chunk) (_band_edges a))
    end.

End Analyzer.

End Spectrum.

(** ** src/app/ui/oled_simulator.py *)

(** [xs[a:b]] with Python's rules for negative and out-of-range bounds. *)
Definition slice {A : Type} (xs : list A) (a b : Z) : list A :=
  let n := len xs in
  let norm i := if i <? 0 then Z.max (i + n) 0 else Z.min i n in
  let a' := norm a in
  let b' := norm b in
  firstn (Z.to_nat (b' - a')) (skipn (Z.to_nat a') xs).

(** [xs[i]], a negative [i] counting from the end; [None] stands for
    [IndexError]. *)
Definition item {A : Type} (xs : list A) (i : Z) : option A :=
  let j := if i <? 0 then i + len xs else i in
  if (j <? 0) || (len xs <=? j) then None else nth_error xs (Z.to_nat j).

(** [range(lo, hi)]. *)
Definition range (lo hi : Z) : list Z :=
  map (fun k => lo + Z.of_nat k) (seq 0 (Z.to_nat (hi - lo))).

Module Oled.

Definition SCREEN_WIDTH : Z := 128.
Definition LYRICS_AREA_HEIGHT : Z := 48.
Definition GFX_CHAR_W : Z := 6.
Definition GFX_CHAR_H : Z := 8.

(** The fields of [class _OledCanvas] that the lyric area uses. *)
Record _OledCanvas := mkOledCanvas {
  _current_text : str;
  _text_size : Z;
  _use_custom_font : bool;
  _display_mode : str;
  _lyric_scroll_offset : Z;
  _total_lyric_height : Z;
  _lyric_scroll_timer_active : bool
}.

(** [_OledCanvas.__init__]. *)
Definition init : _OledCanvas :=
  mkOledCanvas [] 2 false (lit "lyrics") 0 0 false.

(** [clear()]. *)
Definition clear (c : _OledCanvas) : _OledCanvas :=
  mkOledCanvas [] (_text_size c) (_use_custom_font c) (_display_mode c) 0 0 false.

(** [set_text(text)]. *)
Definition set_text (text : str) (c : _OledCanvas) : _OledCanvas :=
  if negb (str_eqb text (_current_text c)) then
    mkOledCanvas text (_text_size c) (_use_custom_font c) (_display_mode c) 0 0
      (_lyric_scroll_timer_active c)
  else c.

(** [set_mode(mode)]. *)
Definition set_mode (mode : str) (c : _OledCanvas) : _OledCanvas :=
  let mapped :=
    if str_eqb mode (lit "equalizer") || str_eqb mode (lit "EQ")
    then lit "equalizer" else lit "lyrics" in
  if negb (str_eqb mapped (_display_mode c)) then
    mkOledCanvas (_current_text c) (_text_size c) (_use_custom_font c) mapped 0
      (_total_lyric_height c) (_lyric_scroll_timer_active c)
  else c.

(** The loop [for i in range(pos, min(break_at, length))] of [_word_wrap]:
    the index of the last space in the range, [-1] when it has none. The
    range is empty or inside the text ([pos] is negative only under a
    negative budget, which makes the range empty), so [text[i]] never
    raises. *)
Definition scan_last_space (text : str) (lo hi : Z) : Z :=
  fold_left
    (fun last_space i =>
       match item text i with
       | Some ch => if Ascii.eqb ch " "%char then i else last_space
       | None => last_space
       end)
    (range lo hi) (-1).

(** One pass through the body of the [while] loop of [_word_wrap]: the
    lines after it, and the next [pos], or [None] after [break]. *)
Definition wrap_body (text : str) (chars_per_line : Z) (lines : list str) (pos : Z)
    : list str * option Z :=
  let length := len text in
  let remaining := length - pos in
  if remaining <=? chars_per_line then (lines ++ [slice text pos length], None)
  else
    let break_at := pos + chars_per_line in
    let last_space := scan_last_space text pos (Z.min break_at length) in
    if last_space >? pos
    then (lines ++ [slice text pos last_space], Some (last_space + 1))
    else (lines ++ [slice text pos break_at], Some break_at).

(** The loop [while pos < length and len(lines) < 32], run for at most
    [fuel] tests of its condition: [None] when they do not suffice. *)
Fixpoint wrap_loop (fuel : nat) (text : str) (chars_per_line : Z)
    (lines : list str) (pos : Z) : option (list str) :=
  match fuel with
  | O => None
  | S f =>
      if (pos <? len text) && (len lines <? 32) then
        match wrap_body text chars_per_line lines pos with
        | (lines', None) => Some lines'
        | (lines', Some pos') => wrap_loop f text chars_per_line lines' pos'
        end
      else Some lines
  end.

(** [_word_wrap(text, chars_per_line)], with 33 tests of the loop
    condition. *)
Definition _word_wrap (text : str) (chars_per_line : Z) : option (list str) :=
  wrap_loop 33 text chars_per_line [] 0.

(** The calls [p.drawText(0, y + char_h - 2, line)] of [_paint_lyrics], as
    (baseline, line), for the lines numbered from [i]. *)
Fixpoint draw_lines (start_y char_h : Z) (i : Z) (lines : list str) : list (Z * str) :=
  match lines with
  | [] => []
  | line :: rest =>
      let y := start_y + i * char_h in
      if (y + char_h >? 0) && (y <? LYRICS_AREA_HEIGHT)
      then (y + char_h - 2, line) :: draw_lines start_y char_h (i + 1) rest
      else draw_lines start_y char_h (i + 1) rest
  end.

(** [chars_per_line] in [_paint_lyrics]. *)
Definition chars_per_line_of (text_size : Z) : Z :=
  let char_w := GFX_CHAR_W * text_size in
  Z.max 1 (SCREEN_WIDTH / char_w).

(** [_paint_lyrics(p)] with the built-in font: the canvas after it and the
    text it draws. The proportional branch measures glyphs with Qt and is
    not embedded ([None]). *)
Definition _paint_lyrics (c : _OledCanvas) : option (_OledCanvas * list (Z * str)) :=
  if _use_custom_font c then None
  else
    let char_h := GFX_CHAR_H * _text_size c in
    let chars_per_line := chars_per_line_of (_text_size c) in
    match _word_wrap (_current_text c) chars_per_line with
    | None => None
    | Some lines =>
        let c' :=
          mkOledCanvas (_current_text c) (_text_size c) (_use_custom_font c)
            (_display_mode c) (_lyric_scroll_offset c) (len lines * char_h)
            (_lyric_scroll_timer_active c) in
        let start_y := - _lyric_scroll_offset c in
        Some (c', draw_lines start_y char_h 0 lines)
    end.

End Oled.

(** ** src/app/ui/main_window.py *)

Module MainWindow.

Import Parser.

(** A call on [self.serial] made by [_sync_lyrics]. *)
Inductive SerialCall : Type :=
| call_send_mode (mode : str)
| call_send_text (text : str)
| call_send_clear.

(** What a call does to the connection. *)
Definition perform (call : SerialCall) (c : Connection.SerialConnection)
    : Connection.SerialConnection :=
  match call with
  | call_send_mode mode => Connection.send_mode mode c
  | call_send_text text => Connection.send_text text c
  | call_send_clear => Connection.send_clear c
  end.

(** The state [_sync_lyrics] reads and writes: the configuration, the
    playback fields, [self.serial.is_connected] (which holds still during a
    tick) with the calls made on [self.serial] (oldest first), the lyric
    label of the controls, and the simulator's canvas. *)
Record MainWindow := mkMainWindow {
  display_mode : str;
  global_offset_ms : Z;
  _lyrics : list LyricLine;
  _last_lyric_idx : Z;
  _track_offset_ms : Z;
  _in_lyric_gap : bool;
  serial_is_connected : bool;
  serial_calls : list SerialCall;
  controls_lyric : str;
  _oled_sim : Oled._OledCanvas
}.

(** A call on [self.serial]. *)
Definition serial_call (call : SerialCall) (w : MainWindow) : MainWindow :=
  mkMainWindow (display_mode w) (global_offset_ms w) (_lyrics w)
    (_last_lyric_idx w) (_track_offset_ms w) (_in_lyric_gap w)
    (serial_is_connected w) (serial_calls w ++ [call]) (controls_lyric w)
    (_oled_sim w).

Definition with_oled_sim (f : Oled._OledCanvas -> Oled._OledCanvas) (w : MainWindow)
    : MainWindow :=
  mkMainWindow (display_mode w) (global_offset_ms w) (_lyrics w)
    (_last_lyric_idx w) (_track_offset_ms w) (_in_lyric_gap w)
    (serial_is_connected w) (serial_calls w) (controls_lyric w)
    (f (_oled_sim w)).

Definition set_in_lyric_gap (b : bool) (w : MainWindow) : MainWindow :=
  mkMainWindow (display_mode w) (global_offset_ms w) (_lyrics w)
    (_last_lyric_idx w) (_track_offset_ms w) b
    (serial_is_connected w) (serial_calls w) (controls_lyric w) (_oled_sim w).

Definition set_last_lyric_idx (idx : Z) (w : MainWindow) : MainWindow :=
  mkMainWindow (display_mode w) (global_offset_ms w) (_lyrics w)
    idx (_track_offset_ms w) (_in_lyric_gap w)
    (serial_is_connected w) (serial_calls w) (controls_lyric w) (_oled_sim w).

(** [self._controls.set_lyric(text)]. *)
Definition set_controls_lyric (text : str) (w : MainWindow) : MainWindow :=
  mkMainWindow (display_mode w) (global_offset_ms w) (_lyrics w)
    (_last_lyric_idx w) (_track_offset_ms w) (_in_lyric_gap w)
    (serial_is_connected w) (serial_calls w) text (_oled_sim w).

(** The loop of [_gap_until_next_lyric]. *)
Fixpoint gap_scan (lyrics : list LyricLine) (adjusted : Z) : Z :=
  match lyrics with
  | [] => -1
  | line :: rest =>
      if start_ms line >? adjusted then start_ms line - adjusted
      else gap_scan rest adjusted
  end.

(** [_gap_until_next_lyric(position_ms, total_offset)]. *)
Definition _gap_until_next_lyric (w : MainWindow) (position_ms total_offset : Z) : Z :=
  let adjusted := position_ms - total_offset in
  gap_scan (_lyrics w) adjusted.

(** The block of [_sync_lyrics] under
    [if self.config.display_mode == "lyrics"]. *)
Definition auto_switch (position_ms total_offset : Z) (text : str) (w : MainWindow)
    : MainWindow :=
  if str_eqb (display_mode w) (lit "lyrics") then
    if is_empty text && negb (_in_lyric_gap w) then
      let gap_ms := _gap_until_next_lyric w position_ms total_offset in
      if (gap_ms <? 0) || (gap_ms >? 300) then
        let w := set_in_lyric_gap true w in
        let w :=
          if serial_is_connected w
          then serial_call (call_send_mode (lit "equalizer")) w else w in
        with_oled_sim (Oled.set_mode (lit "equalizer")) w
      else w
    else if negb (is_empty text) && _in_lyric_gap w then
      let w := set_in_lyric_gap false w in
      let w :=
        if serial_is_connected w
        then serial_call (call_send_mode (lit "lyrics")) w else w in
      with_oled_sim (Oled.set_mode (lit "lyrics")) w
    else w
  else w.

(** The block of [_sync_lyrics] under [if idx != self._last_lyric_idx]. *)
Definition send_on_change (idx : Z) (text : str) (w : MainWindow) : MainWindow :=
  if negb (idx =? _last_lyric_idx w) then
    let w := set_last_lyric_idx idx w in
    let w :=
      if serial_is_connected w && negb (_in_lyric_gap w) then
        if negb (is_empty text) then serial_call (call_send_text text) w
        else serial_call call_send_clear w
      else w in
    if negb (is_empty text) then with_oled_sim (Oled.set_text text) w
    else if negb (_in_lyric_gap w) then with_oled_sim Oled.clear w
    else w
  else w.

(** [_sync_lyrics(position_ms)]; the label of an open offset editor is left
    out. *)
Definition _sync_lyrics (position_ms : Z) (w : MainWindow) : MainWindow :=
  if is_nil (_lyrics w) then w
  else
    let total_offset := _track_offset_ms w + global_offset_ms w in
    let '(idx, text) := get_lyric_at_position (_lyrics w) position_ms total_offset in
    let w := set_controls_lyric text w in
    let w := auto_switch position_ms total_offset text w in
    send_on_change idx text w.

(** The window after [_load_and_play] has loaded [lyrics] for a track with
    offset [track_offset], in display mode [mode]; the record of calls on
    [self.serial] starts empty here. *)
Definition loaded (mode : str) (global_offset track_offset : Z)
    (lyrics : list LyricLine) (is_connected : bool) : MainWindow :=
  mkMainWindow mode global_offset lyrics (-1) track_offset false is_connected []
    [] (Oled.set_mode mode (Oled.clear Oled.init)).

(** The calls a tick adds that carry a lyric line: [send_text] and
    [send_clear]. *)
Definition is_lyric_call (call : SerialCall) : bool :=
  match call with
  | call_send_text _ | call_send_clear => true
  | call_send_mode _ => false
  end.

(** The calls made on [self.serial] during one [_sync_lyrics]. *)
Definition calls_during (position_ms : Z) (w : MainWindow) : list SerialCall :=
  skipn (length (serial_calls w)) (serial_calls (_sync_lyrics position_ms w)).

End MainWindow.

(** * The vocabulary of the properties *)

Section Vocabulary.

Import Parser MainWindow Connection.

(** [line] covers the adjusted position. *)
Definition active (adjusted : Z) (line : LyricLine) : Prop :=
  start_ms line <= adjusted < end_ms line.

(** [line] is at list index [i] and is the first line of [lyrics] that
    covers the adjusted position. *)
Definition first_active (lyrics : list LyricLine) (adjusted : Z)
    (i : nat) (line : LyricLine) : Prop :=
  nth_error lyrics i = Some line
  /\ active adjusted line
  /\ forall j l, (j < i)%nat -> nth_error lyrics j = Some l -> ~ active adjusted l.

(** [line] is the next line after the adjusted position: the first line in
    list order that starts later. *)
Definition next_line (lyrics : list LyricLine) (adjusted : Z) (line : LyricLine)
    : Prop :=
  exists i,
    nth_error lyrics i = Some line
    /\ adjusted < start_ms line
    /\ forall j l, (j < i)%nat -> nth_error lyrics j = Some l -> start_ms l <= adjusted.

(** No line starts within the next 300 ms: no line starts later at all, or
    the next one starts more than 300 ms later. *)
Definition silence_ahead (lyrics : list LyricLine) (adjusted : Z) : Prop :=
  (forall l, In l lyrics -> start_ms l <= adjusted)
  \/ exists line, next_line lyrics adjusted line /\ start_ms line - adjusted > 300.

(** The time from the adjusted position [position_ms + total_offset], the
    one the lookup uses, to the start of the next line in list order, [-1]
    when no line starts later. *)
Definition time_until_next_start (lyrics : list LyricLine)
    (position_ms total_offset : Z) : Z :=
  let adjusted := position_ms + total_offset in
  match find (fun line => adjusted <? start_ms line) lyrics with
  | Some line => start_ms line - adjusted
  | None => -1
  end.

(** The property as worded: a tick issues a lyric command exactly when the
    resolved index differs from the cached one, the case of a set gap flag
    apart. *)
Definition lyric_call_iff_index_change (position_ms : Z) (w : MainWindow.MainWindow)
    : Prop :=
  let total_offset := MainWindow._track_offset_ms w + MainWindow.global_offset_ms w in
  let idx :=
    fst (Parser.get_lyric_at_position (MainWindow._lyrics w) position_ms total_offset) in
  let w' := MainWindow._sync_lyrics position_ms w in
  existsb MainWindow.is_lyric_call (MainWindow.calls_during position_ms w) = true
  <-> (idx <> MainWindow._last_lyric_idx w /\ MainWindow._in_lyric_gap w' = false).

(** An open link that has seen no PONG since it was opened at [t0]: the
    state [open_port] leaves, whatever has been written since. *)
Record awaiting (port : str) (t0 : Q) (sigs : list Signal) (c : SerialConnection)
    : Prop := mkAwaiting {
  aw_open : _serial_open c = true;
  aw_port : _port c = port;
  aw_running : _running c = true;
  aw_connected : _is_connected c = false;
  aw_pong : _last_pong_time c = t0;
  aw_timer : _ping_timer_active c = true;
  aw_emitted : emitted c = sigs;
  aw_scheduled : scheduled c = []
}.

(** A link torn down, with nothing queued. *)
Record torn_down (sigs : list Signal) (c : SerialConnection) : Prop := mkTornDown {
  td_open : _serial_open c = false;
  td_running : _running c = false;
  td_thread : _reader_thread c = false;
  td_connected : _is_connected c = false;
  td_timer : _ping_timer_active c = false;
  td_emitted : emitted c = sigs;
  td_scheduled : scheduled c = []
}.

(** "Exactly one disconnect/error pair": one [disconnected] and one
    [error]. *)
Definition one_disconnect_error_pair (sigs : list Signal) : Prop :=
  count_disconnected sigs = 1%nat /\ count_error sigs = 1%nat.

(** The scaled value [(db + 48) * 12 / 45] as the floats compute it. *)
Definition scaled_db (rnd : Q -> Q) (db : Q) : Q :=
  rnd (rnd (rnd (db + 48)%Q * 12)%Q / 45)%Q.

(** [max(0, min(12, int(v)))] for an integer [v]. *)
Definition clamp_level (v : Z) : Z := Z.max 0 (Z.min 12 v).


Fixpoint all_some {A : Type} (xs : list (option A)) : option (list A) :=
  match xs with
  | [] => Some []
  | None :: _ => None
  | Some x :: rest =>
      match all_some rest with
      | Some ys => Some (x :: ys)
      | None => None
      end
  end.



(** The index of the last space of [w], counting from [i], [acc] when it has
    none. *)
Fixpoint last_space_from (i : nat) (w : str) (acc : option nat) : option nat :=
  match w with
  | [] => acc
  | ch :: rest =>
      last_space_from (S i) rest (if Ascii.eqb ch " "%char then Some i else acc)
  end.

Definition last_space (w : str) : option nat := last_space_from 0 w None.

(** Where a line may break, as worded: at the last space among the first
    [budget] characters. *)
Definition break_as_worded (budget : nat) (rest : str) : option nat :=
  last_space (firstn budget rest).

(** Where a line breaks in the code: at the last space among the first
    [budget] characters, unless that is the line's first character. *)
Definition break_after_first (budget : nat) (rest : str) : option nat :=
  match last_space (firstn budget rest) with
  | Some (S j) => Some (S j)
  | _ => None
  end.

(** Greedy packing of [rest] into lines of at most [budget] characters, in
    the words of the specification: a rest that fits is the last line; a
    line otherwise ends at its break point, the space there being dropped,
    or after [budget] characters when it has no break point. [fuel] bounds
    the number of lines. *)
Fixpoint greedy (break : nat -> str -> option nat) (fuel budget : nat) (rest : str)
    : list str :=
  match fuel with
  | O => []
  | S f =>
      match rest with
      | [] => []
      | _ :: _ =>
          if (length rest <=? budget)%nat then [rest]
          else
            match break budget rest with
            | Some j => firstn j rest :: greedy break f budget (skipn (S j) rest)
            | None => firstn budget rest :: greedy break f budget (skipn budget rest)
            end
      end
  end.

(** The lines of [text] as the specification words them. *)
Definition wrap_as_worded (budget : nat) (text : str) : list str :=
  greedy break_as_worded (length text) budget text.

(** The lines of [text] with the code's break rule, without the cap. *)
Definition wrap_lines (budget : nat) (text : str) : list str :=
  greedy break_after_first (length text) budget text.

(** The code of a scan result: [-1] for no space, the text index
    otherwise. *)
Definition scan_code (p : nat) (found : option nat) : Z :=
  match found with
  | Some j => Z.of_nat (p + j)
  | None => -1
  end.

(** The lines put back together, each followed by its separator. *)
Definition weave (lines seps : list str) : str :=
  concat (map (fun pair => fst pair ++ snd pair) (combine lines seps)).

(** The start times of a list of lines. *)
Definition starts (lyrics : list LyricLine) : list Z := map start_ms lyrics.

Definition key_le (a b : Z * str) : Prop := fst a <= fst b.

(** The lines of a file, joined by newlines. *)
Definition file_text (lines : list string) : str := join [LF] (map lit lines).

End Vocabulary.

(** * More of the sources *)

(** ** Subtitle text, written out *)

(** [n] as two decimal digits, and as three. *)
Definition two_digits (n : Z) : str :=
  [digit_char (n / 10); digit_char (n mod 10)].

Definition three_digits (n : Z) : str :=
  [digit_char (n / 100); digit_char (n / 10 mod 10); digit_char (n mod 10)].

(** The SRT time stamp [hh:mm:ss], a separator and a fraction. *)
Definition srt_timestamp (h m s : Z) (sep : ascii) (fraction : str) : str :=
  two_digits h ++ ":"%char :: two_digits m ++ ":"%char :: two_digits s
  ++ sep :: fraction.

(** [text] with every newline written as carriage return and newline. *)
Definition with_crlf (text : str) : str :=
  flat_map (fun ch => if Ascii.eqb ch LF then [CR; LF] else [ch]) text.

(** No two lines overlap: each ends before the later ones start. *)
Definition disjoint_lines (lyrics : list Parser.LyricLine) : Prop :=
  StronglySorted (fun a b => Parser.end_ms a <= Parser.start_ms b) lyrics.

(** The entries the scan of an LRC text finds, those without a lyric left
    out. *)
Definition lrc_text_entries (text : str) : list (Z * str) :=
  filter (fun e => negb (is_empty (snd e)))
         (flat_map Parser.lrc_line_entries (split_on LF text)).

(** ** src/app/serial_comm/connection.py, the other commands and the reader *)

Module Commands.

Import Connection.

(** [send_state(state)]: the dictionary lookup with its default. *)
Definition send_state (state : str) (c : SerialConnection) : SerialConnection :=
  let cmd :=
    if str_eqb state (lit "playing") then lit "PLAY"
    else if str_eqb state (lit "paused") then lit "PAUSE"
    else if str_eqb state (lit "stopped") then lit "STOP"
    else lit "STOP" in
  _write (lit "STA|" ++ cmd ++ [LF]) c.

(** [send_meta(text)]. *)
Definition send_meta (text : str) (c : SerialConnection) : SerialConnection :=
  _write (lit "META|" ++ clean_text text ++ [LF]) c.

(** The integer nearest to [x], a tie going to the even one. *)
Definition round_half_even (x : Q) : Z :=
  let low := Qfloor x in
  let rest := (x - inject_Z low)%Q in
  if Qltb rest (1 # 2) then low
  else if Qltb (1 # 2) rest then low + 1
  else if Z.even low then low
  else low + 1.

(** [f"{size:.1f}"] for a float [size] that is not negative: the decimal
    number with one digit after the point that is nearest to the float's
    value, a tie going to the even digit. *)
Definition format_1f (size : Q) : str :=
  let tenths := round_half_even (size * 10) in
  str_of_int (tenths / 10) ++ ["."%char; digit_char (tenths mod 10)].

(** [send_font_size(size)], [size] being the float [float(size)]. *)
Definition send_font_size (size : Q) (c : SerialConnection) : SerialConnection :=
  let size := Spectrum.py_max 1 (Spectrum.py_min 3 size) in
  _write (lit "FONT|" ++ format_1f size ++ [LF]) c.

(** A call of one of the class's senders. *)
Inductive Command : Type :=
| clear_command
| text_command (text : str)
| font_size_command (size : Q)
| state_command (state : str)
| meta_command (text : str)
| mode_command (mode : str)
| equalizer_command (levels : list Z)
| ping_command (now : Q).

Definition send (cmd : Command) (c : SerialConnection) : SerialConnection :=
  match cmd with
  | clear_command => send_clear c
  | text_command text => send_text text c
  | font_size_command size => send_font_size size c
  | state_command state => send_state state c
  | meta_command text => send_meta text c
  | mode_command mode => send_mode mode c
  | equalizer_command levels => send_equalizer levels c
  | ping_command now => _send_ping now c
  end.

End Commands.

Module Reader.

Import Connection.

(** A decoded text: its characters, each by its code point. *)
Definition text : Type := list Z.

(** The character U+FFFD, which [errors="replace"] puts where the bytes
    are no UTF-8. *)
Definition REPLACEMENT : Z := 65533.

Definition byte_val (b : Byte.byte) : Z := Z.of_N (Byte.to_N b).

(** A continuation byte, [80..BF]. *)
Definition is_continuation (b : Z) : bool := (128 <=? b) && (b <=? 191).

(** The second byte of a sequence of three bytes and of one of four that
    start with [b0]: the ranges that shut out overlong forms, surrogates
    and code points past U+10FFFF. *)
Definition second_of_three (b0 b1 : Z) : bool :=
  if b0 =? 224 then (160 <=? b1) && (b1 <=? 191)
  else if b0 =? 237 then (128 <=? b1) && (b1 <=? 159)
  else is_continuation b1.

Definition second_of_four (b0 b1 : Z) : bool :=
  if b0 =? 240 then (144 <=? b1) && (b1 <=? 191)
  else if b0 =? 244 then (128 <=? b1) && (b1 <=? 143)
  else is_continuation b1.

(** [raw.decode("utf-8", errors="replace")]. A byte below [80] is its own
    character; [C2..DF], [E0..EF] and [F0..F4] start a sequence of two,
    three and four bytes. Where a sequence breaks off, at a byte that
    cannot continue it or at the end of the data, the bytes of it read so
    far become one U+FFFD and decoding goes on behind them; a byte that
    can start no sequence becomes one U+FFFD. *)
Fixpoint decode (raw : list Byte.byte) : text :=
  match raw with
  | [] => []
  | b0 :: r0 =>
      let n0 := byte_val b0 in
      if n0 <? 128 then n0 :: decode r0
      else if (194 <=? n0) && (n0 <=? 223) then
        match r0 with
        | [] => [REPLACEMENT]
        | b1 :: r1 =>
            let n1 := byte_val b1 in
            if is_continuation n1
            then (n0 - 192) * 64 + (n1 - 128) :: decode r1
            else REPLACEMENT :: decode r0
        end
      else if (224 <=? n0) && (n0 <=? 239) then
        match r0 with
        | [] => [REPLACEMENT]
        | b1 :: r1 =>
            let n1 := byte_val b1 in
            if second_of_three n0 n1 then
              match r1 with
              | [] => [REPLACEMENT]
              | b2 :: r2 =>
                  let n2 := byte_val b2 in
                  if is_continuation n2
                  then (n0 - 224) * 4096 + (n1 - 128) * 64 + (n2 - 128)
                       :: decode r2
                  else REPLACEMENT :: decode r1
              end
            else REPLACEMENT :: decode r0
        end
      else if (240 <=? n0) && (n0 <=? 244) then
        match r0 with
        | [] => [REPLACEMENT]
        | b1 :: r1 =>
            let n1 := byte_val b1 in
            if second_of_four n0 n1 then
              match r1 with
              | [] => [REPLACEMENT]
              | b2 :: r2 =>
                  let n2 := byte_val b2 in
                  if is_continuation n2 then
                    match r2 with
                    | [] => [REPLACEMENT]
                    | b3 :: r3 =>
                        let n3 := byte_val b3 in
                        if is_continuation n3
                        then (n0 - 240) * 262144 + (n1 - 128) * 4096
                             + (n2 - 128) * 64 + (n3 - 128)
                             :: decode r3
                        else REPLACEMENT :: decode r2
                    end
                  else REPLACEMENT :: decode r1
              end
            else REPLACEMENT :: decode r0
        end
      else REPLACEMENT :: decode r0
  end.

(** [ch.isspace()] for a character of any code point: those of [is_space]
    below 256, and U+1680, U+2000..U+200A, U+2028, U+2029, U+202F, U+205F
    and U+3000. *)
Definition isspace (cp : Z) : bool :=
  ((9 <=? cp) && (cp <=? 13)) || ((28 <=? cp) && (cp <=? 32))
  || (cp =? 133) || (cp =? 160) || (cp =? 5760)
  || ((8192 <=? cp) && (cp <=? 8202))
  || (cp =? 8232) || (cp =? 8233) || (cp =? 8239) || (cp =? 8287)
  || (cp =? 12288).

Fixpoint lstrip_text (s : text) : text :=
  match s with
  | [] => []
  | cp :: r => if isspace cp then lstrip_text r else s
  end.

(** [line.strip()] on a decoded text. *)
Definition strip_text (s : text) : text :=
  rev (lstrip_text (rev (lstrip_text s))).

(** The code point of the newline. *)
Definition NEWLINE : Z := 10.

(** [s.split(sep)] on a decoded text, for a one-character separator. *)
Fixpoint split (sep : Z) (s : text) : list text :=
  match s with
  | [] => [[]]
  | cp :: r =>
      if cp =? sep then [] :: split sep r
      else match split sep r with
           | field :: fields => (cp :: field) :: fields
           | [] => [[cp]]
           end
  end.

(** A decoded line as a string of code points below 256, [None] when it
    holds a character beyond them. *)
Definition narrow (line : text) : option str :=
  if forallb (fun cp => (0 <=? cp) && (cp <? 256)) line
  then Some (map (fun cp => ascii_of_N (Z.to_N cp)) line)
  else None.

(** [_process_line(line)] on a decoded line: a line with a character beyond
    code point 255 is none of the words [_process_line] knows. *)
Definition process (line : text) (now : Q) (c : SerialConnection) : SerialConnection :=
  match narrow line with
  | Some line => _process_line line now c
  | None => c
  end.

(** [buffer.split("\n", 1)] where the buffer holds a newline: the text
    before the first one and the text after it. *)
Fixpoint split_first (sep : Z) (s : text) : option (text * text) :=
  match s with
  | [] => None
  | cp :: r =>
      if cp =? sep then Some ([], r)
      else match split_first sep r with
           | Some (line, rest) => Some (cp :: line, rest)
           | None => None
           end
  end.

(** What the loop does with the line it has cut off the buffer: the line
    is stripped, and handed on unless nothing is left of it. *)
Definition hand_on (line : text) (now : Q) (c : SerialConnection) : SerialConnection :=
  let line := strip_text line in
  match line with
  | [] => c
  | _ :: _ => process line now c
  end.

(** The loop [while "\n" in buffer] of [_reader_loop], with the buffer it
    leaves. Every turn takes a character off the buffer. *)
Fixpoint drain_fuel (fuel : nat) (buffer : text) (now : Q) (c : SerialConnection)
    : text * SerialConnection :=
  match fuel with
  | O => (buffer, c)
  | S f =>
      match split_first NEWLINE buffer with
      | None => (buffer, c)
      | Some (line, buffer) => drain_fuel f buffer now (hand_on line now c)
      end
  end.

Definition drain (buffer : text) (now : Q) (c : SerialConnection)
    : text * SerialConnection :=
  drain_fuel (length buffer) buffer now c.

(** One turn of the loop [while self._running] in which [ser.read] returns
    the bytes [raw], on the buffer and the connection: the bytes of this
    read are decoded by themselves. *)
Definition read (raw : list Byte.byte) (now : Q) (state : text * SerialConnection)
    : text * SerialConnection :=
  match raw with
  | [] => state
  | _ :: _ => drain (fst state ++ decode raw) now (snd state)
  end.

(** The handler of [serial.SerialException] and [OSError]; the loop ends. *)
Definition read_error (c : SerialConnection) : SerialConnection :=
  if _running c then emit disconnected (set_is_connected false c) else c.

End Reader.


(** The lines a buffer holds in full, as the reader hands them on: stripped,
    the blank ones dropped. *)
Definition complete_lines (buffer : Reader.text) : list Reader.text :=
  filter (fun line => match line with [] => false | _ :: _ => true end)
         (map Reader.strip_text
              (removelast (Reader.split Reader.NEWLINE buffer))).

(** The lines [received], processed in order at time [now]. *)
Definition process_lines (received : list Reader.text) (now : Q)
    (c : Connection.SerialConnection) : Connection.SerialConnection :=
  fold_left (fun c line => Reader.process line now c) received c.

(** A byte below [80]: a character of ASCII. *)
Definition is_ascii (b : Byte.byte) : Prop := Reader.byte_val b < 128.

(** What happens to a connection: a call of its interface, the ping timer
    firing, a turn of the event loop, a line the reader hands on. *)
Inductive Call : Type :=
| open_call (port : str) (baud : Z) (failure : option str) (now : Q)
| close_call
| send_call (cmd : Commands.Command)
| tick_call (now : Q)
| turn_call
| line_call (line : str) (now : Q).

Definition run_call (c : Connection.SerialConnection) (call : Call)
    : Connection.SerialConnection :=
  match call with
  | open_call port baud failure now =>
      fst (Connection.open_port port baud failure now c)
  | close_call => Connection.close_port c
  | send_call cmd => Commands.send cmd c
  | tick_call now => Connection.ping_timer_timeout now c
  | turn_call => Connection.scheduler_turn c
  | line_call line now => Connection._process_line line now c
  end.

(** A history of a connection, from its construction. *)
Definition run_calls (calls : list Call) : Connection.SerialConnection :=
  fold_left run_call calls Connection.init.

Definition count_connected (sigs : list Connection.Signal) : nat :=
  length (filter (fun s => match s with Connection.connected => true | _ => false end)
                 sigs).

(** The balance of a connection: every [disconnected] it has emitted, and
    the one it owes while it is connected, has a [connected] before it. *)
Definition balanced (c : Connection.SerialConnection) : Prop :=
  (Connection.count_disconnected (Connection.emitted c)
   + (if Connection._is_connected c then 1 else 0)
   <= count_connected (Connection.emitted c))%nat.

(** What the reader thread meets: a line it hands on, or a read that
    fails. *)
Inductive ReaderEvent : Type :=
| line_read (line : str) (now : Q)
| read_fails.

(** What an open link meets: the ping timer fires, or the reader thread
    moves. The callbacks a timer tick queues with a zero delay run at the
    next turn of the event loop, before the timer fires again; [meanwhile]
    is what the reader thread meets between the tick and that turn. *)
Inductive Event : Type :=
| timer_fires (now : Q) (meanwhile : list ReaderEvent)
| reader_event (e : ReaderEvent).

(** One step of the reader thread. [reading] says that the thread is still
    in its loop: a failed read ends the loop. *)
Definition reader_step (state : bool * Connection.SerialConnection)
    (e : ReaderEvent) : bool * Connection.SerialConnection :=
  let '(reading, c) := state in
  if reading then
    match e with
    | line_read line now => (true, Connection._process_line line now c)
    | read_fails => (false, Reader.read_error c)
    end
  else state.

(** One event of an episode. [close_port] ends the reader's loop as well:
    it clears [_running] and joins the thread. *)
Definition episode_step (state : bool * Connection.SerialConnection) (e : Event)
    : bool * Connection.SerialConnection :=
  match e with
  | timer_fires now meanwhile =>
      let '(reading, c) := state in
      let '(reading, c) :=
        fold_left reader_step meanwhile
          (reading, Connection.ping_timer_timeout now c) in
      let c := Connection.scheduler_turn c in
      (reading && Connection._running c, c)
  | reader_event e => reader_step state e
  end.

(** The link after the events of an episode, the reader in its loop at the
    start. *)
Definition episode (events : list Event) (c : Connection.SerialConnection)
    : Connection.SerialConnection :=
  snd (fold_left episode_step events (true, c)).

(** No PONG is observed: no line the reader hands on is [PONG]. *)
Definition not_pong (e : ReaderEvent) : Prop :=
  match e with
  | line_read line _ => line <> lit "PONG"
  | read_fails => True
  end.

Definition no_pong (events : list Event) : Prop :=
  Forall (fun e => match e with
                   | timer_fires _ meanwhile => Forall not_pong meanwhile
                   | reader_event e => not_pong e
                   end) events.

(** The ping timer fires more than five seconds after [t0]. *)
Definition late_tick (t0 : Q) (e : Event) : Prop :=
  match e with
  | timer_fires now _ => (Connection.PONG_TIMEOUT_S < now - t0)%Q
  | reader_event _ => False
  end.

Definition is_read_fails (e : ReaderEvent) : bool :=
  match e with
  | read_fails => true
  | line_read _ _ => false
  end.

(** A read fails while the port is open: before the callback runs that the
    first tick later than five seconds after [t0] queues. *)
Fixpoint read_fails_in_time (t0 : Q) (events : list Event) : bool :=
  match events with
  | [] => false
  | reader_event e :: later => is_read_fails e || read_fails_in_time t0 later
  | timer_fires now meanwhile :: later =>
      existsb is_read_fails meanwhile
      || (if Connection.Qltb Connection.PONG_TIMEOUT_S (now - t0) then false
          else read_fails_in_time t0 later)
  end.

(** The signals about the link: all but those of the button. *)
Definition link_signals (sigs : list Connection.Signal) : list Connection.Signal :=
  filter (fun s => match s with
                   | Connection.button_press | Connection.button_long => false
                   | _ => true
                   end) sigs.

(** A link on which the timeout has been found and the close is queued:
    the state [_send_ping] leaves behind, until the callback runs. *)
Record closing (port : str) (sigs : list Connection.Signal)
    (c : Connection.SerialConnection) : Prop := mkClosing {
  cl_port : Connection._port c = port;
  cl_running : Connection._running c = true;
  cl_connected : Connection._is_connected c = false;
  cl_emitted : Connection.emitted c = sigs;
  cl_scheduled : Connection.scheduled c = [Connection.call_close_port]
}.

(** ** src/app/audio/spectrum.py, the construction and the decode *)

Module Analyzer.

Import Spectrum.

Section Construction.

Variable sample : Type.
Variable rnd : Q -> Q.

(** The float power [x ** y], taken as given. *)
Variable power : Q -> Q -> Q.

(** The module flags [_HAS_NUMPY] and [_HAS_PYDUB]. *)
Variable _HAS_NUMPY : bool.
Variable _HAS_PYDUB : bool.

(** [f_min * (f_max / f_min) ** (i / NUM_BANDS)]. *)
Definition band_frequency (i : Z) : Q :=
  rnd (60 * power (rnd (16000 / 60)) (rnd (inject_Z i / inject_Z NUM_BANDS))).

(** [int(freq * FFT_SIZE / sample_rate)]. *)
Definition bin_of (freq : Q) (sample_rate : Z) : Z :=
  trunc (rnd (rnd (freq * inject_Z FFT_SIZE) / inject_Z sample_rate)).

(** [_compute_band_edges(sample_rate)]: the list [edges]; [None] stands for
    the [ZeroDivisionError] of a zero rate. *)
Definition _compute_band_edges (sample_rate : Z) : option (list (Z * Z)) :=
  if sample_rate =? 0 then None
  else
    Some (map (fun i =>
                 let lo_freq := band_frequency i in
                 let hi_freq := band_frequency (i + 1) in
                 let lo_bin := Z.max 1 (bin_of lo_freq sample_rate) in
                 let hi_bin := Z.max (lo_bin + 1) (bin_of hi_freq sample_rate) in
                 (lo_bin, hi_bin))
              (range 0 NUM_BANDS)).

(** [__init__]; [SAMPLE_RATE] is not zero. *)
Definition init : SpectrumAnalyzer sample :=
  mkSpectrumAnalyzer sample None SAMPLE_RATE
    (if _HAS_NUMPY then
       match _compute_band_edges SAMPLE_RATE with
       | Some edges => edges
       | None => []
       end
     else []).

(** The property [available]. *)
Definition available : bool := _HAS_NUMPY && _HAS_PYDUB.

(** [_decode(filepath)], as far as the analyzer goes: [decoded] is the
    array of samples, [None] when the [try] block raised. *)
Definition _decode (decoded : option (list sample)) (a : SpectrumAnalyzer sample)
    : SpectrumAnalyzer sample :=
  match decoded with
  | Some samples => mkSpectrumAnalyzer sample (Some samples) SAMPLE_RATE (_band_edges sample a)
  | None => mkSpectrumAnalyzer sample None (_sample_rate sample a) (_band_edges sample a)
  end.

(** [load_file(filepath)] and the thread it starts, run to its end. *)
Definition load_file (decoded : option (list sample)) (a : SpectrumAnalyzer sample)
    : SpectrumAnalyzer sample :=
  if negb available then a
  else
    _decode decoded
      (mkSpectrumAnalyzer sample None (_sample_rate sample a) (_band_edges sample a)).

(** The analyzer after the files of a session, oldest first. *)
Definition after_loads (files : list (option (list sample))) : SpectrumAnalyzer sample :=
  fold_left (fun a decoded => load_file decoded a) files init.

End Construction.

End Analyzer.

(** Two readings of [band_db] agree wherever a full analysis window and a
    range of bins that is not empty and lies inside the spectrum are
    given. *)
Definition agree_on_windows {sample : Type} (f g : list sample -> Z -> Z -> Q) : Prop :=
  forall chunk low_bin hi,
    len chunk = Spectrum.FFT_SIZE ->
    1 <= low_bin < hi -> hi <= Spectrum.FFT_SIZE / 2 + 1 ->
    f chunk low_bin hi = g chunk low_bin hi.

(** What every analyzer of a session satisfies. *)
Definition well_formed {sample : Type} (has_numpy : bool)
    (a : Spectrum.SpectrumAnalyzer sample) : Prop :=
  Spectrum._sample_rate sample a = Spectrum.SAMPLE_RATE
  /\ (has_numpy = true -> length (Spectrum._band_edges sample a) = 12%nat)
  /\ Forall (fun edge => 1 <= fst edge < snd edge) (Spectrum._band_edges sample a).

(** ** src/app/ui/oled_simulator.py, the status bar and the equalizer *)

(** [xs[i] = v]; [None] stands for [IndexError]. *)
Definition set_item {A : Type} (xs : list A) (i : Z) (v : A) : option (list A) :=
  let j := if i <? 0 then i + len xs else i in
  if (j <? 0) || (len xs <=? j) then None
  else Some (firstn (Z.to_nat j) xs ++ v :: skipn (S (Z.to_nat j)) xs).

Module Panel.

Definition SCREEN_HEIGHT : Z := 64.

Definition STATUS_BAR_Y : Z := 52.

Definition META_TEXT_X : Z := 16.

Definition META_AVAIL_WIDTH : Z := Oled.SCREEN_WIDTH - META_TEXT_X.

Definition META_SCROLL_GAP : Z := 30.

Definition EQ_BARS : Z := 12.

Definition EQ_MAX_LEVELS : Z := 12.

(** The fields of [class _OledCanvas] that the status bar and the equalizer
    use, and the number of calls of [self.update()]. *)
Record _OledCanvas := mkOledCanvas {
  _play_state : str;
  _meta_text : str;
  _meta_text_width : Z;
  _meta_scroll_x : Z;
  _meta_needs_scroll : bool;
  _meta_scroll_timer_active : bool;
  _eq_heights : list Z;
  updates : Z
}.

(** [_OledCanvas.__init__]. *)
Definition init : _OledCanvas :=
  mkOledCanvas (lit "stopped") [] 0 0 false false
    (repeat 0 (Z.to_nat EQ_BARS)) 0.

(** [self.update()]. *)
Definition update (c : _OledCanvas) : _OledCanvas :=
  mkOledCanvas (_play_state c) (_meta_text c) (_meta_text_width c)
    (_meta_scroll_x c) (_meta_needs_scroll c) (_meta_scroll_timer_active c)
    (_eq_heights c) (updates c + 1).

(** [set_state(state)]. *)
Definition set_state (state : str) (c : _OledCanvas) : _OledCanvas :=
  let state :=
    if negb (str_eqb state (lit "playing") || str_eqb state (lit "paused")
             || str_eqb state (lit "stopped"))
    then lit "stopped" else state in
  if negb (str_eqb state (_play_state c)) then
    update
      (mkOledCanvas state (_meta_text c) (_meta_text_width c)
         (_meta_scroll_x c) (_meta_needs_scroll c) (_meta_scroll_timer_active c)
         (_eq_heights c) (updates c))
  else c.

(** [set_meta(text)]. *)
Definition set_meta (text : str) (c : _OledCanvas) : _OledCanvas :=
  if negb (str_eqb text (_meta_text c)) then
    let width := len text * Oled.GFX_CHAR_W in
    let needs_scroll := width >? META_AVAIL_WIDTH in
    update
      (mkOledCanvas (_play_state c) text width 0 needs_scroll needs_scroll
         (_eq_heights c) (updates c))
  else c.

(** One turn of the loop of [set_equalizer], on the heights and the flag
    [changed]. *)
Definition equalizer_step (levels : list Z) (state : option (list Z * bool)) (i : Z)
    : option (list Z * bool) :=
  match state with
  | None => None
  | Some (heights, changed) =>
      match item levels i with
      | None => None
      | Some level =>
          let v := Z.max 0 (Z.min EQ_MAX_LEVELS level) in
          match item heights i with
          | None => None
          | Some height =>
              if negb (height =? v) then
                match set_item heights i v with
                | Some heights => Some (heights, true)
                | None => None
                end
              else Some (heights, changed)
          end
      end
  end.

(** [set_equalizer(levels)]; [None] stands for [IndexError]. *)
Definition set_equalizer (levels : list Z) (c : _OledCanvas) : option _OledCanvas :=
  match fold_left (equalizer_step levels) (range 0 (Z.min EQ_BARS (len levels)))
          (Some (_eq_heights c, false)) with
  | None => None
  | Some (heights, changed) =>
      let c :=
        mkOledCanvas (_play_state c) (_meta_text c) (_meta_text_width c)
          (_meta_scroll_x c) (_meta_needs_scroll c) (_meta_scroll_timer_active c)
          heights (updates c) in
      Some (if changed then update c else c)
  end.

(** [_on_meta_scroll()]. *)
Definition _on_meta_scroll (c : _OledCanvas) : _OledCanvas :=
  if negb (_meta_needs_scroll c) then c
  else
    let total_w := _meta_text_width c + META_SCROLL_GAP in
    update
      (mkOledCanvas (_play_state c) (_meta_text c) (_meta_text_width c)
         ((_meta_scroll_x c + 1) mod total_w) (_meta_needs_scroll c)
         (_meta_scroll_timer_active c) (_eq_heights c) (updates c)).

(** The meta scroll timer's timeout: a stopped timer calls nothing. *)
Definition meta_scroll_timeout (c : _OledCanvas) : _OledCanvas :=
  if _meta_scroll_timer_active c then _on_meta_scroll c else c.

(** A call [p.fillRect(x, y, w, h, ...)]. *)
Record Rect := mkRect { rect_x : Z; rect_y : Z; rect_w : Z; rect_h : Z }.

(** One turn of the loop of [_paint_equalizer]: the rectangle it fills, if
    any; the outer [None] stands for [IndexError]. *)
Definition paint_bar (heights : list Z) (i : Z) : option (option Rect) :=
  let bar_width := Oled.SCREEN_WIDTH / EQ_BARS in
  let max_height := Oled.LYRICS_AREA_HEIGHT - 2 in
  match item heights i with
  | None => None
  | Some level =>
      let bar_height := level * max_height / EQ_MAX_LEVELS in
      let x := i * bar_width in
      let y := max_height - bar_height in
      Some (if bar_height >? 0
            then Some (mkRect (x + 1) y (bar_width - 2) bar_height)
            else None)
  end.

(** [_paint_equalizer(p)]: the rectangles filled, in order. *)
Definition _paint_equalizer (c : _OledCanvas) : option (list Rect) :=
  option_map (flat_map Parser.option_to_list)
    (all_some (map (paint_bar (_eq_heights c)) (range 0 EQ_BARS))).

(** The calls [p.drawText(x, ..., self._meta_text)] of [_paint_status_bar],
    as the [x] of each. *)
Definition meta_draws (c : _OledCanvas) : list Z :=
  if is_empty (_meta_text c) then []
  else if negb (_meta_needs_scroll c) then [META_TEXT_X]
  else
    let total_w := _meta_text_width c + META_SCROLL_GAP in
    flat_map
      (fun pass_i =>
         let base_x := META_TEXT_X - _meta_scroll_x c + pass_i * total_w in
         if base_x + _meta_text_width c <? META_TEXT_X then []
         else if base_x >=? Oled.SCREEN_WIDTH then []
         else [base_x])
      (range 0 2).

End Panel.

(** [olds] with its first entries replaced by [news], as far as both go. *)
Fixpoint overwrite {A : Type} (news olds : list A) : list A :=
  match news, olds with
  | v :: news, _ :: olds => v :: overwrite news olds
  | _, _ => olds
  end.

(** The canvas after the equalizer frames of a session, oldest first. *)
Definition after_frames (frames : list (list Z)) : option Panel._OledCanvas :=
  fold_left
    (fun canvas levels =>
       match canvas with
       | Some c => Panel.set_equalizer levels c
       | None => None
       end)
    frames (Some Panel.init).

(** A filled rectangle lies inside the lyrics area. *)
Definition in_lyrics_area (r : Panel.Rect) : Prop :=
  0 <= Panel.rect_x r /\ Panel.rect_x r + Panel.rect_w r <= Oled.SCREEN_WIDTH
  /\ 0 <= Panel.rect_y r
  /\ Panel.rect_y r + Panel.rect_h r <= Oled.LYRICS_AREA_HEIGHT.

(** [a] ends to the left of [b], with a column between them. *)
Definition left_of (a b : Panel.Rect) : Prop :=
  Panel.rect_x a + Panel.rect_w a < Panel.rect_x b.

(** What happens to the status bar's text: a new text, or the scroll timer
    firing. *)
Inductive MetaCall : Type :=
| meta_call (text : str)
| scroll_call.

Definition run_meta_call (c : Panel._OledCanvas) (call : MetaCall) : Panel._OledCanvas :=
  match call with
  | meta_call text => Panel.set_meta text c
  | scroll_call => Panel.meta_scroll_timeout c
  end.

(** The rectangles of the bars of [heights], the first of them at index
    [i]. *)
Fixpoint bars_from (i : Z) (heights : list Z) : list Panel.Rect :=
  match heights with
  | [] => []
  | level :: rest =>
      let bar_height := level * 46 / 12 in
      Parser.option_to_list
        (if bar_height >? 0
         then Some (Panel.mkRect (i * 10 + 1) (46 - bar_height) 8 bar_height)
         else None)
      ++ bars_from (i + 1) rest
  end.

(** What the status bar's text satisfies at all times. *)
Definition meta_consistent (c : Panel._OledCanvas) : Prop :=
  Panel._meta_text_width c = 6 * len (Panel._meta_text c)
  /\ Panel._meta_needs_scroll c = (112 <? Panel._meta_text_width c)
  /\ Panel._meta_scroll_timer_active c = Panel._meta_needs_scroll c
  /\ 0 <= Panel._meta_scroll_x c
  /\ (Panel._meta_needs_scroll c = true ->
      Panel._meta_scroll_x c < Panel._meta_text_width c + 30)
  /\ (Panel._meta_needs_scroll c = false -> Panel._meta_scroll_x c = 0).

(** ** src/app/ui/oled_simulator.py, the scrolling of the lyrics *)

Module Scroll.

Import Oled.

Definition LYRIC_SCROLL_STEP : Z := 16.

Definition with_timer (active : bool) (c : _OledCanvas) : _OledCanvas :=
  mkOledCanvas (_current_text c) (_text_size c) (_use_custom_font c)
    (_display_mode c) (_lyric_scroll_offset c) (_total_lyric_height c) active.

Definition with_offset (offset : Z) (c : _OledCanvas) : _OledCanvas :=
  mkOledCanvas (_current_text c) (_text_size c) (_use_custom_font c)
    (_display_mode c) offset (_total_lyric_height c)
    (_lyric_scroll_timer_active c).

(** [_on_lyric_scroll()]. *)
Definition _on_lyric_scroll (c : _OledCanvas) : _OledCanvas :=
  if _total_lyric_height c <=? LYRICS_AREA_HEIGHT then with_timer false c
  else
    let max_scroll := _total_lyric_height c - LYRICS_AREA_HEIGHT in
    let c := with_offset (_lyric_scroll_offset c + LYRIC_SCROLL_STEP) c in
    if _lyric_scroll_offset c >? max_scroll then with_offset 0 c else c.

(** The lyric scroll timer's timeout: a stopped timer calls nothing. *)
Definition lyric_scroll_timeout (c : _OledCanvas) : _OledCanvas :=
  if _lyric_scroll_timer_active c then _on_lyric_scroll c else c.

(** [_update_lyric_scroll_timer()]. *)
Definition _update_lyric_scroll_timer (c : _OledCanvas) : _OledCanvas :=
  let needs :=
    str_eqb (_display_mode c) (lit "lyrics")
    && (_total_lyric_height c >? LYRICS_AREA_HEIGHT)
    && (len (_current_text c) >? 0) in
  if needs && negb (_lyric_scroll_timer_active c) then with_timer true c
  else if negb needs && _lyric_scroll_timer_active c then with_timer false c
  else c.

(** [paintEvent(event)], as far as the lyric fields go: the main area is
    painted, then the scroll timer is looked after. [None] where
    [_paint_lyrics] is not embedded. *)
Definition paintEvent (c : _OledCanvas) : option _OledCanvas :=
  let painted :=
    if str_eqb (_display_mode c) (lit "equalizer") then Some c
    else if negb (is_empty (_current_text c)) then option_map fst (_paint_lyrics c)
    else Some c in
  option_map _update_lyric_scroll_timer painted.

End Scroll.

(** What happens to the lyric area: a call of the canvas, its scroll timer
    firing, a repaint. *)
Inductive CanvasCall : Type :=
| clear_call
| text_call (text : str)
| mode_call (mode : str)
| lyric_scroll_call
| paint_call.

Definition run_canvas_call (canvas : option Oled._OledCanvas) (call : CanvasCall)
    : option Oled._OledCanvas :=
  match canvas with
  | None => None
  | Some c =>
      match call with
      | clear_call => Some (Oled.clear c)
      | text_call text => Some (Oled.set_text text c)
      | mode_call mode => Some (Oled.set_mode mode c)
      | lyric_scroll_call => Some (Scroll.lyric_scroll_timeout c)
      | paint_call => Scroll.paintEvent c
      end
  end.

(** The lyric area keeps to the rows of the text: the offset is a whole
    number of scroll steps, and a scrolled window ends inside the text as
    it was last measured, which is the text as it wraps now. *)
Definition scroll_consistent (c : Oled._OledCanvas) : Prop :=
  Oled._use_custom_font c = false
  /\ Oled._text_size c = 2
  /\ 0 <= Oled._lyric_scroll_offset c
  /\ (16 | Oled._lyric_scroll_offset c)
  /\ (Oled._total_lyric_height c = 0
      \/ exists lines,
           Oled._word_wrap (Oled._current_text c) 10 = Some lines
           /\ Oled._total_lyric_height c = len lines * 16)
  /\ (0 < Oled._lyric_scroll_offset c ->
      Oled._lyric_scroll_offset c + Oled.LYRICS_AREA_HEIGHT
      <= Oled._total_lyric_height c).

(** ** src/app/ui/oled_simulator.py, the font size and the proportional font *)

Module Font.

Import Oled.

(** The floats [1.4], [1.6], [2.4] and [2.6]: the doubles nearest to the
    decimal numbers. *)
Definition float_1_4 : Q := 3152519739159347 # 2251799813685248.

Definition float_1_6 : Q := 3602879701896397 # 2251799813685248.

Definition float_2_4 : Q := 5404319552844595 # 2251799813685248.

Definition float_2_6 : Q := 5854679515581645 # 2251799813685248.

(** The canvas with its field [_text_scale], a float. *)
Record Scaled := mkScaled {
  _text_scale : Q;
  canvas : _OledCanvas
}.

(** [_OledCanvas.__init__]. *)
Definition init : Scaled := mkScaled 2 Oled.init.

Section Floats.

Variable rnd : Q -> Q.

(** [set_font_size(size)]. *)
Definition set_font_size (size : Q) (s : Scaled) : Scaled :=
  let size := Spectrum.py_max 1 (Spectrum.py_min 3 size) in
  if negb (Qeq_bool size (_text_scale s)) then
    let c := canvas s in
    let use_custom_font :=
      (Connection.Qltb float_1_4 size && Connection.Qltb size float_1_6)
      || (Connection.Qltb float_2_4 size && Connection.Qltb size float_2_6) in
    let text_size :=
      if negb use_custom_font then Spectrum.trunc (rnd (size + (1 # 2)))
      else _text_size c in
    mkScaled size
      (mkOledCanvas (_current_text c) text_size use_custom_font (_display_mode c)
         0 (_total_lyric_height c) (_lyric_scroll_timer_active c))
  else s.

End Floats.

Section Metrics.

(** [fm.horizontalAdvance(text)] for the font in use, taken as given. *)
Variable horizontalAdvance : str -> Z.

(** [text.split()]: the runs of characters that are not white space;
    [word] is the run being read. *)
Fixpoint words_from (s : str) (word : str) : list str :=
  match s with
  | [] => if is_empty word then [] else [word]
  | ch :: r =>
      if is_space ch then
        if is_empty word then words_from r [] else word :: words_from r []
      else words_from r (word ++ [ch])
  end.

Definition split_ws (s : str) : list str := words_from s [].

(** One turn of the loop [for word in words] of
    [_paint_lyrics_custom_font], on [lines] and [current_line]. *)
Definition wrap_step (state : list str * str) (word : str) : list str * str :=
  let '(lines, current_line) := state in
  let candidate :=
    if negb (is_empty current_line)
    then strip (current_line ++ lit " " ++ word) else word in
  if horizontalAdvance candidate <=? SCREEN_WIDTH then (lines, candidate)
  else if negb (is_empty current_line) then (lines ++ [current_line], word)
  else (lines, word).

(** The list [lines] of [_paint_lyrics_custom_font]. *)
Definition wrap_words (text : str) : list str :=
  let '(lines, current_line) := fold_left wrap_step (split_ws text) ([], []) in
  if negb (is_empty current_line) then lines ++ [current_line] else lines.

(** [_paint_lyrics_custom_font(p, char_h)]: the canvas after it and the
    text it draws. *)
Definition _paint_lyrics_custom_font (char_h : Z) (c : _OledCanvas)
    : _OledCanvas * list (Z * str) :=
  let lines := wrap_words (_current_text c) in
  let c' :=
    mkOledCanvas (_current_text c) (_text_size c) (_use_custom_font c)
      (_display_mode c) (_lyric_scroll_offset c) (len lines * char_h)
      (_lyric_scroll_timer_active c) in
  (c', draw_lines (- _lyric_scroll_offset c) char_h 0 lines).

(** The words of a line, and the line they make. *)
Definition line_of (words : list str) : str := join (lit " ") words.

(** The loop on the words of each line instead of the line. *)
Definition group_step (state : list (list str) * list str) (word : str)
    : list (list str) * list str :=
  let '(groups, current) := state in
  if horizontalAdvance (line_of (current ++ [word])) <=? SCREEN_WIDTH
  then (groups, current ++ [word])
  else if negb (is_nil current) then (groups ++ [current], [word])
  else (groups, [word]).

Definition close_groups (state : list (list str) * list str) : list (list str) :=
  let '(groups, current) := state in
  if negb (is_nil current) then groups ++ [current] else groups.

(** Every line after [previous] starts with a word that did not fit on the
    line before it. *)
Fixpoint breaks_forced (previous : list str) (groups : list (list str)) : Prop :=
  match groups with
  | [] => True
  | group :: rest =>
      match group with
      | word :: _ => SCREEN_WIDTH < horizontalAdvance (line_of (previous ++ [word]))
      | [] => False
      end
      /\ breaks_forced group rest
  end.

(** A line fits, or holds one word. *)
Definition fits (group : list str) : Prop :=
  length group = 1%nat \/ horizontalAdvance (line_of group) <= SCREEN_WIDTH.

End Metrics.

End Font.

(** A text that [strip] leaves alone: it starts and ends with a character
    that is not white space. *)
Definition tight (s : str) : Prop :=
  is_space (hd " "%char s) = false /\ is_space (last s " "%char) = false.

(** A word as [split] returns it: not empty, and without white space. *)
Definition is_word (word : str) : Prop :=
  word <> [] /\ Forall (fun ch => is_space ch = false) word.

(** ** An LRC file, written out *)

(** A line of an LRC file: its time stamps, each the minutes, the seconds
    and the hundredths of a second, and its lyric. *)
Record LrcLine := mkLrcLine {
  stamps : list (Z * Z * Z);
  lyric : str
}.

(** The time stamp [[mm:ss.xx]]. *)
Definition lrc_stamp (stamp : Z * Z * Z) : str :=
  let '(m, s, x) := stamp in
  "["%char :: two_digits m ++ ":"%char :: two_digits s
  ++ "."%char :: two_digits x ++ ["]"%char].

(** The time a stamp stands for, in milliseconds. *)
Definition stamp_ms (stamp : Z * Z * Z) : Z :=
  let '(m, s, x) := stamp in m * 60000 + s * 1000 + x * 10.

(** A line as written: the stamps, then the lyric. *)
Definition lrc_line (l : LrcLine) : str :=
  concat (map lrc_stamp (stamps l)) ++ lyric l.

(** The file: the lines, a newline between two of them. *)
Definition lrc_file (lines : list LrcLine) : str :=
  join [LF] (map lrc_line lines).

(** Every field of a stamp has two digits. *)
Definition stamp_in_range (stamp : Z * Z * Z) : Prop :=
  let '(m, s, x) := stamp in 0 <= m < 100 /\ 0 <= s < 100 /\ 0 <= x < 100.

(** What a line of a written file may hold: stamps of two-digit fields,
    and a lyric without an opening bracket or a newline that is empty or
    begins and ends with a character that is not white space. *)
Definition well_written (l : LrcLine) : Prop :=
  Forall stamp_in_range (stamps l)
  /\ (lyric l = [] \/ tight (lyric l))
  /\ ~ In "["%char (lyric l)
  /\ ~ In LF (lyric l).

(** The lyric lines a written file stands for: one for every stamp of
    every line that has a lyric. *)
Definition written_entries (lines : list LrcLine) : list (Z * str) :=
  flat_map (fun l =>
              if is_empty (lyric l) then []
              else map (fun stamp => (stamp_ms stamp, lyric l)) (stamps l))
           lines.

(** ** src/app/ui/main_window.py, the offset, the equalizer timer and the
    playlist *)

Module Window.

Import MainWindow.

(** [_adjust_offset(delta)]; [has_track] is
    [self._current_track is not None]. *)
Definition _adjust_offset (has_track : bool) (delta : Z) (w : MainWindow) : MainWindow :=
  if negb has_track then w
  else
    mkMainWindow (display_mode w) (global_offset_ms w) (_lyrics w)
      (-1) (_track_offset_ms w + delta) (_in_lyric_gap w)
      (serial_is_connected w) (serial_calls w) (controls_lyric w) (_oled_sim w).

(** [_on_live_offset_change(offset_ms)]; [has_track] is the truth value of
    [self._current_track]. *)
Definition _on_live_offset_change (has_track : bool) (offset_ms : Z) (w : MainWindow)
    : MainWindow :=
  if has_track then
    mkMainWindow (display_mode w) (global_offset_ms w) (_lyrics w)
      (-1) offset_ms (_in_lyric_gap w)
      (serial_is_connected w) (serial_calls w) (controls_lyric w) (_oled_sim w)
  else w.

(** The float [0.01]. *)
Definition float_0_01 : Q := 5764607523034235 # 576460752303423488.

(** The list [levels] of [_send_equalizer_levels], [None] where it returns
    before it has one. [spectrum] is what [self._spectrum.get_levels]
    returns at the player's position, and [scaled i] the float
    [value * 12 * base] of the fallback for bar [i]. *)
Definition equalizer_levels (display_mode : str) (in_lyric_gap is_playing : bool)
    (volume : Q) (spectrum : option (list Z)) (scaled : Z -> Q) : option (list Z) :=
  if negb (str_eqb display_mode (lit "equalizer")) && negb in_lyric_gap then None
  else if negb is_playing then None
  else if Qle_bool volume float_0_01 then Some (repeat 0 12)
  else
    match spectrum with
    | Some levels => Some levels
    | None =>
        Some (map (fun i =>
                     Spectrum.trunc
                       (Spectrum.py_min 12 (Spectrum.py_max 0 (scaled i))))
                  (range 0 12))
    end.

(** [_send_equalizer_levels()], on the connection and the simulator. *)
Definition _send_equalizer_levels (display_mode : str) (in_lyric_gap is_playing : bool)
    (volume : Q) (spectrum : option (list Z)) (scaled : Z -> Q)
    (serial : Connection.SerialConnection) (sim : Panel._OledCanvas)
    : Connection.SerialConnection * option Panel._OledCanvas :=
  match equalizer_levels display_mode in_lyric_gap is_playing volume spectrum scaled with
  | None => (serial, Some sim)
  | Some levels =>
      (if Connection._is_connected serial
       then Connection.send_equalizer levels serial else serial,
       Panel.set_equalizer levels sim)
  end.

End Window.

Module Playlist.

Section Tracks.

(** A track [dict], its key ["id"], the database's [get_track] and
    [get_playlist_tracks], and the order [random.shuffle] leaves a list in
    at its [n]-th use: all taken as given. *)
Variable track : Type.
Variable track_id : track -> Z.
Variable get_track : Z -> option track.
Variable get_playlist_tracks : Z -> list track.
Variable shuffle : nat -> list track -> list track.

(** The playlist fields of [class MainWindow], the number of shuffles so
    far, the tracks handed to [_load_and_play] (oldest first) and the
    number of calls of [self.player.seek(0)]. *)
Record Queue := mkQueue {
  _playlist_queue : list track;
  _playlist_pos : Z;
  _current_playlist_id : option Z;
  _shuffle_on : bool;
  _repeat_mode : str;
  shuffles : nat;
  loaded : list track;
  seeks : nat
}.

(** [MainWindow.__init__]. *)
Definition init : Queue := mkQueue [] (-1) None false (lit "off") 0 [] 0.

(** [self._load_and_play(track)], as far as the queue goes. *)
Definition _load_and_play (t : track) (q : Queue) : Queue :=
  mkQueue (_playlist_queue q) (_playlist_pos q) (_current_playlist_id q)
    (_shuffle_on q) (_repeat_mode q) (shuffles q) (loaded q ++ [t]) (seeks q).

(** [self._load_and_play(self._playlist_queue[self._playlist_pos])];
    [None] stands for [IndexError]. *)
Definition load_current (q : Queue) : option Queue :=
  match item (_playlist_queue q) (_playlist_pos q) with
  | Some t => Some (_load_and_play t q)
  | None => None
  end.

Definition with_queue (queue : list track) (pos : Z) (playlist_id : option Z)
    (q : Queue) : Queue :=
  mkQueue queue pos playlist_id (_shuffle_on q) (_repeat_mode q) (shuffles q)
    (loaded q) (seeks q).

(** [if self._shuffle_on: random.shuffle(self._playlist_queue)]. *)
Definition shuffle_if_on (q : Queue) : Queue :=
  if _shuffle_on q then
    mkQueue (shuffle (shuffles q) (_playlist_queue q)) (_playlist_pos q)
      (_current_playlist_id q) (_shuffle_on q) (_repeat_mode q) (S (shuffles q))
      (loaded q) (seeks q)
  else q.

(** [self.player.seek(0)]. *)
Definition seek_start (q : Queue) : Queue :=
  mkQueue (_playlist_queue q) (_playlist_pos q) (_current_playlist_id q)
    (_shuffle_on q) (_repeat_mode q) (shuffles q) (loaded q) (S (seeks q)).

(** [_play_track_by_id(track_id)]. *)
Definition _play_track_by_id (id : Z) (q : Queue) : option Queue :=
  match get_track id with
  | None => Some q
  | Some t => Some (_load_and_play t (with_queue [] (-1) None q))
  end.

(** The loop [for i, t in enumerate(self._playlist_queue)] of
    [_play_track_in_playlist], entered at index [i]: the index it breaks
    at. *)
Fixpoint first_index (i : Z) (queue : list track) (id : Z) : option Z :=
  match queue with
  | [] => None
  | t :: rest => if track_id t =? id then Some i else first_index (i + 1) rest id
  end.

(** [_play_track_in_playlist(playlist_id, track_id)]. *)
Definition _play_track_in_playlist (playlist_id id : Z) (q : Queue) : option Queue :=
  let tracks := get_playlist_tracks playlist_id in
  if is_nil tracks then Some q
  else
    let q := shuffle_if_on (with_queue tracks (_playlist_pos q) (Some playlist_id) q) in
    let pos :=
      match first_index 0 (_playlist_queue q) id with
      | Some i => i
      | None => 0
      end in
    load_current (with_queue (_playlist_queue q) pos (_current_playlist_id q) q).

(** [_play_playlist(playlist_id)]. *)
Definition _play_playlist (playlist_id : Z) (q : Queue) : option Queue :=
  let tracks := get_playlist_tracks playlist_id in
  if is_nil tracks then Some q
  else
    let q := shuffle_if_on (with_queue tracks (_playlist_pos q) (Some playlist_id) q) in
    load_current (with_queue (_playlist_queue q) 0 (_current_playlist_id q) q).

(** [_next_track()]. *)
Definition _next_track (q : Queue) : option Queue :=
  if is_nil (_playlist_queue q) then Some q
  else if _playlist_pos q <? len (_playlist_queue q) - 1 then
    load_current
      (with_queue (_playlist_queue q) (_playlist_pos q + 1) (_current_playlist_id q) q)
  else if str_eqb (_repeat_mode q) (lit "playlist") then
    let q := shuffle_if_on q in
    load_current (with_queue (_playlist_queue q) 0 (_current_playlist_id q) q)
  else Some q.

(** [_prev_track()]; [position] is [self.player.position]. *)
Definition _prev_track (position : Z) (q : Queue) : option Queue :=
  if position >? 3000 then Some (seek_start q)
  else if is_nil (_playlist_queue q) then Some q
  else if _playlist_pos q >? 0 then
    load_current
      (with_queue (_playlist_queue q) (_playlist_pos q - 1) (_current_playlist_id q) q)
  else if str_eqb (_repeat_mode q) (lit "playlist") then
    load_current
      (with_queue (_playlist_queue q) (len (_playlist_queue q) - 1)
         (_current_playlist_id q) q)
  else Some q.

(** [_on_media_ended()]. *)
Definition _on_media_ended (q : Queue) : option Queue :=
  if str_eqb (_repeat_mode q) (lit "one") then Some (seek_start q)
  else if negb (is_nil (_playlist_queue q)) then _next_track q
  else Some q.

(** [_on_shuffle(on)] and [_on_repeat(mode)]. *)
Definition _on_shuffle (on : bool) (q : Queue) : Queue :=
  mkQueue (_playlist_queue q) (_playlist_pos q) (_current_playlist_id q)
    on (_repeat_mode q) (shuffles q) (loaded q) (seeks q).

Definition _on_repeat (mode : str) (q : Queue) : Queue :=
  mkQueue (_playlist_queue q) (_playlist_pos q) (_current_playlist_id q)
    (_shuffle_on q) mode (shuffles q) (loaded q) (seeks q).

(** What the user and the player do to the queue. *)
Inductive Call : Type :=
| play_track_call (id : Z)
| play_in_playlist_call (playlist_id id : Z)
| play_playlist_call (playlist_id : Z)
| next_call
| prev_call (position : Z)
| media_ended_call
| shuffle_call (on : bool)
| repeat_call (mode : str).

Definition run_call (state : option Queue) (call : Call) : option Queue :=
  match state with
  | None => None
  | Some q =>
      match call with
      | play_track_call id => _play_track_by_id id q
      | play_in_playlist_call playlist_id id => _play_track_in_playlist playlist_id id q
      | play_playlist_call playlist_id => _play_playlist playlist_id q
      | next_call => _next_track q
      | prev_call position => _prev_track position q
      | media_ended_call => _on_media_ended q
      | shuffle_call on => Some (_on_shuffle on q)
      | repeat_call mode => Some (_on_repeat mode q)
      end
  end.

(** The position points into the queue, or there is no queue. *)
Definition in_queue (q : Queue) : Prop :=
  (_playlist_queue q = [] /\ _playlist_pos q = -1)
  \/ 0 <= _playlist_pos q < len (_playlist_queue q).

(** The track loaded last is the one the position points at. *)
Definition plays_current (q : Queue) : Prop :=
  _playlist_queue q = []
  \/ exists t, item (_playlist_queue q) (_playlist_pos q) = Some t
               /\ last (loaded q) t = t /\ loaded q <> [].

End Tracks.

End Playlist.

(** ** src/app/ui/playback_controls.py *)

Module Controls.

(** [f"{n:02d}"] for an integer [n >= 0]. *)
Definition pad2 (n : Z) : str :=
  let digits := str_of_int n in
  repeat "0"%char (2 - length digits) ++ digits.

(** [_fmt(ms)]. *)
Definition _fmt (ms : Z) : str :=
  let ms := if ms <? 0 then 0 else ms in
  let s := ms / 1000 in
  let m := s / 60 in
  let s := s mod 60 in
  str_of_int m ++ lit ":" ++ pad2 s.

End Controls.

(** The heartbeat is answered in time along [events]: whenever a ping goes
    out, the last PONG (or the opening of the port) is at most the timeout
    back. The port is neither opened nor closed on the way. *)
Fixpoint answered (last_pong : Q) (events : list Call) : Prop :=
  match events with
  | [] => True
  | tick_call now :: rest
  | send_call (Commands.ping_command now) :: rest =>
      (now - last_pong <= Connection.PONG_TIMEOUT_S)%Q /\ answered last_pong rest
  | line_call line now :: rest =>
      answered (if str_eqb line (lit "PONG") then now else last_pong) rest
  | send_call _ :: rest | turn_call :: rest => answered last_pong rest
  | open_call _ _ _ _ :: _ | close_call :: _ => False
  end.

Definition count_pings (lines : list str) : nat :=
  length (filter (fun line => str_eqb line (lit "PING" ++ [LF])) lines).

(** A link that is up: the handle open, the reader running, the ping timer
    active, nothing queued for the event loop. *)
Definition link_up (c : Connection.SerialConnection) : Prop :=
  Connection._serial_open c = true
  /\ Connection._running c = true
  /\ Connection._ping_timer_active c = true
  /\ Connection.scheduled c = [].

(** What a step keeps of a link that is up. *)
Definition same_link (c c' : Connection.SerialConnection) : Prop :=
  link_up c'
  /\ Connection.count_error (Connection.emitted c')
     = Connection.count_error (Connection.emitted c)
  /\ Connection.count_disconnected (Connection.emitted c')
     = Connection.count_disconnected (Connection.emitted c)
  /\ (Connection._is_connected c = true -> Connection._is_connected c' = true).

(** ** src/app/settings/config.py *)

Module Config.

(** A JSON value that is neither a [dict] nor a [list]: a string, a
    number, [True] or [False], or [None]. *)
Inductive scalar : Type :=
| text (s : str)
| number (q : Q)
| flag (b : bool)
| null.

(** A JSON value: a [list] is its elements, a [dict] its items in insertion
    order, the keys distinct. *)
#[warnings="-register-all"]
Inductive value : Type :=
| Scalar (a : scalar)
| Array (elements : list value)
| Dict (items : list (str * value)).

(** [d.get(k)]: [None] where [k not in d]. *)
Fixpoint dict_get (k : str) (d : list (str * value)) : option value :=
  match d with
  | [] => None
  | (k', v) :: rest => if str_eqb k' k then Some v else dict_get k rest
  end.

(** [d[k] = v]: the value of an old key changes in place, a new key goes to
    the end. *)
Fixpoint dict_set (k : str) (v : value) (d : list (str * value)) : list (str * value) :=
  match d with
  | [] => [(k, v)]
  | (k', v') :: rest =>
      if str_eqb k' k then (k', v) :: rest else (k', v') :: dict_set k v rest
  end.

(** What the loop of [_deep_merge] stores under a key that held [old]:
    the merge of the two when both are dicts, the new value otherwise. *)
Fixpoint merge_value (old : option value) (v : value) {struct v} : value :=
  match v with
  | Dict items =>
      match old with
      | Some (Dict result) =>
          Dict ((fix loop (items : list (str * value)) (result : list (str * value))
                     {struct items} : list (str * value) :=
                   match items with
                   | [] => result
                   | (k, v') :: rest =>
                       loop rest (dict_set k (merge_value (dict_get k result) v') result)
                   end) items result)
      | _ => v
      end
  | Scalar _ | Array _ => v
  end.

(** [_deep_merge(defaults, overrides)]. *)
Definition _deep_merge (defaults overrides : list (str * value)) : list (str * value) :=
  fold_left
    (fun result item =>
       let '(k, v) := item in
       dict_set k (merge_value (dict_get k result) v) result)
    overrides defaults.

(** [DEFAULT_CONFIG]. *)
Definition DEFAULT_CONFIG : list (str * value) :=
  [(lit "com_port", Scalar (text []));
   (lit "baud_rate", Scalar (number 115200));
   (lit "auto_connect", Scalar (flag true));
   (lit "global_offset_ms", Scalar (number 0));
   (lit "esp32_font_size", Scalar (number (3 # 2)));
   (lit "display_mode", Scalar (text (lit "lyrics")));
   (lit "lyric_font_size_px", Scalar (number 13));
   (lit "volume", Scalar (number (3152519739159347 # 4503599627370496)));
   (lit "hotkeys",
    Dict [(lit "play_pause", Scalar (text (lit "Space")));
          (lit "next_track", Scalar (text (lit "Ctrl+Right")));
          (lit "prev_track", Scalar (text (lit "Ctrl+Left")));
          (lit "volume_up", Scalar (text (lit "Ctrl+Up")));
          (lit "volume_down", Scalar (text (lit "Ctrl+Down")));
          (lit "offset_plus_50", Scalar (text (lit "Ctrl+]")));
          (lit "offset_minus_50", Scalar (text (lit "Ctrl+[")));
          (lit "offset_plus_200", Scalar (text (lit "Ctrl+Shift+]")));
          (lit "offset_minus_200", Scalar (text (lit "Ctrl+Shift+[")))])].

(** What [load] finds at the path: no file; a file whose opening or
    reading raises [OSError]; a file whose text is no JSON, so that
    [json.load] raises [json.JSONDecodeError]; a file whose reading raises
    another exception ([UnicodeDecodeError] for bytes that are no UTF-8,
    [RecursionError] for a nesting too deep); or the value [json.load]
    returns. *)
Inductive File : Type :=
| absent
| os_error
| json_decode_error
| other_exception
| parsed (v : value).

(** An exception that leaves [load]: the one the reading raised, which the
    [except] clause does not name, or the [AttributeError] of
    [overrides.items()] on a value that is not a dict. *)
Inductive Raised : Type :=
| from_reading
| attribute_error.

(** [load()]: the new [self._data], or the exception raised. *)
Definition load (file : File) : Raised + list (str * value) :=
  match file with
  | absent | os_error | json_decode_error => inr (_deep_merge DEFAULT_CONFIG [])
  | other_exception => inl from_reading
  | parsed (Dict items) => inr (_deep_merge DEFAULT_CONFIG items)
  | parsed (Scalar _) | parsed (Array _) => inl attribute_error
  end.

(** The property [display_mode]. *)
Definition display_mode (data : list (str * value)) : value :=
  match dict_get (lit "display_mode") data with
  | Some v => v
  | None => Scalar (text (lit "lyrics"))
  end.

(** The setter of [display_mode], without the save. *)
Definition set_display_mode (mode : str) (data : list (str * value))
    : list (str * value) :=
  let mode :=
    if negb (str_eqb mode (lit "lyrics") || str_eqb mode (lit "equalizer"))
    then lit "lyrics" else mode in
  dict_set (lit "display_mode") (Scalar (text mode)) data.

End Config.

(** The keys of a dict. *)
Definition keys (d : list (str * Config.value)) : list str := map fst d.

(** The end of [_load_and_play], from "Send to ESP32" on: the commands for
    the device when the link is connected, and the same for the simulator,
    its lyric area and its status bar. *)
Definition show_track (mode meta : str) (serial : Connection.SerialConnection)
    (canvas : Oled._OledCanvas) (panel : Panel._OledCanvas)
    : Connection.SerialConnection * Oled._OledCanvas * Panel._OledCanvas :=
  let serial :=
    if Connection._is_connected serial then
      Commands.send_meta meta (Connection.send_mode mode (Connection.send_clear serial))
    else serial in
  (serial, Oled.set_mode mode (Oled.clear canvas), Panel.set_meta meta panel).

(** * Properties *)

(** ** The timeline lookup *)

Section Lookup.

Import Parser.

Lemma active_at_true (adjusted : Z) (line : LyricLine) :
  active_at adjusted line = true <-> active adjusted line.
Proof.
  unfold active_at, active.
  rewrite andb_true_iff, Z.leb_le, Z.ltb_lt. tauto.
Qed.

Lemma active_at_false (adjusted : Z) (line : LyricLine) :
  active_at adjusted line = false <-> ~ active adjusted line.
Proof.
  rewrite <- active_at_true. destruct (active_at adjusted line); split; congruence.
Qed.

Lemma lookup_from_first_match (lyrics : list LyricLine) :
  forall k adjusted,
    (exists i line,
        first_active lyrics adjusted i line
        /\ lookup_from k lyrics adjusted = (k + Z.of_nat i, text line))
    \/ ((forall l, In l lyrics -> ~ active adjusted l)
        /\ lookup_from k lyrics adjusted = (-1, [])).
Proof.
  induction lyrics as [|line rest IH]; intros k adjusted; simpl.
  - right. split; [intros l []|reflexivity].
  - destruct (active_at adjusted line) eqn:Hact.
    + left. exists 0%nat, line. split.
      * split; [reflexivity|split; [now apply active_at_true|intros j l Hj; lia]].
      * now rewrite Z.add_0_r.
    + apply active_at_false in Hact.
      destruct (IH (k + 1) adjusted) as [(i & l & (Hnth & Hl & Hbefore) & Heq)|[Hnone Heq]].
      * left. exists (S i), l. split.
        -- split; [exact Hnth|split; [exact Hl|]].
           intros [|j] l' Hj Hl'; simpl in Hl'.
           ++ now injection Hl' as <-.
           ++ apply (Hbefore j l'); [lia|assumption].
        -- rewrite Heq. f_equal. lia.
      * right. split; [|assumption].
        intros l [<-|Hin]; auto.
Qed.

End Lookup.

(** C1. [get_lyric_at_position] returns the list index and text of the first
    line, in list order, whose interval [start_ms, end_ms) holds
    [position_ms + offset_ms], and [(-1, "")] when no line does; the offset
    enters only through that sum, so resolving at an offset is resolving the
    shifted position at offset zero, and two offsets at one raw position can
    resolve differently. *)
Theorem get_lyric_at_position_first_match :
  (forall lyrics position_ms offset_ms,
      ((exists i line,
           first_active lyrics (position_ms + offset_ms) i line
           /\ Parser.get_lyric_at_position lyrics position_ms offset_ms
              = (Z.of_nat i, Parser.text line))
       \/ ((forall l, In l lyrics -> ~ active (position_ms + offset_ms) l)
           /\ Parser.get_lyric_at_position lyrics position_ms offset_ms = (-1, [])))
      /\ Parser.get_lyric_at_position lyrics position_ms offset_ms
         = Parser.get_lyric_at_position lyrics (position_ms + offset_ms) 0)
  /\ (exists lyrics position_ms offset1 offset2,
         Parser.get_lyric_at_position lyrics position_ms offset1
         <> Parser.get_lyric_at_position lyrics position_ms offset2).
Proof.
  split.
  - intros lyrics position_ms offset_ms. split.
    + unfold Parser.get_lyric_at_position.
      destruct (lookup_from_first_match lyrics 0 (position_ms + offset_ms))
        as [(i & line & Hfirst & Heq)|[Hnone Heq]].
      * left. exists i, line. now split.
      * right. now split.
    + unfold Parser.get_lyric_at_position. now rewrite Z.add_0_r.
  - exists [Parser.mkLyricLine 1 0 1000 (lit "a")], 500, 0, 600.
    vm_compute. discriminate.
Qed.

(** ** The position tick *)

Section Tick.

Import Parser MainWindow.

Lemma skipn_length_app {A : Type} (l extra : list A) :
  skipn (length l) (l ++ extra) = extra.
Proof.
  induction l as [|x l IH]; simpl; auto.
Qed.

(** What [auto_switch] leaves alone, and the calls it adds: mode calls
    only. *)
Lemma auto_switch_frame (position_ms total_offset : Z) (text : str) (w : MainWindow) :
  let w' := auto_switch position_ms total_offset text w in
  _lyrics w' = _lyrics w
  /\ _last_lyric_idx w' = _last_lyric_idx w
  /\ serial_is_connected w' = serial_is_connected w
  /\ exists added,
       serial_calls w' = serial_calls w ++ added
       /\ filter is_lyric_call added = [].
Proof.
  unfold auto_switch.
  destruct (str_eqb (display_mode w) (lit "lyrics")).
  2:{ simpl. repeat split. exists []. now rewrite app_nil_r. }
  destruct (is_empty text && negb (_in_lyric_gap w)).
  - destruct ((_gap_until_next_lyric w position_ms total_offset <? 0)
              || (_gap_until_next_lyric w position_ms total_offset >? 300)).
    + unfold serial_call, with_oled_sim, set_in_lyric_gap; simpl.
      destruct (serial_is_connected w) eqn:Hc; simpl; rewrite ?Hc; repeat split.
      * now exists [call_send_mode (lit "equalizer")].
      * exists []. now rewrite app_nil_r.
    + simpl. repeat split. exists []. now rewrite app_nil_r.
  - destruct (negb (is_empty text) && _in_lyric_gap w).
    + unfold serial_call, with_oled_sim, set_in_lyric_gap; simpl.
      destruct (serial_is_connected w) eqn:Hc; simpl; rewrite ?Hc; repeat split.
      * now exists [call_send_mode (lit "lyrics")].
      * exists []. now rewrite app_nil_r.
    + simpl. repeat split. exists []. now rewrite app_nil_r.
Qed.

(** The calls [send_on_change] adds, and the gap flag it leaves alone. *)
Lemma send_on_change_calls (idx : Z) (text : str) (w : MainWindow) :
  let w' := send_on_change idx text w in
  _in_lyric_gap w' = _in_lyric_gap w
  /\ serial_calls w'
     = serial_calls w
       ++ (if negb (idx =? _last_lyric_idx w) && serial_is_connected w
              && negb (_in_lyric_gap w)
           then [if is_empty text then call_send_clear else call_send_text text]
           else []).
Proof.
  unfold send_on_change.
  destruct (idx =? _last_lyric_idx w); simpl.
  { now rewrite app_nil_r. }
  unfold serial_call, with_oled_sim, set_last_lyric_idx; simpl.
  destruct (serial_is_connected w) eqn:Hc, (_in_lyric_gap w) eqn:Hg,
    (is_empty text) eqn:He; simpl; rewrite ?Hc, ?Hg; simpl;
    rewrite ?app_nil_r; auto.
Qed.

End Tick.

(** C2, at the input where the code departs from it. The lines are
    [(1,0,1000,"a")] and [(2,2000,3000,"b")], the track offset is 500 and
    the tick comes at 1300: the lookup resolves no line at the adjusted
    position 1800, and line b starts 200 ms later (the tick at 1500 resolves
    it). [_gap_until_next_lyric] subtracts the offset where the lookup adds
    it, reports 1200 ms, and the tick sets the gap flag and switches to
    equalizer mode over a 200 ms silence. *)
Theorem sync_lyrics_gap_subtracts_offset :
  let lyrics := [Parser.mkLyricLine 1 0 1000 (lit "a");
                 Parser.mkLyricLine 2 2000 3000 (lit "b")] in
  let w := MainWindow.loaded (lit "lyrics") 0 500 lyrics true in
  let w' := MainWindow._sync_lyrics 1300 w in
  Parser.get_lyric_at_position lyrics 1300 500 = (-1, [])
  /\ Parser.get_lyric_at_position lyrics 1500 500 = (1, lit "b")
  /\ time_until_next_start lyrics 1300 500 = 200
  /\ MainWindow._gap_until_next_lyric w 1300 500 = 1200
  /\ MainWindow._in_lyric_gap w = false
  /\ MainWindow._in_lyric_gap w' = true
  /\ Oled._display_mode (MainWindow._oled_sim w') = lit "equalizer"
  /\ MainWindow.serial_calls w' = [MainWindow.call_send_mode (lit "equalizer")].
Proof.
  vm_compute. repeat split; reflexivity.
Qed.

Lemma str_eqb_true (a b : str) : str_eqb a b = true <-> a = b.
Proof.
  unfold str_eqb. destruct (list_eq_dec ascii_dec a b); split; congruence.
Qed.

(** The mode the canvas shows after [set_mode]. *)
Lemma set_mode_display_mode (mode : str) (c : Oled._OledCanvas) :
  Oled._display_mode (Oled.set_mode mode c)
  = if str_eqb mode (lit "equalizer") || str_eqb mode (lit "EQ")
    then lit "equalizer" else lit "lyrics".
Proof.
  unfold Oled.set_mode.
  destruct (str_eqb _ (Oled._display_mode c)) eqn:He; simpl; auto.
  now apply str_eqb_true in He.
Qed.

(** The tick switches on the code's own gap: an empty resolution with the
    flag clear sets the flag, and shows the equalizer, exactly when
    [_gap_until_next_lyric] is above 300 or negative. *)
Lemma auto_switch_enters_gap (position_ms total_offset : Z) (w : MainWindow.MainWindow) :
  MainWindow.display_mode w = lit "lyrics" ->
  MainWindow._in_lyric_gap w = false ->
  let gap_ms := MainWindow._gap_until_next_lyric w position_ms total_offset in
  let w' := MainWindow.auto_switch position_ms total_offset [] w in
  (MainWindow._in_lyric_gap w' = true <-> gap_ms < 0 \/ gap_ms > 300)
  /\ (MainWindow._in_lyric_gap w' = true ->
      Oled._display_mode (MainWindow._oled_sim w') = lit "equalizer").
Proof.
  intros Hmode Hgap gap_ms. unfold MainWindow.auto_switch.
  rewrite Hmode, Hgap. simpl. fold gap_ms.
  destruct ((gap_ms <? 0) || (gap_ms >? 300)) eqn:Hg; simpl.
  - apply orb_true_iff in Hg. rewrite Z.ltb_lt, Z.gtb_lt in Hg.
    destruct (MainWindow.serial_is_connected w); simpl;
      (split; [split; [intros _; lia|reflexivity]|intros _]);
      now rewrite set_mode_display_mode.
  - apply orb_false_iff in Hg. destruct Hg as [Hneg Hbig].
    apply Z.ltb_ge in Hneg.
    assert (~ 300 < gap_ms) by (rewrite <- Z.gtb_lt; congruence).
    rewrite Hgap. split; [split; [discriminate|lia]|discriminate].
Qed.

(** A lyric resolving while the flag is set clears it and shows the lyrics
    again. *)
Lemma auto_switch_leaves_gap (position_ms total_offset : Z) (text : str)
    (w : MainWindow.MainWindow) :
  MainWindow.display_mode w = lit "lyrics" ->
  MainWindow._in_lyric_gap w = true ->
  text <> [] ->
  let w' := MainWindow.auto_switch position_ms total_offset text w in
  MainWindow._in_lyric_gap w' = false
  /\ Oled._display_mode (MainWindow._oled_sim w') = lit "lyrics".
Proof.
  intros Hmode Hgap Htext. unfold MainWindow.auto_switch.
  rewrite Hmode, Hgap. destruct text as [|ch text]; [congruence|]. simpl.
  destruct (MainWindow.serial_is_connected w); simpl;
    (split; [reflexivity|now rewrite set_mode_display_mode]).
Qed.

Lemma send_on_change_display_mode (idx : Z) (text : str) (w : MainWindow.MainWindow) :
  Oled._display_mode (MainWindow._oled_sim (MainWindow.send_on_change idx text w))
  = Oled._display_mode (MainWindow._oled_sim w).
Proof.
  unfold MainWindow.send_on_change.
  destruct w as [mode goff lyrics last toff gap conn calls label sim]; simpl.
  destruct (idx =? last); simpl; [reflexivity|].
  destruct conn, gap, (is_empty text); simpl; try reflexivity;
    unfold Oled.set_text; destruct (str_eqb text (Oled._current_text sim));
    reflexivity.
Qed.

(** The loop of [_gap_until_next_lyric] answers [-1] when no line starts
    after the position it is given, and otherwise the time to the start of
    the next line. *)
Lemma gap_scan_next_line (lyrics : list Parser.LyricLine) (adjusted : Z) :
  (MainWindow.gap_scan lyrics adjusted = -1
   /\ forall l, In l lyrics -> Parser.start_ms l <= adjusted)
  \/ exists line,
       next_line lyrics adjusted line
       /\ MainWindow.gap_scan lyrics adjusted = Parser.start_ms line - adjusted.
Proof.
  induction lyrics as [|first rest IH]; simpl.
  - left. split; [reflexivity|]. intros l [].
  - destruct (Parser.start_ms first >? adjusted) eqn:Hlater.
    + right. exists first. split; [|reflexivity].
      exists 0%nat. split; [reflexivity|split; [lia|]].
      intros j l Hj. lia.
    + destruct IH as [[Hnone Hall]|(line & (i & Hi & Hstart & Hbefore) & Hgap)].
      * left. split; [exact Hnone|].
        intros l [<-|Hin]; [lia|now apply Hall].
      * right. exists line. split; [|exact Hgap].
        exists (S i). split; [exact Hi|split; [exact Hstart|]].
        intros [|j] l Hj Hl; simpl in Hl.
        -- injection Hl as <-. lia.
        -- apply (Hbefore j); [lia|exact Hl].
Qed.

(** The next line is one line. *)
Lemma next_line_unique (lyrics : list Parser.LyricLine) (adjusted : Z)
    (line line' : Parser.LyricLine) :
  next_line lyrics adjusted line -> next_line lyrics adjusted line' -> line = line'.
Proof.
  intros (i & Hi & Hstart & Hbefore) (i' & Hi' & Hstart' & Hbefore').
  destruct (Nat.lt_trichotomy i i') as [Hlt|[->|Hlt]].
  - specialize (Hbefore' i line Hlt Hi). lia.
  - congruence.
  - specialize (Hbefore i' line' Hlt Hi'). lia.
Qed.

(** The test [gap_ms < 0 or gap_ms > 300] on the scan's answer. *)
Lemma gap_scan_silence_ahead (lyrics : list Parser.LyricLine) (adjusted : Z) :
  MainWindow.gap_scan lyrics adjusted < 0 \/ MainWindow.gap_scan lyrics adjusted > 300
  <-> silence_ahead lyrics adjusted.
Proof.
  destruct (gap_scan_next_line lyrics adjusted)
    as [[Hnone Hall]|(line & Hnext & Hgap)].
  - split; [intros _; now left|intros _; lia].
  - assert (Hlater : adjusted < Parser.start_ms line).
    { destruct Hnext as (i & _ & H & _). exact H. }
    split.
    + rewrite Hgap. intros [Hneg|Hfar]; [lia|].
      right. exists line. split; [exact Hnext|lia].
    + intros [Hall|(line' & Hnext' & Hfar)].
      * destruct Hnext as (i & Hi & _ & _).
        apply nth_error_In in Hi. specialize (Hall line Hi). lia.
      * rewrite Hgap, (next_line_unique _ _ _ _ Hnext Hnext'). lia.
Qed.

(** The spec-side time to the next start is what the scan computes at the
    position it is given. *)
Lemma time_until_next_start_scan (lyrics : list Parser.LyricLine)
    (position_ms total_offset : Z) :
  time_until_next_start lyrics position_ms total_offset
  = MainWindow.gap_scan lyrics (position_ms + total_offset).
Proof.
  unfold time_until_next_start. cbv zeta.
  induction lyrics as [|line rest IH]; simpl; [reflexivity|].
  rewrite Z.gtb_ltb. destruct (position_ms + total_offset <? Parser.start_ms line).
  - reflexivity.
  - exact IH.
Qed.

(** X1. With a zero total offset, in display mode "lyrics" and with lyrics
    loaded: a tick that resolves no text while the gap flag is clear sets
    the flag, and shows the equalizer, exactly when the next line in list
    order starts more than 300 ms after the position or no line starts
    later; a tick that resolves a text while the flag is set clears it and
    shows the lyrics again. *)
Theorem sync_lyrics_gap_zero_offset (position_ms : Z) (w : MainWindow.MainWindow) :
  MainWindow.display_mode w = lit "lyrics" ->
  MainWindow._lyrics w <> [] ->
  MainWindow._track_offset_ms w + MainWindow.global_offset_ms w = 0 ->
  let resolved :=
    Parser.get_lyric_at_position (MainWindow._lyrics w) position_ms 0 in
  let w' := MainWindow._sync_lyrics position_ms w in
  (snd resolved = [] ->
   MainWindow._in_lyric_gap w = false ->
   (MainWindow._in_lyric_gap w' = true
    <-> silence_ahead (MainWindow._lyrics w) position_ms)
   /\ (MainWindow._in_lyric_gap w' = true ->
       Oled._display_mode (MainWindow._oled_sim w') = lit "equalizer"))
  /\ (snd resolved <> [] ->
      MainWindow._in_lyric_gap w = true ->
      MainWindow._in_lyric_gap w' = false
      /\ Oled._display_mode (MainWindow._oled_sim w') = lit "lyrics").
Proof.
  intros Hmode Hlyrics Hzero resolved w'.
  subst w'. unfold MainWindow._sync_lyrics.
  destruct (MainWindow._lyrics w) as [|line rest] eqn:Hl; [congruence|].
  simpl is_nil. cbv iota. rewrite Hzero. fold resolved.
  destruct resolved as [idx text]. cbn [snd].
  set (w1 := MainWindow.set_controls_lyric text w).
  destruct (send_on_change_calls idx text (MainWindow.auto_switch position_ms 0 text w1))
    as [Hgap _].
  rewrite Hgap, send_on_change_display_mode.
  assert (Hahead : MainWindow._gap_until_next_lyric w1 position_ms 0
                   = MainWindow.gap_scan (line :: rest) position_ms).
  { unfold MainWindow._gap_until_next_lyric.
    simpl MainWindow._lyrics. rewrite Hl. now rewrite Z.sub_0_r. }
  split.
  - intros -> Hclear.
    rewrite <- gap_scan_silence_ahead, <- Hahead.
    now apply auto_switch_enters_gap.
  - intros Htext Hset. now apply auto_switch_leaves_gap.
Qed.

(** The tick at 1000 of the hysteresis example: line b is the next line and
    starts 400 ms later. *)
Lemma sync_lyrics_gap_zero_offset_witness :
  let lyrics :=
    [Parser.mkLyricLine 1 0 1000 (lit "a");
     Parser.mkLyricLine 2 1400 2000 (lit "b")] in
  let w := MainWindow.loaded (lit "lyrics") 0 0 lyrics true in
  MainWindow._in_lyric_gap (MainWindow._sync_lyrics 1000 w) = true
  <-> silence_ahead lyrics 1000.
Proof.
  intros lyrics w.
  assert (Hmode : MainWindow.display_mode w = lit "lyrics") by reflexivity.
  assert (Hlyrics : MainWindow._lyrics w <> []) by discriminate.
  assert (Hzero : MainWindow._track_offset_ms w + MainWindow.global_offset_ms w = 0)
    by reflexivity.
  destruct (sync_lyrics_gap_zero_offset 1000 w Hmode Hlyrics Hzero) as [Hgap _].
  exact (proj1 (Hgap eq_refl eq_refl)).
Defined.

(** X2. The hysteresis example: lines [(1,0,1000,"a")] and [(2,1400,2000,"b")],
    zero offsets, ticks at 1000, 1399 and 1400. *)
Lemma gap_hysteresis_example :
  let lyrics := [Parser.mkLyricLine 1 0 1000 (lit "a");
                 Parser.mkLyricLine 2 1400 2000 (lit "b")] in
  let w0 := MainWindow.loaded (lit "lyrics") 0 0 lyrics true in
  let w1 := MainWindow._sync_lyrics 1000 w0 in
  let w2 := MainWindow._sync_lyrics 1399 w1 in
  let w3 := MainWindow._sync_lyrics 1400 w2 in
  Oled._display_mode (MainWindow._oled_sim w1) = lit "equalizer"
  /\ Oled._display_mode (MainWindow._oled_sim w2) = lit "equalizer"
  /\ Oled._display_mode (MainWindow._oled_sim w3) = lit "lyrics"
  /\ MainWindow.serial_calls w3
     = [MainWindow.call_send_mode (lit "equalizer");
        MainWindow.call_send_mode (lit "lyrics");
        MainWindow.call_send_text (lit "b")].
Proof.
  vm_compute. repeat split; reflexivity.
Qed.

(** ** Lyric commands on index change *)

(** C8, as worded, fails while no device is connected: the first tick inside
    line a changes the index from -1 to 0 with the gap flag clear, and no
    call is made on the connection. *)
Lemma lyric_call_needs_connection :
  ~ lyric_call_iff_index_change 500
      (MainWindow.loaded (lit "lyrics") 0 0
         [Parser.mkLyricLine 1 0 1000 (lit "a")] false).
Proof.
  unfold lyric_call_iff_index_change. vm_compute.
  intros [_ H]. assert (false = true) by (apply H; split; [discriminate|reflexivity]).
  discriminate.
Qed.

(** C8, amended. The lyric calls of one tick: a single [send_text] (or
    [send_clear] for an empty resolution) when the lyric set is not empty,
    the resolved index differs from the cached one, the link is connected
    and the gap flag is clear once the tick's mode switch is done; no lyric
    call otherwise. A tick that resolves the cached index makes none. *)
Theorem sync_lyrics_lyric_calls (position_ms : Z) (w : MainWindow.MainWindow) :
  let total_offset := MainWindow._track_offset_ms w + MainWindow.global_offset_ms w in
  let resolved :=
    Parser.get_lyric_at_position (MainWindow._lyrics w) position_ms total_offset in
  let w' := MainWindow._sync_lyrics position_ms w in
  filter MainWindow.is_lyric_call (MainWindow.calls_during position_ms w)
  = (if negb (is_nil (MainWindow._lyrics w))
        && negb (fst resolved =? MainWindow._last_lyric_idx w)
        && MainWindow.serial_is_connected w
        && negb (MainWindow._in_lyric_gap w')
     then [if is_empty (snd resolved) then MainWindow.call_send_clear
           else MainWindow.call_send_text (snd resolved)]
     else [])
  /\ (fst resolved = MainWindow._last_lyric_idx w ->
      filter MainWindow.is_lyric_call (MainWindow.calls_during position_ms w) = []).
Proof.
  intros total_offset resolved w'.
  assert (Hmain :
    filter MainWindow.is_lyric_call (MainWindow.calls_during position_ms w)
    = (if negb (is_nil (MainWindow._lyrics w))
          && negb (fst resolved =? MainWindow._last_lyric_idx w)
          && MainWindow.serial_is_connected w
          && negb (MainWindow._in_lyric_gap w')
       then [if is_empty (snd resolved) then MainWindow.call_send_clear
             else MainWindow.call_send_text (snd resolved)]
       else [])).
  { unfold MainWindow.calls_during. subst w'.
    unfold MainWindow._sync_lyrics. fold total_offset. fold resolved.
    destruct (is_nil (MainWindow._lyrics w)) eqn:Hnil; simpl.
    { replace (skipn _ _) with (@nil MainWindow.SerialCall); [reflexivity|].
      symmetry. apply skipn_all. }
    destruct resolved as [idx text]; simpl.
    set (w1 := MainWindow.set_controls_lyric text w).
    destruct (auto_switch_frame position_ms total_offset text w1)
      as (_ & Hlast & Hconn & added & Hcalls & Hmode).
    destruct (send_on_change_calls idx text
                (MainWindow.auto_switch position_ms total_offset text w1))
      as [Hgap Hsent].
    rewrite Hsent, Hcalls, Hgap, Hlast, Hconn. simpl.
    rewrite <- app_assoc, skipn_length_app, filter_app, Hmode. simpl.
    destruct (negb (idx =? MainWindow._last_lyric_idx w)
              && MainWindow.serial_is_connected w
              && negb (MainWindow._in_lyric_gap
                         (MainWindow.auto_switch position_ms total_offset text w1)));
      [|reflexivity].
    now destruct (is_empty text). }
  split; [exact Hmain|].
  intros Hsame. rewrite Hmain.
  apply Z.eqb_eq in Hsame. rewrite Hsame. simpl.
  now rewrite andb_false_r.
Qed.

(** ** The heartbeat *)

Section Heartbeat.

Import Connection.

Lemma Qltb_true (a b : Q) : Qltb a b = true <-> (a < b)%Q.
Proof.
  unfold Qltb. rewrite negb_true_iff.
  destruct (Qle_bool b a) eqn:H.
  - apply Qle_bool_iff in H. split; [discriminate|].
    intros Hlt. exfalso. exact (Qlt_not_le _ _ Hlt H).
  - split; [intros _|reflexivity].
    apply Qnot_le_lt. intros Hle. apply Qle_bool_iff in Hle. congruence.
Qed.

Lemma open_port_awaiting (port : str) (baud : Z) (t0 : Q) (c0 : SerialConnection) :
  scheduled c0 = [] ->
  awaiting port t0 (emitted (fst (open_port port baud None t0 c0)))
    (fst (open_port port baud None t0 c0)).
Proof.
  intros Hq. unfold open_port, close_port, _write.
  destruct (_is_connected c0); simpl; constructor; simpl; auto.
Qed.

(** A tick before the timeout writes a PING and changes nothing else. *)
Lemma early_tick_awaiting (port : str) (t0 now : Q) (sigs : list Signal)
    (c : SerialConnection) :
  awaiting port t0 sigs c ->
  ~ (PONG_TIMEOUT_S < now - t0)%Q ->
  awaiting port t0 sigs (scheduler_turn (ping_timer_timeout now c)).
Proof.
  intros Hc Hearly.
  destruct (Qltb PONG_TIMEOUT_S (now - t0)) eqn:Hlt.
  { apply Qltb_true in Hlt. contradiction. }
  destruct Hc as [Ho Hp Hr Hc Ht Ha He Hs]. destruct c; simpl in *; subst.
  unfold ping_timer_timeout, _send_ping, _write; simpl. rewrite Hlt.
  constructor; reflexivity.
Qed.

(** What [_send_ping] does once the timeout has passed: the link is marked
    not connected, one error naming the port is emitted, and [close_port]
    is queued, not run: the handle and the running flag are as before. *)
Lemma send_ping_timeout (now : Q) (c : SerialConnection) :
  _running c = true ->
  (PONG_TIMEOUT_S < now - _last_pong_time c)%Q ->
  let c' := _send_ping now c in
  _is_connected c' = false
  /\ emitted c' = emitted c ++ [error (lit "No response from " ++ _port c)]
  /\ scheduled c' = scheduled c ++ [call_close_port]
  /\ _running c' = true
  /\ _serial_open c' = _serial_open c.
Proof.
  intros Hr Hlate. apply Qltb_true in Hlate.
  unfold _send_ping. rewrite Hr. simpl.
  unfold _write. destruct (_serial_open c) eqn:Ho; simpl; rewrite Hlate;
    destruct (_is_connected c) eqn:Hc; simpl; rewrite ?Hc; auto.
Qed.

(** The tick that finds the timeout passed, with the scheduler turn after
    it: one error, no [disconnected], and the link torn down. *)
Lemma late_tick_torn_down (port : str) (t0 now : Q) (sigs : list Signal)
    (c : SerialConnection) :
  awaiting port t0 sigs c ->
  (PONG_TIMEOUT_S < now - t0)%Q ->
  torn_down (sigs ++ [error (lit "No response from " ++ port)])
    (scheduler_turn (ping_timer_timeout now c)).
Proof.
  intros Hc Hlate. apply Qltb_true in Hlate.
  destruct Hc as [Ho Hp Hr Hc Ht Ha He Hs]. destruct c; simpl in *; subst.
  unfold ping_timer_timeout, _send_ping, _write; simpl. rewrite Hlate.
  constructor; reflexivity.
Qed.

(** Nothing fires on a link torn down. *)
Lemma torn_down_ticks (sigs : list Signal) (times : list Q) :
  forall c, torn_down sigs c -> torn_down sigs (silent_ticks times c).
Proof.
  induction times as [|now later IH]; intros c Hc; simpl; [assumption|].
  apply IH. destruct Hc as [Ho Hr Hth Hc Ht He Hs].
  unfold ping_timer_timeout. rewrite Ht.
  unfold scheduler_turn. rewrite Hs. simpl.
  constructor; simpl; auto.
Qed.

Lemma torn_down_close_port (sigs : list Signal) (c : SerialConnection) :
  torn_down sigs c -> torn_down sigs (close_port c).
Proof.
  intros [Ho Hr Hth Hc Ht He Hs]. unfold close_port. simpl. rewrite Hc.
  constructor; simpl; auto.
Qed.

Lemma silent_ticks_timeout (port : str) (t0 : Q) (sigs : list Signal) (times : list Q) :
  Exists (fun now => PONG_TIMEOUT_S < now - t0)%Q times ->
  forall c,
    awaiting port t0 sigs c ->
    torn_down (sigs ++ [error (lit "No response from " ++ port)])
      (silent_ticks times c).
Proof.
  induction times as [|now later IH]; intros Hex c Hc.
  - inversion Hex.
  - simpl. destruct (Qlt_le_dec PONG_TIMEOUT_S (now - t0)) as [Hlate|Hearly].
    + apply torn_down_ticks. now apply late_tick_torn_down with (t0 := t0).
    + apply IH.
      * inversion Hex as [? ? Hnow|? ? Hlater]; subst; [|assumption].
        exfalso. exact (Qlt_not_le _ _ Hnow Hearly).
      * apply early_tick_awaiting; [assumption|].
        intros Hlt. exact (Qlt_not_le _ _ Hlt Hearly).
Qed.

End Heartbeat.

(** ** The spectrum analyzer *)

Section Levels.

Import Spectrum.

Variable sample : Type.
Variable rnd : Q -> Q.
Variable band_db : list sample -> Z -> Z -> Q.
Variable has_numpy : bool.

Lemma trunc_floor (x : Q) : (0 <= x)%Q -> trunc x = Qfloor x.
Proof.
  destruct x as [n d]. unfold Qle, trunc; simpl. intros H.
  apply Z.quot_div_nonneg; lia.
Qed.

(** The clamped value [max(0, min(12, x))] is 0, 12, or [x] itself strictly
    between them. *)
Lemma clamp_cases (x : Q) :
  (py_max 0 (py_min 12 x) = 0%Q /\ (x <= 0)%Q)
  \/ (py_max 0 (py_min 12 x) = 12%Q /\ (12 <= x)%Q)
  \/ (py_max 0 (py_min 12 x) = x /\ (0 < x)%Q /\ (x < 12)%Q).
Proof.
  unfold py_min, py_max.
  destruct (Qle_bool 12 x) eqn:H12.
  - right; left. apply Qle_bool_iff in H12. split; [reflexivity|assumption].
  - assert (x < 12)%Q.
    { apply Qnot_le_lt. intros H. apply Qle_bool_iff in H. congruence. }
    destruct (Qle_bool x 0) eqn:H0.
    + left. apply Qle_bool_iff in H0. split; [reflexivity|assumption].
    + right; right. split; [reflexivity|split; [|assumption]].
      apply Qnot_le_lt. intros H'. apply Qle_bool_iff in H'. congruence.
Qed.

Lemma level_of_db_range (db : Q) : 0 <= level_of_db rnd db <= 12.
Proof.
  unfold level_of_db.
  destruct (clamp_cases (rnd (rnd (rnd (db + 48) * 12) / 45)))
    as [[-> _]|[[-> _]|(-> & Hlo & Hhi)]].
  - vm_compute. split; discriminate.
  - vm_compute. split; discriminate.
  - rewrite trunc_floor by (apply Qlt_le_weak; exact Hlo).
    split.
    + rewrite <- (Qfloor_Z 0). apply Qfloor_resp_le, Qlt_le_weak, Hlo.
    + rewrite <- (Qfloor_Z 12). apply Qfloor_resp_le, Qlt_le_weak, Hhi.
Qed.

Lemma band_level_range (chunk : list sample) (edge : Z * Z) :
  0 <= band_level sample rnd band_db chunk edge <= 12.
Proof.
  unfold band_level. destruct edge as [low_bin high_bin].
  destruct (low_bin >=? _); [lia|apply level_of_db_range].
Qed.

Lemma get_levels_range (a : SpectrumAnalyzer sample) (position_ms : Z) (levels : list Z) :
  get_levels sample rnd band_db has_numpy a position_ms = Some levels ->
  Forall (fun level => 0 <= level <= 12) levels.
Proof.
  unfold get_levels.
  destruct (negb has_numpy); [discriminate|].
  destruct (_samples sample a) as [samples|]; [|discriminate].
  destruct (_ >? _); intros [= <-].
  - apply Forall_forall. intros level Hin.
    repeat (destruct Hin as [<-|Hin]; [lia|]). destruct Hin.
  - apply Forall_forall. intros level Hin. apply in_map_iff in Hin.
    destruct Hin as (edge & <- & _). apply band_level_range.
Qed.

(** The rounding is monotone and leaves the integers it meets here as they
    are, as rounding to the nearest float does. *)
Hypothesis rnd_monotone : forall x y : Q, (x <= y)%Q -> (rnd x <= rnd y)%Q.
Hypothesis rnd_integer :
  forall n : Z, -1024 <= n <= 1024 -> (rnd (inject_Z n) == inject_Z n)%Q.

Lemma rnd_le_integer (x : Q) (n : Z) :
  -1024 <= n <= 1024 -> (x <= inject_Z n)%Q -> (rnd x <= inject_Z n)%Q.
Proof.
  intros Hn Hx. rewrite <- (rnd_integer n Hn). now apply rnd_monotone.
Qed.

Lemma rnd_ge_integer (x : Q) (n : Z) :
  -1024 <= n <= 1024 -> (inject_Z n <= x)%Q -> (inject_Z n <= rnd x)%Q.
Proof.
  intros Hn Hx. rewrite <- (rnd_integer n Hn). now apply rnd_monotone.
Qed.

Lemma scaled_db_low (db : Q) : (db <= -48)%Q -> (scaled_db rnd db <= 0)%Q.
Proof.
  intros H. unfold scaled_db.
  apply (rnd_le_integer _ 0); [lia|].
  apply Qle_shift_div_r; [reflexivity|].
  setoid_replace (inject_Z 0 * 45)%Q with (inject_Z 0) by reflexivity.
  apply (rnd_le_integer _ 0); [lia|].
  assert (rnd (db + 48) <= inject_Z 0)%Q.
  { apply (rnd_le_integer _ 0); [lia|]. change (inject_Z 0) with 0%Q. lra. }
  change (inject_Z 0) with 0%Q in *. lra.
Qed.

Lemma scaled_db_high (db : Q) : (-3 <= db)%Q -> (12 <= scaled_db rnd db)%Q.
Proof.
  intros H. unfold scaled_db.
  apply (rnd_ge_integer _ 12); [lia|].
  apply Qle_shift_div_l; [reflexivity|].
  setoid_replace (inject_Z 12 * 45)%Q with (inject_Z 540) by reflexivity.
  apply (rnd_ge_integer _ 540); [lia|].
  assert (inject_Z 45 <= rnd (db + 48))%Q.
  { apply (rnd_ge_integer _ 45); [lia|]. change (inject_Z 45) with 45%Q. lra. }
  change (inject_Z 45) with 45%Q in *. change (inject_Z 540) with 540%Q. lra.
Qed.

Lemma level_of_db_low (db : Q) : (db <= -48)%Q -> level_of_db rnd db = 0.
Proof.
  intros H. apply scaled_db_low in H. unfold level_of_db. fold (scaled_db rnd db).
  destruct (clamp_cases (scaled_db rnd db)) as [[-> _]|[[_ H12]|(_ & Hlo & _)]].
  - reflexivity.
  - lra.
  - lra.
Qed.

Lemma level_of_db_high (db : Q) : (-3 <= db)%Q -> level_of_db rnd db = 12.
Proof.
  intros H. apply scaled_db_high in H. unfold level_of_db. fold (scaled_db rnd db).
  destruct (clamp_cases (scaled_db rnd db)) as [[_ H0]|[[-> _]|(_ & _ & Hhi)]].
  - lra.
  - reflexivity.
  - lra.
Qed.

(** Between the two ends the level is the integer part of the scaled
    value. *)
Lemma level_of_db_between (db : Q) :
  (-48 <= db)%Q -> (db <= -3)%Q ->
  (inject_Z (level_of_db rnd db) <= scaled_db rnd db)%Q
  /\ (level_of_db rnd db = 12
      \/ (scaled_db rnd db < inject_Z (level_of_db rnd db + 1))%Q).
Proof.
  intros Hlo Hhi. unfold level_of_db. fold (scaled_db rnd db).
  assert (H0 : (0 <= scaled_db rnd db)%Q).
  { unfold scaled_db.
    apply (rnd_ge_integer _ 0); [lia|].
    apply Qle_shift_div_l; [reflexivity|].
    setoid_replace (inject_Z 0 * 45)%Q with (inject_Z 0) by reflexivity.
    apply (rnd_ge_integer _ 0); [lia|].
    assert (inject_Z 0 <= rnd (db + 48))%Q.
    { apply (rnd_ge_integer _ 0); [lia|]. change (inject_Z 0) with 0%Q. lra. }
    change (inject_Z 0) with 0%Q in *. lra. }
  destruct (clamp_cases (scaled_db rnd db)) as [[-> Hz]|[[-> H12]|(-> & Hpos & Hlt)]].
  - split; [exact H0|right].
    apply Qle_lt_trans with (y := 0%Q); [exact Hz|reflexivity].
  - split; [exact H12|left; reflexivity].
  - rewrite trunc_floor by exact H0.
    split; [apply Qfloor_le|right; apply Qlt_floor].
Qed.

End Levels.

(** C4. With numpy present and the decode complete, [get_levels] returns
    twelve zero levels whenever the analysis window ends past the decoded
    samples, which it does for every position whose sample index lies past
    them; and it returns [None] exactly when numpy is absent or no decoded
    samples are held. *)
Theorem get_levels_silent_or_unavailable (sample : Type) (rnd : Q -> Q)
    (band_db : list sample -> Z -> Z -> Q) (has_numpy : bool)
    (a : Spectrum.SpectrumAnalyzer sample) (position_ms : Z) :
  let result := Spectrum.get_levels sample rnd band_db has_numpy a position_ms in
  let sr := Spectrum._sample_rate sample a in
  (forall samples,
      has_numpy = true ->
      Spectrum._samples sample a = Some samples ->
      (Spectrum.window_end sr position_ms > len samples
       \/ Z.quot (position_ms * sr) 1000 >= len samples) ->
      result = Some [0; 0; 0; 0; 0; 0; 0; 0; 0; 0; 0; 0])
  /\ (result = None <-> has_numpy = false \/ Spectrum._samples sample a = None).
Proof.
  intros result sr. subst result. unfold Spectrum.get_levels. fold sr. split.
  - intros samples -> -> Hpast. simpl.
    assert (Hend : Spectrum.window_end sr position_ms > len samples).
    { destruct Hpast as [H|H]; [exact H|].
      unfold Spectrum.window_end, Spectrum.window_start, Spectrum.FFT_SIZE.
      change (2048 / 2) with 1024. lia. }
    apply Z.gt_lt, Z.gtb_lt in Hend. now rewrite Hend.
  - destruct has_numpy; simpl.
    + destruct (Spectrum._samples sample a) as [samples|].
      * destruct (_ >? _); split; try discriminate; intros [H|H]; discriminate.
      * split; auto.
    + split; auto.
Qed.

(** C7. For each band [(low_bin, high_bin)] of the table, with [hi] the
    smaller of [high_bin] and the length of the spectrum, the level
    [get_levels] returns for the band is
    [int(max(0, min(12, (db + 48) * 12 / 45)))] ([Spectrum.level_of_db]) of
    the band's [db], the decibel value of its bins [low_bin..hi-1] in the
    window of 2048 samples at the position (and 0 for a band with no bin).
    With float rounding monotone and exact on small integers, -48 dB gives
    0 and -3 dB gives 12, every value below -48 dB gives 0 and every value
    above -3 dB gives 12, and in between the level is the integer part of
    the scaled value; whatever the rounding, every level, and every entry
    of a list [get_levels] returns, lies in 0..12. *)
Theorem level_of_db_linear_clamped (rnd : Q -> Q) :
  (forall x y : Q, (x <= y)%Q -> (rnd x <= rnd y)%Q) ->
  (forall n : Z, -1024 <= n <= 1024 -> (rnd (inject_Z n) == inject_Z n)%Q) ->
  Spectrum.level_of_db rnd (-48) = 0
  /\ Spectrum.level_of_db rnd (-3) = 12
  /\ (forall db, (db <= -48)%Q -> Spectrum.level_of_db rnd db = 0)
  /\ (forall db, (-3 <= db)%Q -> Spectrum.level_of_db rnd db = 12)
  /\ (forall db, (-48 <= db)%Q -> (db <= -3)%Q ->
        (inject_Z (Spectrum.level_of_db rnd db) <= scaled_db rnd db)%Q
        /\ (Spectrum.level_of_db rnd db = 12
            \/ (scaled_db rnd db < inject_Z (Spectrum.level_of_db rnd db + 1))%Q))
  /\ (forall db, 0 <= Spectrum.level_of_db rnd db <= 12)
  /\ (forall (sample : Type) (band_db : list sample -> Z -> Z -> Q)
             (has_numpy : bool) (a : Spectrum.SpectrumAnalyzer sample)
             (position_ms : Z) (levels : list Z),
        Spectrum.get_levels sample rnd band_db has_numpy a position_ms = Some levels ->
        Forall (fun level => 0 <= level <= 12) levels)
  /\ (forall (sample : Type) (band_db : list sample -> Z -> Z -> Q)
             (has_numpy : bool) (a : Spectrum.SpectrumAnalyzer sample)
             (position_ms : Z) (samples : list sample) (levels : list Z),
        Spectrum.get_levels sample rnd band_db has_numpy a position_ms = Some levels ->
        Spectrum._samples sample a = Some samples ->
        let sr := Spectrum._sample_rate sample a in
        Spectrum.window_end sr position_ms <= len samples ->
        let chunk :=
          firstn (Z.to_nat Spectrum.FFT_SIZE)
                 (skipn (Z.to_nat (Spectrum.window_start sr position_ms)) samples) in
        length levels = length (Spectrum._band_edges sample a)
        /\ forall (i : nat) (low_bin high_bin : Z),
             nth_error (Spectrum._band_edges sample a) i = Some (low_bin, high_bin) ->
             let hi := Z.min high_bin (Spectrum.FFT_SIZE / 2 + 1) in
             (low_bin < hi ->
              nth_error levels i
              = Some (Spectrum.level_of_db rnd (band_db chunk low_bin hi)))
             /\ (hi <= low_bin -> nth_error levels i = Some 0)).
Proof.
  intros Hmono Hint.
  split; [|split; [|split; [|split; [|split; [|split; [|split]]]]]].
  - apply level_of_db_low; auto. apply Qle_refl.
  - apply level_of_db_high; auto. apply Qle_refl.
  - intros db. now apply level_of_db_low.
  - intros db. now apply level_of_db_high.
  - intros db. now apply level_of_db_between.
  - apply level_of_db_range.
  - intros sample band_db has_numpy a position_ms levels.
    apply get_levels_range.
  - intros sample band_db has_numpy a position_ms samples levels Hlevels Hsamples
      sr Hend chunk.
    unfold Spectrum.get_levels in Hlevels.
    destruct (negb has_numpy); [discriminate|].
    rewrite Hsamples in Hlevels. fold sr in Hlevels.
    assert (Hin : (Spectrum.window_end sr position_ms >? len samples) = false).
    { rewrite Z.gtb_ltb. apply Z.ltb_ge. exact Hend. }
    rewrite Hin in Hlevels. fold chunk in Hlevels. injection Hlevels as <-.
    split; [apply length_map|].
    intros i low_bin high_bin Hedge hi.
    rewrite nth_error_map, Hedge. cbn [option_map].
    unfold Spectrum.band_level. fold hi.
    split; intros Hbins.
    + assert (Hge : (low_bin >=? hi) = false)
        by (rewrite Z.geb_leb; apply Z.leb_gt; exact Hbins).
      now rewrite Hge.
    + assert (Hge : (low_bin >=? hi) = true)
        by (rewrite Z.geb_leb; apply Z.leb_le; exact Hbins).
      now rewrite Hge.
Qed.

(** With exact arithmetic for the rounding: the two ends of the scale, the
    middle of it, and an analyzer over 4096 samples with three bands, the
    first at -3 dB, the second at -48 dB and the third with no bin. *)
Lemma level_of_db_linear_clamped_witness :
  let band_db (chunk : list Z) (low_bin hi : Z) : Q :=
    if low_bin =? 3 then (-3)%Q else (-48)%Q in
  let a :=
    Spectrum.mkSpectrumAnalyzer Z (Some (repeat 0 4096)) 44100
      [(3, 4); (5, 9); (2000, 2000)] in
  Spectrum.level_of_db (fun x => x) (-48) = 0
  /\ Spectrum.level_of_db (fun x => x) (-3) = 12
  /\ 0 <= Spectrum.level_of_db (fun x => x) (-51 # 2) <= 12
  /\ Spectrum.get_levels Z (fun x => x) band_db true a 24 = Some [12; 0; 0]
  /\ nth_error [12; 0; 0] 0 = Some (Spectrum.level_of_db (fun x => x) (-3)).
Proof.
  intros band_db a.
  destruct (level_of_db_linear_clamped (fun x => x))
    as (H48 & H3 & _ & _ & _ & Hr & _ & Hband).
  - intros x y H. exact H.
  - intros n _. reflexivity.
  - assert (Hlevels : Spectrum.get_levels Z (fun x => x) band_db true a 24
                      = Some [12; 0; 0]) by (vm_compute; reflexivity).
    split; [exact H48|split; [exact H3|split; [apply Hr|split; [exact Hlevels|]]]].
    assert (Hend : Spectrum.window_end 44100 24 <= len (repeat 0 4096))
      by (vm_compute; discriminate).
    destruct (Hband Z band_db true a 24 (repeat 0 4096) [12; 0; 0] Hlevels eq_refl Hend)
      as [_ Hat].
    destruct (Hat 0%nat 3 4 eq_refl) as [Hfirst _].
    apply Hfirst. reflexivity.
Defined.

(** ** The equalizer line *)

Section RoundTrip.

Lemma clamp_level_range (v : Z) : 0 <= clamp_level v <= 12.
Proof.
  unfold clamp_level. lia.
Qed.

Lemma clamp_level_id (v : Z) : 0 <= v <= 12 -> clamp_level v = v.
Proof.
  unfold clamp_level. lia.
Qed.


Lemma split_on_no_sep (sep : ascii) (p : str) :
  ~ In sep p -> split_on sep p = [p].
Proof.
  induction p as [|c p IH]; intros Hno; simpl; [reflexivity|].
  destruct (Ascii.eqb c sep) eqn:He.
  - apply Ascii.eqb_eq in He. exfalso. apply Hno. now left.
  - rewrite IH; [reflexivity|]. intros Hin. apply Hno. now right.
Qed.

Lemma split_on_app_sep (sep : ascii) (p rest : str) :
  ~ In sep p -> split_on sep (p ++ sep :: rest) = p :: split_on sep rest.
Proof.
  induction p as [|c p IH]; intros Hno; simpl.
  - now rewrite Ascii.eqb_refl.
  - destruct (Ascii.eqb c sep) eqn:He.
    + apply Ascii.eqb_eq in He. exfalso. apply Hno. now left.
    + rewrite IH; [reflexivity|]. intros Hin. apply Hno. now right.
Qed.

(** Splitting a joined list of comma-free fields gives the fields back,
    when there is at least one. *)
Lemma split_on_join (sep : ascii) (fields : list str) :
  fields <> [] ->
  Forall (fun p => ~ In sep p) fields ->
  split_on sep (join [sep] fields) = fields.
Proof.
  induction fields as [|p rest IH]; intros Hne Hall; [congruence|].
  inversion Hall as [|? ? Hp Hrest]; subst.
  destruct rest as [|q rest].
  - simpl. now apply split_on_no_sep.
  - change (join [sep] (p :: q :: rest)) with (p ++ sep :: join [sep] (q :: rest)).
    rewrite split_on_app_sep by assumption.
    rewrite IH; [reflexivity|discriminate|assumption].
Qed.






End RoundTrip.



(** ** Word wrap *)

Section WordWrap.

Import Oled.

Lemma slice_nat {A : Type} (xs : list A) (p q : nat) :
  (p <= q <= length xs)%nat ->
  slice xs (Z.of_nat p) (Z.of_nat q) = firstn (q - p) (skipn p xs).
Proof.
  intros H. unfold slice, len.
  assert (Hp : (Z.of_nat p <? 0) = false) by (apply Z.ltb_ge; lia).
  assert (Hq : (Z.of_nat q <? 0) = false) by (apply Z.ltb_ge; lia).
  rewrite Hp, Hq.
  replace (Z.min (Z.of_nat p) (Z.of_nat (length xs))) with (Z.of_nat p) by lia.
  replace (Z.min (Z.of_nat q) (Z.of_nat (length xs))) with (Z.of_nat q) by lia.
  rewrite Nat2Z.id. f_equal. lia.
Qed.

Lemma item_nat {A : Type} (xs : list A) (k : nat) :
  item xs (Z.of_nat k) = nth_error xs k.
Proof.
  unfold item, len.
  assert (Hk : (Z.of_nat k <? 0) = false) by (apply Z.ltb_ge; lia).
  cbv zeta. rewrite !Hk. simpl orb.
  destruct (Z.of_nat (length xs) <=? Z.of_nat k) eqn:Hlen.
  - apply Z.leb_le in Hlen. symmetry. apply nth_error_None. lia.
  - now rewrite Nat2Z.id.
Qed.

Lemma skipn_nth_error {A : Type} (xs : list A) :
  forall k x, nth_error xs k = Some x -> skipn k xs = x :: skipn (S k) xs.
Proof.
  induction xs as [|y xs IH]; intros [|k] x H; simpl in *; try discriminate.
  - now injection H as ->.
  - now apply IH.
Qed.

Lemma scan_fold (text : str) (p : nat) :
  forall n s acc,
    (p + s + n <= length text)%nat ->
    fold_left
      (fun last_space i =>
         match item text i with
         | Some ch => if Ascii.eqb ch " "%char then i else last_space
         | None => last_space
         end)
      (map (fun k => Z.of_nat p + Z.of_nat k) (seq s n)) (scan_code p acc)
    = scan_code p (last_space_from s (firstn n (skipn (p + s) text)) acc).
Proof.
  induction n as [|n IH]; intros s acc Hlen; [reflexivity|].
  destruct (nth_error text (p + s)) as [ch|] eqn:Hch.
  2:{ apply nth_error_None in Hch. lia. }
  rewrite (skipn_nth_error _ _ _ Hch).
  cbn [firstn last_space_from seq map fold_left].
  replace (S (p + s)) with (p + S s)%nat by lia.
  rewrite <- IH by lia. f_equal.
  replace (Z.of_nat p + Z.of_nat s) with (Z.of_nat (p + s)) by lia.
  rewrite item_nat, Hch.
  now destruct (Ascii.eqb ch " "%char).
Qed.

Lemma scan_last_space_nat (text : str) (p n : nat) :
  (p + n <= length text)%nat ->
  scan_last_space text (Z.of_nat p) (Z.of_nat (p + n))
  = scan_code p (last_space (firstn n (skipn p text))).
Proof.
  intros Hlen. unfold scan_last_space, range, last_space.
  replace (Z.to_nat (Z.of_nat (p + n) - Z.of_nat p)) with n by lia.
  change (-1) with (scan_code p None).
  rewrite scan_fold by lia.
  now rewrite Nat.add_0_r.
Qed.

Lemma last_space_from_bound (w : str) :
  forall i acc j,
    last_space_from i w acc = Some j ->
    acc = Some j \/ (i <= j < i + length w)%nat.
Proof.
  induction w as [|ch w IH]; intros i acc j H; simpl in H; [now left|].
  apply IH in H. destruct H as [H|H]; [|right; simpl; lia].
  destruct (Ascii.eqb ch " "%char); [|now left].
  injection H as <-. right. simpl. lia.
Qed.

Lemma last_space_bound (w : str) (j : nat) :
  last_space w = Some j -> (j < length w)%nat.
Proof.
  intros H. apply last_space_from_bound in H.
  destruct H as [H|H]; [discriminate|lia].
Qed.

Lemma break_after_first_bound (n : nat) (rest : str) (j : nat) :
  break_after_first n rest = Some j -> (0 < j < n)%nat /\ (j < length rest)%nat.
Proof.
  unfold break_after_first.
  destruct (last_space (firstn n rest)) as [[|k]|] eqn:H; try discriminate.
  intros [= <-]. apply last_space_bound in H. rewrite length_firstn in H. lia.
Qed.

(** One pass of the loop body, read on the rest of the text. *)
Lemma wrap_body_nat (text : str) (n : nat) (lines : list str) (p : nat) :
  (p <= length text)%nat ->
  let rest := skipn p text in
  wrap_body text (Z.of_nat n) lines (Z.of_nat p)
  = if (length rest <=? n)%nat then (lines ++ [rest], None)
    else match break_after_first n rest with
         | Some j => (lines ++ [firstn j rest], Some (Z.of_nat (p + S j)))
         | None => (lines ++ [firstn n rest], Some (Z.of_nat (p + n)))
         end.
Proof.
  intros Hp rest. unfold wrap_body, len.
  assert (Hrest : length rest = (length text - p)%nat) by apply length_skipn.
  destruct (length rest <=? n)%nat eqn:Hfit.
  - apply Nat.leb_le in Hfit.
    assert (H : (Z.of_nat (length text) - Z.of_nat p <=? Z.of_nat n) = true)
      by (apply Z.leb_le; lia).
    rewrite H. f_equal. f_equal. f_equal.
    rewrite slice_nat by lia. subst rest.
    apply firstn_all2. rewrite length_skipn. lia.
  - apply Nat.leb_gt in Hfit.
    assert (H : (Z.of_nat (length text) - Z.of_nat p <=? Z.of_nat n) = false)
      by (apply Z.leb_gt; lia).
    rewrite H.
    replace (Z.min (Z.of_nat p + Z.of_nat n) (Z.of_nat (length text)))
      with (Z.of_nat (p + n)) by lia.
    rewrite scan_last_space_nat by lia. fold rest.
    unfold break_after_first.
    destruct (last_space (firstn n rest)) as [[|k]|] eqn:Hsp; cbn [scan_code].
    + rewrite Nat.add_0_r.
      assert (Hgt : (Z.of_nat p >? Z.of_nat p) = false) by (rewrite Z.gtb_ltb; apply Z.ltb_irrefl).
      rewrite Hgt. f_equal; [|f_equal; lia].
      f_equal. f_equal.
      replace (Z.of_nat p + Z.of_nat n) with (Z.of_nat (p + n)) by lia.
      rewrite slice_nat by lia. f_equal. lia.
    + apply last_space_bound in Hsp. rewrite length_firstn in Hsp.
      assert (Hgt : (Z.of_nat (p + S k) >? Z.of_nat p) = true) by (apply Z.gtb_lt; lia).
      rewrite Hgt. f_equal; [|f_equal; lia].
      f_equal. f_equal. rewrite slice_nat by lia. f_equal. lia.
    + assert (Hgt : (-1 >? Z.of_nat p) = false).
      { destruct (-1 >? Z.of_nat p) eqn:E; [|reflexivity]. apply Z.gtb_lt in E. lia. }
      rewrite Hgt. f_equal; [|f_equal; lia].
      f_equal. f_equal.
      replace (Z.of_nat p + Z.of_nat n) with (Z.of_nat (p + n)) by lia.
      rewrite slice_nat by lia. f_equal. lia.
Qed.

End WordWrap.

Section WrapLoop.

Import Oled.

(** A pass of the loop body appends exactly one line. *)
Lemma wrap_body_appends (text : str) (cpl : Z) (lines : list str) (pos : Z) :
  exists line, fst (wrap_body text cpl lines pos) = lines ++ [line].
Proof.
  unfold wrap_body.
  destruct (_ <=? _); [eexists; reflexivity|].
  destruct (_ >? _); eexists; reflexivity.
Qed.

(** The loop returns within [33 - len(lines)] tests of its condition, with
    at most 32 lines, whatever the text, the budget and the position; more
    fuel changes nothing. *)
Lemma wrap_loop_total (text : str) (cpl : Z) :
  forall fuel lines pos,
    (length lines <= 32)%nat ->
    (33 <= fuel + length lines)%nat ->
    exists result,
      wrap_loop fuel text cpl lines pos = Some result
      /\ (length result <= 32)%nat
      /\ forall fuel',
           (33 <= fuel' + length lines)%nat ->
           wrap_loop fuel' text cpl lines pos = Some result.
Proof.
  induction fuel as [|f IH]; intros lines pos Hcap Hfuel; [lia|].
  simpl.
  destruct ((pos <? len text) && (len lines <? 32)) eqn:Htest.
  - assert (Hroom : (length lines < 32)%nat).
    { apply andb_true_iff in Htest. destruct Htest as [_ H].
      apply Z.ltb_lt in H. unfold len in H. lia. }
    destruct (wrap_body_appends text cpl lines pos) as [line Hline].
    destruct (wrap_body text cpl lines pos) as [lines' [pos'|]] eqn:Hbody;
      simpl in Hline; subst lines'.
    + destruct (IH (lines ++ [line]) pos') as (result & Hres & Hlen & Hmore).
      { rewrite length_app. simpl. lia. }
      { rewrite length_app. simpl. lia. }
      exists result. split; [exact Hres|split; [exact Hlen|]].
      intros [|f'] Hf'; [lia|]. simpl. rewrite Htest, Hbody.
      apply Hmore. rewrite length_app. simpl. lia.
    + exists (lines ++ [line]). split; [reflexivity|split].
      * rewrite length_app. simpl. lia.
      * intros [|f'] Hf'; [lia|]. simpl. now rewrite Htest, Hbody.
  - exists lines. split; [reflexivity|split; [exact Hcap|]].
    intros [|f'] Hf'; [lia|]. simpl. now rewrite Htest.
Qed.

Lemma greedy_nil (break : nat -> str -> option nat) (fuel budget : nat) :
  greedy break fuel budget [] = [].
Proof.
  now destruct fuel.
Qed.

(** The loop computes the greedy lines of the rest of the text, as many as
    the cap leaves room for. *)
Lemma wrap_loop_greedy (text : str) (n : nat) :
  (1 <= n)%nat ->
  forall fuel gfuel lines p,
    (p <= length text)%nat ->
    (length (skipn p text) <= gfuel)%nat ->
    (length lines <= 32)%nat ->
    (33 <= fuel + length lines)%nat ->
    wrap_loop fuel text (Z.of_nat n) lines (Z.of_nat p)
    = Some (lines
            ++ firstn (32 - length lines)
                 (greedy break_after_first gfuel n (skipn p text))).
Proof.
  intros Hn. induction fuel as [|f IH]; intros gfuel lines p Hp Hg Hcap Hfuel; [lia|].
  pose proof (length_skipn p text) as Hrest.
  cbn [wrap_loop].
  destruct ((Z.of_nat p <? len text) && (len lines <? 32)) eqn:Htest.
  - apply andb_true_iff in Htest. destruct Htest as [Hpos Hroom].
    apply Z.ltb_lt in Hpos. apply Z.ltb_lt in Hroom. unfold len in Hpos, Hroom.
    rewrite wrap_body_nat by exact Hp. cbv zeta.
    destruct gfuel as [|g]; [lia|].
    assert (Hm : exists m, (32 - length lines)%nat = S m)
      by (exists (31 - length lines)%nat; lia).
    destruct Hm as [m Hm]. rewrite Hm.
    destruct (skipn p text) as [|ch rest'] eqn:Hsk; [simpl in Hrest; lia|].
    cbn [greedy].
    destruct (length (ch :: rest') <=? n)%nat eqn:Hfit;
      [cbn [firstn]; now rewrite firstn_nil|].
    apply Nat.leb_gt in Hfit.
    destruct (break_after_first n (ch :: rest')) as [j|] eqn:Hbr.
    + apply break_after_first_bound in Hbr. destruct Hbr as [Hj Hjlen].
      rewrite (IH g).
      * rewrite length_app. cbn [length].
        replace (32 - (length lines + 1))%nat with m by lia.
        rewrite <- app_assoc. cbn [firstn app].
        replace (p + S j)%nat with (S j + p)%nat by lia.
        now rewrite <- skipn_skipn, Hsk.
      * lia.
      * rewrite length_skipn. lia.
      * rewrite length_app. simpl. lia.
      * rewrite length_app. simpl. lia.
    + rewrite (IH g).
      * rewrite length_app. cbn [length].
        replace (32 - (length lines + 1))%nat with m by lia.
        rewrite <- app_assoc. cbn [firstn app].
        replace (p + n)%nat with (n + p)%nat by lia.
        now rewrite <- skipn_skipn, Hsk.
      * lia.
      * rewrite length_skipn. lia.
      * rewrite length_app. simpl. lia.
      * rewrite length_app. simpl. lia.
  - f_equal. apply andb_false_iff in Htest. destruct Htest as [Hpos|Hroom].
    + apply Z.ltb_ge in Hpos. unfold len in Hpos.
      rewrite skipn_all2 by lia. rewrite greedy_nil, firstn_nil.
      now rewrite app_nil_r.
    + apply Z.ltb_ge in Hroom. unfold len in Hroom.
      replace (32 - length lines)%nat with 0%nat by lia.
      now rewrite app_nil_r.
Qed.

End WrapLoop.

Section Greedy.

(** [last_space] finds a space, and no space comes after it. *)
Lemma last_space_from_found (w : str) :
  forall i acc j,
    last_space_from i w acc = Some j ->
    acc = Some j \/ ((i <= j)%nat /\ nth_error w (j - i) = Some " "%char).
Proof.
  induction w as [|ch w IH]; intros i acc j H; simpl in H; [now left|].
  apply IH in H. destruct H as [H|[Hle Hnth]].
  - destruct (Ascii.eqb ch " "%char) eqn:Hsp; [|now left].
    injection H as <-. right. split; [lia|].
    rewrite Nat.sub_diag. simpl. apply Ascii.eqb_eq in Hsp. now subst.
  - right. split; [lia|].
    replace (j - i)%nat with (S (j - S i)) by lia. exact Hnth.
Qed.

Lemma last_space_from_some (w : str) :
  forall i a, exists j,
    last_space_from i w (Some a) = Some j /\ (j = a \/ (i <= j)%nat).
Proof.
  induction w as [|ch w IH]; intros i a; simpl; [exists a; auto|].
  destruct (Ascii.eqb ch " "%char).
  - destruct (IH (S i) i) as (j & -> & Hj). exists j. split; [reflexivity|]. lia.
  - destruct (IH (S i) a) as (j & -> & Hj). exists j. split; [reflexivity|]. lia.
Qed.

Lemma last_space_from_last (w : str) :
  forall i acc k,
    nth_error w k = Some " "%char ->
    exists j, last_space_from i w acc = Some j /\ (i + k <= j)%nat.
Proof.
  induction w as [|ch w IH]; intros i acc [|k] Hk; simpl in Hk; try discriminate.
  - injection Hk as ->. simpl.
    destruct (last_space_from_some w (S i) i) as (j & -> & Hj).
    exists j. split; [reflexivity|]. lia.
  - simpl. destruct (IH (S i) (if Ascii.eqb ch " "%char then Some i else acc) k Hk)
      as (j & -> & Hj).
    exists j. split; [reflexivity|]. lia.
Qed.

Lemma last_space_spec (w : str) :
  match last_space w with
  | Some j =>
      nth_error w j = Some " "%char
      /\ forall k, nth_error w k = Some " "%char -> (k <= j)%nat
  | None => ~ In " "%char w
  end.
Proof.
  unfold last_space. destruct (last_space_from 0 w None) as [j|] eqn:H.
  - split.
    + apply last_space_from_found in H. destruct H as [H|[_ H]]; [discriminate|].
      now rewrite Nat.sub_0_r in H.
    + intros k Hk. destruct (last_space_from_last w 0 None k Hk) as (j' & Hj' & Hle).
      rewrite H in Hj'. injection Hj' as <-. lia.
  - intros Hin. apply In_nth_error in Hin. destruct Hin as [k Hk].
    destruct (last_space_from_last w 0 None k Hk) as (j' & Hj' & _). congruence.
Qed.

(** The character at a break point is a space. *)
Lemma break_after_first_space (n : nat) (rest : str) (j : nat) :
  break_after_first n rest = Some j -> nth_error rest j = Some " "%char.
Proof.
  unfold break_after_first. intros H.
  pose proof (last_space_spec (firstn n rest)) as Hspec.
  destruct (last_space (firstn n rest)) as [[|k]|] eqn:Hsp; try discriminate.
  injection H as <-. destruct Hspec as [Hnth _].
  rewrite nth_error_firstn in Hnth.
  destruct (S k <? n)%nat; [exact Hnth|discriminate].
Qed.

Variable n : nat.
Hypothesis n_positive : (1 <= n)%nat.

Lemma greedy_fuel :
  forall f1 f2 rest,
    (length rest <= f1)%nat -> (length rest <= f2)%nat ->
    greedy break_after_first f1 n rest = greedy break_after_first f2 n rest.
Proof.
  induction f1 as [|f1 IH]; intros f2 rest H1 H2.
  - destruct rest; [now rewrite !greedy_nil|simpl in H1; lia].
  - destruct rest as [|ch rest']; [now rewrite !greedy_nil|].
    destruct f2 as [|f2]; [simpl in H2; lia|].
    cbn [greedy].
    destruct (length (ch :: rest') <=? n)%nat eqn:Hfit; [reflexivity|].
    apply Nat.leb_gt in Hfit.
    destruct (break_after_first n (ch :: rest')) as [j|] eqn:Hbr.
    + f_equal. apply IH; rewrite length_skipn; clear IH Hbr; cbn [length] in *; lia.
    + f_equal. apply IH; rewrite length_skipn; clear IH Hbr; cbn [length] in *; lia.
Qed.

(** The equation of [wrap_lines]. *)
Lemma wrap_lines_unfold (rest : str) :
  wrap_lines n rest
  = match rest with
    | [] => []
    | _ :: _ =>
        if (length rest <=? n)%nat then [rest]
        else
          match break_after_first n rest with
          | Some j => firstn j rest :: wrap_lines n (skipn (S j) rest)
          | None => firstn n rest :: wrap_lines n (skipn n rest)
          end
    end.
Proof.
  unfold wrap_lines. destruct rest as [|ch rest']; [reflexivity|].
  cbn [length greedy].
  destruct (S (length rest') <=? n)%nat eqn:Hfit; [reflexivity|].
  apply Nat.leb_gt in Hfit.
  destruct (break_after_first n (ch :: rest')) as [j|] eqn:Hbr.
  - f_equal. apply greedy_fuel; rewrite ?length_skipn; clear Hbr; cbn [length] in *; lia.
  - f_equal. apply greedy_fuel; rewrite ?length_skipn; clear Hbr; cbn [length] in *; lia.
Qed.

Lemma firstn_succ_nth {A : Type} (xs : list A) (j : nat) (x : A) :
  nth_error xs j = Some x -> firstn (S j) xs = firstn j xs ++ [x].
Proof.
  revert j. induction xs as [|y xs IH]; intros [|j] H; simpl in *; try discriminate.
  - now injection H as ->.
  - f_equal. now apply IH.
Qed.

(** The first [k] lines hold a prefix of the text, spaces at the breaks
    apart; the lines after them are the lines of the rest, and that rest is
    not empty when more than [k] lines exist. *)
Lemma wrap_lines_drop :
  forall k rest,
    exists kept dropped seps,
      rest = kept ++ dropped
      /\ wrap_lines n rest = firstn k (wrap_lines n rest) ++ wrap_lines n dropped
      /\ length seps = length (firstn k (wrap_lines n rest))
      /\ Forall (fun sep => sep = [] \/ sep = [" "%char]) seps
      /\ weave (firstn k (wrap_lines n rest)) seps = kept
      /\ ((k < length (wrap_lines n rest))%nat -> dropped <> []).
Proof.
  induction k as [|k IH]; intros rest.
  - exists [], rest, []. repeat split; [constructor|].
    intros Hlen ->. simpl in Hlen. lia.
  - rewrite (wrap_lines_unfold rest).
    destruct rest as [|ch rest'].
    + exists [], [], []. repeat split; [constructor|simpl; lia].
    + destruct (length (ch :: rest') <=? n)%nat.
      * exists (ch :: rest'), [], [[]]. split; [now rewrite app_nil_r|].
        cbn [firstn]. rewrite firstn_nil.
        split; [reflexivity|split; [reflexivity|]].
        split; [repeat constructor; now left|].
        split; [unfold weave; simpl; now rewrite !app_nil_r|simpl; lia].
      * destruct (break_after_first n (ch :: rest')) as [j|] eqn:Hbr.
        -- pose proof (break_after_first_space _ _ _ Hbr) as Hsp.
           destruct (IH (skipn (S j) (ch :: rest')))
             as (kept & dropped & seps & Hsplit & Heq & Hl & Hok & Hw & Hne).
           exists (firstn (S j) (ch :: rest') ++ kept), dropped, ([" "%char] :: seps).
           split; [|split; [|split; [|split; [|split]]]].
           ++ rewrite <- app_assoc, <- Hsplit. symmetry. apply firstn_skipn.
           ++ cbn [firstn app]. f_equal. exact Heq.
           ++ cbn [firstn length]. now rewrite Hl.
           ++ constructor; [now right|exact Hok].
           ++ rewrite (firstn_succ_nth _ _ _ Hsp).
              cbn [firstn]. unfold weave in *. cbn [combine map concat fst snd].
              now rewrite Hw.
           ++ cbn [length]. intros Hlen. apply Hne. lia.
        -- destruct (IH (skipn n (ch :: rest')))
             as (kept & dropped & seps & Hsplit & Heq & Hl & Hok & Hw & Hne).
           exists (firstn n (ch :: rest') ++ kept), dropped, ([] :: seps).
           split; [|split; [|split; [|split; [|split]]]].
           ++ rewrite <- app_assoc, <- Hsplit. symmetry. apply firstn_skipn.
           ++ cbn [firstn app]. f_equal. exact Heq.
           ++ cbn [firstn length]. now rewrite Hl.
           ++ constructor; [now left|exact Hok].
           ++ cbn [firstn]. unfold weave in *. cbn [combine map concat fst snd].
              rewrite Hw. now rewrite app_nil_r.
           ++ cbn [length]. intros Hlen. apply Hne. lia.
Qed.

(** Nothing is lost without the cap: the text is its lines with the dropped
    spaces put back. *)
Lemma greedy_covers :
  forall fuel rest,
    (length rest <= fuel)%nat ->
    exists seps,
      length seps = length (greedy break_after_first fuel n rest)
      /\ Forall (fun sep => sep = [] \/ sep = [" "%char]) seps
      /\ weave (greedy break_after_first fuel n rest) seps = rest.
Proof.
  induction fuel as [|fuel IH]; intros rest Hlen.
  - destruct rest; [|simpl in Hlen; lia]. exists []. repeat split. constructor.
  - destruct rest as [|ch rest'].
    { exists []. repeat split. constructor. }
    cbn [greedy].
    destruct (length (ch :: rest') <=? n)%nat eqn:Hfit.
    { exists [[]]. split; [reflexivity|split; [repeat constructor; now left|]].
      unfold weave. simpl. now rewrite !app_nil_r. }
    apply Nat.leb_gt in Hfit.
    destruct (break_after_first n (ch :: rest')) as [j|] eqn:Hbr.
    + pose proof (break_after_first_space _ _ _ Hbr) as Hsp.
      apply break_after_first_bound in Hbr.
      destruct (IH (skipn (S j) (ch :: rest'))) as (seps & Hl & Hok & Hw).
      { rewrite length_skipn. cbn [length] in *. lia. }
      exists ([" "%char] :: seps). split; [simpl; now rewrite Hl|].
      split; [constructor; [now right|exact Hok]|].
      unfold weave in *. cbn [combine map concat fst snd]. rewrite Hw.
      rewrite <- app_assoc. cbn [app].
      rewrite <- (skipn_nth_error _ _ _ Hsp). apply firstn_skipn.
    + destruct (IH (skipn n (ch :: rest'))) as (seps & Hl & Hok & Hw).
      { rewrite length_skipn. cbn [length] in *. lia. }
      exists ([] :: seps). split; [simpl; now rewrite Hl|].
      split; [constructor; [now left|exact Hok]|].
      unfold weave in *. cbn [combine map concat fst snd]. rewrite Hw.
      rewrite app_nil_r. apply firstn_skipn.
Qed.

End Greedy.

(** The break point of a line is the last space among its first [n]
    characters, the first character apart. *)
Lemma break_after_first_iff (n : nat) (rest : str) (j : nat) :
  break_after_first n rest = Some j
  <-> (0 < j < n)%nat
      /\ nth_error rest j = Some " "%char
      /\ forall k, (j < k < n)%nat -> nth_error rest k <> Some " "%char.
Proof.
  assert (Hfirst : forall k,
             nth_error (firstn n rest) k = Some " "%char
             <-> (k < n)%nat /\ nth_error rest k = Some " "%char).
  { intros k. rewrite nth_error_firstn.
    destruct (k <? n)%nat eqn:Hk.
    - apply Nat.ltb_lt in Hk. tauto.
    - apply Nat.ltb_ge in Hk. split; [discriminate|lia]. }
  pose proof (last_space_spec (firstn n rest)) as Hspec.
  unfold break_after_first.
  destruct (last_space (firstn n rest)) as [j'|] eqn:Hsp.
  - destruct Hspec as [Hat Hlast]. apply Hfirst in Hat. destruct Hat as [Hlt Hat].
    split.
    + destruct j' as [|j'']; [discriminate|]. intros [= <-].
      split; [lia|split; [exact Hat|]].
      intros k Hk Hspace.
      assert (k <= S j'')%nat by (apply Hlast, Hfirst; split; [lia|exact Hspace]).
      lia.
    + intros (Hj & Hspace & Hafter).
      assert (Hle : (j <= j')%nat) by (apply Hlast, Hfirst; split; [lia|exact Hspace]).
      assert (j' = j).
      { destruct (Nat.eq_dec j' j) as [|Hne]; [assumption|].
        exfalso. apply (Hafter j'); [lia|exact Hat]. }
      subst j'. destruct j; [lia|reflexivity].
  - split; [discriminate|].
    intros (Hj & Hspace & _). exfalso. apply Hspec.
    apply (nth_error_In _ j). apply Hfirst. split; [lia|exact Hspace].
Qed.

Lemma word_wrap_wrap_lines (text : str) (cpl : Z) :
  1 <= cpl ->
  Oled._word_wrap text cpl = Some (firstn 32 (wrap_lines (Z.to_nat cpl) text)).
Proof.
  intros Hcpl. unfold Oled._word_wrap, wrap_lines.
  rewrite <- (Z2Nat.id cpl) at 1 by lia.
  change 0 with (Z.of_nat 0).
  rewrite (wrap_loop_greedy text (Z.to_nat cpl)) with (gfuel := length text);
    simpl; try lia.
  reflexivity.
Qed.

(** C5, as worded, fails where a line starts with a space: with four
    characters to a line, the text [aaaa bbbb] is cut after [aaaa], and the
    next line, whose budget holds the space, is cut after four characters
    with the space kept, where breaking at the space would give an empty
    line and then [bbbb]. *)
Lemma word_wrap_keeps_leading_space :
  Oled._word_wrap (lit "aaaa bbbb") 4 = Some [lit "aaaa"; lit " bbb"; lit "b"]
  /\ firstn 32 (wrap_as_worded 4 (lit "aaaa bbbb")) = [lit "aaaa"; []; lit "bbbb"]
  /\ Oled._word_wrap (lit "aaaa bbbb") 4
     <> Some (firstn 32 (wrap_as_worded 4 (lit "aaaa bbbb"))).
Proof.
  split; [reflexivity|split; [reflexivity|]]. vm_compute. discriminate.
Qed.

(** C5, amended. With a budget of at least one character, [_word_wrap]
    returns the first 32 lines of the greedy packing [wrap_lines]: a rest
    that fits the budget is the last line; a longer one is cut at the last
    space within its first [budget] characters that is not its first
    character, the space being dropped, and after [budget] characters when
    there is no such space. [_paint_lyrics] wraps at
    [SCREEN_WIDTH // char_w] characters and sets the content height to the
    number of lines times the cell height. Forty [x] at twenty to a line
    give two lines of twenty, with every character kept. *)
Theorem word_wrap_greedy :
  (forall text cpl,
      1 <= cpl ->
      Oled._word_wrap text cpl = Some (firstn 32 (wrap_lines (Z.to_nat cpl) text)))
  /\ (forall n rest,
        (1 <= n)%nat ->
        wrap_lines n rest
        = match rest with
          | [] => []
          | _ :: _ =>
              if (length rest <=? n)%nat then [rest]
              else
                match break_after_first n rest with
                | Some j => firstn j rest :: wrap_lines n (skipn (S j) rest)
                | None => firstn n rest :: wrap_lines n (skipn n rest)
                end
          end)
  /\ (forall n rest j,
        break_after_first n rest = Some j
        <-> (0 < j < n)%nat
            /\ nth_error rest j = Some " "%char
            /\ forall k, (j < k < n)%nat -> nth_error rest k <> Some " "%char)
  /\ (forall c,
        Oled._use_custom_font c = false ->
        1 <= Oled._text_size c <= 21 ->
        exists lines c' drawn,
          Oled._word_wrap (Oled._current_text c)
            (Oled.SCREEN_WIDTH / (Oled.GFX_CHAR_W * Oled._text_size c))
          = Some lines
          /\ Oled._paint_lyrics c = Some (c', drawn)
          /\ Oled._total_lyric_height c'
             = len lines * (Oled.GFX_CHAR_H * Oled._text_size c))
  /\ (Oled._word_wrap (repeat "x"%char 40) 20
      = Some [repeat "x"%char 20; repeat "x"%char 20]
      /\ concat [repeat "x"%char 20; repeat "x"%char 20] = repeat "x"%char 40).
Proof.
  split; [exact word_wrap_wrap_lines|].
  split; [intros n rest Hn; now apply wrap_lines_unfold|].
  split; [exact break_after_first_iff|].
  split; [|split; reflexivity].
  intros c Hfont Hsize. unfold Oled._paint_lyrics. rewrite Hfont.
  assert (Hcpl : Oled.chars_per_line_of (Oled._text_size c)
                 = Oled.SCREEN_WIDTH / (Oled.GFX_CHAR_W * Oled._text_size c)).
  { unfold Oled.chars_per_line_of, Oled.SCREEN_WIDTH, Oled.GFX_CHAR_W.
    assert (1 <= 128 / (6 * Oled._text_size c))
      by (apply Z.div_le_lower_bound; lia).
    lia. }
  rewrite Hcpl.
  destruct (wrap_loop_total (Oled._current_text c)
              (Oled.SCREEN_WIDTH / (Oled.GFX_CHAR_W * Oled._text_size c))
              33 [] 0) as (lines & Hlines & _); [simpl; lia|simpl; lia|].
  unfold Oled._word_wrap. rewrite Hlines.
  eexists lines, _, _. split; [reflexivity|split; reflexivity].
Qed.

(** C10. For every text and every budget, positive or not, the loop of
    [_word_wrap] returns within 33 tests of its condition, with at most 32
    lines. With a budget of at least one character: a text of at most 32
    greedy lines is returned whole, and is its lines with the dropped
    spaces put back; of a text of more, the first 32 lines are returned,
    they hold a proper prefix of the text, and the characters after it,
    with the lines they would make, are left out. With a budget of zero a
    pass of the loop appends an empty line and leaves the position where it
    was, so that the cap alone ends the loop. Thirty-three [x] at one to a
    line give 32 lines. *)
Theorem word_wrap_capped :
  (forall text cpl,
      exists lines,
        Oled._word_wrap text cpl = Some lines
        /\ (length lines <= 32)%nat
        /\ forall fuel,
             (33 <= fuel)%nat -> Oled.wrap_loop fuel text cpl [] 0 = Some lines)
  /\ (forall text cpl,
        1 <= cpl ->
        let all := wrap_lines (Z.to_nat cpl) text in
        ((length all <= 32)%nat ->
         Oled._word_wrap text cpl = Some all
         /\ exists seps,
              length seps = length all
              /\ Forall (fun sep => sep = [] \/ sep = [" "%char]) seps
              /\ weave all seps = text)
        /\ ((32 < length all)%nat ->
            exists lines kept dropped seps,
              Oled._word_wrap text cpl = Some lines
              /\ length lines = 32%nat
              /\ text = kept ++ dropped
              /\ dropped <> []
              /\ length seps = 32%nat
              /\ Forall (fun sep => sep = [] \/ sep = [" "%char]) seps
              /\ weave lines seps = kept
              /\ all = lines ++ wrap_lines (Z.to_nat cpl) dropped))
  /\ (forall text lines,
        text <> [] ->
        Oled.wrap_body text 0 lines 0 = (lines ++ [[]], Some 0))
  /\ Oled._word_wrap (repeat "x"%char 33) 1 = Some (repeat ["x"%char] 32).
Proof.
  split; [|split; [|split; [|reflexivity]]].
  3:{ intros text lines Htext. unfold Oled.wrap_body, len.
      destruct text as [|ch text]; [congruence|].
      assert (H : (Z.of_nat (length (ch :: text)) - 0 <=? 0) = false)
        by (apply Z.leb_gt; simpl length; lia).
      rewrite H. simpl Z.add.
      replace (Z.min 0 (Z.of_nat (length (ch :: text)))) with 0
        by (simpl length; lia).
      reflexivity. }
  - intros text cpl.
    destruct (wrap_loop_total text cpl 33 [] 0) as (lines & Hlines & Hlen & Hmore);
      [simpl; lia|simpl; lia|].
    exists lines. split; [exact Hlines|split; [exact Hlen|]].
    intros fuel Hfuel. apply Hmore. simpl. lia.
  - intros text cpl Hcpl all.
    assert (Hn : (1 <= Z.to_nat cpl)%nat) by lia.
    pose proof (word_wrap_wrap_lines text cpl Hcpl) as Hwrap. fold all in Hwrap.
    split.
    + intros Hlen. rewrite firstn_all2 in Hwrap by exact Hlen.
      split; [exact Hwrap|].
      apply (greedy_covers (Z.to_nat cpl) Hn (length text) text). lia.
    + intros Hlen.
      destruct (wrap_lines_drop (Z.to_nat cpl) Hn 32 text)
        as (kept & dropped & seps & Hsplit & Heq & Hl & Hok & Hw & Hne).
      fold all in Heq, Hl, Hw, Hne.
      exists (firstn 32 all), kept, dropped, seps.
      assert (Hl32 : length (firstn 32 all) = 32%nat)
        by (rewrite length_firstn; lia).
      split; [exact Hwrap|split; [exact Hl32|split; [exact Hsplit|]]].
      split; [now apply Hne|].
      split; [now rewrite Hl|split; [exact Hok|split; [exact Hw|exact Heq]]].
Qed.

(** ** The order of the parsed lines *)

Section ParsedOrder.

Import Parser.

Lemma insert_entry_in (e x : Z * str) (sorted : list (Z * str)) :
  In x (insert_entry e sorted) -> x = e \/ In x sorted.
Proof.
  induction sorted as [|y rest IH]; simpl.
  - intros [<-|[]]. now left.
  - destruct (fst e <? fst y).
    + intros [<-|H]; [now left|now right].
    + intros [<-|H]; [right; now left|].
      destruct (IH H) as [->|Hin]; [now left|right; now right].
Qed.

Lemma insert_entry_sorted (e : Z * str) (sorted : list (Z * str)) :
  StronglySorted key_le sorted -> StronglySorted key_le (insert_entry e sorted).
Proof.
  induction 1 as [|y rest Hrest IH Hy]; simpl.
  - repeat constructor.
  - destruct (fst e <? fst y) eqn:Hlt.
    + apply Z.ltb_lt in Hlt. constructor; [now constructor|].
      constructor; [unfold key_le; lia|].
      eapply Forall_impl; [|exact Hy]. unfold key_le. intros a Ha. lia.
    + apply Z.ltb_ge in Hlt. constructor; [exact IH|].
      apply Forall_forall. intros x Hx.
      destruct (insert_entry_in _ _ _ Hx) as [->|Hin]; [exact Hlt|].
      rewrite Forall_forall in Hy. now apply Hy.
Qed.

Lemma sort_entries_sorted (entries : list (Z * str)) :
  StronglySorted key_le (sort_entries entries).
Proof.
  unfold sort_entries.
  assert (H : forall acc, StronglySorted key_le acc ->
                StronglySorted key_le
                  (fold_left (fun sorted e => insert_entry e sorted) entries acc)).
  { induction entries as [|e rest IH]; intros acc Hacc; simpl; [exact Hacc|].
    apply IH. now apply insert_entry_sorted. }
  apply H. constructor.
Qed.

Lemma lrc_lines_start (entries : list (Z * str)) :
  forall idx line,
    In line (lrc_lines idx entries) ->
    exists e, In e entries /\ start_ms line = fst e.
Proof.
  induction entries as [|[start_ms0 lyric_text] rest IH]; intros idx line; simpl.
  - intros [].
  - destruct (is_empty lyric_text).
    + intros H. destruct (IH _ _ H) as (e & He & Heq). exists e. auto.
    + intros [<-|H].
      * exists (start_ms0, lyric_text). auto.
      * destruct (IH _ _ H) as (e & He & Heq). exists e. auto.
Qed.

Lemma lrc_lines_sorted (entries : list (Z * str)) :
  StronglySorted key_le entries ->
  forall idx, StronglySorted Z.le (starts (lrc_lines idx entries)).
Proof.
  induction 1 as [|[start_ms0 lyric_text] rest Hrest IH Hhd]; intros idx; simpl.
  - constructor.
  - destruct (is_empty lyric_text); [apply IH|].
    simpl. constructor; [apply IH|].
    apply Forall_forall. intros s Hs. unfold starts in Hs.
    apply in_map_iff in Hs. destruct Hs as (line & <- & Hline).
    destruct (lrc_lines_start _ _ _ Hline) as (e & He & ->).
    rewrite Forall_forall in Hhd. exact (Hhd e He).
Qed.

(** X3. The fallback sorts: every list [_parse_lrc] returns is in
    non-decreasing order of start time. *)
Lemma parse_lrc_sorted (text : str) :
  StronglySorted Z.le (starts (_parse_lrc text)).
Proof.
  unfold _parse_lrc. apply lrc_lines_sorted, sort_entries_sorted.
Qed.

End ParsedOrder.

(** C9, at an input where the code departs from it: a subtitle file whose
    second block starts before its first. [parse_srt] returns the blocks in
    file order, start times 5000 and then 1000, where the fallback
    [_parse_lrc] sorts its entries and returns the same two lines of an LRC
    file in order. *)
Theorem parse_srt_keeps_file_order :
  let srt :=
    file_text ["1"; "00:00:05,000 --> 00:00:06,000"; "b"; "";
               "2"; "00:00:01,000 --> 00:00:02,000"; "a"]%string in
  let lrc := file_text ["[00:05.00]b"; "[00:01.00]a"]%string in
  Parser.parse_srt srt
  = [Parser.mkLyricLine 1 5000 6000 (lit "b");
     Parser.mkLyricLine 2 1000 2000 (lit "a")]
  /\ ~ StronglySorted Z.le (starts (Parser.parse_srt srt))
  /\ Parser.parse_srt lrc
     = [Parser.mkLyricLine 1 1000 5000 (lit "a");
        Parser.mkLyricLine 2 5000 10000 (lit "b")].
Proof.
  split; [reflexivity|split; [|reflexivity]].
  vm_compute. intros H. inversion H as [|? ? _ Hhd]; subst.
  inversion Hhd as [|? ? Hle _]; subst. apply Hle. reflexivity.
Qed.

(** ** What the parser returns *)

Section ParsedLines.

Import Parser.

Lemma parse_block_text (block : str) (line : LyricLine) :
  parse_block block = Some line -> text line <> [].
Proof.
  unfold parse_block. intros H.
  destruct (len _ <? 2); [discriminate|].
  destruct (py_int _); [|discriminate].
  destruct (split_arrow _) as [|p0 [|p1 [|]]]; try discriminate.
  destruct (strip_tags _) as [|c r]; [discriminate|].
  cbn [is_empty] in H. injection H as <-. discriminate.
Qed.

Lemma srt_lines_text (text0 : str) (line : LyricLine) :
  In line (srt_lines text0) -> text line <> [].
Proof.
  unfold srt_lines. rewrite in_flat_map. intros (block & _ & Hin).
  destruct (parse_block block) eqn:Hb; simpl in Hin; [|contradiction].
  destruct Hin as [<-|[]]. eapply parse_block_text; eauto.
Qed.

Lemma lrc_lines_text (entries : list (Z * str)) :
  forall idx line, In line (lrc_lines idx entries) -> text line <> [].
Proof.
  induction entries as [|[s t] rest IH]; intros idx line; simpl; [intros []|].
  destruct (is_empty t) eqn:He; [apply IH|].
  intros [<-|H]; [|eapply IH; eauto].
  simpl. intros E. rewrite E in He. discriminate.
Qed.

Lemma parse_srt_text (text0 : str) (line : LyricLine) :
  In line (parse_srt text0) -> text line <> [].
Proof.
  unfold parse_srt.
  destruct (is_empty _); [intros []|].
  destruct (negb _).
  - apply srt_lines_text.
  - unfold _parse_lrc. apply lrc_lines_text.
Qed.

Lemma lookup_from_text (lyrics : list LyricLine) :
  (forall l, In l lyrics -> text l <> []) ->
  forall k adjusted, 0 <= k ->
    (snd (lookup_from k lyrics adjusted) = []
     <-> fst (lookup_from k lyrics adjusted) = -1).
Proof.
  induction lyrics as [|line rest IH]; intros Htext k adjusted Hk; simpl.
  - tauto.
  - destruct (active_at adjusted line).
    + simpl. split; [|lia].
      intros E. exfalso. apply (Htext line); [now left|exact E].
    + apply IH; [|lia]. intros l Hl. apply Htext. now right.
Qed.

End ParsedLines.

(** X4. No parsed line is blank: every line [parse_srt] returns, by either
    path, has a text that is not empty. The tick's test [not text] is
    therefore, on a parsed file, the test that the lookup found no line:
    the resolved text is empty exactly when the resolved index is -1. *)
Theorem parse_srt_no_blank_line (file : str) :
  (forall line, In line (Parser.parse_srt file) -> Parser.text line <> [])
  /\ forall position_ms offset_ms,
       snd (Parser.get_lyric_at_position (Parser.parse_srt file) position_ms offset_ms) = []
       <-> fst (Parser.get_lyric_at_position (Parser.parse_srt file) position_ms offset_ms)
           = -1.
Proof.
  split.
  - apply parse_srt_text.
  - intros position_ms offset_ms. unfold Parser.get_lyric_at_position.
    apply lookup_from_text; [apply parse_srt_text|lia].
Qed.

Section LineEndings.

Import Parser.

Lemma replace_crlf_cons (c : ascii) (r : str) :
  c <> CR -> replace_crlf (c :: r) = c :: replace_crlf r.
Proof.
  intros Hc. destruct r as [|c' r']; [reflexivity|].
  cbn [replace_crlf]. apply Ascii.eqb_neq in Hc. rewrite Hc. reflexivity.
Qed.

Lemma replace_crlf_id (s : str) : ~ In CR s -> replace_crlf s = s.
Proof.
  induction s as [|c r IH]; intros Hs; [reflexivity|].
  rewrite replace_crlf_cons.
  - f_equal. apply IH. intros H. apply Hs. now right.
  - intros ->. apply Hs. now left.
Qed.

Lemma replace_crlf_with_crlf (s : str) :
  ~ In CR s -> replace_crlf (with_crlf s) = s.
Proof.
  induction s as [|c r IH]; intros Hs; [reflexivity|].
  assert (Hr : ~ In CR r) by (intros H; apply Hs; now right).
  unfold with_crlf. cbn [flat_map].
  destruct (Ascii.eqb c LF) eqn:Hc.
  - apply Ascii.eqb_eq in Hc. subst c.
    cbn [app replace_crlf]. rewrite !Ascii.eqb_refl. cbn [andb].
    f_equal. now apply IH.
  - cbn [app]. rewrite replace_crlf_cons.
    + f_equal. now apply IH.
    + intros ->. apply Hs. now left.
Qed.

End LineEndings.

(** X5. Line endings do not matter: a file written with carriage return and
    newline at the end of each line parses to the same lines as the file
    written with newlines alone. *)
Theorem parse_srt_line_endings (file : str) (Hfile : ~ In CR file) :
  Parser.parse_srt (with_crlf file) = Parser.parse_srt file.
Proof.
  unfold Parser.parse_srt.
  now rewrite replace_crlf_with_crlf, replace_crlf_id.
Qed.

Lemma parse_srt_line_endings_witness :
  ~ In CR (file_text ["1"; "00:00:01,000 --> 00:00:02,000"; "a"]%string)
  /\ Parser.parse_srt
       (with_crlf (file_text ["1"; "00:00:01,000 --> 00:00:02,000"; "a"]%string))
     = [Parser.mkLyricLine 1 1000 2000 (lit "a")].
Proof.
  assert (H : ~ In CR (file_text ["1"; "00:00:01,000 --> 00:00:02,000"; "a"]%string)).
  { vm_compute. intros H. repeat (destruct H as [H|H]; [discriminate|]). exact H. }
  split; [exact H|].
  rewrite (parse_srt_line_endings _ H). reflexivity.
Defined.

Section LrcTimeline.

Import Parser.

Lemma strongly_sorted_nth {A : Type} (R : A -> A -> Prop) (l : list A) :
  StronglySorted R l ->
  forall i j a b, (i < j)%nat ->
    nth_error l i = Some a -> nth_error l j = Some b -> R a b.
Proof.
  induction 1 as [|x rest Hrest IH Hx]; intros i j a b Hij Ha Hb.
  - destruct i; discriminate.
  - destruct j as [|j]; [lia|]. cbn [nth_error] in Hb.
    destruct i as [|i]; cbn [nth_error] in Ha.
    + injection Ha as <-. rewrite Forall_forall in Hx.
      apply Hx. eapply nth_error_In; eauto.
    + apply (IH i j); [lia|assumption|assumption].
Qed.

Lemma lrc_lines_from (entries : list (Z * str)) (lo : Z) :
  Forall (fun e => lo <= fst e) entries ->
  forall idx, Forall (fun l => lo <= start_ms l) (lrc_lines idx entries).
Proof.
  intros Hlo idx. apply Forall_forall. intros line Hline.
  destruct (lrc_lines_start _ _ _ Hline) as (e & He & ->).
  rewrite Forall_forall in Hlo. now apply Hlo.
Qed.

Lemma lrc_lines_disjoint (entries : list (Z * str)) :
  StronglySorted key_le entries ->
  forall idx,
    disjoint_lines (lrc_lines idx entries)
    /\ Forall (fun l => start_ms l <= end_ms l) (lrc_lines idx entries).
Proof.
  unfold disjoint_lines.
  induction 1 as [|[s t] rest Hrest IH Hhd]; intros idx; cbn [lrc_lines].
  - split; constructor.
  - destruct (IH (idx + 1)) as [IHd IHl].
    destruct (is_empty t); [now split|].
    split; constructor; try assumption.
    + destruct rest as [|[next_start t'] rest']; [constructor|].
      cbn [end_ms start_ms]. apply lrc_lines_from.
      constructor; [simpl; lia|].
      apply StronglySorted_inv in Hrest. destruct Hrest as [_ Hnext].
      eapply Forall_impl; [|exact Hnext]. unfold key_le. simpl. intros a Ha. exact Ha.
    + cbn [end_ms start_ms]. destruct rest as [|[next_start t'] rest']; [lia|].
      apply Forall_inv in Hhd. exact Hhd.
Qed.

Lemma insert_entry_perm (e : Z * str) (sorted : list (Z * str)) :
  Permutation (e :: sorted) (insert_entry e sorted).
Proof.
  induction sorted as [|x rest IH]; cbn [insert_entry]; [reflexivity|].
  destruct (fst e <? fst x); [reflexivity|].
  rewrite perm_swap. now constructor.
Qed.

Lemma sort_entries_perm (entries : list (Z * str)) :
  Permutation entries (sort_entries entries).
Proof.
  unfold sort_entries.
  assert (H : forall acc,
             Permutation (entries ++ acc)
               (fold_left (fun sorted e => insert_entry e sorted) entries acc)).
  { induction entries as [|e rest IH]; intros acc; cbn [fold_left app]; [reflexivity|].
    rewrite <- IH. rewrite <- insert_entry_perm. apply Permutation_middle. }
  specialize (H []). now rewrite app_nil_r in H.
Qed.

Lemma filter_perm {A : Type} (f : A -> bool) (l l' : list A) :
  Permutation l l' -> Permutation (filter f l) (filter f l').
Proof.
  induction 1 as [|x l l' _ IH|x y l|l l' l'' _ IH1 _ IH2]; cbn [filter].
  - reflexivity.
  - destruct (f x); [now constructor|exact IH].
  - destruct (f x), (f y); try reflexivity. apply perm_swap.
  - now transitivity (filter f l').
Qed.

Lemma lrc_lines_entries (entries : list (Z * str)) :
  forall idx,
    map (fun l => (start_ms l, text l)) (lrc_lines idx entries)
    = filter (fun e => negb (is_empty (snd e))) entries.
Proof.
  induction entries as [|[s t] rest IH]; intros idx; cbn [lrc_lines filter snd];
    [reflexivity|].
  destruct (is_empty t); cbn [negb map]; [apply IH|].
  cbn [start_ms text]. f_equal. apply IH.
Qed.

End LrcTimeline.

(** X6. The timeline [_parse_lrc] builds has no overlap: every line starts
    no later than it ends, and ends no later than every line after it
    starts. At most one line of it is active at an adjusted position, so the
    lookup's "first match" is the only match there. *)
Theorem parse_lrc_disjoint (file : str) :
  disjoint_lines (Parser._parse_lrc file)
  /\ Forall (fun l => Parser.start_ms l <= Parser.end_ms l) (Parser._parse_lrc file)
  /\ forall adjusted i j li lj,
       nth_error (Parser._parse_lrc file) i = Some li ->
       nth_error (Parser._parse_lrc file) j = Some lj ->
       active adjusted li -> active adjusted lj -> i = j.
Proof.
  destruct (lrc_lines_disjoint _
              (sort_entries_sorted
                 (flat_map Parser.lrc_line_entries (split_on LF file))) 1)
    as [Hd Hl].
  fold (Parser._parse_lrc file) in Hd, Hl.
  split; [exact Hd|split; [exact Hl|]].
  intros adjusted i j li lj Hi Hj Hai Haj. unfold active in *.
  destruct (Nat.lt_total i j) as [Hij|[Hij|Hij]]; [|exact Hij|].
  - pose proof (strongly_sorted_nth _ _ Hd i j li lj Hij Hi Hj) as H.
    simpl in H. lia.
  - pose proof (strongly_sorted_nth _ _ Hd j i lj li Hij Hj Hi) as H.
    simpl in H. lia.
Qed.

(** The lines [_parse_lrc] returns are, up to order, the entries its scan
    of the text finds, those without a lyric left out. *)
Lemma parse_lrc_scanned (file : str) :
  Permutation
    (map (fun l => (Parser.start_ms l, Parser.text l)) (Parser._parse_lrc file))
    (lrc_text_entries file).
Proof.
  unfold Parser._parse_lrc, lrc_text_entries.
  rewrite lrc_lines_entries. apply filter_perm.
  symmetry. apply sort_entries_perm.
Qed.

(** ** Time stamps *)

Section Timestamps.

Import Parser.

Lemma digit_char_facts (d : Z) :
  0 <= d <= 9 ->
  is_digit (digit_char d) = true /\ digit_val (digit_char d) = d.
Proof.
  intros H.
  assert (E : d = 0 \/ d = 1 \/ d = 2 \/ d = 3 \/ d = 4 \/ d = 5 \/ d = 6
              \/ d = 7 \/ d = 8 \/ d = 9) by lia.
  repeat (destruct E as [->|E]; [split; reflexivity|]). subst. split; reflexivity.
Qed.

Lemma is_digit_not_space (c : ascii) : is_digit c = true -> is_space c = false.
Proof.
  unfold is_digit, is_space. cbv zeta. intros H.
  apply andb_true_iff in H. destruct H as [H1 H2].
  apply Z.leb_le in H1. apply Z.leb_le in H2.
  repeat rewrite orb_false_iff. repeat split.
  - apply andb_false_iff. right. apply Z.leb_gt. lia.
  - apply andb_false_iff. right. apply Z.leb_gt. lia.
  - apply Z.eqb_neq. lia.
  - apply Z.eqb_neq. lia.
Qed.

Lemma strip_tight (c z : ascii) (mid : str) :
  is_space c = false -> is_space z = false ->
  strip (c :: mid ++ [z]) = c :: mid ++ [z].
Proof.
  intros Hc Hz. unfold strip, rstrip. cbn [lstrip]. rewrite Hc.
  change (c :: mid ++ [z]) with ((c :: mid) ++ [z]).
  rewrite rev_unit. cbn [lstrip]. rewrite Hz.
  rewrite <- (rev_unit (c :: mid) z). apply rev_involutive.
Qed.

Lemma match_timestamp_digits (d1 d2 d3 d4 d5 d6 sep : ascii) (fraction : str) :
  is_digit d1 = true -> is_digit d2 = true -> is_digit d3 = true ->
  is_digit d4 = true -> is_digit d5 = true -> is_digit d6 = true ->
  sep = ","%char \/ sep = "."%char ->
  Forall (fun c => is_digit c = true) fraction ->
  (1 <= length fraction <= 3)%nat ->
  match_timestamp ([d1; d2; ":"; d3; d4; ":"; d5; d6; sep]%char ++ fraction)
  = Some ([d1; d2], [d3; d4], [d5; d6], fraction).
Proof.
  intros H1 H2 H3 H4 H5 H6 Hsep Hf Hlen.
  assert (Hsepb : (Ascii.eqb sep ","%char || Ascii.eqb sep "."%char) = true).
  { destruct Hsep as [->| ->]; reflexivity. }
  unfold match_timestamp. cbn [app take_digits].
  rewrite H1, H2, H3, H4, H5, H6.
  destruct fraction as [|f1 [|f2 [|f3 [|f4 rest]]]]; cbn [length] in Hlen; try lia.
  - apply Forall_inv in Hf. cbn [take_digits]. rewrite Hf.
    cbn [length Nat.eqb is_empty negb andb]. rewrite Hsepb. reflexivity.
  - pose proof (Forall_inv Hf) as Hf1.
    pose proof (Forall_inv (Forall_inv_tail Hf)) as Hf2.
    cbn [take_digits]. rewrite Hf1, Hf2.
    cbn [length Nat.eqb is_empty negb andb]. rewrite Hsepb. reflexivity.
  - pose proof (Forall_inv Hf) as Hf1.
    pose proof (Forall_inv (Forall_inv_tail Hf)) as Hf2.
    pose proof (Forall_inv (Forall_inv_tail (Forall_inv_tail Hf))) as Hf3.
    cbn [take_digits]. rewrite Hf1, Hf2, Hf3.
    cbn [length Nat.eqb is_empty negb andb]. rewrite Hsepb. reflexivity.
Qed.

Lemma two_digits_value (n : Z) :
  0 <= n < 100 ->
  Forall (fun c => is_digit c = true) (two_digits n)
  /\ int_of_digits (two_digits n) = n.
Proof.
  intros Hn. unfold two_digits, int_of_digits. cbn [fold_left].
  destruct (digit_char_facts (n / 10)) as [Ha Hva].
  { split; [apply Z.div_pos; lia|]. apply Z.lt_succ_r, Z.div_lt_upper_bound; lia. }
  destruct (digit_char_facts (n mod 10)) as [Hb Hvb].
  { pose proof (Z.mod_pos_bound n 10). lia. }
  split; [repeat constructor; assumption|].
  rewrite Hva, Hvb. pose proof (Z.div_mod n 10). lia.
Qed.

Lemma three_digits_value (n : Z) :
  0 <= n < 1000 ->
  Forall (fun c => is_digit c = true) (three_digits n)
  /\ int_of_digits (three_digits n) = n.
Proof.
  intros Hn. unfold three_digits, int_of_digits. cbn [fold_left].
  destruct (digit_char_facts (n / 100)) as [Ha Hva].
  { split; [apply Z.div_pos; lia|]. apply Z.lt_succ_r, Z.div_lt_upper_bound; lia. }
  destruct (digit_char_facts (n / 10 mod 10)) as [Hb Hvb].
  { pose proof (Z.mod_pos_bound (n / 10) 10). lia. }
  destruct (digit_char_facts (n mod 10)) as [Hc Hvc].
  { pose proof (Z.mod_pos_bound n 10). lia. }
  split; [repeat constructor; assumption|].
  rewrite Hva, Hvb, Hvc.
  pose proof (Z.div_mod n 10). pose proof (Z.div_mod (n / 10) 10).
  rewrite Z.div_div in * by lia. change (10 * 10) with 100 in *. lia.
Qed.

Lemma parse_timestamp_written (h m s : Z) (sep : ascii) (fraction : str) :
  0 <= h < 100 -> 0 <= m < 100 -> 0 <= s < 100 ->
  sep = ","%char \/ sep = "."%char ->
  Forall (fun c => is_digit c = true) fraction ->
  (1 <= length fraction <= 3)%nat ->
  _parse_timestamp (srt_timestamp h m s sep fraction)
  = h * 3600000 + m * 60000 + s * 1000
    + int_of_digits (ljust 3 "0"%char fraction).
Proof.
  intros Hh Hm Hs Hsep Hf Hlen.
  destruct (two_digits_value h Hh) as [Hdh Hvh].
  destruct (two_digits_value m Hm) as [Hdm Hvm].
  destruct (two_digits_value s Hs) as [Hds Hvs].
  unfold _parse_timestamp, srt_timestamp.
  unfold two_digits in *.
  pose proof (Forall_inv Hdh) as Hh1.
  pose proof (Forall_inv (Forall_inv_tail Hdh)) as Hh2.
  pose proof (Forall_inv Hdm) as Hm1.
  pose proof (Forall_inv (Forall_inv_tail Hdm)) as Hm2.
  pose proof (Forall_inv Hds) as Hs1.
  pose proof (Forall_inv (Forall_inv_tail Hds)) as Hs2.
  cbn beta in *.
  assert (Hstrip :
    strip ([digit_char (h / 10); digit_char (h mod 10)] ++
           ":"%char :: [digit_char (m / 10); digit_char (m mod 10)] ++
           ":"%char :: [digit_char (s / 10); digit_char (s mod 10)] ++ sep :: fraction)
    = [digit_char (h / 10); digit_char (h mod 10); ":"%char;
       digit_char (m / 10); digit_char (m mod 10); ":"%char;
       digit_char (s / 10); digit_char (s mod 10); sep] ++ fraction).
  { cbn [app].
    destruct (exists_last (l := fraction)) as (body & z & ->).
    { intros ->. simpl in Hlen. lia. }
    assert (Hz : is_digit z = true).
    { rewrite Forall_forall in Hf. apply Hf, in_or_app. right. now left. }
    match goal with
    | |- strip (?c :: ?a :: ?b :: ?d :: ?e :: ?f :: ?g :: ?i :: ?j :: body ++ [z]) = _ =>
        change (c :: a :: b :: d :: e :: f :: g :: i :: j :: body ++ [z])
          with (c :: [a; b; d; e; f; g; i; j] ++ body ++ [z])
    end.
    rewrite app_assoc.
    rewrite strip_tight; [|now apply is_digit_not_space|now apply is_digit_not_space].
    rewrite <- app_assoc. reflexivity. }
  rewrite Hstrip, match_timestamp_digits by assumption.
  cbv zeta. rewrite Hvh, Hvm, Hvs. reflexivity.
Qed.

End Timestamps.

(** X8. A time stamp written the usual way reads back: [hh:mm:ss], a comma
    or a full stop, and the milliseconds in three digits parse to
    [h * 3600000 + m * 60000 + s * 1000 + ms]. A fraction of one digit
    counts tenths of a second and one of two digits hundredths. *)
Theorem parse_timestamp_round_trip (h m s ms : Z) (sep : ascii)
    (Hh : 0 <= h < 100) (Hm : 0 <= m < 60) (Hs : 0 <= s < 60)
    (Hms : 0 <= ms < 1000) (Hsep : sep = ","%char \/ sep = "."%char) :
  Parser._parse_timestamp (srt_timestamp h m s sep (three_digits ms))
  = h * 3600000 + m * 60000 + s * 1000 + ms
  /\ (ms < 100 ->
      Parser._parse_timestamp (srt_timestamp h m s sep (two_digits ms))
      = h * 3600000 + m * 60000 + s * 1000 + ms * 10)
  /\ (ms < 10 ->
      Parser._parse_timestamp (srt_timestamp h m s sep [digit_char ms])
      = h * 3600000 + m * 60000 + s * 1000 + ms * 100).
Proof.
  assert (Hm' : 0 <= m < 100) by lia. assert (Hs' : 0 <= s < 100) by lia.
  split; [|split].
  - destruct (three_digits_value ms Hms) as [Hd Hv].
    rewrite parse_timestamp_written; try assumption; [|simpl; lia].
    unfold ljust. cbn [length three_digits Nat.sub repeat].
    rewrite app_nil_r. fold (three_digits ms). now rewrite Hv.
  - intros Hlt. destruct (two_digits_value ms) as [Hd Hv]; [lia|].
    rewrite parse_timestamp_written; try assumption; [|simpl; lia].
    unfold ljust. cbn [length two_digits Nat.sub repeat].
    fold (two_digits ms). unfold int_of_digits in *.
    rewrite fold_left_app. rewrite Hv. cbn [fold_left].
    change (digit_val "0") with 0. lia.
  - intros Hlt. destruct (digit_char_facts ms) as [Hd Hv]; [lia|].
    rewrite parse_timestamp_written; try assumption;
      [|repeat constructor; assumption|simpl; lia].
    unfold ljust, int_of_digits. cbn [length Nat.sub repeat app fold_left].
    rewrite Hv. change (digit_val "0") with 0. lia.
Qed.

Lemma parse_timestamp_round_trip_witness :
  Parser._parse_timestamp (lit "01:02:03,456") = 3723456
  /\ Parser._parse_timestamp (lit "01:02:03,45") = 3723450
  /\ Parser._parse_timestamp (lit "01:02:03,4") = 3723400.
Proof.
  pose proof (parse_timestamp_round_trip 1 2 3 456 ","%char
                ltac:(lia) ltac:(lia) ltac:(lia) ltac:(lia) (or_introl eq_refl))
    as [H _].
  pose proof (parse_timestamp_round_trip 1 2 3 45 ","%char
                ltac:(lia) ltac:(lia) ltac:(lia) ltac:(lia) (or_introl eq_refl))
    as (_ & H2 & _).
  pose proof (parse_timestamp_round_trip 1 2 3 4 ","%char
                ltac:(lia) ltac:(lia) ltac:(lia) ltac:(lia) (or_introl eq_refl))
    as (_ & _ & H3).
  split; [exact H|split; [apply H2; lia|apply H3; lia]].
Defined.

(** ** The lines on the wire *)

Section Framing.

Import Connection Commands.



















End Framing.


(** ** Opening, closing and the signals *)

Section Signals.

Import Connection Commands.

Ltac reduce_state := cbn -[count_connected count_disconnected].

Lemma count_connected_app (sigs : list Signal) (sig : Signal) :
  count_connected (sigs ++ [sig])
  = (count_connected sigs + match sig with connected => 1 | _ => 0 end)%nat.
Proof.
  unfold count_connected. rewrite filter_app, length_app.
  destruct sig; reflexivity.
Qed.

Lemma count_disconnected_app (sigs : list Signal) (sig : Signal) :
  count_disconnected (sigs ++ [sig])
  = (count_disconnected sigs + match sig with disconnected => 1 | _ => 0 end)%nat.
Proof.
  unfold count_disconnected. rewrite filter_app, length_app.
  destruct sig; reflexivity.
Qed.

Lemma close_port_balanced (c : SerialConnection) :
  balanced c -> balanced (close_port c).
Proof.
  destruct c as [o p b r t k l a w e s]. unfold balanced, close_port. reduce_state.
  destruct k; reduce_state; [|trivial].
  rewrite count_connected_app, count_disconnected_app. lia.
Qed.

Lemma send_balanced (cmd : Command) (c : SerialConnection) :
  balanced c -> balanced (send cmd c).
Proof.
  destruct c as [o p b r t k l a w e s]. unfold balanced.
  destruct cmd; cbn [send];
    try solve [unfold send_clear, send_text, send_state, send_meta, send_mode,
                 send_equalizer, _write;
               reduce_state; destruct o; trivial].
  unfold _send_ping, _write. reduce_state.
  destruct r; reduce_state; [|trivial].
  destruct o; reduce_state; destruct (Qltb _ _); destruct k; reduce_state; trivial;
    rewrite count_connected_app, count_disconnected_app; lia.
Qed.

Lemma process_line_balanced (line : str) (now : Q) (c : SerialConnection) :
  balanced c -> balanced (_process_line line now c).
Proof.
  destruct c as [o p b r t k l a w e s]. unfold balanced, _process_line. reduce_state.
  destruct (str_eqb line _).
  { destruct k; reduce_state; [trivial|].
    rewrite count_connected_app, count_disconnected_app. lia. }
  destruct (str_eqb line _).
  { reduce_state. rewrite count_connected_app, count_disconnected_app. lia. }
  destruct (str_eqb line _); [|trivial].
  reduce_state. rewrite count_connected_app, count_disconnected_app. lia.
Qed.

Lemma scheduler_turn_balanced (c : SerialConnection) :
  balanced c -> balanced (scheduler_turn c).
Proof.
  unfold scheduler_turn. cbv zeta. intros Hc.
  set (c0 := mkSerialConnection _ _ _ _ _ _ _ _ _ _ _).
  assert (H0 : balanced c0) by exact Hc.
  clearbody c0. revert c0 H0.
  induction (scheduled c) as [|cb rest IH]; intros c0 H0; cbn [fold_left];
    [exact H0|].
  apply IH. destruct cb. now apply close_port_balanced.
Qed.

Lemma open_port_balanced (port : str) (baud : Z) (failure : option str) (now : Q)
    (c : SerialConnection) :
  balanced c -> balanced (fst (open_port port baud failure now c)).
Proof.
  destruct c as [o p b r t k l a w e s]. unfold balanced, open_port, close_port.
  reduce_state. destruct failure; destruct k; reduce_state;
    rewrite ?count_connected_app, ?count_disconnected_app; reduce_state; lia.
Qed.

Lemma run_call_balanced (c : SerialConnection) (call : Call) :
  balanced c -> balanced (run_call c call).
Proof.
  intros Hc. destruct call as [port baud failure now| |cmd|now| |line now];
    cbn [run_call].
  - now apply open_port_balanced.
  - now apply close_port_balanced.
  - now apply send_balanced.
  - unfold ping_timer_timeout. destruct (_ping_timer_active c); [|exact Hc].
    apply (send_balanced (ping_command now)), Hc.
  - now apply scheduler_turn_balanced.
  - now apply process_line_balanced.
Qed.

End Signals.

(** X10. [close_port] is idempotent, and [open_port] begins by closing:
    opening is closing and then opening. Whether the handle is acquired or
    not, the link is not connected when [open_port] returns, and it returns
    success exactly when the handle was acquired; after a failure the link
    is closed, so opening a wrong port on a connected link drops it. *)
Theorem open_port_closes_first (port : str) (baud : Z) (failure : option str)
    (now : Q) (c : Connection.SerialConnection) :
  Connection.close_port (Connection.close_port c) = Connection.close_port c
  /\ Connection.open_port port baud failure now (Connection.close_port c)
     = Connection.open_port port baud failure now c
  /\ Connection._is_connected (fst (Connection.open_port port baud failure now c))
     = false
  /\ snd (Connection.open_port port baud failure now c)
     = match failure with None => true | Some _ => false end
  /\ (failure <> None ->
      Connection.close_port (fst (Connection.open_port port baud failure now c))
      = fst (Connection.open_port port baud failure now c)).
Proof.
  destruct c as [o p b r t k l a w e s].
  unfold Connection.open_port, Connection.close_port. cbn.
  destruct k, failure; cbn; repeat split; try reflexivity; congruence.
Qed.

(** X11. Along every history of a connection in which no read fails, it
    has never announced more disconnections than connections, and while it
    is connected it has announced one connection more. A failed read breaks
    the balance: on a link that was opened and never answered, the reader's
    error handler announces a disconnection that no connection preceded. *)
Theorem disconnected_follows_connected :
  (forall calls,
      (Connection.count_disconnected (Connection.emitted (run_calls calls))
       <= count_connected (Connection.emitted (run_calls calls)))%nat
      /\ (Connection._is_connected (run_calls calls) = true ->
          (Connection.count_disconnected (Connection.emitted (run_calls calls))
           < count_connected (Connection.emitted (run_calls calls)))%nat))
  /\ (let c := Reader.read_error
                 (run_calls [open_call (lit "COM3") 115200 None 0]) in
      Connection.emitted c = [Connection.disconnected]).
Proof.
  split; [|reflexivity].
  intros calls.
  assert (H : balanced (run_calls calls)).
  { unfold run_calls.
    assert (H : forall c, balanced c -> balanced (fold_left run_call calls c)).
    { induction calls as [|call rest IH]; intros c Hc; cbn [fold_left]; [exact Hc|].
      apply IH. now apply run_call_balanced. }
    apply H. unfold balanced. cbn. lia. }
  unfold balanced in H. split.
  - lia.
  - intros Hk. rewrite Hk in H. lia.
Qed.

(** ** The reader's buffer *)

Section ReaderBuffer.

Import Connection Reader.

Lemma split_first_none (sep : Z) (s : text) :
  split_first sep s = None -> ~ In sep s.
Proof.
  induction s as [|cp r IH]; cbn [split_first]; [intros _ []|].
  destruct (cp =? sep) eqn:He; [discriminate|].
  destruct (split_first sep r) as [[line rest]|]; [discriminate|].
  intros _ [->|Hin]; [now rewrite Z.eqb_refl in He|now apply IH].
Qed.

Lemma split_first_some (sep : Z) (s line rest : text) :
  split_first sep s = Some (line, rest) ->
  s = line ++ sep :: rest /\ ~ In sep line.
Proof.
  revert line. induction s as [|cp r IH]; intros line; cbn [split_first];
    [discriminate|].
  destruct (cp =? sep) eqn:He.
  - apply Z.eqb_eq in He. subst cp. intros [= <- <-]. split; [reflexivity|intros []].
  - destruct (split_first sep r) as [[line' rest']|]; [|discriminate].
    intros [= <- <-]. destruct (IH line' eq_refl) as [-> Hno].
    split; [reflexivity|].
    intros [->|Hin]; [now rewrite Z.eqb_refl in He|now apply Hno].
Qed.

Lemma split_first_app (sep : Z) (x y line rest : text) :
  split_first sep x = Some (line, rest) ->
  split_first sep (x ++ y) = Some (line, rest ++ y).
Proof.
  revert line. induction x as [|cp r IH]; intros line; cbn [split_first app];
    [discriminate|].
  destruct (cp =? sep); [now intros [= <- <-]|].
  destruct (split_first sep r) as [[line' rest']|]; [|discriminate].
  intros [= <- <-]. now rewrite (IH line' eq_refl).
Qed.

Lemma drain_fuel_enough (now : Q) :
  forall fuel buffer c,
    (length buffer <= fuel)%nat ->
    drain_fuel fuel buffer now c = drain buffer now c.
Proof.
  assert (H : forall fuel fuel' buffer c,
             (length buffer <= fuel)%nat -> (length buffer <= fuel')%nat ->
             drain_fuel fuel buffer now c = drain_fuel fuel' buffer now c).
  { induction fuel as [|f IH]; intros fuel' buffer c Hf Hf'.
    - destruct buffer; [|cbn [length] in Hf; lia]. destruct fuel'; reflexivity.
    - destruct fuel' as [|f'].
      + destruct buffer; [|cbn [length] in Hf'; lia]. reflexivity.
      + cbn [drain_fuel].
        destruct (split_first NEWLINE buffer) as [[line rest]|] eqn:Hs; [|reflexivity].
        destruct (split_first_some _ _ _ _ Hs) as [-> _].
        rewrite length_app in Hf, Hf'. cbn [length] in Hf, Hf'.
        apply IH; lia. }
  intros fuel buffer c Hf. unfold drain. apply H; [exact Hf|lia].
Qed.

Lemma drain_unfold (buffer : text) (now : Q) (c : SerialConnection) :
  drain buffer now c
  = match split_first NEWLINE buffer with
    | None => (buffer, c)
    | Some (line, rest) => drain rest now (hand_on line now c)
    end.
Proof.
  unfold drain at 1. destruct buffer as [|cp r]; [reflexivity|].
  cbn [length drain_fuel].
  destruct (split_first NEWLINE (cp :: r)) as [[line rest]|] eqn:Hs; [|reflexivity].
  destruct (split_first_some _ _ _ _ Hs) as [E _].
  assert (Hlen : (length rest <= length r)%nat).
  { apply (f_equal (@length Z)) in E. rewrite length_app in E.
    cbn [length] in E. lia. }
  now apply drain_fuel_enough.
Qed.

Lemma drain_app (now : Q) (y : text) :
  forall n x c,
    (length x <= n)%nat ->
    drain (x ++ y) now c
    = drain (fst (drain x now c) ++ y) now (snd (drain x now c)).
Proof.
  induction n as [|n IH]; intros x c Hn.
  - destruct x; [|cbn [length] in Hn; lia]. reflexivity.
  - rewrite (drain_unfold x).
    destruct (split_first NEWLINE x) as [[line rest]|] eqn:Hs; [|reflexivity].
    rewrite (drain_unfold (x ++ y)), (split_first_app _ _ _ _ _ Hs).
    destruct (split_first_some _ _ _ _ Hs) as [-> _].
    rewrite length_app in Hn. cbn [length] in Hn.
    apply IH. lia.
Qed.

Lemma split_nonempty (sep : Z) (s : text) : split sep s <> [].
Proof.
  destruct s as [|cp r]; cbn [split]; [discriminate|].
  destruct (cp =? sep); [discriminate|].
  destruct (split sep r); discriminate.
Qed.

Lemma split_no_sep (sep : Z) (s : text) : ~ In sep s -> split sep s = [s].
Proof.
  induction s as [|cp r IH]; intros Hno; cbn [split]; [reflexivity|].
  destruct (cp =? sep) eqn:He.
  - apply Z.eqb_eq in He. exfalso. apply Hno. now left.
  - rewrite IH; [reflexivity|]. intros Hin. apply Hno. now right.
Qed.

Lemma split_app_sep (sep : Z) (line rest : text) :
  ~ In sep line -> split sep (line ++ sep :: rest) = line :: split sep rest.
Proof.
  induction line as [|cp r IH]; intros Hno; cbn [split app].
  - now rewrite Z.eqb_refl.
  - destruct (cp =? sep) eqn:He.
    + apply Z.eqb_eq in He. exfalso. apply Hno. now left.
    + rewrite IH; [reflexivity|]. intros Hin. apply Hno. now right.
Qed.

Lemma drain_lines (now : Q) :
  forall n buffer c,
    (length buffer <= n)%nat ->
    drain buffer now c
    = (last (split NEWLINE buffer) [], process_lines (complete_lines buffer) now c).
Proof.
  induction n as [|n IH]; intros buffer c Hn.
  - destruct buffer; [|cbn [length] in Hn; lia]. reflexivity.
  - rewrite drain_unfold.
    destruct (split_first NEWLINE buffer) as [[line rest]|] eqn:Hs.
    + destruct (split_first_some _ _ _ _ Hs) as [-> Hno].
      rewrite length_app in Hn. cbn [length] in Hn.
      rewrite IH by lia.
      unfold complete_lines. rewrite split_app_sep by exact Hno.
      pose proof (split_nonempty NEWLINE rest) as Hne.
      destruct (split NEWLINE rest) as [|f fs] eqn:Hf; [congruence|].
      change (last (line :: f :: fs) []) with (last (f :: fs) ([] : text)).
      change (removelast (line :: f :: fs)) with (line :: removelast (f :: fs)).
      cbn [map filter]. unfold hand_on. cbv zeta.
      destruct (strip_text line); reflexivity.
    + apply split_first_none in Hs.
      unfold complete_lines. rewrite split_no_sep by exact Hs. reflexivity.
Qed.

Lemma last_split_clean (sep : Z) (s : text) :
  ~ In sep (last (split sep s) []).
Proof.
  induction s as [|cp r IH]; cbn [split]; [intros []|].
  pose proof (split_nonempty sep r) as Hne.
  destruct (cp =? sep) eqn:He.
  - destruct (split sep r) as [|f fs]; [congruence|]. exact IH.
  - destruct (split sep r) as [|f fs]; [congruence|].
    destruct fs as [|g gs].
    + cbn [last] in *. intros [->|Hin]; [now rewrite Z.eqb_refl in He|now apply IH].
    + exact IH.
Qed.

(** Bytes of ASCII decode to themselves, whatever follows them. *)
Lemma decode_ascii (raw1 raw2 : list Byte.byte) :
  Forall is_ascii raw1 ->
  decode (raw1 ++ raw2) = map byte_val raw1 ++ decode raw2.
Proof.
  induction 1 as [|b r Hb _ IH]; [reflexivity|].
  cbn [app map]. cbn [decode]. cbv zeta.
  apply Z.ltb_lt in Hb. rewrite Hb. now rewrite IH.
Qed.

(** Two reads whose bytes decode, each by itself, to the text their
    concatenation decodes to are one read. *)
Lemma read_twice (raw1 raw2 : list Byte.byte) (now : Q)
    (state : text * SerialConnection) :
  decode (raw1 ++ raw2) = decode raw1 ++ decode raw2 ->
  read raw2 now (read raw1 now state) = read (raw1 ++ raw2) now state.
Proof.
  intros Hcut. destruct state as [buffer c]. unfold read. cbn [fst snd].
  destruct raw1 as [|a r1]; [reflexivity|].
  destruct raw2 as [|b r2].
  - now rewrite app_nil_r.
  - cbn [app] in *. rewrite Hcut, app_assoc.
    apply eq_sym, (drain_app now _ (length (buffer ++ decode (a :: r1)))). lia.
Qed.

End ReaderBuffer.

(** X12. The reader and the cutting of the bytes into reads. The loop over
    the buffer hands on exactly the lines the buffer holds in full, stripped
    and the blank ones dropped, in order, and keeps the text after the last
    newline, which holds no newline. Every read is decoded by itself: two
    reads one after the other, at one reading of the clock, leave the
    buffer and the connection as one read of the joined bytes does
    whenever the two decode to the text the joined bytes decode to, which
    they do when the first read is ASCII, as the lines of the protocol
    are; so a reply cut in two by the transport is still one reply. A cut
    inside a character of several bytes is seen: the bytes [C2 A0] and
    [PONG] with its newline connect the link in one read, and cut behind
    [C2] they leave two U+FFFD in front of the word, and no signal. *)
Theorem reader_chunking (now : Q) (state : Reader.text * Connection.SerialConnection) :
  (forall raw1 raw2,
      Reader.decode (raw1 ++ raw2) = Reader.decode raw1 ++ Reader.decode raw2 ->
      Reader.read raw2 now (Reader.read raw1 now state)
      = Reader.read (raw1 ++ raw2) now state)
  /\ (forall raw1 raw2,
        Forall is_ascii raw1 ->
        Reader.decode (raw1 ++ raw2) = map Reader.byte_val raw1 ++ Reader.decode raw2
        /\ Reader.read raw2 now (Reader.read raw1 now state)
           = Reader.read (raw1 ++ raw2) now state)
  /\ Reader.drain (fst state) now (snd state)
     = (last (Reader.split Reader.NEWLINE (fst state)) [],
        process_lines (complete_lines (fst state)) now (snd state))
  /\ ~ In Reader.NEWLINE (fst (Reader.drain (fst state) now (snd state)))
  /\ (let c := fst (Connection.open_port (lit "COM3") 115200 None 0 Connection.init) in
      let pong := [Byte.x50; Byte.x4f; Byte.x4e; Byte.x47; Byte.x0a] in
      Reader.read (Byte.xc2 :: Byte.xa0 :: pong) now ([], c)
      = ([], Connection._process_line (lit "PONG") now c)
      /\ Connection.emitted (Connection._process_line (lit "PONG") now c)
         = [Connection.connected]
      /\ Reader.decode [Byte.xc2] = [Reader.REPLACEMENT]
      /\ Reader.decode (Byte.xa0 :: pong) = Reader.REPLACEMENT :: [80; 79; 78; 71; 10]
      /\ Reader.read (Byte.xa0 :: pong) now (Reader.read [Byte.xc2] now ([], c))
         = ([], c)).
Proof.
  split; [|split; [|split; [|split]]].
  - intros raw1 raw2. apply read_twice.
  - intros raw1 raw2 Hascii.
    pose proof (decode_ascii raw1 raw2 Hascii) as Hcut.
    split; [exact Hcut|]. apply read_twice.
    rewrite Hcut. f_equal.
    pose proof (decode_ascii raw1 [] Hascii) as Hself.
    rewrite !app_nil_r in Hself. now rewrite Hself.
  - destruct state as [buffer c]. cbn [fst snd].
    apply (drain_lines now (length buffer)). lia.
  - destruct state as [buffer c]. cbn [fst snd].
    rewrite (drain_lines now (length buffer)) by lia. cbn [fst].
    apply last_split_clean.
  - cbv zeta. repeat split; reflexivity.
Qed.

(** ** A heartbeat that is answered *)

Section Answered.

Import Connection Commands.

Lemma Qltb_false (a b : Q) : (b <= a)%Q -> Qltb a b = false.
Proof.
  intros H. unfold Qltb. apply negb_false_iff. now apply Qle_bool_iff.
Qed.

Lemma send_ping_in_time (now : Q) (c : SerialConnection) :
  link_up c -> (now - _last_pong_time c <= PONG_TIMEOUT_S)%Q ->
  _send_ping now c = _write (lit "PING" ++ [LF]) c.
Proof.
  intros (Hopen & Hrun & _ & _) Hin. unfold _send_ping.
  rewrite Hrun. cbn [negb].
  assert (Hlast : _last_pong_time (_write (lit "PING" ++ [LF]) c) = _last_pong_time c).
  { unfold _write. now destruct (_serial_open c). }
  cbv zeta. rewrite Hlast, (Qltb_false _ _ Hin). reflexivity.
Qed.

Lemma write_same_link (data : str) (c : SerialConnection) :
  link_up c -> same_link c (_write data c)
               /\ _last_pong_time (_write data c) = _last_pong_time c.
Proof.
  intros Hup. unfold _write. destruct Hup as (Hopen & Hrun & Htimer & Hsched).
  rewrite Hopen. unfold same_link, link_up. cbn. now repeat split.
Qed.

Lemma process_line_same_link (line : str) (now : Q) (c : SerialConnection) :
  link_up c ->
  same_link c (_process_line line now c)
  /\ _last_pong_time (_process_line line now c)
     = if str_eqb line (lit "PONG") then now else _last_pong_time c.
Proof.
  intros (Hopen & Hrun & Htimer & Hsched).
  destruct c as [o p b r t k l a w e s]. cbn in Hopen, Hrun, Htimer, Hsched. subst.
  unfold _process_line, same_link, link_up.
  destruct (str_eqb line (lit "PONG")).
  - destruct k; cbn -[count_error count_disconnected]; repeat split;
      unfold count_error, count_disconnected;
      rewrite ?filter_app, ?length_app; cbn; lia.
  - destruct (str_eqb line (lit "BTN|PRESS")).
    + cbn -[count_error count_disconnected]; repeat split; try tauto;
        unfold count_error, count_disconnected;
        rewrite ?filter_app, ?length_app; cbn; lia.
    + destruct (str_eqb line (lit "BTN|LONG")).
      * cbn -[count_error count_disconnected]; repeat split; try tauto;
          unfold count_error, count_disconnected;
          rewrite ?filter_app, ?length_app; cbn; lia.
      * cbn. repeat split; tauto.
Qed.

Lemma send_same_link (cmd : Command) (c : SerialConnection) :
  link_up c ->
  match cmd with
  | ping_command now => (now - _last_pong_time c <= PONG_TIMEOUT_S)%Q
  | _ => True
  end ->
  same_link c (send cmd c) /\ _last_pong_time (send cmd c) = _last_pong_time c.
Proof.
  intros Hup Hin. destruct cmd; cbn [send];
    try (now apply write_same_link).
  rewrite send_ping_in_time by assumption. now apply write_same_link.
Qed.

Lemma scheduler_turn_idle (c : SerialConnection) :
  scheduled c = [] -> scheduler_turn c = c.
Proof.
  intros H. unfold scheduler_turn. cbv zeta. rewrite H. cbn [fold_left].
  destruct c. cbn in *. now subst.
Qed.

Lemma run_call_answered (c : SerialConnection) (call : Call) (rest : list Call) :
  link_up c -> answered (_last_pong_time c) (call :: rest) ->
  same_link c (run_call c call)
  /\ answered (_last_pong_time (run_call c call)) rest.
Proof.
  intros Hup Hans.
  destruct call as [port baud failure now| |cmd|now| |line now];
    cbn [answered] in Hans; try contradiction; cbn [run_call].
  - destruct cmd; cbn [answered] in Hans;
      try (match goal with
           | |- same_link c (send ?cmd c) /\ _ =>
               destruct (send_same_link cmd c Hup I) as [Hs Hl]
           end;
           split; [exact Hs|now rewrite Hl]).
    destruct Hans as [Hin Hrest].
    destruct (send_same_link (ping_command now) c Hup Hin) as [Hs Hl].
    split; [exact Hs|now rewrite Hl].
  - destruct Hans as [Hin Hrest]. unfold ping_timer_timeout.
    destruct Hup as (Hopen & Hrun & Htimer & Hsched). rewrite Htimer.
    destruct (send_same_link (ping_command now) c
                (conj Hopen (conj Hrun (conj Htimer Hsched))) Hin) as [Hs Hl].
    split; [exact Hs|]. cbn [send] in Hl. now rewrite Hl.
  - rewrite scheduler_turn_idle by apply Hup.
    split; [|exact Hans].
    split; [exact Hup|]. split; [reflexivity|]. split; [reflexivity|auto].
  - destruct (process_line_same_link line now c Hup) as [Hs Hl].
    split; [exact Hs|now rewrite Hl].
Qed.

Lemma same_link_trans (c1 c2 c3 : SerialConnection) :
  same_link c1 c2 -> same_link c2 c3 -> same_link c1 c3.
Proof.
  intros (_ & He1 & Hd1 & Hk1) (Hup & He2 & Hd2 & Hk2).
  split; [exact Hup|]. split; [congruence|]. split; [congruence|auto].
Qed.

End Answered.

(** X28. A heartbeat that is answered keeps the link. On a link that is up,
    as long as every ping goes out at most five seconds after the last PONG
    (or after the port was opened), whatever is sent and whatever lines
    arrive in between: the port stays open with its reader and its timer,
    nothing is queued to close it, no [error] and no [disconnected] is
    emitted, and a link that was connected stays connected. *)
Theorem heartbeat_answered (c : Connection.SerialConnection) (events : list Call)
    (Hup : link_up c)
    (Hanswered : answered (Connection._last_pong_time c) events) :
  same_link c (fold_left run_call events c).
Proof.
  revert c Hup Hanswered.
  induction events as [|call rest IH]; intros c Hup Hanswered; cbn [fold_left].
  - split; [exact Hup|]. split; [reflexivity|]. split; [reflexivity|auto].
  - destruct (run_call_answered c call rest Hup Hanswered) as [Hstep Hrest].
    apply same_link_trans with (c2 := run_call c call); [exact Hstep|].
    apply IH; [apply Hstep|exact Hrest].
Qed.

Lemma heartbeat_answered_witness :
  let c := fst (Connection.open_port (lit "COM3") 115200 None 0 Connection.init) in
  let events :=
    [tick_call 2; line_call (lit "PONG") (5 # 2); tick_call 4;
     send_call (Commands.text_command (lit "la")); tick_call 6;
     line_call (lit "PONG") 7; tick_call 8; tick_call 10; tick_call 12] in
  same_link c (fold_left run_call events c)
  /\ Connection.emitted (fold_left run_call events c) = [Connection.connected].
Proof.
  intros c events. split; [|reflexivity].
  apply heartbeat_answered.
  - unfold link_up. now repeat split.
  - cbn. unfold Qle. cbn. repeat split; lia.
Defined.

(** ** The timeout episode *)

Section Episode.

Import Connection.

Lemma link_signals_app (sigs sigs' : list Signal) :
  link_signals (sigs ++ sigs') = link_signals sigs ++ link_signals sigs'.
Proof.
  apply filter_app.
Qed.

(** The button's signals are neither errors nor disconnections. *)
Lemma count_error_link_signals (sigs : list Signal) :
  count_error (link_signals sigs) = count_error sigs.
Proof.
  unfold count_error, link_signals.
  induction sigs as [|sig sigs IH]; [reflexivity|].
  destruct sig; simpl; now rewrite ?IH.
Qed.

Lemma count_disconnected_link_signals (sigs : list Signal) :
  count_disconnected (link_signals sigs) = count_disconnected sigs.
Proof.
  unfold count_disconnected, link_signals.
  induction sigs as [|sig sigs IH]; [reflexivity|].
  destruct sig; simpl; now rewrite ?IH.
Qed.

(** A line that is not PONG changes nothing but the signals emitted, and
    emits at most a signal of the button. *)
Lemma process_line_frame (line : str) (now : Q) (c : SerialConnection) :
  line <> lit "PONG" ->
  exists new,
    _process_line line now c
    = mkSerialConnection (_serial_open c) (_port c) (_baud c) (_running c)
        (_reader_thread c) (_is_connected c) (_last_pong_time c)
        (_ping_timer_active c) (written c) (emitted c ++ new) (scheduled c)
    /\ link_signals new = [].
Proof.
  intros Hline.
  assert (Hpong : str_eqb line (lit "PONG") = false).
  { destruct (str_eqb line (lit "PONG")) eqn:Hpong; [|reflexivity].
    apply str_eqb_true in Hpong. contradiction. }
  unfold _process_line. rewrite Hpong. clear Hpong Hline.
  destruct c as [o p b r t k l a w e s].
  destruct (str_eqb line (lit "BTN|PRESS")).
  { exists [button_press]. split; reflexivity. }
  destruct (str_eqb line (lit "BTN|LONG")).
  { exists [button_long]. split; reflexivity. }
  exists []. cbn. now rewrite app_nil_r.
Qed.

(** The reader thread on a link that is running and not connected, while
    no PONG is read: nothing changes but the signals emitted, and of the
    signals about the link only a [disconnected] is emitted, by the read
    that fails first. *)
Lemma reader_steps_frame (meanwhile : list ReaderEvent) :
  forall (reading : bool) (c : SerialConnection),
    _running c = true ->
    _is_connected c = false ->
    Forall not_pong meanwhile ->
    exists new,
      fold_left reader_step meanwhile (reading, c)
      = (reading && negb (existsb is_read_fails meanwhile),
         mkSerialConnection (_serial_open c) (_port c) (_baud c) (_running c)
           (_reader_thread c) (_is_connected c) (_last_pong_time c)
           (_ping_timer_active c) (written c) (emitted c ++ new) (scheduled c))
      /\ link_signals new
         = if reading && existsb is_read_fails meanwhile then [disconnected] else [].
Proof.
  induction meanwhile as [|e rest IH]; intros reading c Hr Hc Hquiet.
  - exists []. cbn [fold_left existsb negb]. rewrite andb_true_r, andb_false_r.
    destruct c; cbn. now rewrite app_nil_r.
  - inversion Hquiet as [|? ? He Hrest]; subst.
    cbn [fold_left existsb]. destruct reading.
    + destruct e as [line now|]; cbn [reader_step is_read_fails orb negb andb].
      * destruct (process_line_frame line now c He) as (b & -> & Hb).
        set (c1 := mkSerialConnection _ _ _ _ _ _ _ _ _ _ _).
        destruct (IH true c1 Hr Hc Hrest) as (new & Hfold & Hnew).
        subst c1.
        cbn [_serial_open _port _baud _running _reader_thread _is_connected
             _last_pong_time _ping_timer_active written emitted scheduled] in Hfold.
        exists (b ++ new). rewrite Hfold, app_assoc.
        split; [reflexivity|]. now rewrite link_signals_app, Hb, Hnew.
      * unfold Reader.read_error. rewrite Hr.
        destruct c as [o p b r t k l a w e s]. cbn in Hr, Hc. subst r k.
        destruct (IH false (emit disconnected
                              (set_is_connected false
                                 (mkSerialConnection o p b true t false l a w e s)))
                    eq_refl eq_refl Hrest) as (new & Hfold & Hnew).
        cbn in Hfold. exists (disconnected :: new).
        rewrite Hfold, <- app_assoc. cbn.
        split; [reflexivity|]. cbn [andb] in Hnew.
        f_equal. exact Hnew.
    + cbn [reader_step andb].
      destruct (IH false c Hr Hc Hrest) as (new & Hfold & Hnew).
      exists new. split; [exact Hfold|exact Hnew].
Qed.

(** The signals emitted apart, the waiting link and the closing one are
    what they are. *)
Lemma awaiting_frame (port : str) (t0 : Q) (sigs new : list Signal)
    (c : SerialConnection) :
  awaiting port t0 sigs c ->
  awaiting port t0 (sigs ++ new)
    (mkSerialConnection (_serial_open c) (_port c) (_baud c) (_running c)
       (_reader_thread c) (_is_connected c) (_last_pong_time c)
       (_ping_timer_active c) (written c) (emitted c ++ new) (scheduled c)).
Proof.
  intros [Ho Hp Hr Hc Ht Ha He Hs]. constructor; cbn; try assumption.
  now rewrite He.
Qed.

Lemma closing_frame (port : str) (sigs new : list Signal) (c : SerialConnection) :
  closing port sigs c ->
  closing port (sigs ++ new)
    (mkSerialConnection (_serial_open c) (_port c) (_baud c) (_running c)
       (_reader_thread c) (_is_connected c) (_last_pong_time c)
       (_ping_timer_active c) (written c) (emitted c ++ new) (scheduled c)).
Proof.
  intros [Hp Hr Hc He Hs]. constructor; cbn; try assumption.
  now rewrite He.
Qed.

(** The handler before the timeout: a PING is written, nothing else. *)
Lemma early_ping_awaiting (port : str) (t0 now : Q) (sigs : list Signal)
    (c : SerialConnection) :
  awaiting port t0 sigs c ->
  Qltb PONG_TIMEOUT_S (now - t0) = false ->
  awaiting port t0 sigs (ping_timer_timeout now c).
Proof.
  intros [Ho Hp Hr Hc Ht Ha He Hs] Hearly.
  destruct c; simpl in *; subst.
  unfold ping_timer_timeout, _send_ping, _write; simpl. rewrite Hearly.
  constructor; reflexivity.
Qed.

(** The handler after the timeout: the error is emitted and the close is
    queued. *)
Lemma late_ping_closing (port : str) (t0 now : Q) (sigs : list Signal)
    (c : SerialConnection) :
  awaiting port t0 sigs c ->
  Qltb PONG_TIMEOUT_S (now - t0) = true ->
  closing port (sigs ++ [error (lit "No response from " ++ port)])
    (ping_timer_timeout now c).
Proof.
  intros [Ho Hp Hr Hc Ht Ha He Hs] Hlate.
  destruct c; simpl in *; subst.
  unfold ping_timer_timeout, _send_ping, _write; simpl. rewrite Hlate.
  constructor; reflexivity.
Qed.

(** A turn of the event loop: nothing on a waiting link, and the close on
    a closing one, which emits nothing. *)
Lemma scheduler_turn_awaiting (port : str) (t0 : Q) (sigs : list Signal)
    (c : SerialConnection) :
  awaiting port t0 sigs c -> awaiting port t0 sigs (scheduler_turn c).
Proof.
  intros [Ho Hp Hr Hc Ht Ha He Hs]. unfold scheduler_turn. rewrite Hs.
  constructor; cbn; auto.
Qed.

Lemma scheduler_turn_closing (port : str) (sigs : list Signal) (c : SerialConnection) :
  closing port sigs c -> torn_down sigs (scheduler_turn c).
Proof.
  intros [Hp Hr Hc He Hs]. unfold scheduler_turn. rewrite Hs.
  cbn [fold_left run_callback]. unfold close_port. cbn. rewrite Hc.
  constructor; cbn; auto.
Qed.

(** Once the link is torn down the reader has left its loop, and nothing
    more happens. *)
Lemma torn_down_episode (sigs : list Signal) (events : list Event) :
  forall c,
    torn_down sigs c ->
    torn_down sigs (snd (fold_left episode_step events (false, c))).
Proof.
  induction events as [|e events IH]; intros c Hc; [exact Hc|].
  cbn [fold_left]. destruct e as [now meanwhile|e].
  - cbn [episode_step].
    assert (Hidle : forall state,
               fst state = false -> fold_left reader_step meanwhile state = state).
    { induction meanwhile as [|m rest IHm]; intros [r s] Hs; [reflexivity|].
      cbn in Hs. subst r. cbn [fold_left reader_step]. now apply IHm. }
    rewrite Hidle by reflexivity. cbn [andb]. apply IH.
    destruct Hc as [Ho Hr Hth Hc Ht He Hs].
    unfold ping_timer_timeout. rewrite Ht.
    unfold scheduler_turn. rewrite Hs.
    constructor; cbn; auto.
  - cbn [episode_step reader_step]. now apply IH.
Qed.

(** A waiting link whose timer fires late once ends torn down. Of the
    signals about the link it has emitted the timeout's error, and one
    [disconnected] when a read failed while the port was open. *)
Lemma episode_timeout (port : str) (t0 : Q) (events : list Event) :
  forall (reading : bool) (c : SerialConnection) (sigs : list Signal),
    awaiting port t0 sigs c ->
    no_pong events ->
    Exists (late_tick t0) events ->
    exists new,
      torn_down (sigs ++ new) (snd (fold_left episode_step events (reading, c)))
      /\ Permutation (link_signals new)
           ((if reading && read_fails_in_time t0 events then [disconnected] else [])
            ++ [error (lit "No response from " ++ port)]).
Proof.
  induction events as [|e events IH]; intros reading c sigs Hc Hquiet Hlate.
  { inversion Hlate. }
  inversion Hquiet as [|? ? Hhead Hquiet']; subst.
  cbn [fold_left]. destruct e as [now meanwhile|e].
  - cbn [episode_step read_fails_in_time].
    destruct (Qltb PONG_TIMEOUT_S (now - t0)) eqn:Hnow.
    + pose proof (late_ping_closing port t0 now sigs c Hc Hnow) as Hclosing.
      destruct (reader_steps_frame meanwhile reading _
                  (cl_running _ _ _ Hclosing) (cl_connected _ _ _ Hclosing) Hhead)
        as (b & -> & Hb).
      pose proof (scheduler_turn_closing _ _ _ (closing_frame _ _ b _ Hclosing))
        as Hdown.
      rewrite (td_running _ _ Hdown), andb_false_r.
      exists ([error (lit "No response from " ++ port)] ++ b).
      rewrite app_assoc. split; [now apply torn_down_episode|].
      rewrite link_signals_app, Hb, orb_false_r.
      apply Permutation_app_comm.
    + pose proof (early_ping_awaiting port t0 now sigs c Hc Hnow) as Hwait.
      destruct (reader_steps_frame meanwhile reading _
                  (aw_running _ _ _ _ Hwait) (aw_connected _ _ _ _ Hwait) Hhead)
        as (b & -> & Hb).
      pose proof (scheduler_turn_awaiting _ _ _ _ (awaiting_frame _ _ _ b _ Hwait))
        as Hturn.
      rewrite (aw_running _ _ _ _ Hturn), andb_true_r.
      assert (Htail : Exists (late_tick t0) events).
      { inversion Hlate as [? ? Hnow'|? ? Htail]; subst; [|exact Htail].
        cbn in Hnow'. apply Qltb_true in Hnow'. congruence. }
      destruct (IH (reading && negb (existsb is_read_fails meanwhile)) _ _
                  Hturn Hquiet' Htail) as (new & Hdown & Hnew).
      exists (b ++ new). rewrite app_assoc. split; [exact Hdown|].
      rewrite link_signals_app, Hb.
      destruct reading, (existsb is_read_fails meanwhile); cbn [andb orb negb] in *;
        try exact Hnew.
      now apply (Permutation_app_head [disconnected]).
  - assert (Htail : Exists (late_tick t0) events).
    { inversion Hlate as [? ? Hnow'|? ? Htail]; subst; [destruct Hnow'|exact Htail]. }
    cbn [episode_step read_fails_in_time].
    assert (Hone : Forall not_pong [e]) by (constructor; [exact Hhead|constructor]).
    destruct (reader_steps_frame [e] reading c
                (aw_running _ _ _ _ Hc) (aw_connected _ _ _ _ Hc) Hone)
      as (b & Hstep & Hb).
    cbn [fold_left existsb] in Hstep, Hb. rewrite orb_false_r in Hstep, Hb.
    rewrite Hstep.
    destruct (IH (reading && negb (is_read_fails e)) _ _
                (awaiting_frame _ _ _ b _ Hc) Hquiet' Htail)
      as (new & Hdown & Hnew).
    exists (b ++ new). rewrite app_assoc. split; [exact Hdown|].
    rewrite link_signals_app, Hb.
    destruct reading, (is_read_fails e); cbn [andb orb negb] in *;
      try exact Hnew.
    now apply (Permutation_app_head [disconnected]).
Qed.

(** With no line read and no read failing, an episode is the ping timer
    firing. *)
Lemma episode_silent_ticks (times : list Q) :
  forall (reading : bool) (c : SerialConnection),
    snd (fold_left episode_step (map (fun now => timer_fires now []) times)
           (reading, c))
    = silent_ticks times c.
Proof.
  induction times as [|now later IH]; intros reading c; [reflexivity|].
  cbn [map fold_left episode_step silent_ticks]. apply IH.
Qed.

Lemma count_error_perm (sigs sigs' : list Signal) :
  Permutation sigs sigs' -> count_error sigs = count_error sigs'.
Proof.
  intros H. unfold count_error. now apply Permutation_length, filter_perm.
Qed.

Lemma count_disconnected_perm (sigs sigs' : list Signal) :
  Permutation sigs sigs' -> count_disconnected sigs = count_disconnected sigs'.
Proof.
  intros H. unfold count_disconnected. now apply Permutation_length, filter_perm.
Qed.

End Episode.

(** C3, as worded, fails: a link opened at time 0 that hears no PONG, with
    the ping timer firing at 2, 4 and 6 seconds and [close()] called after
    the teardown, emits one error and no [disconnected] at all. *)
Lemma timeout_emits_no_disconnected :
  let c1 := fst (Connection.open_port (lit "COM3") 115200 None 0 Connection.init) in
  let c2 := Connection.close_port (Connection.silent_ticks [2%Q; 4%Q; 6%Q] c1) in
  Connection.emitted c2 = [Connection.error (lit "No response from COM3")]
  /\ ~ one_disconnect_error_pair (Connection.emitted c2).
Proof.
  vm_compute. split; [reflexivity|]. intros [H _]. discriminate.
Qed.

(** C3, amended. A link is opened at [t0] and no PONG is observed: in the
    episode that follows the ping timer fires and the reader thread hands
    on lines that are not PONG or meets a read that fails, between two
    ticks or between a tick and the turn of the event loop after it; the
    timer fires at least once more than five seconds after [t0]. The
    handler that finds the timeout passed marks the link not connected,
    emits an error naming the port and queues [close_port] without running
    it. Over the whole episode exactly one error is emitted. A
    [disconnected] is emitted by the reader's error handler alone: exactly
    one when a read fails while the port is open, before or after the
    error, and none when no read fails; [close_port] emits none. The link
    ends torn down, and a later [close_port] emits nothing. *)
Theorem pong_timeout_episode (c0 : Connection.SerialConnection) (port : str)
    (baud : Z) (t0 : Q) (events : list Event) :
  Connection.scheduled c0 = [] ->
  no_pong events ->
  Exists (late_tick t0) events ->
  let c1 := fst (Connection.open_port port baud None t0 c0) in
  let c2 := episode events c1 in
  let timeout_error := Connection.error (lit "No response from " ++ port) in
  let failed := read_fails_in_time t0 events in
  (forall now c,
      awaiting port t0 (Connection.emitted c1) c ->
      (Connection.PONG_TIMEOUT_S < now - t0)%Q ->
      let c' := Connection._send_ping now c in
      Connection._is_connected c' = false
      /\ Connection.emitted c' = Connection.emitted c1 ++ [timeout_error]
      /\ Connection.scheduled c' = [Connection.call_close_port]
      /\ Connection._running c' = true
      /\ Connection._serial_open c' = true)
  /\ (exists new,
        Connection.emitted c2 = Connection.emitted c1 ++ new
        /\ Permutation (link_signals new)
             ((if failed then [Connection.disconnected] else []) ++ [timeout_error]))
  /\ Connection.count_error (Connection.emitted c2)
     = S (Connection.count_error (Connection.emitted c1))
  /\ Connection.count_disconnected (Connection.emitted c2)
     = (Connection.count_disconnected (Connection.emitted c1)
        + (if failed then 1 else 0))%nat
  /\ torn_down (Connection.emitted c2) c2
  /\ Connection.emitted (Connection.close_port c2) = Connection.emitted c2
  /\ (forall times,
        episode (map (fun now => timer_fires now []) times) c1
        = Connection.silent_ticks times c1).
Proof.
  intros Hq Hquiet Hlate c1 c2 timeout_error failed.
  assert (Hc1 : awaiting port t0 (Connection.emitted c1) c1)
    by now apply open_port_awaiting.
  destruct (episode_timeout port t0 events true c1 _ Hc1 Hquiet Hlate)
    as (new & Hdown & Hnew).
  fold (episode events c1) in Hdown. fold c2 in Hdown.
  cbn [andb] in Hnew. fold failed timeout_error in Hnew.
  pose proof (td_emitted _ _ Hdown) as He2.
  split; [|split; [|split; [|split; [|split; [|split]]]]].
  - intros now c Hc Hnow c'.
    destruct (send_ping_timeout now c) as (H1 & H2 & H3 & H4 & H5).
    + apply (aw_running _ _ _ _ Hc).
    + now rewrite (aw_pong _ _ _ _ Hc).
    + fold c' in H1, H2, H3, H4, H5.
      rewrite (aw_emitted _ _ _ _ Hc), (aw_port _ _ _ _ Hc) in H2.
      rewrite (aw_scheduled _ _ _ _ Hc) in H3.
      rewrite (aw_open _ _ _ _ Hc) in H5. auto.
  - exists new. split; [exact He2|exact Hnew].
  - rewrite He2. unfold Connection.count_error at 1.
    rewrite filter_app, length_app.
    fold (Connection.count_error (Connection.emitted c1)).
    fold (Connection.count_error new).
    rewrite <- (count_error_link_signals new), (count_error_perm _ _ Hnew).
    destruct failed; cbn; lia.
  - rewrite He2. unfold Connection.count_disconnected at 1.
    rewrite filter_app, length_app.
    fold (Connection.count_disconnected (Connection.emitted c1)).
    fold (Connection.count_disconnected new).
    rewrite <- (count_disconnected_link_signals new),
      (count_disconnected_perm _ _ Hnew).
    destruct failed; cbn; lia.
  - rewrite He2. exact Hdown.
  - rewrite He2. exact (td_emitted _ _ (torn_down_close_port _ _ Hdown)).
  - intros times. apply episode_silent_ticks.
Qed.

(** Three episodes on a link opened at time 0, the timer firing at 2, 4 and
    6 seconds. In the first the button is pressed once: one error and no
    [disconnected]. In the second a read fails after the first tick: the
    reader emits [disconnected], and the timeout its error. In the third
    the read fails after the tick at 6 has found the timeout and before
    the port is closed: the error comes first. *)
Lemma pong_timeout_episode_witness :
  let c1 := fst (Connection.open_port (lit "COM3") 115200 None 0 Connection.init) in
  let quiet :=
    [timer_fires 2 []; reader_event (line_read (lit "BTN|PRESS") 3);
     timer_fires 4 []; timer_fires 6 []] in
  let broken :=
    [timer_fires 2 []; reader_event read_fails; timer_fires 4 []; timer_fires 6 []] in
  let racing := [timer_fires 2 []; timer_fires 4 []; timer_fires 6 [read_fails]] in
  (Connection.count_error (Connection.emitted (episode quiet c1)) = 1%nat
   /\ Connection.count_disconnected (Connection.emitted (episode quiet c1)) = 0%nat)
  /\ (Connection.count_error (Connection.emitted (episode broken c1)) = 1%nat
      /\ Connection.count_disconnected (Connection.emitted (episode broken c1))
         = 1%nat)
  /\ (Connection.count_error (Connection.emitted (episode racing c1)) = 1%nat
      /\ Connection.count_disconnected (Connection.emitted (episode racing c1))
         = 1%nat)
  /\ Connection.emitted (episode racing c1)
     = [Connection.error (lit "No response from COM3"); Connection.disconnected].
Proof.
  intros c1 quiet broken racing.
  assert (Hq : Connection.scheduled Connection.init = []) by reflexivity.
  assert (Hquiet : no_pong quiet).
  { repeat constructor. discriminate. }
  assert (Hbroken : no_pong broken) by (repeat constructor).
  assert (Hracing : no_pong racing) by (repeat constructor).
  assert (Hlate : Exists (late_tick 0) quiet).
  { apply Exists_cons_tl, Exists_cons_tl, Exists_cons_tl, Exists_cons_hd.
    reflexivity. }
  assert (Hlate' : Exists (late_tick 0) broken).
  { apply Exists_cons_tl, Exists_cons_tl, Exists_cons_tl, Exists_cons_hd.
    reflexivity. }
  assert (Hlate'' : Exists (late_tick 0) racing).
  { apply Exists_cons_tl, Exists_cons_tl, Exists_cons_hd. reflexivity. }
  destruct (pong_timeout_episode Connection.init (lit "COM3") 115200 0 quiet
              Hq Hquiet Hlate) as (_ & _ & Herror & Hnone & _).
  destruct (pong_timeout_episode Connection.init (lit "COM3") 115200 0 broken
              Hq Hbroken Hlate') as (_ & _ & Herror' & Hone & _).
  destruct (pong_timeout_episode Connection.init (lit "COM3") 115200 0 racing
              Hq Hracing Hlate'') as (_ & _ & Herror'' & Hone' & _).
  split; [split; [exact Herror|exact Hnone]|].
  split; [split; [exact Herror'|exact Hone]|].
  split; [split; [exact Herror''|exact Hone']|reflexivity].
Defined.

(** ** The analyzer's bands *)

Section Bands.

Import Spectrum Analyzer.

Variable sample : Type.
Variable rnd : Q -> Q.
Variable power : Q -> Q -> Q.
Variable has_numpy has_pydub : bool.

Lemma init_well_formed : well_formed has_numpy (init sample rnd power has_numpy).
Proof.
  unfold well_formed, init. cbn [_sample_rate _band_edges].
  split; [reflexivity|]. split.
  - intros ->. cbn. reflexivity.
  - destruct has_numpy; [|constructor].
    unfold _compute_band_edges. cbn [Z.eqb SAMPLE_RATE].
    apply Forall_forall. intros edge Hin. apply in_map_iff in Hin.
    destruct Hin as (i & <- & _). cbn [fst snd]. lia.
Qed.

Lemma load_file_well_formed (decoded : option (list sample))
    (a : SpectrumAnalyzer sample) :
  well_formed has_numpy a -> well_formed has_numpy (load_file sample has_numpy has_pydub decoded a).
Proof.
  unfold well_formed, load_file. intros (Hr & Hl & He).
  destruct (negb _); [now repeat split|].
  destruct decoded; cbn; now repeat split.
Qed.

Lemma after_loads_well_formed (files : list (option (list sample))) :
  well_formed has_numpy (after_loads sample rnd power has_numpy has_pydub files).
Proof.
  unfold after_loads.
  assert (H : forall a, well_formed has_numpy a ->
                well_formed has_numpy
                  (fold_left (fun a decoded => load_file sample has_numpy has_pydub decoded a)
                     files a)).
  { induction files as [|f rest IH]; intros a Ha; cbn [fold_left]; [exact Ha|].
    apply IH. now apply load_file_well_formed. }
  apply H, init_well_formed.
Qed.

Lemma window_length (samples : list sample) (sr position_ms : Z) :
  (window_end sr position_ms >? len samples) = false ->
  len (firstn (Z.to_nat FFT_SIZE)
         (skipn (Z.to_nat (window_start sr position_ms)) samples)) = FFT_SIZE.
Proof.
  unfold window_end, len. intros H.
  rewrite Z.gtb_ltb in H. apply Z.ltb_ge in H.
  assert (H0 : 0 <= window_start sr position_ms) by (unfold window_start; lia).
  rewrite length_firstn, length_skipn. unfold FFT_SIZE in *. lia.
Qed.

Lemma band_level_agree (band_db band_db' : list sample -> Z -> Z -> Q)
    (chunk : list sample) (edge : Z * Z) :
  agree_on_windows band_db band_db' ->
  len chunk = FFT_SIZE -> 1 <= fst edge ->
  band_level sample rnd band_db chunk edge
  = band_level sample rnd band_db' chunk edge.
Proof.
  intros Hagree Hlen Hlo. destruct edge as [low_bin high_bin]. cbn [fst] in Hlo.
  unfold band_level.
  destruct (low_bin >=? Z.min high_bin (FFT_SIZE / 2 + 1)) eqn:Hge; [reflexivity|].
  rewrite Z.geb_leb in Hge. apply Z.leb_gt in Hge.
  rewrite (Hagree chunk low_bin _ Hlen); [reflexivity|lia|lia].
Qed.

End Bands.

(** X13. An analyzer always has its twelve bands. The edges computed at
    construction are twelve ranges of bins, each starting at bin 1 or above
    and holding at least one bin, whatever the floats come to; every
    analyzer of a session, whichever files were decoded or failed to, keeps
    them, and whenever [get_levels] returns levels there are twelve of them,
    each between 0 and 12. *)
Theorem analyzer_twelve_bands (sample : Type) (rnd : Q -> Q) (power : Q -> Q -> Q)
    (band_db : list sample -> Z -> Z -> Q) (has_pydub : bool)
    (files : list (option (list sample))) (position_ms : Z) :
  let a := Analyzer.after_loads sample rnd power true has_pydub files in
  length (Spectrum._band_edges sample a) = 12%nat
  /\ Forall (fun edge => 1 <= fst edge < snd edge) (Spectrum._band_edges sample a)
  /\ forall levels,
       Spectrum.get_levels sample rnd band_db true a position_ms = Some levels ->
       length levels = 12%nat /\ Forall (fun level => 0 <= level <= 12) levels.
Proof.
  intros a.
  destruct (after_loads_well_formed sample rnd power true has_pydub files)
    as (Hr & Hl & He).
  fold a in Hr, Hl, He. specialize (Hl eq_refl).
  split; [exact Hl|split; [exact He|]].
  intros levels Hlevels. split.
  - unfold Spectrum.get_levels in Hlevels. cbn [negb] in Hlevels.
    destruct (Spectrum._samples sample a); [|discriminate].
    destruct (_ >? _); injection Hlevels as <-; [reflexivity|].
    now rewrite length_map.
  - eapply get_levels_range; eauto.
Qed.

(** X14. numpy is only ever asked about a full window and a range of bins
    that is not empty: the levels of an analyzer of a session depend on
    [band_db] only where the chunk has [FFT_SIZE] samples and the bins
    [low_bin..hi-1] lie between 1 and the length of the spectrum, with at
    least one among them. The mean of an empty slice and the transform of a
    short window are never taken. *)
Theorem get_levels_full_windows (sample : Type) (rnd : Q -> Q) (power : Q -> Q -> Q)
    (band_db band_db' : list sample -> Z -> Z -> Q) (has_numpy has_pydub : bool)
    (files : list (option (list sample))) (position_ms : Z)
    (Hagree : agree_on_windows band_db band_db') :
  let a := Analyzer.after_loads sample rnd power has_numpy has_pydub files in
  Spectrum.get_levels sample rnd band_db has_numpy a position_ms
  = Spectrum.get_levels sample rnd band_db' has_numpy a position_ms.
Proof.
  intros a.
  destruct (after_loads_well_formed sample rnd power has_numpy has_pydub files)
    as (Hr & _ & He).
  fold a in Hr, He.
  unfold Spectrum.get_levels.
  destruct (negb has_numpy); [reflexivity|].
  destruct (Spectrum._samples sample a) as [samples|]; [|reflexivity].
  destruct (_ >? _) eqn:Hend; [reflexivity|].
  f_equal. apply map_ext_in. intros edge Hin.
  apply band_level_agree; [exact Hagree| |].
  - now apply window_length.
  - rewrite Forall_forall in He. apply He in Hin. lia.
Qed.

Lemma get_levels_full_windows_witness :
  let quiet (chunk : list unit) (low_bin hi : Z) : Q := (-48)%Q in
  let loud_elsewhere (chunk : list unit) (low_bin hi : Z) : Q :=
    if (len chunk =? 2048) && (1 <=? low_bin) && (low_bin <? hi) && (hi <=? 1025)
    then (-48)%Q else 0%Q in
  let a :=
    Analyzer.after_loads unit (fun x => x) (fun x y => x) true true
      [Some (repeat tt 4096)] in
  agree_on_windows quiet loud_elsewhere
  /\ Spectrum.get_levels unit (fun x => x) quiet true a 10
     = Spectrum.get_levels unit (fun x => x) loud_elsewhere true a 10.
Proof.
  intros quiet loud_elsewhere a.
  assert (H : agree_on_windows quiet loud_elsewhere).
  { intros chunk low_bin hi Hlen Hlo Hhi. unfold quiet, loud_elsewhere.
    change Spectrum.FFT_SIZE with 2048 in *. cbn in Hhi.
    replace (len chunk =? 2048) with true by (symmetry; apply Z.eqb_eq; exact Hlen).
    replace (1 <=? low_bin) with true by (symmetry; apply Z.leb_le; lia).
    replace (low_bin <? hi) with true by (symmetry; apply Z.ltb_lt; lia).
    replace (hi <=? 1025) with true by (symmetry; apply Z.leb_le; lia).
    reflexivity. }
  split; [exact H|].
  exact (get_levels_full_windows unit (fun x => x) (fun x y => x) quiet loud_elsewhere
           true true [Some (repeat tt 4096)] 10 H).
Defined.

(** ** The equalizer bars *)

Section Bars.

Import Panel.

Lemma range_succ (k : nat) :
  range 0 (Z.of_nat (S k)) = range 0 (Z.of_nat k) ++ [Z.of_nat k].
Proof.
  unfold range. rewrite !Z.sub_0_r, !Nat2Z.id, seq_S, map_app. reflexivity.
Qed.

Lemma overwrite_length {A : Type} (news olds : list A) :
  length (overwrite news olds) = length olds.
Proof.
  revert olds. induction news as [|v news IH]; intros [|o olds]; cbn; auto.
Qed.

Lemma overwrite_firstn_succ {A : Type} (k : nat) :
  forall (news olds : list A) v old,
    nth_error news k = Some v -> nth_error olds k = Some old ->
    overwrite (firstn (S k) news) olds
    = firstn k (overwrite (firstn k news) olds)
      ++ v :: skipn (S k) (overwrite (firstn k news) olds)
    /\ nth_error (overwrite (firstn k news) olds) k = Some old.
Proof.
  induction k as [|k IH]; intros [|n news] [|o olds] v old Hn Ho;
    cbn [nth_error] in Hn, Ho; try discriminate.
  - injection Hn as ->. injection Ho as ->. split; reflexivity.
  - destruct (IH news olds v old Hn Ho) as [E1 E2].
    cbn [firstn overwrite skipn nth_error app]. split; [|exact E2].
    f_equal. exact E1.
Qed.

Lemma overwrite_firstn {A : Type} (news olds : list A) :
  overwrite (firstn (Nat.min (length olds) (length news)) news) olds
  = overwrite news olds.
Proof.
  revert olds. induction news as [|v news IH]; intros [|o olds]; cbn; auto.
  f_equal. apply IH.
Qed.

Lemma nth_error_split {A : Type} (xs : list A) :
  forall k x, nth_error xs k = Some x -> xs = firstn k xs ++ x :: skipn (S k) xs.
Proof.
  induction xs as [|y xs IH]; intros [|k] x H; cbn in *; try discriminate.
  - now injection H as ->.
  - f_equal. now apply IH.
Qed.

Lemma set_item_nat {A : Type} (xs : list A) (k : nat) (v : A) :
  (k < length xs)%nat ->
  set_item xs (Z.of_nat k) v = Some (firstn k xs ++ v :: skipn (S k) xs).
Proof.
  intros Hk. unfold set_item, len. cbv zeta.
  assert (H0 : (Z.of_nat k <? 0) = false) by (apply Z.ltb_ge; lia).
  rewrite !H0. cbn [orb].
  assert (H1 : (Z.of_nat (length xs) <=? Z.of_nat k) = false) by (apply Z.leb_gt; lia).
  rewrite H1, Nat2Z.id. reflexivity.
Qed.

Lemma equalizer_loop (levels heights : list Z) :
  forall k,
    (k <= length levels)%nat -> (k <= length heights)%nat ->
    exists changed,
      fold_left (equalizer_step levels) (range 0 (Z.of_nat k)) (Some (heights, false))
      = Some (overwrite (firstn k (map clamp_level levels)) heights, changed)
      /\ (changed = true
          <-> overwrite (firstn k (map clamp_level levels)) heights <> heights).
Proof.
  induction k as [|k IH]; intros Hl Hh.
  - exists false. split; [reflexivity|]. cbn. split; congruence.
  - destruct (IH ltac:(lia) ltac:(lia)) as (changed & Hfold & Hflag).
    rewrite range_succ, fold_left_app, Hfold. cbn [fold_left equalizer_step].
    destruct (nth_error levels k) as [level|] eqn:Hlevel;
      [|apply nth_error_None in Hlevel; lia].
    destruct (nth_error heights k) as [old|] eqn:Hold;
      [|apply nth_error_None in Hold; lia].
    assert (Hcl : nth_error (map clamp_level levels) k = Some (clamp_level level)).
    { now rewrite nth_error_map, Hlevel. }
    destruct (overwrite_firstn_succ k _ _ _ _ Hcl Hold) as [Esucc Enth].
    set (hk := overwrite (firstn k (map clamp_level levels)) heights) in *.
    rewrite !item_nat, Hlevel, Enth.
    change (Z.max 0 (Z.min EQ_MAX_LEVELS level)) with (clamp_level level).
    destruct (old =? clamp_level level) eqn:Hsame; cbn [negb].
    + apply Z.eqb_eq in Hsame. exists changed. split; [|].
      * rewrite Esucc, <- Hsame. now rewrite <- (nth_error_split hk k old Enth).
      * rewrite Esucc, <- Hsame. now rewrite <- (nth_error_split hk k old Enth).
    + apply Z.eqb_neq in Hsame.
      rewrite set_item_nat by (unfold hk; rewrite overwrite_length; lia).
      exists true. split; [now rewrite Esucc|].
      split; [intros _|reflexivity].
      rewrite Esucc. intros E.
      apply (f_equal (fun l => nth_error l k)) in E.
      rewrite Hold in E.
      rewrite nth_error_app2 in E by (rewrite length_firstn; unfold hk;
                                     rewrite overwrite_length; lia).
      rewrite length_firstn in E. unfold hk in E. rewrite overwrite_length in E.
      replace (k - Nat.min k (length heights))%nat with 0%nat in E by lia.
      cbn in E. congruence.
Qed.

Lemma set_equalizer_heights (levels : list Z) (c : _OledCanvas) :
  len (_eq_heights c) = EQ_BARS ->
  exists c',
    set_equalizer levels c = Some c'
    /\ _eq_heights c' = overwrite (map clamp_level levels) (_eq_heights c)
    /\ updates c'
       = updates c
         + (if list_eq_dec Z.eq_dec (_eq_heights c') (_eq_heights c) then 0 else 1).
Proof.
  intros Hlen. unfold len, EQ_BARS in Hlen.
  destruct (equalizer_loop levels (_eq_heights c)
              (Nat.min (length (_eq_heights c)) (length levels))
              ltac:(lia) ltac:(lia)) as (changed & Hfold & Hflag).
  pose proof (overwrite_firstn (map clamp_level levels) (_eq_heights c)) as Eo.
  rewrite length_map in Eo. rewrite Eo in Hfold, Hflag. clear Eo.
  unfold set_equalizer.
  replace (Z.min EQ_BARS (len levels))
    with (Z.of_nat (Nat.min (length (_eq_heights c)) (length levels)))
    by (unfold EQ_BARS, len; lia).
  rewrite Hfold.
  eexists. split; [reflexivity|].
  destruct changed.
  - cbn [update _eq_heights updates]. split; [reflexivity|].
    destruct (list_eq_dec _ _ _) as [E|_]; [|reflexivity].
    exfalso. now apply (proj1 Hflag).
  - cbn [_eq_heights updates]. split; [reflexivity|].
    destruct (list_eq_dec _ _ _) as [_|N]; [lia|].
    exfalso. destruct Hflag as [_ Hflag]. specialize (Hflag N). discriminate.
Qed.

Lemma overwrite_Forall {A : Type} (P : A -> Prop) (news olds : list A) :
  Forall P news -> Forall P olds -> Forall P (overwrite news olds).
Proof.
  intros Hn. revert olds. induction Hn as [|v news Hv Hn IH]; intros olds Ho.
  - destruct olds; exact Ho.
  - destruct olds as [|o olds]; [constructor|].
    cbn [overwrite]. constructor; [exact Hv|]. apply IH. now inversion Ho.
Qed.

Lemma set_equalizer_range (levels : list Z) (c c' : _OledCanvas) :
  len (_eq_heights c) = EQ_BARS ->
  Forall (fun h => 0 <= h <= 12) (_eq_heights c) ->
  set_equalizer levels c = Some c' ->
  len (_eq_heights c') = EQ_BARS
  /\ Forall (fun h => 0 <= h <= 12) (_eq_heights c').
Proof.
  intros Hlen Hrange Hset.
  destruct (set_equalizer_heights levels c Hlen) as (c'' & Hset' & Hh & _).
  rewrite Hset in Hset'. injection Hset' as <-.
  rewrite Hh. split.
  - unfold len in *. now rewrite overwrite_length.
  - apply overwrite_Forall; [|exact Hrange].
    apply Forall_forall. intros v Hv. apply in_map_iff in Hv.
    destruct Hv as (l & <- & _). apply clamp_level_range.
Qed.

Lemma after_frames_heights (frames : list (list Z)) :
  exists c,
    after_frames frames = Some c
    /\ len (_eq_heights c) = EQ_BARS
    /\ Forall (fun h => 0 <= h <= 12) (_eq_heights c).
Proof.
  unfold after_frames.
  assert (H : forall c0,
             len (_eq_heights c0) = EQ_BARS ->
             Forall (fun h => 0 <= h <= 12) (_eq_heights c0) ->
             exists c,
               fold_left
                 (fun canvas levels =>
                    match canvas with
                    | Some c => set_equalizer levels c
                    | None => None
                    end) frames (Some c0) = Some c
               /\ len (_eq_heights c) = EQ_BARS
               /\ Forall (fun h => 0 <= h <= 12) (_eq_heights c)).
  { induction frames as [|levels rest IH]; intros c0 Hlen Hrange; cbn [fold_left].
    - exists c0. now repeat split.
    - destruct (set_equalizer_heights levels c0 Hlen) as (c1 & Hset & _).
      rewrite Hset.
      destruct (set_equalizer_range levels c0 c1 Hlen Hrange Hset) as [Hlen1 Hrange1].
      now apply IH. }
  apply H; [reflexivity|].
  cbn. repeat constructor; lia.
Qed.

Lemma paint_equalizer_bars (c : _OledCanvas) :
  len (_eq_heights c) = EQ_BARS ->
  _paint_equalizer c = Some (bars_from 0 (_eq_heights c)).
Proof.
  unfold _paint_equalizer, len, EQ_BARS. intros Hlen.
  destruct (_eq_heights c) as [|h0 [|h1 [|h2 [|h3 [|h4 [|h5 [|h6 [|h7 [|h8 [|h9
    [|h10 [|h11 [|h12 rest]]]]]]]]]]]]]; cbn [length] in Hlen; try lia.
  reflexivity.
Qed.

Lemma bar_height_range (level : Z) :
  0 <= level <= 12 ->
  0 <= level * 46 / 12 <= 46
  /\ (0 < level -> 3 <= level * 46 / 12)
  /\ (level * 46 / 12 >? 0) = (0 <? level).
Proof.
  intros H.
  assert (H1 : 0 <= level * 46 / 12 <= 46).
  { split; [apply Z.div_pos; lia|]. apply Z.div_le_upper_bound; lia. }
  assert (H2 : 0 < level -> 3 <= level * 46 / 12).
  { intros Hpos. apply Z.div_le_lower_bound; lia. }
  split; [exact H1|split; [exact H2|]].
  rewrite Z.gtb_ltb.
  destruct (0 <? level) eqn:Hl.
  - apply Z.ltb_lt in Hl. apply Z.ltb_lt. specialize (H2 Hl). lia.
  - apply Z.ltb_ge in Hl. assert (level = 0) by lia. subst. reflexivity.
Qed.

Lemma bars_from_geometry (heights : list Z) :
  forall i,
    0 <= i -> i + len heights <= 12 ->
    Forall (fun h => 0 <= h <= 12) heights ->
    Forall (fun r => in_lyrics_area r /\ i * 10 < rect_x r
                     /\ rect_y r + rect_h r = 46 /\ 3 <= rect_h r)
           (bars_from i heights)
    /\ StronglySorted left_of (bars_from i heights)
    /\ length (bars_from i heights) = length (filter (fun h => 0 <? h) heights).
Proof.
  induction heights as [|level rest IH]; intros i Hi Hfit Hrange.
  - cbn. repeat split; constructor.
  - unfold len in Hfit. cbn [length] in Hfit.
    inversion Hrange as [|? ? Hlevel Hrest]; subst.
    destruct (IH (i + 1) ltac:(lia) ltac:(unfold len; lia) Hrest) as (Hin & Hsorted & Hcount).
    destruct (bar_height_range level Hlevel) as (Hh & Hmin & Hpos).
    cbn [bars_from filter]. cbv zeta. rewrite Hpos.
    destruct (0 <? level) eqn:Hl; cbn [Parser.option_to_list app length].
    + apply Z.ltb_lt in Hl. specialize (Hmin Hl). split; [|split].
      * constructor.
        -- unfold in_lyrics_area, Oled.SCREEN_WIDTH, Oled.LYRICS_AREA_HEIGHT.
           cbn [rect_x rect_y rect_w rect_h]. lia.
        -- eapply Forall_impl; [|exact Hin]. cbn beta. intros r Hr. split; [tauto|]. lia.
      * constructor; [exact Hsorted|].
        eapply Forall_impl; [|exact Hin]. cbn beta. unfold left_of.
        cbn [rect_x rect_w]. intros r Hr. lia.
      * now rewrite Hcount.
    + split; [|split; [exact Hsorted|exact Hcount]].
      eapply Forall_impl; [|exact Hin]. cbn beta. intros r Hr. split; [tauto|]. lia.
Qed.

End Bars.

(** X15. [set_equalizer] overwrites the first bars and leaves the rest:
    on a canvas with its twelve heights it never raises, the new heights are
    the old ones with the leading entries replaced by the levels given,
    each clamped to 0..12 (levels past the twelfth are ignored, bars past
    the last level keep their height), and a repaint is requested exactly
    when a height changed. *)
Theorem set_equalizer_overwrites (levels : list Z) (c : Panel._OledCanvas)
    (Hlen : len (Panel._eq_heights c) = Panel.EQ_BARS) :
  exists c',
    Panel.set_equalizer levels c = Some c'
    /\ Panel._eq_heights c'
       = overwrite (map clamp_level levels) (Panel._eq_heights c)
    /\ len (Panel._eq_heights c') = Panel.EQ_BARS
    /\ Panel.updates c'
       = Panel.updates c
         + (if list_eq_dec Z.eq_dec (Panel._eq_heights c') (Panel._eq_heights c)
            then 0 else 1).
Proof.
  destruct (set_equalizer_heights levels c Hlen) as (c' & Hset & Hh & Hu).
  exists c'. repeat split; try assumption.
  rewrite Hh. unfold len in *. now rewrite overwrite_length.
Qed.

Lemma set_equalizer_overwrites_witness :
  exists c',
    Panel.set_equalizer [3; 20; -1] Panel.init = Some c'
    /\ Panel._eq_heights c' = [3; 12; 0; 0; 0; 0; 0; 0; 0; 0; 0; 0]
    /\ len (Panel._eq_heights c') = Panel.EQ_BARS
    /\ Panel.updates c' = 1.
Proof.
  destruct (set_equalizer_overwrites [3; 20; -1] Panel.init eq_refl)
    as (c' & Hset & Hh & Hl & Hu).
  exists c'. cbn in Hh. rewrite Hh in Hu.
  destruct (list_eq_dec _ _ _) as [E|_] in Hu; [discriminate E|].
  repeat split; assumption.
Defined.

(** X16. The bars stay on the screen. After any equalizer frames, of any
    length and with any values, the canvas still has twelve heights between
    0 and 12 and [_paint_equalizer] does not raise; it fills one rectangle
    for each bar above zero, at least three pixels high, inside the
    128 x 48 lyrics area, standing on the line y = 46, and each bar ends
    to the left of the next with a column between them. *)
Theorem paint_equalizer_in_area (frames : list (list Z)) :
  exists c rects,
    after_frames frames = Some c
    /\ Panel._paint_equalizer c = Some rects
    /\ Forall (fun r => in_lyrics_area r
                        /\ Panel.rect_y r + Panel.rect_h r = 46
                        /\ 3 <= Panel.rect_h r) rects
    /\ StronglySorted left_of rects
    /\ length rects = length (filter (fun h => 0 <? h) (Panel._eq_heights c)).
Proof.
  destruct (after_frames_heights frames) as (c & Hc & Hlen & Hrange).
  exists c, (bars_from 0 (Panel._eq_heights c)).
  destruct (bars_from_geometry (Panel._eq_heights c) 0 ltac:(lia)
              ltac:(unfold Panel.EQ_BARS in Hlen; lia) Hrange)
    as (Hin & Hsorted & Hcount).
  split; [exact Hc|]. split; [now apply paint_equalizer_bars|].
  split; [|split; [exact Hsorted|exact Hcount]].
  eapply Forall_impl; [|exact Hin]. cbn beta. tauto.
Qed.

(** ** The status bar *)

Section StatusBar.

Import Panel.

Lemma set_meta_consistent (text0 : str) (c : _OledCanvas) :
  meta_consistent c -> meta_consistent (set_meta text0 c).
Proof.
  intros Hc. unfold set_meta.
  destruct (negb (str_eqb text0 (_meta_text c))); [|exact Hc].
  unfold meta_consistent, update.
  cbn [_meta_text_width _meta_text _meta_needs_scroll _meta_scroll_timer_active
       _meta_scroll_x].
  unfold Oled.GFX_CHAR_W, META_AVAIL_WIDTH, Oled.SCREEN_WIDTH, META_TEXT_X.
  split; [lia|]. split; [apply Z.gtb_ltb|]. split; [reflexivity|].
  split; [lia|]. split; [intros _; unfold len; lia|reflexivity].
Qed.

Lemma on_meta_scroll_consistent (c : _OledCanvas) :
  meta_consistent c -> meta_consistent (_on_meta_scroll c).
Proof.
  intros Hc. unfold _on_meta_scroll.
  destruct (_meta_needs_scroll c) eqn:Hn; cbn [negb]; [|exact Hc].
  destruct Hc as (Hw & Hneeds & Ht & Hx & Hlt & Hz).
  assert (Hpos : 0 < _meta_text_width c + META_SCROLL_GAP).
  { rewrite Hw. unfold len, META_SCROLL_GAP. lia. }
  pose proof (Z.mod_pos_bound (_meta_scroll_x c + 1) _ Hpos) as Hmod.
  unfold meta_consistent, update.
  cbn [_meta_text_width _meta_text _meta_needs_scroll _meta_scroll_timer_active
       _meta_scroll_x].
  unfold META_SCROLL_GAP in *.
  split; [exact Hw|]. split; [now rewrite <- Hneeds|].
  split; [now rewrite Ht|].
  split; [lia|]. split; [intros _; lia|discriminate].
Qed.

Lemma run_meta_call_consistent (c : _OledCanvas) (call : MetaCall) :
  meta_consistent c -> meta_consistent (run_meta_call c call).
Proof.
  intros Hc. destruct call as [text0|]; cbn [run_meta_call].
  - now apply set_meta_consistent.
  - unfold meta_scroll_timeout. destruct (_meta_scroll_timer_active c); [|exact Hc].
    now apply on_meta_scroll_consistent.
Qed.

Lemma meta_draws_visible (c : _OledCanvas) :
  meta_consistent c -> _meta_text c <> [] ->
  exists bx,
    In bx (meta_draws c)
    /\ bx < Oled.SCREEN_WIDTH /\ META_TEXT_X < bx + _meta_text_width c.
Proof.
  intros (Hw & Hneeds & Ht & Hx & Hlt & Hz) Htext.
  assert (Hlen : 0 < len (_meta_text c)).
  { destruct (_meta_text c); [congruence|]. unfold len. cbn [length]. lia. }
  unfold meta_draws.
  destruct (_meta_text c) as [|ch r] eqn:Etext; [congruence|]. cbn [is_empty].
  unfold Oled.SCREEN_WIDTH, META_TEXT_X, META_SCROLL_GAP.
  destruct (_meta_needs_scroll c) eqn:Hn; cbn [negb].
  - specialize (Hlt eq_refl). symmetry in Hneeds. apply Z.ltb_lt in Hneeds.
    change (range 0 2) with [0; 1]. cbn [flat_map]. rewrite app_nil_r.
    destruct (Z_lt_ge_dec (_meta_scroll_x c) (_meta_text_width c)) as [Hin|Hout].
    + exists (16 - _meta_scroll_x c + 0 * (_meta_text_width c + 30)).
      split; [|lia]. apply in_or_app. left.
      replace (_ <? 16) with false by (symmetry; apply Z.ltb_ge; lia).
      replace (_ >=? 128) with false
        by (symmetry; rewrite Z.geb_leb; apply Z.leb_gt; lia).
      now left.
    + exists (16 - _meta_scroll_x c + 1 * (_meta_text_width c + 30)).
      split; [|lia]. apply in_or_app. right.
      replace (_ <? 16) with false by (symmetry; apply Z.ltb_ge; lia).
      replace (_ >=? 128) with false
        by (symmetry; rewrite Z.geb_leb; apply Z.leb_gt; lia).
      now left.
  - exists 16. split; [now left|]. lia.
Qed.

Lemma meta_scroll_position (text0 : str) (c : _OledCanvas) :
  str_eqb text0 (_meta_text c) = false -> 19 <= len text0 ->
  forall n,
    let c' := Nat.iter n meta_scroll_timeout (set_meta text0 c) in
    _meta_needs_scroll c' = true
    /\ _meta_scroll_timer_active c' = true
    /\ _meta_text_width c' = 6 * len text0
    /\ _meta_scroll_x c' = Z.of_nat n mod (6 * len text0 + 30).
Proof.
  intros Hne Hlong.
  assert (Hneeds : (len text0 * Oled.GFX_CHAR_W >? META_AVAIL_WIDTH) = true).
  { unfold Oled.GFX_CHAR_W, META_AVAIL_WIDTH, Oled.SCREEN_WIDTH, META_TEXT_X.
    rewrite Z.gtb_ltb. apply Z.ltb_lt. lia. }
  induction n as [|n IH]; intros c'.
  - subst c'. cbn [Nat.iter nat_rect]. unfold set_meta. rewrite Hne. cbn [negb].
    cbv zeta. rewrite Hneeds.
    cbn [update _meta_needs_scroll _meta_scroll_timer_active _meta_text_width
         _meta_scroll_x].
    unfold Oled.GFX_CHAR_W.
    repeat split; try reflexivity; try lia.
  - subst c'. cbv zeta in IH. destruct IH as (Hn & Ht & Hw & Hx).
    change (Nat.iter (S n) meta_scroll_timeout (set_meta text0 c))
      with (meta_scroll_timeout (Nat.iter n meta_scroll_timeout (set_meta text0 c))).
    set (cn := Nat.iter n meta_scroll_timeout (set_meta text0 c)) in *.
    unfold meta_scroll_timeout, _on_meta_scroll. rewrite Ht, Hn.
    cbn [negb update _meta_needs_scroll _meta_scroll_timer_active _meta_text_width
         _meta_scroll_x].
    rewrite ?Hn, ?Ht, ?Hw, ?Hx. unfold META_SCROLL_GAP.
    repeat split; try reflexivity.
    rewrite Z.add_mod_idemp_l by lia. f_equal. lia.
Qed.

End StatusBar.

(** X17. The text of the status bar. Through any sequence of new texts and
    scroll ticks the width is six pixels a character, the text scrolls
    exactly when it has 19 characters or more, and the scroll position stays
    inside one period (the width and the gap of 30). Whatever the position,
    a text that is not empty is drawn with some part of it inside the
    visible strip, from x = 16 to the right edge; and after a long text is
    set, [n] ticks put the position at [n] modulo the period. *)
Theorem meta_text_scroll (calls : list MetaCall) :
  let c := fold_left run_meta_call calls Panel.init in
  meta_consistent c
  /\ (Panel._meta_needs_scroll c = true <-> 19 <= len (Panel._meta_text c))
  /\ (Panel._meta_text c <> [] ->
      exists bx,
        In bx (Panel.meta_draws c)
        /\ bx < Oled.SCREEN_WIDTH
        /\ Panel.META_TEXT_X < bx + Panel._meta_text_width c)
  /\ (forall text n,
         str_eqb text (Panel._meta_text c) = false -> 19 <= len text ->
         Panel._meta_scroll_x (Nat.iter n Panel.meta_scroll_timeout (Panel.set_meta text c))
         = Z.of_nat n mod (6 * len text + 30)).
Proof.
  intros c.
  assert (Hc : meta_consistent c).
  { subst c.
    assert (H : forall c0, meta_consistent c0 ->
                  meta_consistent (fold_left run_meta_call calls c0)).
    { induction calls as [|call rest IH]; intros c0 H0; cbn [fold_left]; [exact H0|].
      apply IH. now apply run_meta_call_consistent. }
    apply H. unfold meta_consistent. cbn. repeat split; try lia; congruence. }
  split; [exact Hc|]. split; [|split].
  - destruct Hc as (Hw & Hneeds & _). rewrite Hneeds, Hw, Z.ltb_lt. lia.
  - now apply meta_draws_visible.
  - intros text0 n Hne Hlong.
    now destruct (meta_scroll_position text0 c Hne Hlong n) as (_ & _ & _ & Hx).
Qed.

(** ** The simulator and the device *)

Section Mirror.

Lemma set_state_play_state (state : str) (p : Panel._OledCanvas) :
  Panel._play_state (Panel.set_state state p)
  = if str_eqb state (lit "playing") || str_eqb state (lit "paused")
       || str_eqb state (lit "stopped")
    then state else lit "stopped".
Proof.
  unfold Panel.set_state. cbv zeta.
  destruct (str_eqb state (lit "playing") || str_eqb state (lit "paused")
            || str_eqb state (lit "stopped")); cbn [negb].
  - destruct (str_eqb state (Panel._play_state p)) eqn:E; cbn [negb]; [|reflexivity].
    apply str_eqb_true in E. now symmetry.
  - destruct (str_eqb (lit "stopped") (Panel._play_state p)) eqn:E; cbn [negb];
      [|reflexivity].
    apply str_eqb_true in E. now symmetry.
Qed.

End Mirror.

(** X18. The simulator shows what the device is told. For every state
    string, known or not, the command [send_state] writes is the one for the
    state the simulator ends up in; for every mode string but one,
    [send_mode] writes the command for the mode the simulator ends up in.
    The exception is the mode [EQ]: the simulator takes it for the
    equalizer, the device is sent [MODE|LYR]. *)
Theorem simulator_mirrors_device :
  (forall state c p,
      Commands.send_state state c
      = Commands.send_state (Panel._play_state (Panel.set_state state p)) c)
  /\ (forall mode c canvas,
         mode <> lit "EQ" ->
         Connection.send_mode mode c
         = Connection.send_mode (Oled._display_mode (Oled.set_mode mode canvas)) c)
  /\ (forall c canvas,
         Connection._serial_open c = true ->
         Connection.send_mode (lit "EQ") c
         <> Connection.send_mode
              (Oled._display_mode (Oled.set_mode (lit "EQ") canvas)) c).
Proof.
  split; [|split].
  - intros state c p. rewrite set_state_play_state.
    unfold Commands.send_state. cbv zeta.
    destruct (str_eqb state (lit "playing")) eqn:E1;
      [cbn [orb]; now rewrite E1|].
    destruct (str_eqb state (lit "paused")) eqn:E2;
      [cbn [orb]; now rewrite E1, E2|].
    destruct (str_eqb state (lit "stopped")) eqn:E3;
      [cbn [orb]; now rewrite E1, E2, E3|reflexivity].
  - intros mode c canvas Hmode. rewrite set_mode_display_mode.
    unfold Connection.send_mode. cbv zeta.
    destruct (str_eqb mode (lit "equalizer")) eqn:E1; [reflexivity|].
    destruct (str_eqb mode (lit "EQ")) eqn:E2; [|reflexivity].
    apply str_eqb_true in E2. contradiction.
  - intros c canvas Hopen. rewrite set_mode_display_mode.
    destruct c as [o p b r t k l a w e s]. cbn in Hopen. subst o.
    unfold Connection.send_mode, Connection._write. cbn.
    intros E. injection E as E. apply app_inv_head in E. discriminate.
Qed.

(** ** The scrolling of the lyrics *)

Section LyricScroll.

Import Oled Scroll.

Ltac consistent_intro :=
  unfold scroll_consistent;
  cbn [_use_custom_font _text_size _lyric_scroll_offset _total_lyric_height
       _current_text with_offset with_timer];
  split; [|split; [|split; [|split; [|split]]]].

Lemma wrap_loop_prefix (text0 : str) (cpl : Z) :
  forall fuel lines pos result,
    wrap_loop fuel text0 cpl lines pos = Some result ->
    exists more, result = lines ++ more.
Proof.
  induction fuel as [|f IH]; intros lines pos result; cbn [wrap_loop];
    [discriminate|].
  destruct (_ && _).
  - destruct (wrap_body_appends text0 cpl lines pos) as (line & Hline).
    destruct (wrap_body text0 cpl lines pos) as [lines' [pos'|]]; cbn [fst] in Hline.
    + intros H. destruct (IH _ _ _ H) as (more & ->).
      exists (line :: more). rewrite Hline, <- app_assoc. reflexivity.
    + intros [= <-]. exists [line]. exact Hline.
  - intros [= <-]. exists []. now rewrite app_nil_r.
Qed.

Lemma wrap_loop_grows (text0 : str) (cpl : Z) (fuel : nat) (lines : list str)
    (pos : Z) (result : list str) :
  wrap_loop fuel text0 cpl lines pos = Some result ->
  (pos <? len text0) && (len lines <? 32) = true ->
  exists line more, result = lines ++ line :: more.
Proof.
  destruct fuel as [|f]; cbn [wrap_loop]; [discriminate|].
  intros Hres Hcond. rewrite Hcond in Hres.
  destruct (wrap_body_appends text0 cpl lines pos) as (line & Hline).
  destruct (wrap_body text0 cpl lines pos) as [lines' [pos'|]]; cbn [fst] in Hline.
  - destruct (wrap_loop_prefix _ _ _ _ _ _ Hres) as (more & ->).
    exists line, more. rewrite Hline, <- app_assoc. reflexivity.
  - injection Hres as <-. exists line, []. exact Hline.
Qed.

Lemma word_wrap_some (text0 : str) (cpl : Z) :
  exists lines,
    _word_wrap text0 cpl = Some lines /\ (text0 <> [] -> lines <> []).
Proof.
  unfold _word_wrap.
  destruct (wrap_loop_total text0 cpl 33 [] 0 ltac:(cbn; lia) ltac:(cbn; lia))
    as (result & Hres & _).
  exists result. split; [exact Hres|].
  intros Htext.
  destruct (wrap_loop_grows _ _ _ _ _ _ Hres) as (line & more & ->).
  - destruct text0; [congruence|]. reflexivity.
  - discriminate.
Qed.

Lemma paint_lyrics_consistent (c : _OledCanvas) :
  scroll_consistent c ->
  exists c' lines,
    _paint_lyrics c = Some (c', draw_lines (- _lyric_scroll_offset c) 16 0 lines)
    /\ _word_wrap (_current_text c) 10 = Some lines
    /\ _total_lyric_height c' = len lines * 16
    /\ _lyric_scroll_offset c' = _lyric_scroll_offset c
    /\ scroll_consistent c'.
Proof.
  intros (Hfont & Hsize & Hpos & Hdiv & Htotal & Hend).
  destruct (word_wrap_some (_current_text c) 10) as (lines & Hlines & _).
  unfold _paint_lyrics. rewrite Hfont, Hsize.
  change (chars_per_line_of 2) with 10. rewrite Hlines.
  change (GFX_CHAR_H * 2) with 16.
  eexists. exists lines. split; [reflexivity|].
  split; [reflexivity|]. split; [reflexivity|]. split; [reflexivity|].
  unfold scroll_consistent.
  cbn [_use_custom_font _text_size _lyric_scroll_offset _total_lyric_height
       _current_text].
  split; [reflexivity|]. split; [reflexivity|]. split; [exact Hpos|].
  split; [exact Hdiv|]. split; [right; now exists lines|].
  intros Hscrolled. specialize (Hend Hscrolled).
  destruct Htotal as [Hzero|(lines' & Hlines' & Htotal)].
  - unfold LYRICS_AREA_HEIGHT in *. lia.
  - rewrite Hlines in Hlines'. injection Hlines' as <-. now rewrite <- Htotal.
Qed.

Lemma with_timer_consistent (active : bool) (c : _OledCanvas) :
  scroll_consistent c -> scroll_consistent (with_timer active c).
Proof.
  intros H. exact H.
Qed.

Lemma update_timer_consistent (c : _OledCanvas) :
  scroll_consistent c -> scroll_consistent (_update_lyric_scroll_timer c).
Proof.
  intros H. unfold _update_lyric_scroll_timer. cbv zeta.
  destruct (_ && negb _); [exact H|]. destruct (negb _ && _); exact H.
Qed.

Lemma on_lyric_scroll_consistent (c : _OledCanvas) :
  scroll_consistent c -> scroll_consistent (_on_lyric_scroll c).
Proof.
  intros H. unfold _on_lyric_scroll.
  destruct (_total_lyric_height c <=? LYRICS_AREA_HEIGHT) eqn:Hfits; [exact H|].
  apply Z.leb_gt in Hfits.
  destruct H as (Hfont & Hsize & Hpos & Hdiv & Htotal & Hend).
  cbv zeta. cbn [with_offset _lyric_scroll_offset].
  destruct (_ >? _) eqn:Hpast.
  - consistent_intro;
      [exact Hfont|exact Hsize|lia|apply Z.divide_0_r|exact Htotal|lia].
  - rewrite Z.gtb_ltb in Hpast. apply Z.ltb_ge in Hpast.
    unfold LYRIC_SCROLL_STEP, LYRICS_AREA_HEIGHT in *.
    consistent_intro;
      [exact Hfont|exact Hsize|lia| |exact Htotal|unfold LYRICS_AREA_HEIGHT; lia].
    apply Z.divide_add_r; [exact Hdiv|apply Z.divide_refl].
Qed.

Lemma run_canvas_call_consistent (c : _OledCanvas) (call : CanvasCall) :
  scroll_consistent c ->
  exists c', run_canvas_call (Some c) call = Some c' /\ scroll_consistent c'.
Proof.
  intros H. destruct call as [|text0|mode| |]; cbn [run_canvas_call].
  - eexists. split; [reflexivity|].
    destruct H as (Hfont & Hsize & _). unfold clear.
    consistent_intro;
      [exact Hfont|exact Hsize|lia|apply Z.divide_0_r|now left|lia].
  - eexists. split; [reflexivity|]. unfold set_text.
    destruct (negb _); [|exact H].
    destruct H as (Hfont & Hsize & _).
    consistent_intro;
      [exact Hfont|exact Hsize|lia|apply Z.divide_0_r|now left|lia].
  - eexists. split; [reflexivity|]. unfold set_mode. cbv zeta.
    destruct (negb _); [|exact H].
    destruct H as (Hfont & Hsize & _ & _ & Htotal & _).
    consistent_intro;
      [exact Hfont|exact Hsize|lia|apply Z.divide_0_r|exact Htotal|lia].
  - eexists. split; [reflexivity|]. unfold lyric_scroll_timeout.
    destruct (_lyric_scroll_timer_active c); [|exact H].
    now apply on_lyric_scroll_consistent.
  - unfold paintEvent. cbv zeta.
    destruct (str_eqb (_display_mode c) (lit "equalizer")).
    + eexists. split; [reflexivity|]. now apply update_timer_consistent.
    + destruct (negb (is_empty (_current_text c))).
      * destruct (paint_lyrics_consistent c H) as (c' & lines & Hp & _ & _ & _ & Hc').
        rewrite Hp. eexists. split; [reflexivity|].
        now apply update_timer_consistent.
      * eexists. split; [reflexivity|]. now apply update_timer_consistent.
Qed.

Lemma run_canvas_calls_consistent (calls : list CanvasCall) :
  forall c,
    scroll_consistent c ->
    exists c', fold_left run_canvas_call calls (Some c) = Some c'
               /\ scroll_consistent c'.
Proof.
  induction calls as [|call rest IH]; intros c H; cbn [fold_left].
  - now exists c.
  - destruct (run_canvas_call_consistent c call H) as (c1 & -> & H1).
    now apply IH.
Qed.

(** Lines drawn on a grid of rows that divides the area are drawn whole. *)
Lemma draw_lines_whole (char_h : Z) (lines : list str) :
  char_h = 8 \/ char_h = 16 ->
  forall start_y i,
    (char_h | start_y) ->
    Forall (fun d => char_h - 2 <= fst d <= LYRICS_AREA_HEIGHT - 2)
           (draw_lines start_y char_h i lines).
Proof.
  intros Hh. induction lines as [|line rest IH]; intros start_y i Hdiv;
    cbn [draw_lines]; [constructor|].
  cbv zeta.
  destruct ((start_y + i * char_h + char_h >? 0)
            && (start_y + i * char_h <? LYRICS_AREA_HEIGHT)) eqn:Hvis;
    [|now apply IH].
  constructor; [|now apply IH].
  apply andb_true_iff in Hvis. destruct Hvis as [Htop Hbottom].
  rewrite Z.gtb_ltb in Htop. apply Z.ltb_lt in Htop. apply Z.ltb_lt in Hbottom.
  destruct Hdiv as [k Hk]. cbn [fst]. unfold LYRICS_AREA_HEIGHT in *.
  destruct Hh as [-> | ->]; lia.
Qed.

Lemma draw_lines_some (char_h start_y : Z) (lines : list str) :
  forall i j,
    (j < length lines)%nat ->
    start_y + (i + Z.of_nat j) * char_h + char_h > 0 ->
    start_y + (i + Z.of_nat j) * char_h < LYRICS_AREA_HEIGHT ->
    draw_lines start_y char_h i lines <> [].
Proof.
  induction lines as [|line rest IH]; intros i j Hj Htop Hbottom;
    cbn [length] in Hj; [lia|].
  cbn [draw_lines]. cbv zeta.
  destruct j as [|j].
  - rewrite Z.add_0_r in Htop, Hbottom.
    replace (_ >? 0) with true by (symmetry; rewrite Z.gtb_ltb; apply Z.ltb_lt; lia).
    replace (_ <? LYRICS_AREA_HEIGHT) with true by (symmetry; apply Z.ltb_lt; lia).
    discriminate.
  - assert (Hrest : draw_lines start_y char_h (i + 1) rest <> []).
    { apply (IH (i + 1) j); [lia| |].
      - replace (i + 1 + Z.of_nat j) with (i + Z.of_nat (S j)) by lia. exact Htop.
      - replace (i + 1 + Z.of_nat j) with (i + Z.of_nat (S j)) by lia. exact Hbottom. }
    destruct (_ && _); [discriminate|exact Hrest].
Qed.

End LyricScroll.

(** X19. The lyric area never scrolls past the text. Through any sequence
    of [clear], [set_text], [set_mode], scroll ticks and repaints on a new
    canvas, the offset is a whole number of 16-pixel steps, and a scrolled
    window ends inside the text as it wraps now. The painter therefore
    draws whole rows only, each baseline between 14 and 46, and draws at
    least one line whenever there is text. *)
Theorem lyric_scroll_in_text (calls : list CanvasCall) :
  exists c,
    fold_left run_canvas_call calls (Some Oled.init) = Some c
    /\ scroll_consistent c
    /\ exists c' draws,
         Oled._paint_lyrics c = Some (c', draws)
         /\ Forall (fun d => 14 <= fst d <= 46) draws
         /\ (Oled._current_text c <> [] -> draws <> []).
Proof.
  assert (Hinit : scroll_consistent Oled.init).
  { unfold scroll_consistent. cbn -[Z.divide].
    split; [reflexivity|]. split; [reflexivity|]. split; [lia|].
    split; [apply Z.divide_0_r|]. split; [now left|lia]. }
  destruct (run_canvas_calls_consistent calls Oled.init Hinit) as (c & Hrun & Hc).
  exists c. split; [exact Hrun|]. split; [exact Hc|].
  destruct (paint_lyrics_consistent c Hc) as (c' & lines & Hp & Hlines & Htotal & Hoff & Hc').
  exists c', (Oled.draw_lines (- Oled._lyric_scroll_offset c) 16 0 lines).
  split; [exact Hp|].
  destruct Hc as (_ & _ & Hpos & Hdiv & _ & _).
  destruct Hc' as (_ & _ & _ & _ & _ & Hend').
  rewrite Hoff, Htotal in Hend'.
  split.
  - apply (draw_lines_whole 16); [now right|].
    now apply Z.divide_opp_r.
  - intros Htext.
    destruct (word_wrap_some (Oled._current_text c) 10) as (lines' & Hlines' & Hne).
    rewrite Hlines in Hlines'. injection Hlines' as <-. specialize (Hne Htext).
    destruct Hdiv as [k Hk].
    assert (Hlen : 0 < len lines).
    { destruct lines; [congruence|]. unfold len. cbn [length]. lia. }
    unfold len in *. unfold Oled.LYRICS_AREA_HEIGHT in *.
    apply (draw_lines_some 16 _ lines 0 (Z.to_nat k));
      unfold Oled.LYRICS_AREA_HEIGHT; lia.
Qed.

(** X20. Rows and scroll steps. At text sizes 1 and 2 the rows are 8 and
    16 pixels high, a scroll step of 16 is a whole number of rows and the
    area of 48 holds a whole number of them: at any offset that is a
    multiple of the step every line drawn is drawn whole. At text size 3
    the rows are 24 pixels high and a step cuts them: after one step the
    painter draws the first row with its top above the area and the third
    with its foot below it. *)
Theorem scroll_step_rows :
  (forall text_size offset lines,
      text_size = 1 \/ text_size = 2 ->
      (Scroll.LYRIC_SCROLL_STEP | offset) ->
      Forall (fun d => Oled.GFX_CHAR_H * text_size - 2 <= fst d
                       <= Oled.LYRICS_AREA_HEIGHT - 2)
             (Oled.draw_lines (- offset) (Oled.GFX_CHAR_H * text_size) 0 lines))
  /\ (forall l1 l2 l3,
         Oled.draw_lines (- Scroll.LYRIC_SCROLL_STEP) (Oled.GFX_CHAR_H * 3) 0 [l1; l2; l3]
         = [(6, l1); (30, l2); (54, l3)]).
Proof.
  split.
  - intros text_size offset lines Hsize Hdiv.
    apply draw_lines_whole.
    + destruct Hsize as [-> | ->]; [now left|now right].
    + apply Z.divide_opp_r. unfold Scroll.LYRIC_SCROLL_STEP in Hdiv.
      destruct Hsize as [-> | ->]; cbn.
      * apply Z.divide_trans with (m := 16); [now exists 2|exact Hdiv].
      * exact Hdiv.
  - reflexivity.
Qed.

(** ** The font size *)

Section FontSize.

Import Oled Font.

Variable rnd : Q -> Q.
Hypothesis rnd_monotone : forall x y : Q, (x <= y)%Q -> (rnd x <= rnd y)%Q.
Hypothesis rnd_half : forall n : Z, 0 <= n <= 8 -> (rnd (n # 2) == n # 2)%Q.

Lemma clamp_scale (size : Q) :
  (1 <= Spectrum.py_max 1 (Spectrum.py_min 3 size) <= 3)%Q.
Proof.
  unfold Spectrum.py_max, Spectrum.py_min.
  destruct (Qle_bool 3 size) eqn:H3.
  - cbn. split; [discriminate|apply Qle_refl].
  - assert (size < 3)%Q.
    { apply Qnot_le_lt. intros H. apply Qle_bool_iff in H. congruence. }
    destruct (Qle_bool size 1) eqn:H1.
    + split; [apply Qle_refl|discriminate].
    + split; [|now apply Qlt_le_weak].
      apply Qlt_le_weak, Qnot_le_lt. intros H'. apply Qle_bool_iff in H'. congruence.
Qed.

Lemma rounded_size (size : Q) :
  (1 <= size <= 3)%Q -> 1 <= Spectrum.trunc (rnd (size + (1 # 2))) <= 3.
Proof.
  intros [Hlo Hhi].
  assert (H1 : (3 # 2 <= rnd (size + (1 # 2)))%Q).
  { rewrite <- (rnd_half 3) by lia. apply rnd_monotone. lra. }
  assert (H2 : (rnd (size + (1 # 2)) <= 7 # 2)%Q).
  { rewrite <- (rnd_half 7) by lia. apply rnd_monotone. lra. }
  rewrite trunc_floor by lra.
  split.
  - change 1 with (Qfloor (3 # 2)). now apply Qfloor_resp_le.
  - change 3 with (Qfloor (7 # 2)). now apply Qfloor_resp_le.
Qed.

Lemma custom_font_band (size : Q) :
  (Connection.Qltb float_1_4 size && Connection.Qltb size float_1_6)
  || (Connection.Qltb float_2_4 size && Connection.Qltb size float_2_6) = true
  <-> ((float_1_4 < size /\ size < float_1_6)
       \/ (float_2_4 < size /\ size < float_2_6))%Q.
Proof.
  rewrite orb_true_iff, !andb_true_iff, !Qltb_true. tauto.
Qed.

(** What the canvas satisfies whatever sizes it was given. *)
Lemma set_font_size_range (size : Q) (s : Scaled) :
  (1 <= _text_size (canvas s) <= 3
   /\ (1 <= _text_scale s <= 3)%Q
   /\ (_use_custom_font (canvas s) = true
       <-> ((float_1_4 < _text_scale s /\ _text_scale s < float_1_6)
            \/ (float_2_4 < _text_scale s /\ _text_scale s < float_2_6))%Q)) ->
  let s' := set_font_size rnd size s in
  1 <= _text_size (canvas s') <= 3
  /\ (1 <= _text_scale s' <= 3)%Q
  /\ (_use_custom_font (canvas s') = true
      <-> ((float_1_4 < _text_scale s' /\ _text_scale s' < float_1_6)
           \/ (float_2_4 < _text_scale s' /\ _text_scale s' < float_2_6))%Q).
Proof.
  intros (Hsize & Hscale & Hcustom) s'. subst s'. unfold set_font_size. cbv zeta.
  set (clamped := Spectrum.py_max 1 (Spectrum.py_min 3 size)).
  pose proof (clamp_scale size) as Hclamped. fold clamped in Hclamped.
  destruct (negb (Qeq_bool clamped (_text_scale s)));
    [|exact (conj Hsize (conj Hscale Hcustom))].
  cbn [canvas _text_scale _text_size _use_custom_font].
  split; [|split; [exact Hclamped|apply custom_font_band]].
  destruct (negb _); [now apply rounded_size|exact Hsize].
Qed.

End FontSize.

(** X21. The text size stays 1, 2 or 3. Whatever sizes [set_font_size] is
    given, in any order, the scale it keeps lies between 1.0 and 3.0, the
    text size it derives is 1, 2 or 3 (so the painter's character width is
    never zero), and the proportional font is in use exactly while the
    scale lies strictly inside one of the bands around 1.5 and 2.5. The
    floats enter through their rounding, which is monotone and leaves the
    halves from 0 to 4 as they are. *)
Theorem font_size_in_range (rnd : Q -> Q)
    (rnd_monotone : forall x y : Q, (x <= y)%Q -> (rnd x <= rnd y)%Q)
    (rnd_half : forall n : Z, 0 <= n <= 8 -> (rnd (n # 2) == n # 2)%Q)
    (sizes : list Q) :
  let s := fold_left (fun s size => Font.set_font_size rnd size s) sizes Font.init in
  1 <= Oled._text_size (Font.canvas s) <= 3
  /\ (1 <= Font._text_scale s <= 3)%Q
  /\ (Oled._use_custom_font (Font.canvas s) = true
      <-> ((Font.float_1_4 < Font._text_scale s /\ Font._text_scale s < Font.float_1_6)
           \/ (Font.float_2_4 < Font._text_scale s
               /\ Font._text_scale s < Font.float_2_6))%Q).
Proof.
  intros s. subst s.
  assert (H : forall s0,
             (1 <= Oled._text_size (Font.canvas s0) <= 3
              /\ (1 <= Font._text_scale s0 <= 3)%Q
              /\ (Oled._use_custom_font (Font.canvas s0) = true
                  <-> ((Font.float_1_4 < Font._text_scale s0
                        /\ Font._text_scale s0 < Font.float_1_6)
                       \/ (Font.float_2_4 < Font._text_scale s0
                           /\ Font._text_scale s0 < Font.float_2_6))%Q)) ->
             let s := fold_left (fun s size => Font.set_font_size rnd size s) sizes s0 in
             1 <= Oled._text_size (Font.canvas s) <= 3
             /\ (1 <= Font._text_scale s <= 3)%Q
             /\ (Oled._use_custom_font (Font.canvas s) = true
                 <-> ((Font.float_1_4 < Font._text_scale s
                       /\ Font._text_scale s < Font.float_1_6)
                      \/ (Font.float_2_4 < Font._text_scale s
                          /\ Font._text_scale s < Font.float_2_6))%Q)).
  { induction sizes as [|size rest IH]; intros s0 H0; cbn [fold_left]; [exact H0|].
    apply IH. now apply set_font_size_range. }
  apply H. cbn [Font.init Font.canvas Font._text_scale Oled._text_size
                Oled._use_custom_font Oled.init].
  split; [lia|]. split; [split; discriminate|].
  split; [discriminate|].
  unfold Font.float_1_4, Font.float_1_6, Font.float_2_4, Font.float_2_6.
  intros [[_ H']|[H' _]]; vm_compute in H'; discriminate.
Qed.

Lemma font_size_in_range_witness :
  let s :=
    fold_left (fun s size => Font.set_font_size (fun x => x) size s)
      [3 # 2; 5; 0]%Q Font.init in
  1 <= Oled._text_size (Font.canvas s) <= 3
  /\ (1 <= Font._text_scale s <= 3)%Q
  /\ (Oled._use_custom_font (Font.canvas s) = true
      <-> ((Font.float_1_4 < Font._text_scale s /\ Font._text_scale s < Font.float_1_6)
           \/ (Font.float_2_4 < Font._text_scale s
               /\ Font._text_scale s < Font.float_2_6))%Q).
Proof.
  exact (font_size_in_range (fun x => x) (fun x y H => H) (fun n _ => Qeq_refl _)
           [3 # 2; 5; 0]%Q).
Defined.

(** ** The proportional font *)

Section Proportional.

Import Oled Font.

Variable horizontalAdvance : str -> Z.

Lemma strip_of_tight (s : str) : tight s -> strip s = s.
Proof.
  intros [Hhd Hlast]. destruct s as [|c r]; [reflexivity|].
  cbn [hd] in Hhd. unfold strip, rstrip. cbn [lstrip]. rewrite Hhd.
  destruct (exists_last (l := c :: r)) as (body & z & E); [discriminate|].
  rewrite E in *. rewrite last_last in Hlast.
  rewrite rev_unit. cbn [lstrip]. rewrite Hlast.
  rewrite <- rev_unit. apply rev_involutive.
Qed.

Lemma tight_app (a mid b : str) :
  is_space (hd " "%char a) = false -> is_space (last b " "%char) = false ->
  tight (a ++ mid ++ b).
Proof.
  intros Ha Hb.
  assert (Hane : a <> []) by (intros ->; discriminate Ha).
  assert (Hbne : b <> []) by (intros ->; discriminate Hb).
  split.
  - destruct a; [congruence|exact Ha].
  - rewrite app_assoc. destruct (exists_last Hbne) as (body & z & ->).
    rewrite last_last in Hb. rewrite app_assoc. now rewrite last_last.
Qed.

Lemma is_word_tight (word : str) : is_word word -> tight word.
Proof.
  intros [Hne Hall]. rewrite Forall_forall in Hall. split.
  - destruct word; [congruence|]. apply Hall. now left.
  - destruct (exists_last Hne) as (body & z & ->). rewrite last_last.
    apply Hall, in_or_app. right. now left.
Qed.

Lemma words_from_words (s : str) :
  forall word,
    word = [] \/ is_word word -> Forall is_word (words_from s word).
Proof.
  induction s as [|ch r IH]; intros word Hword; cbn [words_from].
  - destruct word; [constructor|]. cbn [is_empty].
    destruct Hword as [E|Hw]; [discriminate|]. now constructor.
  - destruct (is_space ch) eqn:Hch.
    + destruct word; cbn [is_empty]; [apply IH; now left|].
      destruct Hword as [E|Hw]; [discriminate|].
      constructor; [exact Hw|]. apply IH. now left.
    + apply IH. right. split; [now destruct word|].
      apply Forall_app. split.
      * destruct Hword as [->|[_ Hall]]; [constructor|exact Hall].
      * now repeat constructor.
Qed.

Lemma join_snoc (sep : str) (parts : list str) (p : str) :
  parts <> [] -> join sep (parts ++ [p]) = join sep parts ++ sep ++ p.
Proof.
  induction parts as [|q rest IH]; intros Hne; [congruence|].
  destruct rest as [|q' rest'].
  - reflexivity.
  - change (join sep ((q :: q' :: rest') ++ [p]))
      with (q ++ sep ++ join sep ((q' :: rest') ++ [p])).
    rewrite IH by discriminate.
    change (join sep (q :: q' :: rest')) with (q ++ sep ++ join sep (q' :: rest')).
    now rewrite <- !app_assoc.
Qed.

Lemma line_of_tight (words : list str) :
  words <> [] -> Forall is_word words -> tight (line_of words).
Proof.
  induction words as [|w rest IH]; intros Hne Hall; [congruence|].
  inversion Hall as [|? ? Hw Hrest]; subst.
  destruct rest as [|w' rest'].
  - now apply is_word_tight.
  - change (line_of (w :: w' :: rest'))
      with (w ++ lit " " ++ line_of (w' :: rest')).
    apply tight_app.
    + now apply is_word_tight.
    + apply IH; [discriminate|exact Hrest].
Qed.

Lemma line_of_empty (words : list str) :
  Forall is_word words -> is_empty (line_of words) = is_nil words.
Proof.
  intros Hall. destruct words as [|w rest]; [reflexivity|].
  inversion Hall as [|? ? [Hne _] _]; subst.
  destruct w as [|c r]; [congruence|].
  destruct rest; reflexivity.
Qed.

(** The loop on lines is the loop on groups of words, line by line. *)
Lemma wrap_step_groups (groups : list (list str)) (current : list str) (word : str) :
  Forall is_word current -> is_word word ->
  wrap_step horizontalAdvance (map line_of groups, line_of current) word
  = (map line_of (fst (group_step horizontalAdvance (groups, current) word)),
     line_of (snd (group_step horizontalAdvance (groups, current) word))).
Proof.
  intros Hcur Hword. unfold wrap_step, group_step.
  rewrite (line_of_empty current Hcur).
  destruct current as [|w0 rest].
  - cbn [is_nil negb app]. change (line_of [word]) with word.
    destruct (horizontalAdvance word <=? SCREEN_WIDTH); reflexivity.
  - cbn [is_nil negb].
    assert (Hcand : strip (line_of (w0 :: rest) ++ lit " " ++ word)
                    = line_of ((w0 :: rest) ++ [word])).
    { unfold line_of. rewrite join_snoc by discriminate.
      apply strip_of_tight, tight_app.
      - apply (line_of_tight (w0 :: rest)); [discriminate|exact Hcur].
      - now apply is_word_tight. }
    rewrite Hcand.
    destruct (horizontalAdvance (line_of ((w0 :: rest) ++ [word])) <=? SCREEN_WIDTH).
    + reflexivity.
    + cbn [fst snd]. now rewrite map_app.
Qed.

Lemma wrap_fold_groups (words : list str) :
  Forall is_word words ->
  forall groups current,
    Forall is_word current ->
    fold_left (wrap_step horizontalAdvance) words (map line_of groups, line_of current)
    = (map line_of
         (fst (fold_left (group_step horizontalAdvance) words (groups, current))),
       line_of (snd (fold_left (group_step horizontalAdvance) words (groups, current))))
    /\ Forall is_word
         (snd (fold_left (group_step horizontalAdvance) words (groups, current))).
Proof.
  induction 1 as [|w rest Hw Hrest IH]; intros groups current Hcur; cbn [fold_left].
  - now split.
  - rewrite (wrap_step_groups groups current w Hcur Hw).
    destruct (group_step horizontalAdvance (groups, current) w) as [groups' current']
      eqn:Hstep.
    cbn [fst snd]. apply IH.
    unfold group_step in Hstep.
    destruct (_ <=? _).
    + injection Hstep as <- <-. apply Forall_app. split; [exact Hcur|now constructor].
    + destruct (negb _); injection Hstep as <- <-; now constructor.
Qed.

Lemma breaks_forced_snoc (groups : list (list str)) :
  forall previous group,
    breaks_forced horizontalAdvance previous (groups ++ [group])
    <-> breaks_forced horizontalAdvance previous groups
        /\ match group with
           | word :: _ =>
               SCREEN_WIDTH
               < horizontalAdvance (line_of (last groups previous ++ [word]))
           | [] => False
           end.
Proof.
  induction groups as [|g rest IH]; intros previous group.
  - cbn. tauto.
  - cbn [app breaks_forced]. rewrite IH.
    replace (last (g :: rest) previous) with (last rest g); [tauto|].
    clear. revert g. induction rest as [|h rest IH]; intros g; [reflexivity|].
    cbn [last]. destruct rest; [reflexivity|]. apply IH.
Qed.

(** What the loop on groups keeps, once it holds a word. *)
Lemma group_fold_invariant (words : list str) :
  forall groups current seen,
    current <> [] ->
    concat groups ++ current = seen ->
    Forall (fun g => g <> []) groups ->
    Forall (fits horizontalAdvance) groups -> fits horizontalAdvance current ->
    breaks_forced horizontalAdvance (hd [] (groups ++ [current]))
      (tl (groups ++ [current])) ->
    let result := close_groups (fold_left (group_step horizontalAdvance) words
                                  (groups, current)) in
    concat result = seen ++ words
    /\ Forall (fun g => g <> []) result
    /\ Forall (fits horizontalAdvance) result
    /\ breaks_forced horizontalAdvance (hd [] result) (tl result).
Proof.
  induction words as [|w rest IH];
    intros groups current seen Hcur Hseen Hne Hfits Hfit Hforced result.
  - subst result. cbn [fold_left close_groups].
    destruct current as [|w0 r0]; [congruence|]. cbn [is_nil negb].
    rewrite concat_app. cbn [concat]. rewrite !app_nil_r.
    split; [exact Hseen|].
    split; [apply Forall_app; split; [exact Hne|repeat constructor; discriminate]|].
    split; [apply Forall_app; split; [exact Hfits|constructor; [exact Hfit|constructor]]|
           exact Hforced].
  - subst result. cbn [fold_left].
    destruct (group_step horizontalAdvance (groups, current) w)
      as [groups' current'] eqn:Hstep.
    unfold group_step in Hstep.
    destruct (horizontalAdvance (line_of (current ++ [w])) <=? SCREEN_WIDTH) eqn:Hw.
    + apply Z.leb_le in Hw. injection Hstep as <- <-.
      replace (seen ++ w :: rest) with ((seen ++ [w]) ++ rest)
        by (now rewrite <- app_assoc).
      apply IH.
      * now destruct current.
      * now rewrite app_assoc, Hseen.
      * exact Hne.
      * exact Hfits.
      * now right.
      * destruct groups as [|g gs].
        -- cbn. trivial.
        -- cbn [app hd tl] in *. apply breaks_forced_snoc in Hforced.
           apply breaks_forced_snoc. destruct Hforced as [H1 H2].
           split; [exact H1|]. destruct current; [congruence|exact H2].
    + apply Z.leb_gt in Hw.
      destruct current as [|w0 r0]; [congruence|]. cbn [is_nil negb] in Hstep.
      injection Hstep as <- <-.
      replace (seen ++ w :: rest) with ((seen ++ [w]) ++ rest)
        by (now rewrite <- app_assoc).
      apply IH.
      * discriminate.
      * rewrite concat_app. cbn [concat]. rewrite app_nil_r. now rewrite Hseen.
      * apply Forall_app. split; [exact Hne|repeat constructor; discriminate].
      * apply Forall_app. split; [exact Hfits|constructor; [exact Hfit|constructor]].
      * now left.
      * destruct groups as [|g gs].
        -- cbn [app hd tl breaks_forced]. split; [exact Hw|trivial].
        -- cbn [app hd tl] in *.
           apply breaks_forced_snoc. split; [exact Hforced|].
           rewrite last_last. exact Hw.
Qed.

Lemma wrap_words_groups (text0 : str) :
  wrap_words horizontalAdvance text0
  = map line_of
      (close_groups
         (fold_left (group_step horizontalAdvance) (split_ws text0) ([], []))).
Proof.
  unfold wrap_words.
  assert (Hwords : Forall is_word (split_ws text0)).
  { apply words_from_words. now left. }
  destruct (wrap_fold_groups (split_ws text0) Hwords [] [] ltac:(constructor))
    as [Hfold Hcur].
  change (map line_of [], line_of []) with (@nil str, @nil ascii) in Hfold.
  rewrite Hfold.
  destruct (fold_left (group_step horizontalAdvance) (split_ws text0) ([], []))
    as [groups current].
  cbn [fst snd close_groups] in *.
  rewrite (line_of_empty current Hcur).
  destruct (negb (is_nil current)); [|reflexivity].
  now rewrite map_app.
Qed.

End Proportional.

(** X22. The proportional wrap keeps every word. The lines
    [_paint_lyrics_custom_font] builds are the words of the text, in order,
    joined by single spaces: no word is cut or dropped and no line is
    empty, however long the text (the wrap of the built-in font cuts long
    words and stops at 32 lines). A line is wider than the screen only if
    it holds a single word, and every line after the first starts with a
    word that did not fit at the end of the line before it. *)
Theorem proportional_wrap_keeps_words (horizontalAdvance : str -> Z) (text : str) :
  exists groups,
    Font.wrap_words horizontalAdvance text = map Font.line_of groups
    /\ concat groups = Font.split_ws text
    /\ Forall is_word (Font.split_ws text)
    /\ Forall (fun g => g <> []) groups
    /\ Forall (Font.fits horizontalAdvance) groups
    /\ Font.breaks_forced horizontalAdvance (hd [] groups) (tl groups).
Proof.
  exists (Font.close_groups
            (fold_left (Font.group_step horizontalAdvance) (Font.split_ws text)
               ([], []))).
  split; [apply wrap_words_groups|].
  assert (Hwords : Forall is_word (Font.split_ws text)).
  { apply words_from_words. now left. }
  destruct (Font.split_ws text) as [|w rest].
  - cbn. repeat split; constructor.
  - cbn [fold_left].
    assert (Hfirst : Font.group_step horizontalAdvance ([], []) w = ([], [w])).
    { unfold Font.group_step. cbn [app is_nil negb]. now destruct (_ <=? _). }
    rewrite Hfirst.
    destruct (group_fold_invariant horizontalAdvance rest [] [w] [w]
                ltac:(discriminate) eq_refl (Forall_nil _) (Forall_nil _)
                (or_introl eq_refl) I)
      as (Hconcat & Hne & Hfits & Hforced).
    split; [exact Hconcat|]. split; [exact Hwords|].
    split; [exact Hne|]. split; [exact Hfits|exact Hforced].
Qed.

(** ** Reading a written LRC file *)

Section LrcWritten.

Import Parser.

(** Only an opening bracket starts a time stamp. *)
Lemma match_lrc_timestamp_bracket (c0 : ascii) (r0 : str) :
  c0 <> "["%char -> match_lrc_timestamp (c0 :: r0) = None.
Proof.
  intros Hc. apply Ascii.eqb_neq in Hc. unfold match_lrc_timestamp.
  destruct (take_digits 2 r0) as [minutes r1].
  destruct minutes as [|d ds]; [reflexivity|].
  destruct r1 as [|c1 r2]; [reflexivity|].
  destruct (take_digits 2 r2) as [seconds r3].
  now rewrite Hc.
Qed.

(** A text without an opening bracket holds no time stamp. *)
Lemma lrc_scan_plain (s : str) :
  ~ In "["%char s -> forall fuel, lrc_scan_fuel fuel s = ([], s).
Proof.
  induction s as [|c r IH]; intros Hno fuel; [destruct fuel; reflexivity|].
  destruct fuel as [|f]; [reflexivity|]. cbn [lrc_scan_fuel].
  rewrite match_lrc_timestamp_bracket by (intros ->; apply Hno; now left).
  rewrite IH by (intros Hin; apply Hno; now right). reflexivity.
Qed.

Lemma match_lrc_digits (d1 d2 d3 d4 d5 d6 : ascii) (rest : str) :
  is_digit d1 = true -> is_digit d2 = true -> is_digit d3 = true ->
  is_digit d4 = true -> is_digit d5 = true -> is_digit d6 = true ->
  match_lrc_timestamp (["["; d1; d2; ":"; d3; d4; "."; d5; d6; "]"]%char ++ rest)
  = Some ([d1; d2], [d3; d4], Some [d5; d6], rest).
Proof.
  intros H1 H2 H3 H4 H5 H6.
  unfold match_lrc_timestamp. cbn [app take_digits].
  rewrite H1, H2, H3, H4, H5, H6. reflexivity.
Qed.

Lemma two_digits_digits (n : Z) :
  0 <= n < 100 ->
  is_digit (digit_char (n / 10)) = true /\ is_digit (digit_char (n mod 10)) = true.
Proof.
  intros Hn. destruct (two_digits_value n Hn) as [Hd _].
  unfold two_digits in Hd.
  split; [exact (Forall_inv Hd)|exact (Forall_inv (Forall_inv_tail Hd))].
Qed.

(** The match of a written stamp: its three fields, and the text behind
    it. *)
Lemma match_lrc_stamp (m s x : Z) (rest : str) :
  stamp_in_range (m, s, x) ->
  match_lrc_timestamp (lrc_stamp (m, s, x) ++ rest)
  = Some (two_digits m, two_digits s, Some (two_digits x), rest).
Proof.
  intros (Hm & Hs & Hx).
  destruct (two_digits_digits m Hm) as [H1 H2].
  destruct (two_digits_digits s Hs) as [H3 H4].
  destruct (two_digits_digits x Hx) as [H5 H6].
  exact (match_lrc_digits _ _ _ _ _ _ rest H1 H2 H3 H4 H5 H6).
Qed.

Lemma lrc_start_ms_stamp (m s x : Z) :
  stamp_in_range (m, s, x) ->
  lrc_start_ms (two_digits m) (two_digits s) (Some (two_digits x))
  = stamp_ms (m, s, x).
Proof.
  intros (Hm & Hs & Hx). unfold lrc_start_ms, stamp_ms. cbv zeta.
  destruct (two_digits_value m Hm) as [_ ->].
  destruct (two_digits_value s Hs) as [_ ->].
  destruct (two_digits_value x Hx) as [_ Hvx].
  unfold ljust. cbn [two_digits length Nat.sub repeat app].
  unfold int_of_digits in *. unfold two_digits in Hvx. cbn [fold_left] in *.
  change (digit_val "0"%char) with 0. lia.
Qed.

(** The scan of a written line: the times of its stamps, and its lyric. *)
Lemma lrc_scan_written (times : list (Z * Z * Z)) (words : str) :
  Forall stamp_in_range times ->
  ~ In "["%char words ->
  forall fuel,
    (length (concat (map lrc_stamp times) ++ words) <= fuel)%nat ->
    lrc_scan_fuel fuel (concat (map lrc_stamp times) ++ words)
    = (map stamp_ms times, words).
Proof.
  intros Hrange Hno. induction Hrange as [|[[m s] x] rest Hst _ IH]; intros fuel Hfuel.
  - cbn [map concat app]. now apply lrc_scan_plain.
  - cbn [map concat] in *. rewrite <- app_assoc in *.
    destruct fuel as [|f].
    { exfalso. rewrite length_app in Hfuel.
      change (length (lrc_stamp (m, s, x))) with 10%nat in Hfuel. lia. }
    assert (Hcons : exists r, lrc_stamp (m, s, x) ++ concat (map lrc_stamp rest) ++ words
                              = "["%char :: r) by (eexists; reflexivity).
    destruct Hcons as [r Hr].
    cbn [lrc_scan_fuel]. rewrite Hr. rewrite <- Hr.
    rewrite (match_lrc_stamp m s x _ Hst).
    rewrite IH.
    + now rewrite (lrc_start_ms_stamp m s x Hst).
    + rewrite length_app in Hfuel.
      change (length (lrc_stamp (m, s, x))) with 10%nat in Hfuel. lia.
Qed.

Lemma two_digits_plain (n : Z) (c : ascii) :
  0 <= n < 100 -> is_digit c = false -> ~ In c (two_digits n).
Proof.
  intros Hn Hc Hin. destruct (two_digits_value n Hn) as [Hd _].
  rewrite Forall_forall in Hd. apply Hd in Hin. congruence.
Qed.

Lemma lrc_stamp_plain (stamp : Z * Z * Z) :
  stamp_in_range stamp -> ~ In LF (lrc_stamp stamp).
Proof.
  destruct stamp as [[m s] x]. intros (Hm & Hs & Hx). unfold lrc_stamp.
  intros [H|H]; [discriminate|].
  apply in_app_or in H. destruct H as [H|[H|H]];
    [now apply (two_digits_plain m LF Hm eq_refl)|discriminate|].
  apply in_app_or in H. destruct H as [H|[H|H]];
    [now apply (two_digits_plain s LF Hs eq_refl)|discriminate|].
  apply in_app_or in H. destruct H as [H|[H|[]]];
    [now apply (two_digits_plain x LF Hx eq_refl)|discriminate].
Qed.

Lemma lrc_line_plain (l : LrcLine) : well_written l -> ~ In LF (lrc_line l).
Proof.
  intros (Hrange & _ & _ & Hno) Hin. unfold lrc_line in Hin.
  apply in_app_or in Hin. destruct Hin as [Hin|Hin]; [|now apply Hno].
  apply in_concat in Hin. destruct Hin as (field & Hfield & Hin).
  apply in_map_iff in Hfield. destruct Hfield as (stamp & <- & Hstamp).
  rewrite Forall_forall in Hrange.
  exact (lrc_stamp_plain stamp (Hrange stamp Hstamp) Hin).
Qed.

Lemma lrc_stamp_ends (stamp : Z * Z * Z) :
  exists mid, lrc_stamp stamp = "["%char :: mid ++ ["]"%char].
Proof.
  destruct stamp as [[m s] x].
  exists (two_digits m ++ ":"%char :: two_digits s ++ "."%char :: two_digits x).
  reflexivity.
Qed.

Lemma lrc_stamps_ends (times : list (Z * Z * Z)) :
  times <> [] ->
  exists mid, concat (map lrc_stamp times) = "["%char :: mid ++ ["]"%char].
Proof.
  induction times as [|stamp rest IH]; intros Hne; [congruence|].
  cbn [map concat]. destruct (lrc_stamp_ends stamp) as [mid ->].
  destruct rest as [|next rest].
  - exists mid. cbn [map concat]. now rewrite app_nil_r.
  - destruct IH as [mid' ->]; [discriminate|].
    exists (mid ++ "]"%char :: "["%char :: mid').
    cbn [app]. rewrite <- !app_assoc. reflexivity.
Qed.

(** A written line is as [strip] leaves it. *)
Lemma lrc_line_strip (l : LrcLine) : well_written l -> strip (lrc_line l) = lrc_line l.
Proof.
  intros (_ & Htight & _ & _). unfold lrc_line.
  destruct (stamps l) as [|stamp rest] eqn:Hstamps.
  - cbn [map concat app]. destruct Htight as [->|Htight]; [reflexivity|].
    now apply strip_of_tight.
  - destruct (lrc_stamps_ends (stamp :: rest)) as [mid ->]; [discriminate|].
    destruct Htight as [->|[_ Hlast]].
    + rewrite app_nil_r. now apply strip_tight.
    + destruct (exists_last (l := lyric l)) as (body & z & E).
      { intros E. rewrite E in Hlast. discriminate. }
      rewrite E in *. rewrite last_last in Hlast.
      cbn [app]. rewrite <- app_assoc. cbn [app].
      change (mid ++ "]"%char :: body ++ [z])
        with (mid ++ ("]"%char :: body) ++ [z]).
      rewrite app_assoc. now apply strip_tight.
Qed.

(** What a written line adds to the entries: one entry for each of its
    stamps, with the lyric of the line. *)
Lemma lrc_line_entries_written (l : LrcLine) :
  well_written l ->
  lrc_line_entries (lrc_line l)
  = map (fun stamp => (stamp_ms stamp, lyric l)) (stamps l).
Proof.
  intros Hl. unfold lrc_line_entries. cbv zeta.
  rewrite (lrc_line_strip l Hl).
  destruct Hl as (Hrange & Htight & Hno & _).
  destruct (is_empty (lrc_line l)) eqn:Hempty.
  - unfold lrc_line in Hempty.
    destruct (stamps l) as [|stamp rest]; [reflexivity|].
    destruct (lrc_stamps_ends (stamp :: rest)) as [mid E]; [discriminate|].
    rewrite E in Hempty. discriminate.
  - unfold lrc_scan, lrc_line.
    rewrite (lrc_scan_written _ _ Hrange Hno) by apply Nat.le_refl.
    rewrite map_map.
    assert (Hstrip : strip (lyric l) = lyric l).
    { destruct Htight as [->|Htight]; [reflexivity|now apply strip_of_tight]. }
    now rewrite Hstrip.
Qed.

(** The entries the loop over the lines of a written file collects. *)
Lemma lrc_file_entries (lines : list LrcLine) :
  Forall well_written lines ->
  flat_map lrc_line_entries (split_on LF (lrc_file lines))
  = flat_map (fun l => map (fun stamp => (stamp_ms stamp, lyric l)) (stamps l)) lines.
Proof.
  intros Hlines. unfold lrc_file.
  destruct lines as [|first rest]; [reflexivity|].
  rewrite split_on_join.
  - induction Hlines as [|l ls Hl _ IH]; [reflexivity|].
    cbn [map flat_map]. now rewrite IH, (lrc_line_entries_written l Hl).
  - discriminate.
  - apply Forall_forall. intros field Hfield. apply in_map_iff in Hfield.
    destruct Hfield as (l & <- & Hl). rewrite Forall_forall in Hlines.
    apply lrc_line_plain, Hlines, Hl.
Qed.

Lemma filter_flat_map {A B : Type} (f : B -> bool) (g : A -> list B) (l : list A) :
  filter f (flat_map g l) = flat_map (fun x => filter f (g x)) l.
Proof.
  induction l as [|x l IH]; [reflexivity|].
  cbn [flat_map]. now rewrite filter_app, IH.
Qed.

(** Of the entries of a written file, those with a lyric. *)
Lemma lrc_file_text_entries (lines : list LrcLine) :
  Forall well_written lines ->
  lrc_text_entries (lrc_file lines) = written_entries lines.
Proof.
  intros Hlines. unfold lrc_text_entries, written_entries.
  rewrite (lrc_file_entries lines Hlines), filter_flat_map.
  clear Hlines. induction lines as [|l ls IH]; [reflexivity|].
  cbn [flat_map]. rewrite IH. f_equal.
  induction (stamps l) as [|stamp rest IHs]; cbn [map filter snd].
  - now destruct (is_empty (lyric l)).
  - rewrite IHs. now destruct (is_empty (lyric l)).
Qed.

End LrcWritten.

(** X7. [_parse_lrc] reads a written file back. The file holds lines
    [[mm:ss.xx]...[mm:ss.xx]lyric], the fields of two digits, the lyric
    without an opening bracket and without white space at its ends. The
    lines returned are in the order of their start times, and their
    (start, text) pairs are, up to order, one pair for every stamp of every
    line that has a lyric: the time the stamp stands for and the lyric of
    its line. Nothing is lost and nothing invented; a line with several
    stamps gives one lyric line for each. *)
Theorem parse_lrc_entries (lines : list LrcLine) :
  Forall well_written lines ->
  Permutation
    (map (fun l => (Parser.start_ms l, Parser.text l))
         (Parser._parse_lrc (lrc_file lines)))
    (written_entries lines)
  /\ StronglySorted Z.le (starts (Parser._parse_lrc (lrc_file lines))).
Proof.
  intros Hlines. split.
  - rewrite <- (lrc_file_text_entries lines Hlines). apply parse_lrc_scanned.
  - unfold Parser._parse_lrc. apply lrc_lines_sorted, sort_entries_sorted.
Qed.

(** A file of three lines: a chorus sung at 1:05.00 and at 0:12.50, an
    opening line at 0:01.00, and a stamp at 0:30.00 with no lyric. *)
Lemma parse_lrc_entries_witness :
  let lines :=
    [mkLrcLine [(1, 5, 0); (0, 12, 50)] (lit "la la");
     mkLrcLine [(0, 1, 0)] (lit "intro");
     mkLrcLine [(0, 30, 0)] []] in
  lrc_file lines
  = lit "[01:05.00][00:12.50]la la" ++ LF :: lit "[00:01.00]intro"
    ++ LF :: lit "[00:30.00]"
  /\ Permutation
       (map (fun l => (Parser.start_ms l, Parser.text l))
            (Parser._parse_lrc (lrc_file lines)))
       [(65000, lit "la la"); (12500, lit "la la"); (1000, lit "intro")].
Proof.
  intros lines.
  assert (Hlines : Forall well_written lines).
  { repeat constructor; cbn; try lia; try discriminate;
      try (right; split; reflexivity); try (now left);
      intros H; repeat (destruct H as [H|H]; [discriminate|]); exact H. }
  split; [reflexivity|].
  exact (proj1 (parse_lrc_entries lines Hlines)).
Defined.

(** ** A change of offset *)

Section Resync.

Import Parser MainWindow Window.

Lemma set_mode_text (mode : str) (c : Oled._OledCanvas) :
  Oled._current_text (Oled.set_mode mode c) = Oled._current_text c.
Proof.
  unfold Oled.set_mode. cbv zeta. now destruct (negb _).
Qed.

Lemma auto_switch_text (position_ms total_offset : Z) (text0 : str) (w : MainWindow) :
  Oled._current_text (_oled_sim (auto_switch position_ms total_offset text0 w))
  = Oled._current_text (_oled_sim w).
Proof.
  unfold auto_switch.
  destruct (str_eqb (display_mode w) (lit "lyrics")); [|reflexivity].
  destruct (is_empty text0 && negb (_in_lyric_gap w)).
  - destruct (_ || _); [|reflexivity].
    destruct w as [dm go ly li to ig sc calls cl sim].
    cbn [serial_is_connected set_in_lyric_gap].
    destruct sc; cbn [_oled_sim with_oled_sim serial_call]; apply set_mode_text.
  - destruct (negb (is_empty text0) && _in_lyric_gap w); [|reflexivity].
    destruct w as [dm go ly li to ig sc calls cl sim].
    cbn [serial_is_connected set_in_lyric_gap].
    destruct sc; cbn [_oled_sim with_oled_sim serial_call]; apply set_mode_text.
Qed.

(** The lyric calls of a tick on a window that holds lyrics. *)
Lemma tick_lyric_calls (position_ms : Z) (w : MainWindow) :
  _lyrics w <> [] ->
  let resolved :=
    get_lyric_at_position (_lyrics w) position_ms
      (_track_offset_ms w + global_offset_ms w) in
  let w' := _sync_lyrics position_ms w in
  filter is_lyric_call (calls_during position_ms w)
  = (if negb (fst resolved =? _last_lyric_idx w) && serial_is_connected w
        && negb (_in_lyric_gap w')
     then [if is_empty (snd resolved) then call_send_clear
           else call_send_text (snd resolved)]
     else [])
  /\ Oled._current_text (_oled_sim w')
     = (if negb (fst resolved =? _last_lyric_idx w)
        then (if negb (is_empty (snd resolved)) then snd resolved
              else if negb (_in_lyric_gap w') then []
              else Oled._current_text (_oled_sim w))
        else Oled._current_text (_oled_sim w)).
Proof.
  intros Hlyrics resolved w'.
  set (total := _track_offset_ms w + global_offset_ms w) in *.
  unfold calls_during. subst w'. unfold _sync_lyrics.
  fold total. fold resolved.
  destruct (is_nil (_lyrics w)) eqn:Hnil.
  { destruct (_lyrics w); [congruence|discriminate]. }
  destruct resolved as [idx text0]. cbn [fst snd].
  set (w1 := set_controls_lyric text0 w).
  destruct (auto_switch_frame position_ms total text0 w1)
    as (_ & Hlast & Hconn & added & Hcalls & Hmode).
  destruct (send_on_change_calls idx text0 (auto_switch position_ms total text0 w1))
    as [Hgap Hsent].
  split.
  - rewrite Hsent, Hcalls, Hgap, Hlast, Hconn.
    change (serial_calls w1) with (serial_calls w).
    change (_last_lyric_idx w1) with (_last_lyric_idx w).
    change (serial_is_connected w1) with (serial_is_connected w).
    rewrite <- app_assoc, skipn_length_app, filter_app, Hmode. cbn [app].
    destruct (negb (idx =? _last_lyric_idx w) && serial_is_connected w
              && negb (_in_lyric_gap (auto_switch position_ms total text0 w1)));
      [|reflexivity].
    now destruct (is_empty text0).
  - rewrite Hgap.
    pose proof (auto_switch_text position_ms total text0 w1) as Htext.
    change (_oled_sim w1) with (_oled_sim w) in Htext.
    set (w2 := auto_switch position_ms total text0 w1) in *.
    unfold send_on_change. rewrite Hlast.
    change (_last_lyric_idx w1) with (_last_lyric_idx w).
    destruct (negb (idx =? _last_lyric_idx w)); [|exact Htext].
    destruct (is_empty text0) eqn:He; cbn [negb].
    + destruct (serial_is_connected (set_last_lyric_idx idx w2)
                && negb (_in_lyric_gap (set_last_lyric_idx idx w2)));
        cbn [_in_lyric_gap serial_call set_last_lyric_idx];
        destruct (_in_lyric_gap w2); cbn [negb]; try exact Htext; reflexivity.
    + destruct (serial_is_connected (set_last_lyric_idx idx w2)
                && negb (_in_lyric_gap (set_last_lyric_idx idx w2)));
        cbn [_oled_sim with_oled_sim serial_call set_last_lyric_idx];
        unfold Oled.set_text; destruct (negb (str_eqb _ _)) eqn:Hs;
        try reflexivity;
        apply negb_false_iff, str_eqb_true in Hs; now rewrite <- Hs.
Qed.

End Resync.

(** X23. After a change of offset the next tick sends afresh, but clears
    nothing. [_adjust_offset] resets the cached index to -1: a tick that
    then resolves a line sends it (link connected, gap flag clear) and
    shows it on the simulator even if it is the line already shown; a tick
    that resolves no line finds the index it expects, makes no lyric call
    and leaves the text on the simulator as it was. *)
Theorem offset_change_resync (delta position_ms : Z) (w : MainWindow.MainWindow)
    (Hlyrics : MainWindow._lyrics w <> []) :
  let w1 := Window._adjust_offset true delta w in
  let resolved :=
    Parser.get_lyric_at_position (MainWindow._lyrics w) position_ms
      (MainWindow._track_offset_ms w + delta + MainWindow.global_offset_ms w) in
  let w2 := MainWindow._sync_lyrics position_ms w1 in
  (fst resolved <> -1 ->
   filter MainWindow.is_lyric_call (MainWindow.calls_during position_ms w1)
   = (if MainWindow.serial_is_connected w && negb (MainWindow._in_lyric_gap w2)
      then [if is_empty (snd resolved) then MainWindow.call_send_clear
            else MainWindow.call_send_text (snd resolved)]
      else [])
   /\ (snd resolved <> [] ->
       Oled._current_text (MainWindow._oled_sim w2) = snd resolved))
  /\ (fst resolved = -1 ->
      filter MainWindow.is_lyric_call (MainWindow.calls_during position_ms w1) = []
      /\ Oled._current_text (MainWindow._oled_sim w2)
         = Oled._current_text (MainWindow._oled_sim w)).
Proof.
  intros w1 resolved w2.
  assert (Hl1 : MainWindow._lyrics w1 <> []) by exact Hlyrics.
  destruct (tick_lyric_calls position_ms w1 Hl1) as [Hcalls Htext].
  change (MainWindow._lyrics w1) with (MainWindow._lyrics w) in Hcalls, Htext.
  change (MainWindow._track_offset_ms w1) with (MainWindow._track_offset_ms w + delta)
    in Hcalls, Htext.
  change (MainWindow.global_offset_ms w1) with (MainWindow.global_offset_ms w)
    in Hcalls, Htext.
  change (MainWindow._last_lyric_idx w1) with (-1) in Hcalls, Htext.
  change (MainWindow.serial_is_connected w1) with (MainWindow.serial_is_connected w)
    in Hcalls.
  change (MainWindow._oled_sim w1) with (MainWindow._oled_sim w) in Htext.
  fold resolved in Hcalls, Htext. fold w2 in Hcalls, Htext.
  split.
  - intros Hidx. apply Z.eqb_neq in Hidx. rewrite Hidx in Hcalls, Htext.
    cbn [negb andb] in Hcalls, Htext. split; [exact Hcalls|].
    intros Hne. rewrite Htext. now destruct (snd resolved).
  - intros Hidx. rewrite Hidx in Hcalls, Htext. split; [exact Hcalls|exact Htext].
Qed.

Lemma offset_change_resync_witness :
  let lyrics := [Parser.mkLyricLine 1 0 1000 (lit "a");
                 Parser.mkLyricLine 2 1200 2000 (lit "b")] in
  let w := MainWindow._sync_lyrics 500 (MainWindow.loaded (lit "lyrics") 0 0 lyrics true) in
  let w1 := Window._adjust_offset true 600 w in
  Oled._current_text (MainWindow._oled_sim w) = lit "a"
  /\ Parser.get_lyric_at_position lyrics 500 600 = (-1, [])
  /\ filter MainWindow.is_lyric_call (MainWindow.calls_during 500 w1) = []
  /\ Oled._current_text (MainWindow._oled_sim (MainWindow._sync_lyrics 500 w1)) = lit "a".
Proof.
  intros lyrics w w1.
  assert (Hne : MainWindow._lyrics w <> []) by discriminate.
  destruct (offset_change_resync 600 500 w Hne) as [_ Hnone].
  destruct (Hnone eq_refl) as [Hcalls Htext].
  split; [reflexivity|]. split; [reflexivity|]. split; [exact Hcalls|exact Htext].
Defined.

(** ** The equalizer timer *)

Section EqualizerTimer.

Import Window.

Lemma fallback_level_range (x : Q) :
  0 <= Spectrum.trunc (Spectrum.py_min 12 (Spectrum.py_max 0 x)) <= 12.
Proof.
  unfold Spectrum.py_min, Spectrum.py_max.
  destruct (Qle_bool x 0) eqn:H0.
  - cbn. lia.
  - assert (Hpos : (0 < x)%Q).
    { apply Qnot_le_lt. intros H. apply Qle_bool_iff in H. congruence. }
    destruct (Qle_bool 12 x) eqn:H12.
    + cbn. lia.
    + assert (Hlt : (x < 12)%Q).
      { apply Qnot_le_lt. intros H. apply Qle_bool_iff in H. congruence. }
      rewrite trunc_floor by now apply Qlt_le_weak.
      split.
      * change 0 with (Qfloor 0). apply Qfloor_resp_le. now apply Qlt_le_weak.
      * change 12 with (Qfloor 12). apply Qfloor_resp_le. now apply Qlt_le_weak.
Qed.

Lemma overwrite_all {A : Type} (news olds : list A) :
  length news = length olds -> overwrite news olds = news.
Proof.
  revert olds. induction news as [|v news IH]; intros [|o olds] H;
    cbn in *; try discriminate; [reflexivity|].
  f_equal. apply IH. lia.
Qed.

Lemma map_clamp_id (levels : list Z) :
  Forall (fun level => 0 <= level <= 12) levels -> map clamp_level levels = levels.
Proof.
  induction 1 as [|l rest Hl _ IH]; [reflexivity|].
  cbn [map]. now rewrite IH, clamp_level_id.
Qed.

Lemma frame_on_wire_and_canvas (levels : list Z) (sim : Panel._OledCanvas) :
  length levels = 12%nat ->
  Forall (fun level => 0 <= level <= 12) levels ->
  len (Panel._eq_heights sim) = Panel.EQ_BARS ->
  Connection.equalizer_payload levels = join (lit ",") (map str_of_int levels)
  /\ exists sim',
       Panel.set_equalizer levels sim = Some sim'
       /\ Panel._eq_heights sim' = levels.
Proof.
  intros Hlen Hrange Hsim. split.
  - unfold Connection.equalizer_payload. cbv zeta. f_equal.
    apply map_ext_in. intros v Hv. rewrite Forall_forall in Hrange.
    specialize (Hrange v Hv). f_equal. lia.
  - destruct (set_equalizer_heights levels sim Hsim) as (sim' & Hset & Hh & _).
    exists sim'. split; [exact Hset|].
    rewrite Hh, map_clamp_id by exact Hrange.
    apply overwrite_all. unfold len, Panel.EQ_BARS in Hsim. lia.
Qed.

Lemma equalizer_levels_cases (display_mode : str) (in_lyric_gap is_playing : bool)
    (volume : Q) (spectrum : option (list Z)) (scaled : Z -> Q) :
  match equalizer_levels display_mode in_lyric_gap is_playing volume spectrum scaled with
  | Some levels =>
      is_playing = true
      /\ (display_mode = lit "equalizer" \/ in_lyric_gap = true)
      /\ (spectrum = Some levels
          \/ (length levels = 12%nat /\ Forall (fun level => 0 <= level <= 12) levels))
  | None =>
      is_playing = false
      \/ (display_mode <> lit "equalizer" /\ in_lyric_gap = false)
  end.
Proof.
  unfold equalizer_levels.
  assert (Hshown :
    negb (str_eqb display_mode (lit "equalizer")) && negb in_lyric_gap = false ->
    display_mode = lit "equalizer" \/ in_lyric_gap = true).
  { destruct (str_eqb display_mode (lit "equalizer")) eqn:Hmode.
    - intros _. left. now apply str_eqb_true.
    - destruct in_lyric_gap; [now right|discriminate]. }
  destruct (negb (str_eqb display_mode (lit "equalizer")) && negb in_lyric_gap)
    eqn:Hhidden.
  { right. apply andb_true_iff in Hhidden. destruct Hhidden as [Hm Hg].
    split; [|now destruct in_lyric_gap].
    intros E. apply str_eqb_true in E. rewrite E in Hm. discriminate. }
  specialize (Hshown eq_refl).
  destruct is_playing; cbn [negb]; [|now left].
  destruct (Qle_bool volume float_0_01).
  { split; [reflexivity|]. split; [exact Hshown|]. right.
    split; [reflexivity|]. cbn. repeat constructor; lia. }
  destruct spectrum as [levels|].
  { split; [reflexivity|]. split; [exact Hshown|]. now left. }
  split; [reflexivity|]. split; [exact Hshown|]. right.
  split; [reflexivity|].
  apply Forall_forall. intros level Hin. apply in_map_iff in Hin.
  destruct Hin as (i & <- & _). apply fallback_level_range.
Qed.

End EqualizerTimer.

(** X24. Every equalizer frame is twelve levels between 0 and 12. Whatever
    the analyzer of the session returns and whatever the fallback computes,
    the list [_send_equalizer_levels] builds has twelve entries, each
    between 0 and 12: the clamp of [send_equalizer] changes none of them,
    and [set_equalizer] takes all twelve, so the simulator's bars are the
    levels sent. No frame is built unless the player is playing and the
    display shows the equalizer, by its mode or during a gap. *)
Theorem equalizer_frames_valid (sample : Type) (rnd : Q -> Q) (power : Q -> Q -> Q)
    (band_db : list sample -> Z -> Z -> Q) (has_numpy has_pydub : bool)
    (files : list (option (list sample))) (position_ms : Z)
    (display_mode : str) (in_lyric_gap is_playing : bool) (volume : Q)
    (scaled : Z -> Q) (frames : list (list Z)) :
  let a := Analyzer.after_loads sample rnd power has_numpy has_pydub files in
  let spectrum := Spectrum.get_levels sample rnd band_db has_numpy a position_ms in
  exists sim,
    after_frames frames = Some sim
    /\ match Window.equalizer_levels display_mode in_lyric_gap is_playing volume
               spectrum scaled with
       | Some levels =>
           is_playing = true
           /\ (display_mode = lit "equalizer" \/ in_lyric_gap = true)
           /\ length levels = 12%nat
           /\ Forall (fun level => 0 <= level <= 12) levels
           /\ Connection.equalizer_payload levels
              = join (lit ",") (map str_of_int levels)
           /\ exists sim',
                Panel.set_equalizer levels sim = Some sim'
                /\ Panel._eq_heights sim' = levels
       | None =>
           is_playing = false
           \/ (display_mode <> lit "equalizer" /\ in_lyric_gap = false)
       end.
Proof.
  intros a spectrum.
  destruct (after_frames_heights frames) as (sim & Hsim & Hlen & _).
  exists sim. split; [exact Hsim|].
  pose proof (equalizer_levels_cases display_mode in_lyric_gap is_playing volume
                spectrum scaled) as Hcases.
  destruct (Window.equalizer_levels display_mode in_lyric_gap is_playing volume
              spectrum scaled) as [levels|]; [|exact Hcases].
  destruct Hcases as (Hplaying & Hshown & Hlevels).
  split; [exact Hplaying|]. split; [exact Hshown|].
  assert (Hvalid : length levels = 12%nat
                   /\ Forall (fun level => 0 <= level <= 12) levels).
  { destruct Hlevels as [Hspectrum|Hvalid]; [|exact Hvalid].
    split; [|eapply get_levels_range; exact Hspectrum].
    destruct (after_loads_well_formed sample rnd power has_numpy has_pydub files)
      as (_ & Hedges & _).
    fold a in Hedges. subst spectrum. unfold Spectrum.get_levels in Hspectrum.
    destruct has_numpy; cbn [negb] in Hspectrum; [|discriminate].
    destruct (Spectrum._samples sample a); [|discriminate].
    destruct (_ >? _); injection Hspectrum as <-; [reflexivity|].
    rewrite length_map. now apply Hedges. }
  destruct Hvalid as [Hlength Hrange].
  split; [exact Hlength|]. split; [exact Hrange|].
  now apply frame_on_wire_and_canvas.
Qed.

(** ** The playlist *)

Section PlaylistQueue.

Import Playlist.

Variable track : Type.
Variable track_id : track -> Z.
Variable get_track : Z -> option track.
Variable get_playlist_tracks : Z -> list track.
Variable shuffle : nat -> list track -> list track.

Hypothesis shuffle_permutes : forall n l, Permutation (shuffle n l) l.

Lemma last_snoc {A : Type} (l : list A) (x d : A) : last (l ++ [x]) d = x.
Proof.
  apply last_last.
Qed.

(** Loading at a position inside the queue succeeds, and plays the track
    there. *)
Lemma load_current_at (queue : list track) (pos : Z) (playlist_id : option Z)
    (q : Queue track) :
  0 <= pos < len queue ->
  exists q',
    load_current track (with_queue track queue pos playlist_id q) = Some q'
    /\ _playlist_queue track q' = queue
    /\ _playlist_pos track q' = pos
    /\ _shuffle_on track q' = _shuffle_on track q
    /\ _repeat_mode track q' = _repeat_mode track q
    /\ in_queue track q' /\ plays_current track q'
    /\ exists t, item queue pos = Some t /\ loaded track q' = loaded track q ++ [t].
Proof.
  intros Hpos. unfold load_current.
  cbn [with_queue _playlist_queue _playlist_pos].
  destruct (item queue pos) as [t|] eqn:Hitem.
  - eexists. split; [reflexivity|].
    cbn [_load_and_play with_queue _playlist_queue _playlist_pos _shuffle_on
         _repeat_mode loaded].
    repeat split; try reflexivity.
    + right. exact Hpos.
    + right. exists t.
      cbn [_load_and_play with_queue _playlist_queue _playlist_pos loaded].
      split; [exact Hitem|]. split; [apply last_snoc|].
      now destruct (loaded track q).
    + now exists t.
  - exfalso. replace pos with (Z.of_nat (Z.to_nat pos)) in Hitem by lia.
    rewrite item_nat in Hitem. apply nth_error_None in Hitem.
    unfold len in Hpos. lia.
Qed.

Lemma shuffle_if_on_queue (q : Queue track) :
  Permutation (_playlist_queue track (shuffle_if_on track shuffle q))
              (_playlist_queue track q)
  /\ _playlist_pos track (shuffle_if_on track shuffle q) = _playlist_pos track q
  /\ _shuffle_on track (shuffle_if_on track shuffle q) = _shuffle_on track q
  /\ _repeat_mode track (shuffle_if_on track shuffle q) = _repeat_mode track q
  /\ loaded track (shuffle_if_on track shuffle q) = loaded track q.
Proof.
  unfold shuffle_if_on. destruct (_shuffle_on track q) eqn:Hs.
  - cbn. repeat split; auto.
  - repeat split; auto.
Qed.

Lemma permutation_len (l l' : list track) : Permutation l l' -> len l = len l'.
Proof.
  intros H. unfold len. now rewrite (Permutation_length H).
Qed.

Lemma nonempty_len (l : list track) : is_nil l = false -> 0 < len l.
Proof.
  destruct l; [discriminate|]. intros _. unfold len. cbn [length]. lia.
Qed.

Lemma run_call_in_queue (q : Queue track) (call : Call) :
  in_queue track q -> plays_current track q ->
  exists q',
    run_call track track_id get_track get_playlist_tracks shuffle (Some q) call = Some q'
    /\ in_queue track q' /\ plays_current track q'.
Proof.
  intros Hin Hplays. destruct call as [id|pid id|pid| |position| |on|mode];
    cbn [run_call].
  - unfold _play_track_by_id. destruct (get_track id) as [t|].
    + eexists. split; [reflexivity|]. split; [now left|now left].
    + now exists q.
  - unfold _play_track_in_playlist. cbv zeta.
    destruct (is_nil (get_playlist_tracks pid)) eqn:Hnil; [now exists q|].
    set (q1 := shuffle_if_on track shuffle
                 (with_queue track (get_playlist_tracks pid) (_playlist_pos track q)
                    (Some pid) q)).
    destruct (shuffle_if_on_queue
                (with_queue track (get_playlist_tracks pid) (_playlist_pos track q)
                   (Some pid) q)) as (Hperm & _).
    fold q1 in Hperm. cbn [with_queue _playlist_queue] in Hperm.
    apply permutation_len in Hperm. apply nonempty_len in Hnil.
    assert (Hpos : 0 <= match first_index track track_id 0 (_playlist_queue track q1) id with
                        | Some i => i
                        | None => 0
                        end < len (_playlist_queue track q1)).
    { destruct (first_index track track_id 0 (_playlist_queue track q1) id) as [i|] eqn:Hi;
        [|lia].
      assert (H : forall queue k j,
                 first_index track track_id k queue id = Some j ->
                 k <= j < k + len queue).
      { induction queue as [|t rest IH]; intros k j; cbn [first_index]; [discriminate|].
        unfold len in *. cbn [length].
        destruct (track_id t =? id); [intros [= <-]; lia|].
        intros Hj. apply IH in Hj. lia. }
      apply H in Hi. lia. }
    destruct (load_current_at (_playlist_queue track q1) _
                (_current_playlist_id track q1) q1 Hpos)
      as (q' & Hload & _ & _ & _ & _ & Hin' & Hplays' & _).
    exists q'. now split.
  - unfold _play_playlist. cbv zeta.
    destruct (is_nil (get_playlist_tracks pid)) eqn:Hnil; [now exists q|].
    set (q1 := shuffle_if_on track shuffle
                 (with_queue track (get_playlist_tracks pid) (_playlist_pos track q)
                    (Some pid) q)).
    destruct (shuffle_if_on_queue
                (with_queue track (get_playlist_tracks pid) (_playlist_pos track q)
                   (Some pid) q)) as (Hperm & _).
    fold q1 in Hperm. cbn [with_queue _playlist_queue] in Hperm.
    apply permutation_len in Hperm. apply nonempty_len in Hnil.
    destruct (load_current_at (_playlist_queue track q1) 0
                (_current_playlist_id track q1) q1 ltac:(lia))
      as (q' & Hload & _ & _ & _ & _ & Hin' & Hplays' & _).
    exists q'. now split.
  - unfold _next_track.
    destruct (is_nil (_playlist_queue track q)) eqn:Hnil; [now exists q|].
    apply nonempty_len in Hnil.
    assert (Hpos : 0 <= _playlist_pos track q < len (_playlist_queue track q)).
    { destruct Hin as [[Hq _]|Hpos]; [|exact Hpos]. rewrite Hq in Hnil.
      unfold len in Hnil. cbn in Hnil. lia. }
    destruct (_playlist_pos track q <? len (_playlist_queue track q) - 1) eqn:Hlast.
    + apply Z.ltb_lt in Hlast.
      destruct (load_current_at (_playlist_queue track q) (_playlist_pos track q + 1)
                  (_current_playlist_id track q) q ltac:(lia))
        as (q' & Hload & _ & _ & _ & _ & Hin' & Hplays' & _).
      exists q'. now split.
    + destruct (str_eqb (_repeat_mode track q) (lit "playlist")); [|now exists q].
      destruct (shuffle_if_on_queue q) as (Hperm & _).
      apply permutation_len in Hperm.
      destruct (load_current_at (_playlist_queue track (shuffle_if_on track shuffle q)) 0
                  (_current_playlist_id track (shuffle_if_on track shuffle q))
                  (shuffle_if_on track shuffle q) ltac:(lia))
        as (q' & Hload & _ & _ & _ & _ & Hin' & Hplays' & _).
      exists q'. now split.
  - unfold _prev_track.
    destruct (position >? 3000); [now exists (seek_start track q)|].
    destruct (is_nil (_playlist_queue track q)) eqn:Hnil; [now exists q|].
    apply nonempty_len in Hnil.
    assert (Hpos : 0 <= _playlist_pos track q < len (_playlist_queue track q)).
    { destruct Hin as [[Hq _]|Hpos]; [|exact Hpos]. rewrite Hq in Hnil.
      unfold len in Hnil. cbn in Hnil. lia. }
    destruct (_playlist_pos track q >? 0) eqn:Hfirst.
    + rewrite Z.gtb_ltb in Hfirst. apply Z.ltb_lt in Hfirst.
      destruct (load_current_at (_playlist_queue track q) (_playlist_pos track q - 1)
                  (_current_playlist_id track q) q ltac:(lia))
        as (q' & Hload & _ & _ & _ & _ & Hin' & Hplays' & _).
      exists q'. now split.
    + destruct (str_eqb (_repeat_mode track q) (lit "playlist")); [|now exists q].
      destruct (load_current_at (_playlist_queue track q)
                  (len (_playlist_queue track q) - 1)
                  (_current_playlist_id track q) q ltac:(lia))
        as (q' & Hload & _ & _ & _ & _ & Hin' & Hplays' & _).
      exists q'. now split.
  - unfold _on_media_ended.
    destruct (str_eqb (_repeat_mode track q) (lit "one"));
      [now exists (seek_start track q)|].
    destruct (is_nil (_playlist_queue track q)) eqn:Hnil; cbn [negb]; [now exists q|].
    unfold _next_track. rewrite Hnil.
    apply nonempty_len in Hnil.
    assert (Hpos : 0 <= _playlist_pos track q < len (_playlist_queue track q)).
    { destruct Hin as [[Hq _]|Hpos]; [|exact Hpos]. rewrite Hq in Hnil.
      unfold len in Hnil. cbn in Hnil. lia. }
    destruct (_playlist_pos track q <? len (_playlist_queue track q) - 1) eqn:Hlast.
    + apply Z.ltb_lt in Hlast.
      destruct (load_current_at (_playlist_queue track q) (_playlist_pos track q + 1)
                  (_current_playlist_id track q) q ltac:(lia))
        as (q' & Hload & _ & _ & _ & _ & Hin' & Hplays' & _).
      exists q'. now split.
    + destruct (str_eqb (_repeat_mode track q) (lit "playlist")); [|now exists q].
      destruct (shuffle_if_on_queue q) as (Hperm & _).
      apply permutation_len in Hperm.
      destruct (load_current_at (_playlist_queue track (shuffle_if_on track shuffle q)) 0
                  (_current_playlist_id track (shuffle_if_on track shuffle q))
                  (shuffle_if_on track shuffle q) ltac:(lia))
        as (q' & Hload & _ & _ & _ & _ & Hin' & Hplays' & _).
      exists q'. now split.
  - now exists (_on_shuffle track on q).
  - now exists (_on_repeat track mode q).
Qed.

Lemma first_index_found (queue : list track) (id : Z) :
  forall k,
    match first_index track track_id k queue id with
    | Some j =>
        exists t, nth_error queue (Z.to_nat (j - k)) = Some t
                  /\ track_id t = id /\ k <= j
    | None => forall t, In t queue -> track_id t <> id
    end.
Proof.
  induction queue as [|t rest IH]; intros k; cbn [first_index].
  - intros t [].
  - destruct (track_id t =? id) eqn:Hid.
    + apply Z.eqb_eq in Hid. exists t. rewrite Z.sub_diag. now repeat split; try lia.
    + apply Z.eqb_neq in Hid. specialize (IH (k + 1)).
      destruct (first_index track track_id (k + 1) rest id) as [j|].
      * destruct IH as (t' & Hnth & Ht' & Hj). exists t'.
        replace (Z.to_nat (j - k)) with (S (Z.to_nat (j - (k + 1)))) by lia.
        split; [exact Hnth|]. split; [exact Ht'|lia].
      * intros t' [<-|Hin]; [exact Hid|now apply IH].
Qed.

End PlaylistQueue.

(** X25. The playlist position always points into the queue. Through any
    sequence of plays, skips, ends of media and changes of shuffle and
    repeat, with [random.shuffle] permuting the queue, no indexing of the
    queue raises; the position is -1 with an empty queue or an index of the
    queue, and while there is a queue the track handed to [_load_and_play]
    last is the one at the position. *)
Theorem playlist_position_in_queue (track : Type) (track_id : track -> Z)
    (get_track : Z -> option track) (get_playlist_tracks : Z -> list track)
    (shuffle : nat -> list track -> list track)
    (shuffle_permutes : forall n l, Permutation (shuffle n l) l)
    (calls : list Playlist.Call) :
  exists q,
    fold_left (Playlist.run_call track track_id get_track get_playlist_tracks shuffle)
      calls (Some (Playlist.init track)) = Some q
    /\ Playlist.in_queue track q
    /\ Playlist.plays_current track q.
Proof.
  assert (H : forall q0,
             Playlist.in_queue track q0 -> Playlist.plays_current track q0 ->
             exists q,
               fold_left
                 (Playlist.run_call track track_id get_track get_playlist_tracks shuffle)
                 calls (Some q0) = Some q
               /\ Playlist.in_queue track q /\ Playlist.plays_current track q).
  { induction calls as [|call rest IH]; intros q0 Hin Hplays; cbn [fold_left].
    - now exists q0.
    - destruct (run_call_in_queue track track_id get_track get_playlist_tracks shuffle
                  shuffle_permutes q0 call Hin Hplays) as (q1 & -> & Hin1 & Hplays1).
      now apply IH. }
  apply H; now left.
Qed.

Lemma playlist_position_in_queue_witness :
  exists q,
    fold_left
      (Playlist.run_call Z (fun t => t) (fun id => Some id) (fun _ => [10; 20; 30])
         (fun _ l => rev l))
      [Playlist.shuffle_call true; Playlist.play_in_playlist_call 1 20;
       Playlist.next_call; Playlist.next_call;
       Playlist.repeat_call (lit "playlist"); Playlist.next_call;
       Playlist.prev_call 0]
      (Some (Playlist.init Z)) = Some q
    /\ Playlist.in_queue Z q
    /\ Playlist.plays_current Z q.
Proof.
  apply (playlist_position_in_queue Z (fun t => t) (fun id => Some id)
           (fun _ => [10; 20; 30]) (fun _ l => rev l)).
  intros n l. apply Permutation_sym, Permutation_rev.
Defined.

(** X26. [_play_track_in_playlist] plays the track asked for. With a
    playlist that is not empty it never raises: the queue becomes the
    playlist, shuffled or not, and the track loaded is one of the playlist;
    it carries the requested id whenever a track of the playlist does, and
    it is the head of the queue when none does. With shuffle off the queue
    is the playlist itself. *)
Theorem play_track_in_playlist_finds (track : Type) (track_id : track -> Z)
    (get_playlist_tracks : Z -> list track)
    (shuffle : nat -> list track -> list track)
    (shuffle_permutes : forall n l, Permutation (shuffle n l) l)
    (playlist_id id : Z) (q : Playlist.Queue track)
    (Htracks : get_playlist_tracks playlist_id <> []) :
  exists q' t,
    Playlist._play_track_in_playlist track track_id get_playlist_tracks shuffle
      playlist_id id q = Some q'
    /\ Playlist.loaded track q' = Playlist.loaded track q ++ [t]
    /\ Permutation (Playlist._playlist_queue track q') (get_playlist_tracks playlist_id)
    /\ In t (get_playlist_tracks playlist_id)
    /\ ((exists t0, In t0 (get_playlist_tracks playlist_id) /\ track_id t0 = id) ->
        track_id t = id)
    /\ ((forall t0, In t0 (get_playlist_tracks playlist_id) -> track_id t0 <> id) ->
        item (Playlist._playlist_queue track q') 0 = Some t)
    /\ (Playlist._shuffle_on track q = false ->
        Playlist._playlist_queue track q' = get_playlist_tracks playlist_id).
Proof.
  unfold Playlist._play_track_in_playlist. cbv zeta.
  destruct (is_nil (get_playlist_tracks playlist_id)) eqn:Hnil.
  { destruct (get_playlist_tracks playlist_id); [congruence|discriminate]. }
  set (q1 := Playlist.shuffle_if_on track shuffle
               (Playlist.with_queue track (get_playlist_tracks playlist_id)
                  (Playlist._playlist_pos track q) (Some playlist_id) q)).
  destruct (shuffle_if_on_queue track shuffle shuffle_permutes
              (Playlist.with_queue track (get_playlist_tracks playlist_id)
                 (Playlist._playlist_pos track q) (Some playlist_id) q))
    as (Hperm & _ & _ & _ & Hloaded).
  fold q1 in Hperm, Hloaded.
  cbn [Playlist.with_queue Playlist._playlist_queue Playlist.loaded] in Hperm, Hloaded.
  assert (Hplain : Playlist._shuffle_on track q = false ->
                   Playlist._playlist_queue track q1 = get_playlist_tracks playlist_id).
  { intros Hoff. unfold q1, Playlist.shuffle_if_on.
    cbn [Playlist.with_queue Playlist._shuffle_on]. now rewrite Hoff. }
  pose proof (permutation_len track _ _ Hperm) as Hlen.
  apply nonempty_len in Hnil.
  pose proof (first_index_found track track_id (Playlist._playlist_queue track q1) id 0)
    as Hfound.
  destruct (Playlist.first_index track track_id 0 (Playlist._playlist_queue track q1) id)
    as [j|].
  - destruct Hfound as (t0 & Hnth & Hid & Hj). rewrite Z.sub_0_r in Hnth.
    assert (Hpos : 0 <= j < len (Playlist._playlist_queue track q1)).
    { split; [exact Hj|]. unfold len.
      assert (Z.to_nat j < length (Playlist._playlist_queue track q1))%nat
        by (apply nth_error_Some; congruence).
      lia. }
    destruct (load_current_at track (Playlist._playlist_queue track q1) j
                (Playlist._current_playlist_id track q1) q1 Hpos)
      as (q' & Hload & Hqueue & _ & _ & _ & _ & _ & t & Hitem & Hl).
    assert (Ht : t = t0).
    { replace j with (Z.of_nat (Z.to_nat j)) in Hitem by lia.
      rewrite item_nat in Hitem. congruence. }
    subst t0.
    exists q', t. split; [exact Hload|]. split; [now rewrite Hl, Hloaded|].
    split; [now rewrite Hqueue|].
    split; [apply (Permutation_in _ Hperm); eapply nth_error_In; exact Hnth|].
    split; [intros _; exact Hid|].
    split; [|intros Hoff; rewrite Hqueue; now apply Hplain].
    intros Hnone. exfalso. apply (Hnone t); [|exact Hid].
    apply (Permutation_in _ Hperm). eapply nth_error_In; exact Hnth.
  - destruct (load_current_at track (Playlist._playlist_queue track q1) 0
                (Playlist._current_playlist_id track q1) q1 ltac:(lia))
      as (q' & Hload & Hqueue & _ & _ & _ & _ & _ & t & Hitem & Hl).
    exists q', t. split; [exact Hload|]. split; [now rewrite Hl, Hloaded|].
    split; [now rewrite Hqueue|].
    assert (Hin : In t (Playlist._playlist_queue track q1)).
    { change 0 with (Z.of_nat 0) in Hitem. rewrite item_nat in Hitem.
      eapply nth_error_In; exact Hitem. }
    split; [apply (Permutation_in _ Hperm); exact Hin|].
    split;
      [|split; [intros _; now rewrite Hqueue
               |intros Hoff; rewrite Hqueue; now apply Hplain]].
    intros (t0 & Ht0 & Hid). exfalso. apply (Hfound t0); [|exact Hid].
    apply (Permutation_in _ (Permutation_sym Hperm)). exact Ht0.
Qed.

Lemma play_track_in_playlist_finds_witness :
  exists q' t,
    Playlist._play_track_in_playlist Z (fun t => t) (fun _ => [10; 20; 30])
      (fun _ l => rev l) 1 20
      (Playlist._on_shuffle Z true (Playlist.init Z)) = Some q'
    /\ Playlist.loaded Z q' = [t]
    /\ Permutation (Playlist._playlist_queue Z q') [10; 20; 30]
    /\ In t [10; 20; 30]
    /\ t = 20.
Proof.
  assert (Hperm : forall (n : nat) (l : list Z), Permutation (rev l) l).
  { intros n l. apply Permutation_sym, Permutation_rev. }
  destruct (play_track_in_playlist_finds Z (fun t => t) (fun _ => [10; 20; 30])
              (fun _ l => rev l) Hperm 1 20
              (Playlist._on_shuffle Z true (Playlist.init Z)) ltac:(discriminate))
    as (q' & t & Hplay & Hloaded & Hqueue & Hin & Hfound & _).
  exists q', t. split; [exact Hplay|]. split; [exact Hloaded|].
  split; [exact Hqueue|]. split; [exact Hin|].
  apply Hfound. exists 20. split; [right; now left|reflexivity].
Defined.

(** ** The clock of the controls *)

Section Clock.

Import Controls.

Lemma int_of_digits_app (a b : str) :
  int_of_digits (a ++ b)
  = fold_left (fun acc c => acc * 10 + digit_val c) b (int_of_digits a).
Proof.
  unfold int_of_digits. apply fold_left_app.
Qed.

(** The digits [digits_fuel] writes in front of [acc], given fuel for
    them, and their value. *)
Lemma digits_fuel_value :
  forall fuel n acc,
    0 <= n < 10 ^ (Z.of_nat fuel + 1) ->
    exists ds,
      digits_fuel fuel n acc = ds ++ acc
      /\ ds <> []
      /\ Forall (fun c => is_digit c = true) ds
      /\ forall v,
           fold_left (fun a c => a * 10 + digit_val c) ds v
           = v * 10 ^ Z.of_nat (length ds) + n.
Proof.
  induction fuel as [|f IH]; intros n acc Hn.
  - change (10 ^ (Z.of_nat 0 + 1)) with 10 in Hn.
    destruct (digit_char_facts n ltac:(lia)) as [Hd Hv].
    exists [digit_char n]. cbn [digits_fuel].
    rewrite Z.mod_small by lia.
    split; [reflexivity|]. split; [discriminate|].
    split; [now repeat constructor|].
    intros v. cbn [fold_left length]. rewrite Hv. change (10 ^ Z.of_nat 1) with 10. lia.
  - cbn [digits_fuel]. cbv zeta.
    destruct (n <? 10) eqn:Hsmall.
    + apply Z.ltb_lt in Hsmall.
      destruct (digit_char_facts n ltac:(lia)) as [Hd Hv].
      exists [digit_char n]. rewrite Z.mod_small by lia.
      split; [reflexivity|]. split; [discriminate|].
      split; [now repeat constructor|].
      intros v. cbn [fold_left length]. rewrite Hv.
      change (10 ^ Z.of_nat 1) with 10. lia.
    + apply Z.ltb_ge in Hsmall.
      assert (Hdiv : 0 <= n / 10 < 10 ^ (Z.of_nat f + 1)).
      { split; [apply Z.div_pos; lia|].
        apply Z.div_lt_upper_bound; [lia|].
        replace (Z.of_nat (S f) + 1) with (Z.succ (Z.of_nat f + 1)) in Hn by lia.
        rewrite Z.pow_succ_r in Hn by lia. lia. }
      destruct (IH (n / 10) (digit_char (n mod 10) :: acc) Hdiv)
        as (ds & Hds & Hne & Hall & Hval).
      destruct (digit_char_facts (n mod 10)) as [Hd Hv].
      { pose proof (Z.mod_pos_bound n 10). lia. }
      exists (ds ++ [digit_char (n mod 10)]).
      split; [now rewrite Hds, <- app_assoc|].
      split; [now destruct ds|].
      split; [apply Forall_app; split; [exact Hall|now repeat constructor]|].
      intros v. rewrite fold_left_app, Hval. cbn [fold_left].
      rewrite Hv, length_app. cbn [length].
      replace (Z.of_nat (length ds + 1)) with (Z.succ (Z.of_nat (length ds))) by lia.
      rewrite Z.pow_succ_r by lia.
      pose proof (Z.div_mod n 10). lia.
Qed.

(** [str(n)] for [n >= 0]: decimal digits that read back as [n]. *)
Lemma str_of_int_digits (n : Z) :
  0 <= n ->
  str_of_int n <> []
  /\ Forall (fun c => is_digit c = true) (str_of_int n)
  /\ int_of_digits (str_of_int n) = n.
Proof.
  intros Hn. unfold str_of_int. cbv zeta.
  replace (n <? 0) with false by (symmetry; apply Z.ltb_ge; lia).
  assert (Hfuel : 0 <= n < 10 ^ (Z.of_nat (Z.to_nat (Z.log2 n)) + 1)).
  { split; [exact Hn|].
    pose proof (Z.log2_nonneg n) as Hlog. rewrite Z2Nat.id by exact Hlog.
    destruct (Z.eq_dec n 0) as [->|Hpos]; [reflexivity|].
    destruct (Z.log2_spec n ltac:(lia)) as [_ Hlt].
    apply Z.lt_le_trans with (m := 2 ^ Z.succ (Z.log2 n)); [exact Hlt|].
    apply Z.pow_le_mono_l. lia. }
  destruct (digits_fuel_value _ n [] Hfuel) as (ds & Hds & Hne & Hall & Hval).
  rewrite Hds, app_nil_r. split; [exact Hne|]. split; [exact Hall|].
  unfold int_of_digits. rewrite Hval. lia.
Qed.

Lemma digits_without (sep : ascii) (ds : str) :
  is_digit sep = false -> Forall (fun c => is_digit c = true) ds -> ~ In sep ds.
Proof.
  intros Hsep Hall Hin. rewrite Forall_forall in Hall.
  apply Hall in Hin. congruence.
Qed.

Lemma pad2_digits (n : Z) :
  0 <= n < 100 ->
  length (pad2 n) = 2%nat
  /\ Forall (fun c => is_digit c = true) (pad2 n)
  /\ int_of_digits (pad2 n) = n.
Proof.
  intros Hn. unfold pad2. cbv zeta.
  assert (Hfuel : 0 <= n < 10 ^ (Z.of_nat 1 + 1)) by (change (10 ^ (Z.of_nat 1 + 1)) with 100; lia).
  destruct (str_of_int_digits n ltac:(lia)) as (Hne & Hall & Hval).
  destruct (Z_lt_ge_dec n 10) as [Hsmall|Hbig].
  - assert (E : str_of_int n = [digit_char n]).
    { unfold str_of_int. cbv zeta.
      replace (n <? 0) with false by (symmetry; apply Z.ltb_ge; lia).
      destruct (Z.to_nat (Z.log2 n)); cbn [digits_fuel]; cbv zeta.
      - now rewrite Z.mod_small by lia.
      - replace (n <? 10) with true by (symmetry; apply Z.ltb_lt; lia).
        now rewrite Z.mod_small by lia. }
    rewrite E in *. cbn [length Nat.sub repeat app].
    split; [reflexivity|].
    split; [constructor; [reflexivity|exact Hall]|].
    unfold int_of_digits in *. cbn [fold_left] in *.
    change (digit_val "0") with 0. lia.
  - assert (E : length (str_of_int n) = 2%nat).
    { unfold str_of_int. cbv zeta.
      replace (n <? 0) with false by (symmetry; apply Z.ltb_ge; lia).
      assert (Hlog : (1 <= Z.to_nat (Z.log2 n))%nat).
      { assert (1 <= Z.log2 n); [|lia].
        apply Z.log2_le_pow2; [lia|]. cbn. lia. }
      destruct (Z.to_nat (Z.log2 n)) as [|f]; [lia|].
      cbn [digits_fuel]. cbv zeta.
      replace (n <? 10) with false by (symmetry; apply Z.ltb_ge; lia).
      assert (Hq : n / 10 < 10).
      { apply Z.div_lt_upper_bound; lia. }
      destruct f; cbn [digits_fuel]; cbv zeta; [reflexivity|].
      now replace (n / 10 <? 10) with true by (symmetry; apply Z.ltb_lt; lia). }
    rewrite E. cbn [Nat.sub repeat app].
    split; [exact E|]. split; [exact Hall|exact Hval].
Qed.

End Clock.

(** X27. The clock reads back. [_fmt] writes the minutes in decimal, a
    colon and the seconds in exactly two digits, for every argument;
    a negative time is written as [0:00]. Split at the colon, the two
    numbers give back the whole seconds of the time, and the seconds are
    below 60. *)
Theorem fmt_reads_back (ms : Z) :
  exists minutes seconds,
    Controls._fmt ms = minutes ++ lit ":" ++ seconds
    /\ split_on ":"%char (Controls._fmt ms) = [minutes; seconds]
    /\ minutes <> [] /\ length seconds = 2%nat
    /\ Forall (fun c => is_digit c = true) (minutes ++ seconds)
    /\ int_of_digits seconds < 60
    /\ int_of_digits minutes * 60 + int_of_digits seconds = Z.max ms 0 / 1000.
Proof.
  unfold Controls._fmt. cbv zeta.
  set (t := if ms <? 0 then 0 else ms).
  assert (Ht : t = Z.max ms 0).
  { subst t. destruct (ms <? 0) eqn:H; [apply Z.ltb_lt in H|apply Z.ltb_ge in H]; lia. }
  assert (Hs : 0 <= t / 1000) by (apply Z.div_pos; lia).
  destruct (str_of_int_digits (t / 1000 / 60)) as (Hne & Hall & Hval);
    [apply Z.div_pos; lia|].
  pose proof (Z.mod_pos_bound (t / 1000) 60 ltac:(lia)) as Hmod.
  destruct (pad2_digits (t / 1000 mod 60) ltac:(lia)) as (Hlen & Hall2 & Hval2).
  exists (str_of_int (t / 1000 / 60)), (Controls.pad2 (t / 1000 mod 60)).
  split; [reflexivity|].
  split.
  { change (lit ":" ++ Controls.pad2 (t / 1000 mod 60))
      with (":"%char :: Controls.pad2 (t / 1000 mod 60)).
    rewrite split_on_app_sep by (apply digits_without; [reflexivity|exact Hall]).
    now rewrite split_on_no_sep by (apply digits_without; [reflexivity|exact Hall2]). }
  split; [exact Hne|]. split; [exact Hlen|].
  split; [apply Forall_app; now split|].
  rewrite Hval, Hval2, <- Ht. split; [lia|].
  pose proof (Z.div_mod (t / 1000) 60). lia.
Qed.

(** ** The configuration *)

Section Merge.

Import Config.

Lemma str_eqb_refl (a : str) : str_eqb a a = true.
Proof.
  now apply str_eqb_true.
Qed.

Lemma str_eqb_false (a b : str) : str_eqb a b = false <-> a <> b.
Proof.
  rewrite <- str_eqb_true. destruct (str_eqb a b); split; congruence.
Qed.

Lemma dict_get_set_same (k : str) (v : value) (d : list (str * value)) :
  dict_get k (dict_set k v d) = Some v.
Proof.
  induction d as [|[k' v'] rest IH]; cbn [dict_set dict_get].
  - now rewrite str_eqb_refl.
  - destruct (str_eqb k' k) eqn:E; cbn [dict_get]; rewrite E; [reflexivity|exact IH].
Qed.

Lemma dict_get_set_other (k k0 : str) (v : value) (d : list (str * value)) :
  k0 <> k -> dict_get k (dict_set k0 v d) = dict_get k d.
Proof.
  intros Hne. induction d as [|[k' v'] rest IH]; cbn [dict_set dict_get].
  - apply str_eqb_false in Hne. now rewrite Hne.
  - destruct (str_eqb k' k0) eqn:E; cbn [dict_get].
    + apply str_eqb_true in E. subst k'.
      apply str_eqb_false in Hne. now rewrite Hne.
    + now rewrite IH.
Qed.

Lemma dict_get_none (k : str) (d : list (str * value)) :
  dict_get k d = None <-> ~ In k (keys d).
Proof.
  unfold keys. induction d as [|[k' v'] rest IH]; cbn [dict_get map fst In].
  - tauto.
  - destruct (str_eqb k' k) eqn:E.
    + apply str_eqb_true in E. split; [discriminate|]. intros H. exfalso. apply H. now left.
    + apply str_eqb_false in E. rewrite IH. tauto.
Qed.

Lemma keys_dict_set (k : str) (v : value) (d : list (str * value)) :
  keys (dict_set k v d)
  = match dict_get k d with
    | Some _ => keys d
    | None => keys d ++ [k]
    end.
Proof.
  unfold keys. induction d as [|[k' v'] rest IH]; cbn [dict_set dict_get map fst app].
  - reflexivity.
  - destruct (str_eqb k' k) eqn:E; cbn [map fst]; [reflexivity|].
    rewrite IH. now destruct (dict_get k rest).
Qed.

(** The loop inside [merge_value] is the loop of [_deep_merge]. *)
Lemma merge_value_dicts (result items : list (str * value)) :
  merge_value (Some (Dict result)) (Dict items) = Dict (_deep_merge result items).
Proof.
  cbn [merge_value]. f_equal. unfold _deep_merge.
  revert result. induction items as [|[k v] rest IH]; intros result; [reflexivity|].
  cbn [fold_left fst snd]. apply IH.
Qed.

Lemma deep_merge_get (overrides : list (str * value)) :
  NoDup (keys overrides) ->
  forall result k,
    dict_get k (_deep_merge result overrides)
    = match dict_get k overrides with
      | Some v => Some (merge_value (dict_get k result) v)
      | None => dict_get k result
      end.
Proof.
  unfold _deep_merge, keys.
  induction overrides as [|[k0 v0] rest IH]; intros Hnodup result k;
    cbn [fold_left fst snd dict_get map]; [reflexivity|].
  cbn [map fst] in Hnodup. apply NoDup_cons_iff in Hnodup. destruct Hnodup as [Hfresh Hrest].
  rewrite IH by exact Hrest.
  destruct (str_eqb k0 k) eqn:E.
  - apply str_eqb_true in E. subst k0.
    apply dict_get_none in Hfresh. rewrite Hfresh.
    apply dict_get_set_same.
  - apply str_eqb_false in E.
    now rewrite (dict_get_set_other k k0) by exact E.
Qed.

Lemma deep_merge_keys (overrides : list (str * value)) :
  forall result,
    incl (keys result) (keys (_deep_merge result overrides))
    /\ (NoDup (keys result) -> NoDup (keys (_deep_merge result overrides)))
    /\ (forall k, In k (keys (_deep_merge result overrides)) ->
                  In k (keys result) \/ In k (keys overrides)).
Proof.
  unfold _deep_merge.
  induction overrides as [|[k0 v0] rest IH]; intros result; cbn [fold_left fst snd].
  - split; [apply incl_refl|]. split; [auto|]. intros k Hk. now left.
  - set (r1 := dict_set k0 (merge_value (dict_get k0 result) v0) result).
    destruct (IH r1) as (Hincl & Hnodup & Hfrom).
    assert (Hkeys : keys r1 = match dict_get k0 result with
                              | Some _ => keys result
                              | None => keys result ++ [k0]
                              end) by apply keys_dict_set.
    split; [|split].
    + intros k Hk. apply Hincl. rewrite Hkeys.
      destruct (dict_get k0 result); [exact Hk|apply in_or_app; now left].
    + intros Hn. apply Hnodup. rewrite Hkeys.
      destruct (dict_get k0 result) eqn:Hget; [exact Hn|].
      apply dict_get_none in Hget.
      apply NoDup_app; [exact Hn|repeat constructor; intros []|].
      intros k Hk [<-|[]]. contradiction.
    + intros k Hk. destruct (Hfrom k Hk) as [H1|H2].
      * rewrite Hkeys in H1. destruct (dict_get k0 result); [now left|].
        apply in_app_or in H1. destruct H1 as [H1|[<-|[]]]; [now left|].
        right. now left.
      * right. now right.
Qed.

End Merge.

(** X29. [_deep_merge] fills in the defaults and lets the overrides win.
    With the keys of the overrides distinct, as those of a dict are: every
    key of the defaults is a key of the result, and every key of the
    result comes from one of the two; under a key the overrides do not
    have, the result holds the default; under a key they have, it holds
    their value, or, where both values are dicts, the merge of the two.
    Merging no overrides changes nothing. *)
Theorem deep_merge_fills_defaults (defaults overrides : list (str * Config.value))
    (Hdefaults : NoDup (keys defaults)) (Hoverrides : NoDup (keys overrides)) :
  let result := Config._deep_merge defaults overrides in
  incl (keys defaults) (keys result)
  /\ NoDup (keys result)
  /\ (forall k, In k (keys result) -> In k (keys defaults) \/ In k (keys overrides))
  /\ (forall k,
         Config.dict_get k result
         = match Config.dict_get k overrides with
           | None => Config.dict_get k defaults
           | Some (Config.Dict items) =>
               match Config.dict_get k defaults with
               | Some (Config.Dict old) => Some (Config.Dict (Config._deep_merge old items))
               | _ => Some (Config.Dict items)
               end
           | Some v => Some v
           end)
  /\ Config._deep_merge defaults [] = defaults.
Proof.
  intros result. subst result.
  destruct (deep_merge_keys overrides defaults) as (Hincl & Hnodup & Hfrom).
  split; [exact Hincl|]. split; [now apply Hnodup|]. split; [exact Hfrom|].
  split; [|reflexivity].
  intros k. rewrite (deep_merge_get overrides Hoverrides).
  destruct (Config.dict_get k overrides) as [[a|elements|items]|];
    [reflexivity|reflexivity| |reflexivity].
  destruct (Config.dict_get k defaults) as [[a|elements|old]|];
    [reflexivity|reflexivity| |reflexivity].
  now rewrite merge_value_dicts.
Qed.

Lemma deep_merge_fills_defaults_witness :
  let overrides :=
    [(lit "volume", Config.Scalar (Config.number 1));
     (lit "hotkeys",
      Config.Dict [(lit "play_pause", Config.Scalar (Config.text (lit "P")))]);
     (lit "theme", Config.Scalar (Config.text (lit "dark")))] in
  let result := Config._deep_merge Config.DEFAULT_CONFIG overrides in
  incl (keys Config.DEFAULT_CONFIG) (keys result)
  /\ Config.dict_get (lit "volume") result = Some (Config.Scalar (Config.number 1))
  /\ Config.dict_get (lit "baud_rate") result
     = Some (Config.Scalar (Config.number 115200)).
Proof.
  intros overrides result.
  assert (Hd : NoDup (keys Config.DEFAULT_CONFIG)).
  { cbn. repeat (constructor; [intros H; repeat (destruct H as [H|H]; [discriminate H|]);
                               exact H|]). constructor. }
  assert (Ho : NoDup (keys overrides)).
  { cbn. repeat (constructor; [intros H; repeat (destruct H as [H|H]; [discriminate H|]);
                               exact H|]). constructor. }
  destruct (deep_merge_fills_defaults Config.DEFAULT_CONFIG overrides Hd Ho)
    as (Hincl & _ & _ & Hget & _).
  split; [exact Hincl|]. split; [now rewrite Hget|now rewrite Hget].
Defined.

(** X30. The display mode of a configuration file is taken as it is.
    [load] gives the defaults when there is no file, when opening or
    reading it raises [OSError] and when its text is no JSON; it gives a
    configuration with every default key when the file holds a dict; it
    raises when the reading raises another exception, as it does for bytes
    that are no UTF-8, and when the parsed value is not a dict. The setter
    of [display_mode] stores [lyrics] or [equalizer] only; the getter
    returns what the file holds. A file with the mode [EQ] therefore
    reaches [_load_and_play] unchanged: the device is sent [MODE|LYR] and
    the simulator shows the equalizer. *)
Theorem config_display_mode_unchecked :
  (forall file,
      match Config.load file with
      | inr data =>
          incl (keys Config.DEFAULT_CONFIG) (keys data)
          /\ ((exists items, file = Config.parsed (Config.Dict items))
              \/ ((file = Config.absent \/ file = Config.os_error
                   \/ file = Config.json_decode_error)
                  /\ data = Config.DEFAULT_CONFIG))
      | inl Config.from_reading => file = Config.other_exception
      | inl Config.attribute_error =>
          exists v, file = Config.parsed v /\ forall items, v <> Config.Dict items
      end)
  /\ (forall mode data,
         Config.display_mode (Config.set_display_mode mode data)
         = Config.Scalar (Config.text (lit "lyrics"))
         \/ Config.display_mode (Config.set_display_mode mode data)
            = Config.Scalar (Config.text (lit "equalizer")))
  /\ (let file :=
        Config.parsed
          (Config.Dict [(lit "display_mode", Config.Scalar (Config.text (lit "EQ")))]) in
      let serial :=
        run_calls [open_call (lit "COM3") 115200 None 0; line_call (lit "PONG") 1] in
      exists data,
        Config.load file = inr data
        /\ Config.display_mode data = Config.Scalar (Config.text (lit "EQ"))
        /\ forall meta canvas panel,
             let shown := show_track (lit "EQ") meta serial canvas panel in
             In (lit "MODE|LYR" ++ [LF]) (Connection.written (fst (fst shown)))
             /\ Oled._display_mode (snd (fst shown)) = lit "equalizer").
Proof.
  split; [|split].
  - intros [| | | |[a|elements|items]]; cbn [Config.load].
    + split; [apply deep_merge_keys|]. right. split; [auto|reflexivity].
    + split; [apply deep_merge_keys|]. right. split; [auto|reflexivity].
    + split; [apply deep_merge_keys|]. right. split; [auto|reflexivity].
    + reflexivity.
    + exists (Config.Scalar a). split; [reflexivity|discriminate].
    + exists (Config.Array elements). split; [reflexivity|discriminate].
    + split; [apply deep_merge_keys|]. left. now exists items.
  - intros mode data. unfold Config.display_mode, Config.set_display_mode. cbv zeta.
    rewrite dict_get_set_same.
    destruct (str_eqb mode (lit "lyrics")) eqn:E1.
    { left. apply str_eqb_true in E1. now subst. }
    destruct (str_eqb mode (lit "equalizer")) eqn:E2.
    { right. apply str_eqb_true in E2. now subst. }
    now left.
  - intros file serial. eexists. split; [reflexivity|]. split; [reflexivity|].
    intros meta canvas panel shown. subst shown. unfold show_track. cbn [fst snd].
    split.
    + cbn. right. right. now left.
    + now rewrite set_mode_display_mode.
Qed.
